(** * DOF restriction layer of the finite-element assembly engine

    A shallow embedding of [fem/backup/restriction_now.cpp]: the element
    restriction (counting-sort construction, scatter, gather-transpose,
    sparse-pattern counting), the continuous and discontinuous face
    restrictions and the face-dof permutation functions.

    Conventions of the embedding.
    - A C++ [int] is a [Z]; signed overflow is undefined in the source, so
      the model covers the executions that stay in range.  Division and
      remainder are the truncating [Z.quot] and [Z.rem] of C++.
    - An [Array<int>] or [Vector] is a [list]; every access is checked and
      an access outside the array makes the operation fail ([None]), as
      does a call to [mfem_error] or a failed [MFEM_VERIFY].
    - A [double] is an element of an arbitrary type carrying the three
      operations the kernels use (zero, addition, negation); no law is
      assumed about them.
    - [MFEM_FORALL] and [for] loops are folds over the list of their
      iterations, in increasing order of the loop variable. *)

From Stdlib Require Import ZArith List Lia Bool Permutation.
Import ListNotations.
Open Scope Z_scope.

(** ** Error monad *)

Definition obind {A B : Type} (c : option A) (k : A -> option B) : option B :=
  match c with
  | Some a => k a
  | None => None
  end.

Notation "x <- c1 ;; c2" := (obind c1 (fun x => c2))
  (at level 61, c1 at next level, right associativity).

Notation "' pat <- c1 ;; c2" := (obind c1 (fun x => match x with pat => c2 end))
  (at level 61, pat pattern, c1 at next level, right associativity).

(** [MFEM_VERIFY(b, ...)]: continue when [b] holds, abort otherwise. *)
Definition verify (b : bool) : option unit := if b then Some tt else None.

(** ** Scalars *)

Class Scalar (V : Type) : Type := {
  szero : V;
  sadd : V -> V -> V;
  sneg : V -> V
}.

#[export] Instance Z_Scalar : Scalar Z := {|
  szero := 0;
  sadd := Z.add;
  sneg := Z.opp
|}.

(** ** Arrays with checked accesses *)

Definition zlen {A : Type} (a : list A) : Z := Z.of_nat (length a).

Definition rd {A : Type} (a : list A) (i : Z) : option A :=
  if i <? 0 then None else nth_error a (Z.to_nat i).

Fixpoint upd {A : Type} (n : nat) (v : A) (a : list A) : list A :=
  match a, n with
  | [], _ => []
  | _ :: t, O => v :: t
  | h :: t, S n' => h :: upd n' v t
  end.

Definition wr {A : Type} (a : list A) (i : Z) (v : A) : option (list A) :=
  if (0 <=? i) && (i <? zlen a) then Some (upd (Z.to_nat i) v a) else None.

(** An array of [n] entries all holding [v]; a non-positive size gives the
    empty array. *)
Definition alloc {A : Type} (n : Z) (v : A) : list A := repeat v (Z.to_nat n).

(** ** Loops *)

Fixpoint foldM {A S : Type} (body : A -> S -> option S) (l : list A) (s : S)
  : option S :=
  match l with
  | [] => Some s
  | a :: t => s' <- body a s ;; foldM body t s'
  end.

(** The values [lo, lo+1, ..., lo+n-1]. *)
Fixpoint zrange (lo : Z) (n : nat) : list Z :=
  match n with
  | O => []
  | S n' => lo :: zrange (lo + 1) n'
  end.

Definition zseq (n : Z) : list Z := zrange 0 (Z.to_nat n).

(** [Array<int> a(n)] allocates [n] entries and writes none of them: they hold
    whatever the memory held.  [uninit content n] is such an array, entry [i]
    being [content i]; nothing is assumed about [content]. *)
Definition uninit (content : Z -> Z) (n : Z) : list Z := map content (zseq n).

(** [for (int i = lo; i < hi; ++i) body] *)
Definition forZ {S : Type} (lo hi : Z) (body : Z -> S -> option S) (s : S)
  : option S :=
  foldM body (zrange lo (Z.to_nat (hi - lo))) s.

(** [for (int i = hi; i > lo; --i) body] *)
Definition forZ_down {S : Type} (hi lo : Z) (body : Z -> S -> option S) (s : S)
  : option S :=
  foldM body (rev (zrange (lo + 1) (Z.to_nat (hi - lo)))) s.

(** ** Reshape views

    [Reshape(p, n0, n1, ...)] views a flat buffer as a tensor whose first
    index runs fastest. *)

Definition ix2 (n0 i0 i1 : Z) : Z := i0 + n0 * i1.
Definition ix3 (n0 n1 i0 i1 i2 : Z) : Z := i0 + n0 * (i1 + n1 * i2).
Definition ix4 (n0 n1 n2 i0 i1 i2 i3 : Z) : Z :=
  i0 + n0 * (i1 + n1 * (i2 + n2 * i3)).

(** The signed encoding of an index: a negative [s] stands for [-1-s] taken
    with the opposite sign. *)
Definition decode (s : Z) : Z := if s >=? 0 then s else -1 - s.

(** ** Face-dof permutations *)

Definition ToLexOrdering2D (face_id size1d i : Z) : Z :=
  if (face_id =? 2) || (face_id =? 3) then size1d - 1 - i else i.

Definition PermuteFace2D (face_id1 face_id2 orientation size1d index : Z) : Z :=
  let new_index :=
    if (face_id1 =? 2) || (face_id1 =? 3) then size1d - 1 - index else index in
  let new_index :=
    if orientation =? 1 then size1d - 1 - new_index else new_index in
  ToLexOrdering2D face_id2 size1d new_index.

Definition PermuteDFaceDNorm2D (face_id1 face_id2 orientation size1d index : Z)
  : Z :=
  let new_index :=
    if (face_id1 =? 2) || (face_id1 =? 3) then size1d - 1 - index else index in
  let new_index :=
    if orientation =? 1 then size1d - 1 - new_index else new_index in
  ToLexOrdering2D face_id2 size1d new_index.

Definition ToLexOrdering3D (face_id size1d i j : Z) : Z :=
  if (face_id =? 2) || (face_id =? 1) || (face_id =? 5) then i + j * size1d
  else if (face_id =? 3) || (face_id =? 4) then (size1d - 1 - i) + j * size1d
  else i + (size1d - 1 - j) * size1d.

(** The conversion out of the lexicographic order of side 1. *)
Definition FromLex3D (face_id1 size1d : Z) (ij : Z * Z) : Z * Z :=
  let '(i, j) := ij in
  if (face_id1 =? 3) || (face_id1 =? 4) then (size1d - 1 - i, j)
  else if face_id1 =? 0 then (i, size1d - 1 - j)
  else (i, j).

(** The [switch (orientation)]; [new_i] and [new_j] keep their initial value
    0 when no case matches. *)
Definition Orient3D (orientation size1d : Z) (ij : Z * Z) : Z * Z :=
  let '(i, j) := ij in
  match orientation with
  | 0 => (i, j)
  | 1 => (j, i)
  | 2 => (j, size1d - 1 - i)
  | 3 => (size1d - 1 - i, j)
  | 4 => (size1d - 1 - i, size1d - 1 - j)
  | 5 => (size1d - 1 - j, size1d - 1 - i)
  | 6 => (size1d - 1 - j, i)
  | 7 => (i, size1d - 1 - j)
  | _ => (0, 0)
  end.

Definition PermuteFace3D (face_id1 face_id2 orientation size1d index : Z) : Z :=
  let i := Z.rem index size1d in
  let j := Z.quot index size1d in
  let '(i, j) := FromLex3D face_id1 size1d (i, j) in
  let '(new_i, new_j) := Orient3D orientation size1d (i, j) in
  ToLexOrdering3D face_id2 size1d new_i new_j.

(** [mfem_error("Unsupported dimension.")] aborts: [None]. *)
Definition PermuteFaceL2 (dim face_id1 face_id2 orientation size1d index : Z)
  : option Z :=
  match dim with
  | 1 => Some 0
  | 2 => Some (PermuteFace2D face_id1 face_id2 orientation size1d index)
  | 3 => Some (PermuteFace3D face_id1 face_id2 orientation size1d index)
  | _ => None
  end.

Definition PermuteDFaceDNormL2 (dim face_id1 face_id2 orientation size1d index : Z)
  : option Z :=
  match dim with
  | 1 => Some 0
  | 2 => Some (PermuteDFaceDNorm2D face_id1 face_id2 orientation size1d index)
  | _ => None
  end.

(** ** The finite element space, as the restrictions read it

    The mesh and the finite element space are external collaborators; the
    record holds the values the constructors obtain from them. *)

Inductive ElementDofOrdering : Type := NATIVE | LEXICOGRAPHIC.

Record FiniteElementSpace : Type := {
  GetNE : Z;                        (* number of elements *)
  GetVDim : Z;                      (* number of components *)
  byVDIM : bool;                    (* GetOrdering() == Ordering::byVDIM *)
  GetNDofs : Z;                     (* number of global dofs *)
  GetDof : Z;                       (* GetFE(0)->GetDof() *)
  GetDofMap : option (list Z);      (* dof map of the tensor basis element;
                                       None when the dynamic_cast to
                                       TensorBasisElement fails *)
  GetElementToDofTable : list Z     (* GetElementToDofTable().GetJ() *)
}.

(** ** Element restriction *)

Record ElementRestriction : Type := {
  ne : Z;
  vdim : Z;
  byvdim : bool;
  ndofs : Z;
  dof : Z;
  offsets : list Z;
  indices : list Z;
  gatherMap : list Z
}.

(** The body of the counting loop, [++offsets[gid + 1]]. *)
Definition count_dof (elementMap : list Z) (dof e d : Z) (offsets : list Z)
  : option (list Z) :=
  sgid <- rd elementMap (dof * e + d) ;;
  let gid := if sgid >=? 0 then sgid else -1 - sgid in
  c <- rd offsets (gid + 1) ;;
  wr offsets (gid + 1) (c + 1).

(** The body of the filling loop. *)
Definition fill_dof (dof_reorder : bool) (dof_map elementMap : list Z)
  (dof e d : Z) (st : list Z * list Z * list Z)
  : option (list Z * list Z * list Z) :=
  let '(offsets, indices, gatherMap) := st in
  sdid <- (if dof_reorder then rd dof_map d else Some 0) ;;
  let did :=
    if negb dof_reorder then d else if sdid >=? 0 then sdid else -1 - sdid in
  sgid <- rd elementMap (dof * e + did) ;;
  let gid := if sgid >=? 0 then sgid else -1 - sgid in
  let lid := dof * e + d in
  let plus := (sgid >=? 0) && (sdid >=? 0) || (sgid <? 0) && (sdid <? 0) in
  gatherMap <- wr gatherMap lid (if plus then gid else -1 - gid) ;;
  p <- rd offsets gid ;;
  offsets <- wr offsets gid (p + 1) ;;
  indices <- wr indices p (if plus then lid else -1 - lid) ;;
  Some (offsets, indices, gatherMap).

Definition ElementRestriction_new (f : FiniteElementSpace)
  (e_ordering : ElementDofOrdering) : option ElementRestriction :=
  let ne := GetNE f in
  let ndofs := GetNDofs f in
  let dof := if ne >? 0 then GetDof f else 0 in
  let offsets := alloc (ndofs + 1) 0 in
  let indices := alloc (ne * dof) 0 in
  let gatherMap := alloc (ne * dof) 0 in
  let dof_reorder :=
    match e_ordering with LEXICOGRAPHIC => true | NATIVE => false end in
  dof_map <-
    (if dof_reorder && (ne >? 0) then
       fe_dof_map <- GetDofMap f ;;
       _ <- verify (zlen fe_dof_map >? 0) ;;
       Some fe_dof_map
     else Some []) ;;
  let elementMap := GetElementToDofTable f in
  offsets <- forZ 0 (ndofs + 1) (fun i offsets => wr offsets i 0) offsets ;;
  offsets <-
    forZ 0 ne (fun e offsets =>
      forZ 0 dof (count_dof elementMap dof e) offsets) offsets ;;
  offsets <-
    forZ 1 (ndofs + 1) (fun i offsets =>
      a <- rd offsets i ;;
      b <- rd offsets (i - 1) ;;
      wr offsets i (a + b)) offsets ;;
  '(offsets, indices, gatherMap) <-
    forZ 0 ne (fun e st =>
      forZ 0 dof (fill_dof dof_reorder dof_map elementMap dof e) st)
      (offsets, indices, gatherMap) ;;
  offsets <-
    forZ_down ndofs 0 (fun i offsets =>
      a <- rd offsets (i - 1) ;;
      wr offsets i a) offsets ;;
  offsets <- wr offsets 0 0 ;;
  Some {| ne := ne;
          vdim := GetVDim f;
          byvdim := byVDIM f;
          ndofs := ndofs;
          dof := dof;
          offsets := offsets;
          indices := indices;
          gatherMap := gatherMap |}.

Section Kernels.
Context {V : Type} `{Scalar V}.

(** [d_x(t?c:j, t?j:c)] for [d_x = Reshape(x, t?vd:ndofs, t?ndofs:vd)] *)
Definition gix (t : bool) (vd ndofs j c : Z) : Z :=
  if t then ix2 vd c j else ix2 ndofs j c.

(** [ElementRestriction::Mult]; [y] is the output buffer on entry. *)
Definition Mult (r : ElementRestriction) (x y : list V) : option (list V) :=
  let nd := dof r in
  let vd := vdim r in
  let t := byvdim r in
  forZ 0 (dof r * ne r) (fun i y =>
    gid <- rd (gatherMap r) i ;;
    let plus := gid >=? 0 in
    let j := if plus then gid else -1 - gid in
    forZ 0 vd (fun c y =>
      dofValue <- rd x (gix t vd (ndofs r) j c) ;;
      wr y (ix3 nd vd (Z.rem i nd) c (Z.quot i nd))
         (if plus then dofValue else sneg dofValue)) y) y.

(** The accumulation loop of [MultTranspose] over one bucket. *)
Definition gather_bucket (r : ElementRestriction) (x : list V) (c : Z)
  (offset nextOffset : Z) : option V :=
  let nd := dof r in
  let vd := vdim r in
  forZ offset nextOffset (fun j dofValue =>
    v <- rd (indices r) j ;;
    let idx_j := if v >=? 0 then v else -1 - v in
    xv <- rd x (ix3 nd vd (Z.rem idx_j nd) c (Z.quot idx_j nd)) ;;
    Some (sadd dofValue (if v >=? 0 then xv else sneg xv))) szero.

(** [ElementRestriction::MultTranspose] *)
Definition MultTranspose (r : ElementRestriction) (x y : list V)
  : option (list V) :=
  let vd := vdim r in
  let t := byvdim r in
  forZ 0 (ndofs r) (fun i y =>
    offset <- rd (offsets r) i ;;
    nextOffset <- rd (offsets r) (i + 1) ;;
    forZ 0 vd (fun c y =>
      dofValue <- gather_bucket r x c offset nextOffset ;;
      wr y (gix t vd (ndofs r) i c) dofValue) y) y.

End Kernels.

(** ** Sparse pattern of the element restriction *)

(** [GetMinElt<MaxNbNbr>]: the smallest element common to the first
    [nbElts] entries of [my_elts] and the first [nbrNbElts] entries of
    [nbr_elts].  The intersection buffer has [MaxNbNbr] entries. *)
Definition GetMinElt (MaxNbNbr : Z) (my_elts : list Z) (nbElts : Z)
  (nbr_elts : list Z) (nbrNbElts : Z) : option Z :=
  let inter := alloc MaxNbNbr 0 in
  '(inter, cpt) <-
    forZ 0 nbElts (fun i st =>
      e_i <- rd my_elts i ;;
      forZ 0 nbrNbElts (fun j st =>
        nbr <- rd nbr_elts j ;;
        if e_i =? nbr then
          inter <- wr (fst st) (snd st) e_i ;;
          Some (inter, snd st + 1)
        else Some st) st) (inter, 0) ;;
  min <- rd inter 0 ;;
  forZ 1 cpt (fun i min =>
    v <- rd inter i ;;
    Some (if v <? min then v else min)) min.

(** [GetAndIncrementNnzIndex]: [AtomicAdd(I[i_L], 1)] returns the previous
    value.  (The row array [I] of the source is written [I_] here.) *)
Definition GetAndIncrementNnzIndex (i_L : Z) (I_ : list Z) : option (Z * list Z) :=
  ind <- rd I_ i_L ;;
  I_ <- wr I_ i_L (ind + 1) ;;
  Some (ind, I_).

(** The elements of the slots of the bucket [offset .. offset+nbElts-1],
    collected into a buffer of [MaxNbNbr] entries. *)
Definition bucket_elts (MaxNbNbr : Z) (r : ElementRestriction)
  (offset nbElts : Z) : option (list Z) :=
  forZ 0 nbElts (fun e_i elts =>
    i_E <- rd (indices r) (offset + e_i) ;;
    wr elts e_i (Z.quot i_E (dof r))) (alloc MaxNbNbr 0).

(** The body of the [j] loop of [FillI]. *)
Definition FillI_column (MaxNbNbr : Z) (r : ElementRestriction)
  (e i_L i_nbElts : Z) (i_elts : list Z) (j : Z) (I_ : list Z)
  : option (list Z) :=
  let elt_dofs := dof r in
  let j_E := e * elt_dofs + j in
  j_L <- rd (gatherMap r) j_E ;;
  j_offset <- rd (offsets r) j_L ;;
  j_nextOffset <- rd (offsets r) (j_L + 1) ;;
  let j_nbElts := j_nextOffset - j_offset in
  if (i_nbElts =? 1) || (j_nbElts =? 1) then
    '(_, I_) <- GetAndIncrementNnzIndex i_L I_ ;;
    Some I_
  else
    j_elts <- bucket_elts MaxNbNbr r j_offset j_nbElts ;;
    min_e <- GetMinElt MaxNbNbr i_elts i_nbElts j_elts j_nbElts ;;
    if e =? min_e then
      '(_, I_) <- GetAndIncrementNnzIndex i_L I_ ;;
      Some I_
    else Some I_.

(** The body of the [i] loop of [FillI]. *)
Definition FillI_row (MaxNbNbr : Z) (r : ElementRestriction) (e i : Z)
  (I_ : list Z) : option (list Z) :=
  let elt_dofs := dof r in
  let i_E := e * elt_dofs + i in
  i_L <- rd (gatherMap r) i_E ;;
  i_offset <- rd (offsets r) i_L ;;
  i_nextOffset <- rd (offsets r) (i_L + 1) ;;
  let i_nbElts := i_nextOffset - i_offset in
  i_elts <- bucket_elts MaxNbNbr r i_offset i_nbElts ;;
  forZ 0 elt_dofs (FillI_column MaxNbNbr r e i_L i_nbElts i_elts) I_.

(** [ElementRestriction::FillI] on the row array of [mat]: the number of
    nonzeros and the row array.  [MaxNbNbr] is a constant of the class
    declaration. *)
Definition FillI (MaxNbNbr : Z) (r : ElementRestriction) (I_ : list Z)
  : option (Z * list Z) :=
  let all_dofs := ndofs r in
  let vd := vdim r in
  let elt_dofs := dof r in
  I_ <- forZ 0 (vd * all_dofs + 1) (fun i_L I_ => wr I_ i_L 0) I_ ;;
  I_ <-
    forZ 0 (ne r) (fun e I_ =>
      forZ 0 elt_dofs (FillI_row MaxNbNbr r e) I_) I_ ;;
  let nTdofs := vd * all_dofs in
  '(sum, h_I) <-
    forZ 0 nTdofs (fun i st =>
      nnz <- rd (snd st) i ;;
      h_I <- wr (snd st) i (fst st) ;;
      Some (fst st + nnz, h_I)) (0, I_) ;;
  h_I <- wr h_I nTdofs sum ;;
  nnz <- rd h_I nTdofs ;;
  Some (nnz, h_I).

(** ** Faces

    What the face restrictions read from the mesh and the space. *)

Inductive FaceType : Type := Interior | Boundary.

Inductive L2FaceValues : Type := SingleValued | DoubleValued.

(** [GetFaceElements(f, &e1, &e2)] and [GetFaceInfos(f, &inf1, &inf2)]. *)
Record FaceInfo : Type := {
  e1 : Z;
  e2 : Z;
  inf1 : Z;
  inf2 : Z
}.

Record FaceSpace : Type := {
  fes : FiniteElementSpace;
  faces : list FaceInfo;            (* faces 0 .. GetNF()-1 *)
  GetNFbyType : FaceType -> Z;
  GetFaceDof : Z;                   (* dofs of the face (trace) element *)
  GetOrder : Z;                     (* GetFE(0)->GetOrder() *)
  SpaceDimension : Z;
  Conforming : bool;
  BasisSupported : bool;            (* Gauss-Lobatto or Bernstein basis *)
  FaceElementsTensor : bool;        (* every face element is a tensor basis
                                       element *)
  FaceDofMapSize : Z                (* size of the dof map of face element 0 *)
}.

(** [GetFaceDofs]: the element slots of the dofs of reference face
    [face_id], in lexicographic order, written into [faceMap].  An
    unknown dimension or face id leaves [faceMap] as it is. *)
Definition GetFaceDofs (dim face_id dof1d : Z) (faceMap : list Z)
  : option (list Z) :=
  let fill1 (h : Z -> Z) :=
    forZ 0 dof1d (fun i fm => wr fm i (h i)) faceMap in
  let fill2 (h : Z -> Z -> Z) :=
    forZ 0 dof1d (fun i fm =>
      forZ 0 dof1d (fun j fm => wr fm (i + j * dof1d) (h i j)) fm) faceMap in
  match dim with
  | 1 =>
      match face_id with
      | 0 => wr faceMap 0 0
      | 1 => wr faceMap 0 (dof1d - 1)
      | _ => Some faceMap
      end
  | 2 =>
      match face_id with
      | 0 => fill1 (fun i => i)
      | 1 => fill1 (fun i => dof1d - 1 + i * dof1d)
      | 2 => fill1 (fun i => (dof1d - 1) * dof1d + i)
      | 3 => fill1 (fun i => i * dof1d)
      | _ => Some faceMap
      end
  | 3 =>
      match face_id with
      | 0 => fill2 (fun i j => i + j * dof1d)
      | 1 => fill2 (fun i j => i + j * dof1d * dof1d)
      | 2 => fill2 (fun i j => dof1d - 1 + i * dof1d + j * dof1d * dof1d)
      | 3 => fill2 (fun i j => (dof1d - 1) * dof1d + i + j * dof1d * dof1d)
      | 4 => fill2 (fun i j => i * dof1d + j * dof1d * dof1d)
      | 5 => fill2 (fun i j => (dof1d - 1) * dof1d * dof1d + i + j * dof1d)
      | _ => Some faceMap
      end
  | _ => Some faceMap
  end.

(** The face-type test of the constructors' loops,
    [(type==Interior && (e2>=0 || (e2<0 && inf2>=0))) ||
     (type==Boundary && e2<0 && inf2<0)]. *)
Definition face_selected (type : FaceType) (fi : FaceInfo) : bool :=
  match type with
  | Interior => (e2 fi >=? 0) || ((e2 fi <? 0) && (inf2 fi >=? 0))
  | Boundary => (e2 fi <? 0) && (inf2 fi <? 0)
  end.

(** The test of the scatter loop of the discontinuous restriction,
    [(type==Interior && e2>=0) || (type==Boundary && e2<0)]. *)
Definition face_selected_L2 (type : FaceType) (fi : FaceInfo) : bool :=
  match type with
  | Interior => e2 fi >=? 0
  | Boundary => e2 fi <? 0
  end.

(** ** Continuous face restriction *)

Module H1Face.

Record t : Type := {
  nf : Z;
  vdim : Z;
  byvdim : bool;
  ndofs : Z;
  dof : Z;
  nfdofs : Z;
  scatter_indices : list Z;
  offsets : list Z;
  gather_indices : list Z
}.

(** What the arrays of the constructor hold when they are allocated, one
    content per array. *)
Record fresh : Type := {
  fresh_scatter_indices : Z -> Z;
  fresh_offsets : Z -> Z;
  fresh_gather_indices : Z -> Z;
  fresh_faceMap : Z -> Z
}.

Section Construction.
Variables (mem : fresh)
  (fs : FaceSpace) (e_ordering : ElementDofOrdering) (type : FaceType).

Definition dof_reorder : bool :=
  match e_ordering with LEXICOGRAPHIC => true | NATIVE => false end.

(** [did] and [gid] of face slot [d]: the global dof of the slot. *)
Definition face_gid (dof_map faceMap : list Z) (fi : FaceInfo) (d : Z)
  : option Z :=
  face_dof <- rd faceMap d ;;
  did <- (if negb dof_reorder then Some face_dof else rd dof_map face_dof) ;;
  rd (GetElementToDofTable (fes fs)) (e1 fi * GetDof (fes fs) + did).

Definition scatter_face (dof_map : list Z) (dof : Z) (fi : FaceInfo)
  (st : Z * list Z * list Z) : option (Z * list Z * list Z) :=
  let '(f_ind, faceMap, scatter_indices) := st in
  let orientation := Z.rem (inf1 fi) 64 in
  let face_id := Z.quot (inf1 fi) 64 in
  if face_selected type fi then
    faceMap <-
      (if dof_reorder then
         if orientation =? 0 then
           GetFaceDofs (SpaceDimension fs) face_id (GetOrder fs + 1) faceMap
         else None
       else None) ;;
    scatter_indices <-
      forZ 0 dof (fun d scatter_indices =>
        gid <- face_gid dof_map faceMap fi d ;;
        wr scatter_indices (dof * f_ind + d) gid) scatter_indices ;;
    Some (f_ind + 1, faceMap, scatter_indices)
  else Some st.

Definition count_face (dof_map : list Z) (dof : Z) (fi : FaceInfo)
  (st : Z * list Z * list Z) : option (Z * list Z * list Z) :=
  let '(f_ind, faceMap, offsets) := st in
  let face_id := Z.quot (inf1 fi) 64 in
  if face_selected type fi then
    faceMap <-
      GetFaceDofs (SpaceDimension fs) face_id (GetOrder fs + 1) faceMap ;;
    offsets <-
      forZ 0 dof (fun d offsets =>
        gid <- face_gid dof_map faceMap fi d ;;
        c <- rd offsets (gid + 1) ;;
        wr offsets (gid + 1) (c + 1)) offsets ;;
    Some (f_ind + 1, faceMap, offsets)
  else Some st.

Definition gather_face (dof_map : list Z) (dof : Z) (fi : FaceInfo)
  (st : Z * list Z * (list Z * list Z))
  : option (Z * list Z * (list Z * list Z)) :=
  let '(f_ind, faceMap, og) := st in
  let face_id := Z.quot (inf1 fi) 64 in
  if face_selected type fi then
    faceMap <-
      GetFaceDofs (SpaceDimension fs) face_id (GetOrder fs + 1) faceMap ;;
    og <-
      forZ 0 dof (fun d og =>
        gid <- face_gid dof_map faceMap fi d ;;
        let lid := dof * f_ind + d in
        p <- rd (fst og) gid ;;
        offsets <- wr (fst og) gid (p + 1) ;;
        gather_indices <- wr (snd og) p lid ;;
        Some (offsets, gather_indices)) og ;;
    Some (f_ind + 1, faceMap, og)
  else Some st.

Definition new : option t :=
  let f := fes fs in
  let nf := GetNFbyType fs type in
  let ndofs := GetNDofs f in
  let dof := if nf >? 0 then GetFaceDof fs else 0 in
  let scatter_indices := uninit (fresh_scatter_indices mem) (nf * dof) in
  let offsets := uninit (fresh_offsets mem) (ndofs + 1) in
  let gather_indices := uninit (fresh_gather_indices mem) (nf * dof) in
  let make s o g :=
    {| nf := nf; vdim := GetVDim f; byvdim := byVDIM f; ndofs := ndofs;
       dof := dof; nfdofs := nf * dof;
       scatter_indices := s; offsets := o; gather_indices := g |} in
  (* the arrays are left as allocated when there is no face *)
  if nf =? 0 then Some (make scatter_indices offsets gather_indices) else
  tensor_dof_map <- GetDofMap f ;;
  _ <- verify (BasisSupported fs) ;;
  _ <- verify (Conforming fs) ;;
  _ <-
    (if dof_reorder && (nf >? 0) then
       _ <- verify (FaceElementsTensor fs) ;;
       verify (FaceDofMapSize fs >? 0)
     else Some tt) ;;
  let dof_map := tensor_dof_map in
  let faceMap := uninit (fresh_faceMap mem) dof in
  '(f_ind, faceMap, scatter_indices) <-
    foldM (scatter_face dof_map dof) (faces fs) (0, faceMap, scatter_indices) ;;
  _ <- verify (f_ind =? nf) ;;
  offsets <- forZ 0 (ndofs + 1) (fun i offsets => wr offsets i 0) offsets ;;
  '(f_ind, faceMap, offsets) <-
    foldM (count_face dof_map dof) (faces fs) (0, faceMap, offsets) ;;
  _ <- verify (f_ind =? nf) ;;
  offsets <-
    forZ 1 (ndofs + 1) (fun i offsets =>
      a <- rd offsets i ;;
      b <- rd offsets (i - 1) ;;
      wr offsets i (a + b)) offsets ;;
  '(f_ind, faceMap, og) <-
    foldM (gather_face dof_map dof) (faces fs)
      (0, faceMap, (offsets, gather_indices)) ;;
  _ <- verify (f_ind =? nf) ;;
  offsets <-
    forZ_down ndofs 0 (fun i offsets =>
      a <- rd offsets (i - 1) ;;
      wr offsets i a) (fst og) ;;
  offsets <- wr offsets 0 0 ;;
  Some (make scatter_indices offsets (snd og)).

End Construction.

Section Kernels.
Context {V : Type} `{Scalar V}.

(** [H1FaceRestriction::Mult] *)
Definition Mult (r : t) (x y : list V) : option (list V) :=
  let nd := dof r in
  let vd := vdim r in
  forZ 0 (nfdofs r) (fun i y =>
    idx <- rd (scatter_indices r) i ;;
    let dof := Z.rem i nd in
    let face := Z.quot i nd in
    forZ 0 vd (fun c y =>
      v <- rd x (gix (byvdim r) vd (ndofs r) idx c) ;;
      wr y (ix3 nd vd dof c face) v) y) y.

(** The accumulation loop of [MultTranspose] over one bucket. *)
Definition gather_bucket (r : t) (x : list V) (c : Z) (offset nextOffset : Z)
  : option V :=
  let nd := dof r in
  let vd := vdim r in
  forZ offset nextOffset (fun j dofValue =>
    idx_j <- rd (gather_indices r) j ;;
    xv <- rd x (ix3 nd vd (Z.rem idx_j nd) c (Z.quot idx_j nd)) ;;
    Some (sadd dofValue xv)) szero.

(** [H1FaceRestriction::MultTranspose]: [d_y(...) += dofValue]. *)
Definition MultTranspose (r : t) (x y : list V) : option (list V) :=
  let vd := vdim r in
  forZ 0 (ndofs r) (fun i y =>
    offset <- rd (offsets r) i ;;
    nextOffset <- rd (offsets r) (i + 1) ;;
    forZ 0 vd (fun c y =>
      dofValue <- gather_bucket r x c offset nextOffset ;;
      old <- rd y (gix (byvdim r) vd (ndofs r) i c) ;;
      wr y (gix (byvdim r) vd (ndofs r) i c) (sadd old dofValue)) y) y.

End Kernels.

End H1Face.

(** ** Discontinuous face restriction *)

(** [AddNnz]: [AtomicAdd(I[iE], dofs)] returns the previous value. *)
Definition AddNnz (iE : Z) (I_ : list Z) (dofs : Z) : option (Z * list Z) :=
  val <- rd I_ iE ;;
  I_ <- wr I_ iE (val + dofs) ;;
  Some (val, I_).

Module L2Face.

Record t : Type := {
  nf : Z;
  ne : Z;
  vdim : Z;
  byvdim : bool;
  ndofs : Z;
  dof : Z;
  elemDofs : Z;
  m : L2FaceValues;
  nfdofs : Z;
  scatter_indices1 : list Z;
  scatter_indices2 : list Z;
  offsets : list Z;
  gather_indices : list Z
}.

Definition double_valued (m : L2FaceValues) : bool :=
  match m with DoubleValued => true | SingleValued => false end.

(** What the arrays of the constructor hold when they are allocated, one
    content per array. *)
Record fresh : Type := {
  fresh_scatter_indices1 : Z -> Z;
  fresh_scatter_indices2 : Z -> Z;
  fresh_offsets : Z -> Z;
  fresh_gather_indices : Z -> Z;
  fresh_faceMap1 : Z -> Z;
  fresh_faceMap2 : Z -> Z
}.

Section Construction.
Variables (mem : fresh) (fs : FaceSpace) (e_ordering : ElementDofOrdering)
  (type : FaceType) (mode : L2FaceValues).

Definition dof_reorder : bool :=
  match e_ordering with LEXICOGRAPHIC => true | NATIVE => false end.

Definition interior_face (fi : FaceInfo) : bool :=
  match type with Interior => e2 fi >=? 0 | Boundary => false end.

Definition boundary_face (fi : FaceInfo) : bool :=
  match type with Boundary => e2 fi <? 0 | Interior => false end.

(** The global dof of slot [d] on side 1 of the face. *)
Definition gid1 (faceMap1 : list Z) (fi : FaceInfo) (d : Z) : option Z :=
  did <- rd faceMap1 d ;;
  rd (GetElementToDofTable (fes fs)) (e1 fi * GetDof (fes fs) + did).

(** The global dof of slot [d] on side 2, after the face permutation. *)
Definition gid2 (faceMap2 : list Z) (fi : FaceInfo) (d : Z) : option Z :=
  let face_id1 := Z.quot (inf1 fi) 64 in
  let orientation := Z.rem (inf2 fi) 64 in
  let face_id2 := Z.quot (inf2 fi) 64 in
  pd <- PermuteFaceL2 (SpaceDimension fs) face_id1 face_id2 orientation
          (GetOrder fs + 1) d ;;
  did <- rd faceMap2 pd ;;
  rd (GetElementToDofTable (fes fs)) (e2 fi * GetDof (fes fs) + did).

(** [GetFaceDofs] for both sides of the face. *)
Definition face_maps (fi : FaceInfo) (fm : list Z * list Z)
  : option (list Z * list Z) :=
  faceMap1 <-
    GetFaceDofs (SpaceDimension fs) (Z.quot (inf1 fi) 64) (GetOrder fs + 1)
      (fst fm) ;;
  faceMap2 <-
    GetFaceDofs (SpaceDimension fs) (Z.quot (inf2 fi) 64) (GetOrder fs + 1)
      (snd fm) ;;
  Some (faceMap1, faceMap2).

Definition scatter_face (dof : Z) (fi : FaceInfo)
  (st : Z * (list Z * list Z) * (list Z * list Z))
  : option (Z * (list Z * list Z) * (list Z * list Z)) :=
  let '(f_ind, fm, (scatter_indices1, scatter_indices2)) := st in
  fm <- (if dof_reorder then face_maps fi fm else None) ;;
  if face_selected_L2 type fi then
    scatter_indices1 <-
      forZ 0 dof (fun d scatter_indices1 =>
        gid <- gid1 (fst fm) fi d ;;
        wr scatter_indices1 (dof * f_ind + d) gid) scatter_indices1 ;;
    scatter_indices2 <-
      (if double_valued mode then
         forZ 0 dof (fun d scatter_indices2 =>
           if interior_face fi then
             gid <- gid2 (snd fm) fi d ;;
             wr scatter_indices2 (dof * f_ind + d) gid
           else if boundary_face fi then
             wr scatter_indices2 (dof * f_ind + d) (-1)
           else Some scatter_indices2) scatter_indices2
       else Some scatter_indices2) ;;
    Some (f_ind + 1, fm, (scatter_indices1, scatter_indices2))
  else Some (f_ind, fm, (scatter_indices1, scatter_indices2)).

Definition count_face (dof : Z) (fi : FaceInfo)
  (st : Z * (list Z * list Z) * list Z)
  : option (Z * (list Z * list Z) * list Z) :=
  let '(f_ind, fm, offsets) := st in
  if face_selected type fi then
    fm <- face_maps fi fm ;;
    offsets <-
      forZ 0 dof (fun d offsets =>
        gid <- gid1 (fst fm) fi d ;;
        c <- rd offsets (gid + 1) ;;
        wr offsets (gid + 1) (c + 1)) offsets ;;
    offsets <-
      (if double_valued mode then
         forZ 0 dof (fun d offsets =>
           if interior_face fi then
             gid <- gid2 (snd fm) fi d ;;
             c <- rd offsets (gid + 1) ;;
             wr offsets (gid + 1) (c + 1)
           else Some offsets) offsets
       else Some offsets) ;;
    Some (f_ind + 1, fm, offsets)
  else Some st.

Definition gather_face (dof nfdofs : Z) (fi : FaceInfo)
  (st : Z * (list Z * list Z) * (list Z * list Z))
  : option (Z * (list Z * list Z) * (list Z * list Z)) :=
  let '(f_ind, fm, og) := st in
  let put (gid lid : Z) (og : list Z * list Z) :=
    p <- rd (fst og) gid ;;
    offsets <- wr (fst og) gid (p + 1) ;;
    gather_indices <- wr (snd og) p lid ;;
    Some (offsets, gather_indices) in
  if face_selected type fi then
    fm <- face_maps fi fm ;;
    og <-
      forZ 0 dof (fun d og =>
        gid <- gid1 (fst fm) fi d ;;
        put gid (dof * f_ind + d) og) og ;;
    og <-
      (if double_valued mode then
         forZ 0 dof (fun d og =>
           if interior_face fi then
             gid <- gid2 (snd fm) fi d ;;
             put gid (nfdofs + (dof * f_ind + d)) og
           else Some og) og
       else Some og) ;;
    Some (f_ind + 1, fm, og)
  else Some st.

Definition new : option t :=
  let f := fes fs in
  let nf := GetNFbyType fs type in
  let ndofs := GetNDofs f in
  let dof := if nf >? 0 then GetFaceDof fs else 0 in
  let nfdofs := nf * dof in
  let scatter_indices1 := uninit (fresh_scatter_indices1 mem) (nf * dof) in
  let scatter_indices2 :=
    uninit (fresh_scatter_indices2 mem)
      (if double_valued mode then nf * dof else 0) in
  let offsets := uninit (fresh_offsets mem) (ndofs + 1) in
  let gather_indices :=
    uninit (fresh_gather_indices mem)
      ((if double_valued mode then 2 else 1) * nf * dof) in
  let make s1 s2 o g :=
    {| nf := nf; ne := GetNE f; vdim := GetVDim f; byvdim := byVDIM f;
       ndofs := ndofs; dof := dof; elemDofs := GetDof f; m := mode;
       nfdofs := nfdofs;
       scatter_indices1 := s1; scatter_indices2 := s2;
       offsets := o; gather_indices := g |} in
  _ <- GetDofMap f ;;
  _ <- verify (BasisSupported fs) ;;
  _ <- verify (Conforming fs) ;;
  (* the arrays are left as allocated when there is no face *)
  if nf =? 0
  then Some (make scatter_indices1 scatter_indices2 offsets gather_indices)
  else
  _ <- verify dof_reorder ;;
  _ <- (if dof_reorder && (nf >? 0) then verify (FaceElementsTensor fs)
        else Some tt) ;;
  let fm := (uninit (fresh_faceMap1 mem) dof, uninit (fresh_faceMap2 mem) dof) in
  '(f_ind, fm, scatter) <-
    foldM (scatter_face dof) (faces fs)
      (0, fm, (scatter_indices1, scatter_indices2)) ;;
  _ <- verify (f_ind =? nf) ;;
  offsets <- forZ 0 (ndofs + 1) (fun i offsets => wr offsets i 0) offsets ;;
  '(f_ind, fm, offsets) <-
    foldM (count_face dof) (faces fs) (0, fm, offsets) ;;
  _ <- verify (f_ind =? nf) ;;
  offsets <-
    forZ 1 (ndofs + 1) (fun i offsets =>
      a <- rd offsets i ;;
      b <- rd offsets (i - 1) ;;
      wr offsets i (a + b)) offsets ;;
  '(f_ind, fm, og) <-
    foldM (gather_face dof nfdofs) (faces fs)
      (0, fm, (offsets, gather_indices)) ;;
  _ <- verify (f_ind =? nf) ;;
  offsets <-
    forZ_down ndofs 0 (fun i offsets =>
      a <- rd offsets (i - 1) ;;
      wr offsets i a) (fst og) ;;
  offsets <- wr offsets 0 0 ;;
  Some (make (fst scatter) (snd scatter) offsets (snd og)).

End Construction.

Section Kernels.
Context {V : Type} `{Scalar V}.

(** [L2FaceRestriction::Mult] *)
Definition Mult (r : t) (x y : list V) : option (list V) :=
  let nd := dof r in
  let vd := vdim r in
  let t := byvdim r in
  if double_valued (m r) then
    forZ 0 (nfdofs r) (fun i y =>
      let dof := Z.rem i nd in
      let face := Z.quot i nd in
      idx1 <- rd (scatter_indices1 r) i ;;
      y <- forZ 0 vd (fun c y =>
             v <- rd x (gix t vd (ndofs r) idx1 c) ;;
             wr y (ix4 nd vd 2 dof c 0 face) v) y ;;
      idx2 <- rd (scatter_indices2 r) i ;;
      forZ 0 vd (fun c y =>
        v <- (if idx2 =? -1 then Some szero
              else rd x (gix t vd (ndofs r) idx2 c)) ;;
        wr y (ix4 nd vd 2 dof c 1 face) v) y) y
  else
    forZ 0 (nfdofs r) (fun i y =>
      let dof := Z.rem i nd in
      let face := Z.quot i nd in
      idx1 <- rd (scatter_indices1 r) i ;;
      forZ 0 vd (fun c y =>
        v <- rd x (gix t vd (ndofs r) idx1 c) ;;
        wr y (ix3 nd vd dof c face) v) y) y.

(** [L2FaceRestriction::FillI], on the row array [I] of [mat]. *)
Definition FillI (r : t) (I_ : list Z) : option (list Z) :=
  let face_dofs := dof r in
  forZ 0 (nf r * face_dofs) (fun fdof I_ =>
    iE1 <- rd (scatter_indices1 r) fdof ;;
    iE2 <- rd (scatter_indices2 r) fdof ;;
    '(_, I_) <- AddNnz iE1 I_ face_dofs ;;
    '(_, I_) <- AddNnz iE2 I_ face_dofs ;;
    Some I_) I_.

(** [L2FaceRestriction::FillJAndData], on the arrays [I], [J] and [Data] of
    [mat]. *)
Definition FillJAndData (r : t) (ea_data : list V)
  (mat : list Z * list Z * list V) : option (list Z * list Z * list V) :=
  let face_dofs := dof r in
  forZ 0 (nf r * face_dofs) (fun fdof '(I_, J, Data) =>
    let f := Z.quot fdof face_dofs in
    let iF := Z.rem fdof face_dofs in
    iE1 <- rd (scatter_indices1 r) (f * face_dofs + iF) ;;
    iE2 <- rd (scatter_indices2 r) (f * face_dofs + iF) ;;
    '(offset1, I_) <- AddNnz iE1 I_ face_dofs ;;
    '(offset2, I_) <- AddNnz iE2 I_ face_dofs ;;
    '(J, Data) <-
      forZ 0 face_dofs (fun jF '(J, Data) =>
        jE1 <- rd (scatter_indices1 r) (f * face_dofs + jF) ;;
        jE2 <- rd (scatter_indices2 r) (f * face_dofs + jF) ;;
        J <- wr J (offset2 + jF) jE1 ;;
        J <- wr J (offset1 + jF) jE2 ;;
        v0 <- rd ea_data (ix4 face_dofs face_dofs 2 jF iF 0 f) ;;
        Data <- wr Data (offset2 + jF) v0 ;;
        v1 <- rd ea_data (ix4 face_dofs face_dofs 2 jF iF 1 f) ;;
        Data <- wr Data (offset1 + jF) v1 ;;
        Some (J, Data)) (J, Data) ;;
    Some (I_, J, Data)) mat.

(** [AtomicAdd(a[i], v)] *)
Definition AtomicAdd (a : list V) (i : Z) (v : V) : option (list V) :=
  old <- rd a i ;;
  wr a i (sadd old v).

(** [L2FaceRestriction::AddFaceMatricesToElementMatrices] *)
Definition AddFaceMatricesToElementMatrices (r : t) (fea_data ea_data : list V)
  : option (list V) :=
  let face_dofs := dof r in
  let elem_dofs := elemDofs r in
  let NE := ne r in
  let fold_side (ind : list Z) (side f e : Z) (ea : list V) :=
    forZ 0 face_dofs (fun j ea =>
      sj <- rd ind (f * face_dofs + j) ;;
      let jB := Z.rem sj elem_dofs in
      forZ 0 face_dofs (fun i ea =>
        si <- rd ind (f * face_dofs + i) ;;
        let iB := Z.rem si elem_dofs in
        v <- rd fea_data (ix4 face_dofs face_dofs 2 i j side f) ;;
        AtomicAdd ea (ix3 elem_dofs elem_dofs iB jB e) v) ea) ea in
  if double_valued (m r) then
    forZ 0 (nf r) (fun f ea =>
      s1 <- rd (scatter_indices1 r) (f * face_dofs) ;;
      s2 <- rd (scatter_indices2 r) (f * face_dofs) ;;
      let e1 := Z.quot s1 elem_dofs in
      let e2 := Z.quot s2 elem_dofs in
      ea <- fold_side (scatter_indices1 r) 0 f e1 ea ;;
      if e2 <? NE then fold_side (scatter_indices2 r) 1 f e2 ea
      else Some ea) ea_data
  else
    forZ 0 (nf r) (fun f ea =>
      s <- rd (scatter_indices1 r) (f * face_dofs) ;;
      let e := Z.quot s elem_dofs in
      forZ 0 face_dofs (fun j ea =>
        sj <- rd (scatter_indices1 r) (f * face_dofs + j) ;;
        let jE := Z.rem sj elem_dofs in
        forZ 0 face_dofs (fun i ea =>
          si <- rd (scatter_indices1 r) (f * face_dofs + i) ;;
          let iE := Z.rem si elem_dofs in
          v <- rd fea_data (ix3 face_dofs face_dofs i j f) ;;
          AtomicAdd ea (ix3 elem_dofs elem_dofs iE jE e) v) ea) ea) ea_data.

End Kernels.

End L2Face.

(** * Specification vocabulary *)

(** [arr_is a n f]: the array [a] has [n] entries, entry [i] being [f i]. *)
Definition arr_is {A : Type} (a : list A) (n : Z) (f : Z -> A) : Prop :=
  zlen a = n /\ forall i, 0 <= i < n -> rd a i = Some (f i).

(** Two nested loops run over the pairs of their iterations. *)
Definition pairs (l1 l2 : list Z) : list (Z * Z) :=
  flat_map (fun a => map (pair a) l2) l1.

(** [p] maps the index set [[0,n)] one-to-one onto itself. *)
Definition bijective_on (n : Z) (p : Z -> option Z) : Prop :=
  (forall i, 0 <= i < n -> exists k, p i = Some k /\ 0 <= k < n) /\
  (forall i i' k, 0 <= i < n -> 0 <= i' < n ->
     p i = Some k -> p i' = Some k -> i = i') /\
  (forall k, 0 <= k < n -> exists i, 0 <= i < n /\ p i = Some k).

(** The face ids and orientation codes of a 2D or a 3D tensor mesh. *)
Definition face_codes (dim face_id1 face_id2 orientation : Z) : Prop :=
  (dim = 2 /\ 0 <= face_id1 < 4 /\ 0 <= face_id2 < 4 /\ 0 <= orientation < 2) \/
  (dim = 3 /\ 0 <= face_id1 < 6 /\ 0 <= face_id2 < 6 /\ 0 <= orientation < 8).

(** The orientation code undoing [orientation]. *)
Definition Orient3D_inv (orientation : Z) : Z :=
  match orientation with
  | 2 => 6
  | 6 => 2
  | o => o
  end.

(** A pair of coordinates of a [size1d] by [size1d] face grid. *)
Definition in_square (s : Z) (ij : Z * Z) : Prop :=
  0 <= fst ij < s /\ 0 <= snd ij < s.

(** *** Counting-sort vocabulary *)

(** The number of occurrences of the key [g]. *)
Definition countZ (g : Z) (keys : list Z) : Z :=
  Z.of_nat (count_occ Z.eq_dec keys g).

(** The number of keys smaller than [g]: where bucket [g] starts. *)
Definition below (g : Z) (keys : list Z) : Z :=
  Z.of_nat (length (filter (fun k => k <? g) keys)).

(** The position a stable counting sort gives to the [k]-th key. *)
Definition pos (keys : list Z) (k : nat) : Z :=
  below (nth k keys 0) keys + countZ (nth k keys 0) (firstn k keys).

(** The three index passes of the constructors, on the stream of keys (and
    of key/value pairs) their loops produce. *)
Definition bump (g : Z) (offsets : list Z) : option (list Z) :=
  c <- rd offsets (g + 1) ;;
  wr offsets (g + 1) (c + 1).

Definition prefix_sum (i : Z) (offsets : list Z) : option (list Z) :=
  a <- rd offsets i ;;
  b <- rd offsets (i - 1) ;;
  wr offsets i (a + b).

Definition place (gv : Z * Z) (st : list Z * list Z) : option (list Z * list Z) :=
  p <- rd (fst st) (fst gv) ;;
  offsets <- wr (fst st) (fst gv) (p + 1) ;;
  indices <- wr (snd st) p (snd gv) ;;
  Some (offsets, indices).

Definition shift_back (i : Z) (offsets : list Z) : option (list Z) :=
  a <- rd offsets (i - 1) ;;
  wr offsets i a.

(** *** The element restriction seen from its input *)

(** The tables the mesh and the finite element space must provide: the sizes
    are non-negative, the element-to-dof table lists [GetDof] signed global
    dofs for each element, each decoding to a dof of the space, and the dof
    map of a tensor basis element is a signed permutation of the local
    slots. *)
Definition wf_space (f : FiniteElementSpace) (o : ElementDofOrdering) : Prop :=
  0 <= GetNE f /\ 0 <= GetNDofs f /\ 0 <= GetDof f /\
  zlen (GetElementToDofTable f) = GetNE f * GetDof f /\
  Forall (fun s => 0 <= decode s < GetNDofs f) (GetElementToDofTable f) /\
  (o = LEXICOGRAPHIC ->
   exists m, GetDofMap f = Some m /\
             Permutation (map decode m) (zseq (GetDof f))).

Section ElementKeys.
Variables (f : FiniteElementSpace) (o : ElementDofOrdering).

Definition er_dof : Z := if GetNE f >? 0 then GetDof f else 0.

Definition er_reorder : bool :=
  match o with LEXICOGRAPHIC => true | NATIVE => false end.

Definition er_dof_map : list Z :=
  match GetDofMap f with Some m => m | None => [] end.

(** The values the filling loop computes at element [e], slot [d]. *)
Definition er_sdid (d : Z) : Z :=
  if er_reorder then nth (Z.to_nat d) er_dof_map 0 else 0.

Definition er_did (d : Z) : Z :=
  if negb er_reorder then d else decode (er_sdid d).

Definition er_sgid (ed : Z * Z) : Z :=
  nth (Z.to_nat (er_dof * fst ed + er_did (snd ed))) (GetElementToDofTable f) 0.

Definition er_plus (ed : Z * Z) : bool :=
  (er_sgid ed >=? 0) && (er_sdid (snd ed) >=? 0)
  || (er_sgid ed <? 0) && (er_sdid (snd ed) <? 0).

Definition er_lid (ed : Z * Z) : Z := er_dof * fst ed + snd ed.

(** The key and the signed slot placed into [indices]. *)
Definition er_item (ed : Z * Z) : Z * Z :=
  (decode (er_sgid ed), if er_plus ed then er_lid ed else -1 - er_lid ed).

(** The entry stored into [gatherMap]. *)
Definition er_gather (ed : Z * Z) : Z :=
  if er_plus ed then decode (er_sgid ed) else -1 - decode (er_sgid ed).

Definition er_slots : list (Z * Z) := pairs (zseq (GetNE f)) (zseq er_dof).

Definition er_keys : list Z := map fst (map er_item er_slots).

(** The keys met by the counting loop. *)
Definition er_count_keys : list Z :=
  map (fun ed =>
         decode (nth (Z.to_nat (er_dof * fst ed + snd ed))
                     (GetElementToDofTable f) 0)) er_slots.

(** The slot with flat index [k]. *)
Definition er_slot (k : Z) : Z * Z := (k / er_dof, k mod er_dof).

(** What the constructor establishes. *)
Definition er_built (r : ElementRestriction) : Prop :=
  ne r = GetNE f /\ ndofs r = GetNDofs f /\ dof r = er_dof /\
  vdim r = GetVDim f /\ byvdim r = byVDIM f /\
  arr_is (offsets r) (GetNDofs f + 1) (fun g => below g er_keys) /\
  zlen (indices r) = GetNE f * er_dof /\
  (forall k, 0 <= k < GetNE f * er_dof ->
     rd (indices r) (pos er_keys (Z.to_nat k)) = Some (snd (er_item (er_slot k)))) /\
  arr_is (gatherMap r) (GetNE f * er_dof) (fun k => er_gather (er_slot k)).

End ElementKeys.

(** *** Kernels as sequences of stores *)

(** One store [y[target] = value]. *)
Definition store {V : Type} (s : Z * V) (y : list V) : option (list V) :=
  wr y (fst s) (snd s).

(** One accumulating store [y[target] += value]. *)
Definition store_add {V : Type} `{Scalar V} (s : Z * V) (y : list V)
  : option (list V) :=
  old <- rd y (fst s) ;;
  wr y (fst s) (sadd old (snd s)).

Section KernelStores.
Context {V : Type} `{Scalar V}.

(** The value [sign * x[gid, c]] that [Mult] scatters for the gather-map
    entry [s]. *)
Definition scatter_value (r : ElementRestriction) (x : list V) (s c : Z) : V :=
  let xv :=
    nth (Z.to_nat (gix (byvdim r) (vdim r) (ndofs r) (decode s) c)) x szero in
  if s >=? 0 then xv else sneg xv.

(** The stores issued by [Mult], iteration by iteration. *)
Definition Mult_stores (r : ElementRestriction) (x : list V) : list (Z * V) :=
  map (fun ic =>
         (ix3 (dof r) (vdim r) (Z.rem (fst ic) (dof r)) (snd ic)
              (Z.quot (fst ic) (dof r)),
          scatter_value r x (nth (Z.to_nat (fst ic)) (gatherMap r) 0) (snd ic)))
      (pairs (zseq (dof r * ne r)) (zseq (vdim r))).

(** The signed local value that the entry [v] of [indices] contributes to
    component [c]. *)
Definition gather_term (r : ElementRestriction) (x : list V) (c v : Z) : V :=
  let idx := decode v in
  let xv :=
    nth (Z.to_nat (ix3 (dof r) (vdim r) (Z.rem idx (dof r)) c
                       (Z.quot idx (dof r)))) x szero in
  if v >=? 0 then xv else sneg xv.

(** The sum of a list of terms, accumulated from zero in list order. *)
Definition sum_terms (l : list V) : V := fold_left sadd l szero.

(** The entries [a[lo], ..., a[hi-1]] of an array. *)
Definition slice (a : list Z) (lo hi : Z) : list Z :=
  firstn (Z.to_nat (hi - lo)) (skipn (Z.to_nat lo) a).

(** The sum over the bucket of global dof [g]. *)
Definition bucket_sum (r : ElementRestriction) (x : list V) (g c : Z) : V :=
  sum_terms
    (map (gather_term r x c)
         (slice (indices r) (nth (Z.to_nat g) (offsets r) 0)
                (nth (Z.to_nat (g + 1)) (offsets r) 0))).

End KernelStores.

Section TransposeStores.
Context {V : Type} `{Scalar V}.

(** The stores issued by [MultTranspose], iteration by iteration. *)
Definition MultTranspose_stores (r : ElementRestriction) (x : list V)
  : list (Z * V) :=
  map (fun ic =>
         (gix (byvdim r) (vdim r) (ndofs r) (fst ic) (snd ic),
          bucket_sum r x (fst ic) (snd ic)))
      (pairs (zseq (ndofs r)) (zseq (vdim r))).

End TransposeStores.

(** *** Scatter followed by gather *)

(** A space without orientation signs, such as a nodal H1 space: the
    element-to-dof table and the dof map hold plain indices. *)
Definition unsigned_space (f : FiniteElementSpace) (o : ElementDofOrdering)
  : Prop :=
  Forall (fun s => 0 <= s) (GetElementToDofTable f) /\
  (o = LEXICOGRAPHIC -> forall m, GetDofMap f = Some m -> Forall (fun s => 0 <= s) m).

(** [m] copies of [v] accumulated from zero, in the order of the kernel. *)
Definition nmul {V : Type} `{Scalar V} (m : Z) (v : V) : V :=
  sum_terms (repeat v (Z.to_nat m)).

(** Modelled from the spec: the element-to-dof table of the scenario of
    section 8, a 2x2 quadrilateral mesh with an order-2 continuous space
    (4 elements of 9 dofs, 25 global dofs), which the mesh and the finite
    element space (outside the restriction sources) provide.  The global
    dofs are the nodes of the 5x5 grid, node [(i,j)] being dof [i + 5*j];
    element [e] covers the nodes [(2*(e mod 2) + a, 2*(e / 2) + b)] and lists
    them at local slot [a + 3*b]. *)
Definition quad2x2_table : list Z :=
  map (fun k =>
         let e := k / 9 in
         let d := k mod 9 in
         (2 * (e mod 2) + d mod 3) + 5 * (2 * (e / 2) + d / 3))
      (zseq 36).

Definition quad2x2_space : FiniteElementSpace := {|
  GetNE := 4;
  GetVDim := 1;
  byVDIM := false;
  GetNDofs := 25;
  GetDof := 9;
  GetDofMap := Some (zseq 9);
  GetElementToDofTable := quad2x2_table
|}.

(** The number of elements of the scenario that touch node [g]. *)
Definition quad2x2_multiplicity (g : Z) : Z :=
  (if g mod 5 =? 2 then 2 else 1) * (if g / 5 =? 2 then 2 else 1).

(** *** Discontinuous face restriction *)

(** The scatter arrays hold, for the first [n] face slots, a dof of the
    element-to-dof table on side 1 and the sentinel on side 2. *)
Definition boundary_scatter (table s1 s2 : list Z) (n : Z) : Prop :=
  forall lid, 0 <= lid < n ->
    (exists g, rd s1 lid = Some g /\ In g table) /\ rd s2 lid = Some (-1).

(** A single quadrilateral L2 element of order 1 (4 dofs, numbered in
    lexicographic order) with its four boundary faces, each of 2 dofs. *)
Definition l2quad_space : FiniteElementSpace := {|
  GetNE := 1;
  GetVDim := 1;
  byVDIM := false;
  GetNDofs := 4;
  GetDof := 4;
  GetDofMap := Some [];
  GetElementToDofTable := [0; 1; 2; 3]
|}.

Definition l2quad_faces : FaceSpace := {|
  fes := l2quad_space;
  faces :=
    map (fun k => {| e1 := 0; e2 := -1; inf1 := 64 * k; inf2 := -1 |}) (zseq 4);
  GetNFbyType := fun t => match t with Interior => 0 | Boundary => 4 end;
  GetFaceDof := 2;
  GetOrder := 1;
  SpaceDimension := 2;
  Conforming := true;
  BasisSupported := true;
  FaceElementsTensor := true;
  FaceDofMapSize := 2
|}.

(** A memory content for the examples: cell [i] of every fresh array holds
    the stale value [1000 + i]. *)
Definition stale_cell (i : Z) : Z := 1000 + i.

Definition l2_stale : L2Face.fresh := {|
  L2Face.fresh_scatter_indices1 := stale_cell;
  L2Face.fresh_scatter_indices2 := stale_cell;
  L2Face.fresh_offsets := stale_cell;
  L2Face.fresh_gather_indices := stale_cell;
  L2Face.fresh_faceMap1 := stale_cell;
  L2Face.fresh_faceMap2 := stale_cell
|}.

Definition h1_stale : H1Face.fresh := {|
  H1Face.fresh_scatter_indices := stale_cell;
  H1Face.fresh_offsets := stale_cell;
  H1Face.fresh_gather_indices := stale_cell;
  H1Face.fresh_faceMap := stale_cell
|}.

(** The double-valued restriction the constructor builds over the boundary
    faces of [l2quad_faces].  A boundary face has no second side: the second
    half of [gather_indices] is never written and keeps what the memory
    held. *)
Definition l2quad_boundary (mem : L2Face.fresh) : L2Face.t := {|
  L2Face.nf := 4;
  L2Face.ne := 1;
  L2Face.vdim := 1;
  L2Face.byvdim := false;
  L2Face.ndofs := 4;
  L2Face.dof := 2;
  L2Face.elemDofs := 4;
  L2Face.m := DoubleValued;
  L2Face.nfdofs := 8;
  L2Face.scatter_indices1 := [0; 1; 1; 3; 2; 3; 0; 2];
  L2Face.scatter_indices2 := [-1; -1; -1; -1; -1; -1; -1; -1];
  L2Face.offsets := [0; 2; 4; 6; 8];
  L2Face.gather_indices :=
    [0; 6; 1; 2; 4; 7; 3; 5]
    ++ map (L2Face.fresh_gather_indices mem) [8; 9; 10; 11; 12; 13; 14; 15]
|}.

(** *** A small signed space

    Two elements of two dofs over three global dofs, with an orientation
    sign in the table and in the dof map; used to exercise the theorems. *)
Definition signed_space : FiniteElementSpace := {|
  GetNE := 2;
  GetVDim := 2;
  byVDIM := true;
  GetNDofs := 3;
  GetDof := 2;
  GetDofMap := Some [-2; 0];
  GetElementToDofTable := [0; -2; 1; 2]
|}.

Definition signed_restriction : ElementRestriction := {|
  ne := 2;
  vdim := 2;
  byvdim := true;
  ndofs := 3;
  dof := 2;
  offsets := [0; 1; 3; 4];
  indices := [1; 0; 3; -3];
  gatherMap := [1; 0; -3; 1]
|}.

(** *** Sparse pattern vocabulary *)

(** The common entries of two element lists, in the order [GetMinElt]
    collects them. *)
Definition inter_list (A B : list Z) : list Z :=
  map fst (filter (fun ab => fst ab =? snd ab) (pairs A B)).

(** The minimum found by the second loop of [GetMinElt]. *)
Definition list_min (m0 : Z) (l : list Z) : Z :=
  fold_left (fun m v => if v <? m then v else m) l m0.

Definition min_common (A B : list Z) : Z :=
  match inter_list A B with
  | [] => 0
  | x :: t => list_min x t
  end.

(** Append [x] to the intersection buffer. *)
Definition push (x : Z) (st : list Z * Z) : option (list Z * Z) :=
  inter <- wr (fst st) (snd st) x ;;
  Some (inter, snd st + 1).

(** [I[i_L]++] *)
Definition incr_row (i_L : Z) (I_ : list Z) : option (list Z) :=
  ' (_, I_) <- GetAndIncrementNnzIndex i_L I_ ;;
  Some I_.

(** The slots of the bucket of global dof [g] and their elements. *)
Definition er_bucket (r : ElementRestriction) (g : Z) : list Z :=
  slice (indices r) (nth (Z.to_nat g) (offsets r) 0)
        (nth (Z.to_nat (g + 1)) (offsets r) 0).

Definition er_elts (r : ElementRestriction) (g : Z) : list Z :=
  map (fun v => Z.quot v (dof r)) (er_bucket r g).

(** The iterations [(e, i, j)] of the loop nest of [FillI], as
    [((e, i), j)], with their row and column. *)
Definition er_triples (r : ElementRestriction) : list (Z * Z * Z) :=
  flat_map (fun ei => map (pair ei) (zseq (dof r)))
           (pairs (zseq (ne r)) (zseq (dof r))).

Definition row_of (r : ElementRestriction) (t : Z * Z * Z) : Z :=
  nth (Z.to_nat (fst (fst t) * dof r + snd (fst t))) (gatherMap r) 0.

Definition col_of (r : ElementRestriction) (t : Z * Z * Z) : Z :=
  nth (Z.to_nat (fst (fst t) * dof r + snd t)) (gatherMap r) 0.

(** The test under which an iteration increments its row counter. *)
Definition fill_cond (r : ElementRestriction) (t : Z * Z * Z) : bool :=
  (zlen (er_bucket r (row_of r t)) =? 1)
  || (zlen (er_bucket r (col_of r t)) =? 1)
  || (fst (fst t) =? min_common (er_elts r (row_of r t)) (er_elts r (col_of r t))).

Definition ZZ_eq_dec (p q : Z * Z) : {p = q} + {p <> q}.
Proof. decide equality; apply Z.eq_dec. Defined.

(** The (row, column) pairs of global dofs coupled by an element, one entry
    per element and pair of slots, and the distinct ones among them. *)
Definition coupled_pairs (r : ElementRestriction) : list (Z * Z) :=
  map (fun t => (row_of r t, col_of r t)) (er_triples r).

Definition distinct_pairs (r : ElementRestriction) : list (Z * Z) :=
  nodup ZZ_eq_dec (coupled_pairs r).

(** Each element lists a global dof at most once. *)
Definition distinct_per_element (r : ElementRestriction) : Prop :=
  forall e i i', 0 <= e < ne r -> 0 <= i < dof r -> 0 <= i' < dof r ->
    nth (Z.to_nat (e * dof r + i)) (gatherMap r) 0
    = nth (Z.to_nat (e * dof r + i')) (gatherMap r) 0 -> i = i'.

(** No global dof is shared by more than [MaxNbNbr] local slots. *)
Definition bounded_sharing (MaxNbNbr : Z) (r : ElementRestriction) : Prop :=
  forall g, 0 <= g < ndofs r -> countZ g (gatherMap r) <= MaxNbNbr.


(** *** Two small spaces for the sparse pattern *)

(** Two segments sharing their middle node. *)
Definition seg2_space : FiniteElementSpace := {|
  GetNE := 2;
  GetVDim := 1;
  byVDIM := false;
  GetNDofs := 3;
  GetDof := 2;
  GetDofMap := None;
  GetElementToDofTable := [0; 1; 1; 2]
|}.

Definition seg2_restriction : ElementRestriction := {|
  ne := 2;
  vdim := 1;
  byvdim := false;
  ndofs := 3;
  dof := 2;
  offsets := [0; 1; 3; 4];
  indices := [0; 1; 2; 3];
  gatherMap := [0; 1; 1; 2]
|}.

(** A single periodic segment, whose two local dofs are the same global
    dof. *)
Definition wrapped_space : FiniteElementSpace := {|
  GetNE := 1;
  GetVDim := 1;
  byVDIM := false;
  GetNDofs := 1;
  GetDof := 2;
  GetDofMap := None;
  GetElementToDofTable := [0; 0]
|}.

Definition wrapped_restriction : ElementRestriction := {|
  ne := 1;
  vdim := 1;
  byvdim := false;
  ndofs := 1;
  dof := 2;
  offsets := [0; 2];
  indices := [0; 1];
  gatherMap := [0; 0]
|}.

(** Seventeen elements of two dofs around a common dof: dof 0 belongs to
    every element, one more than buffers of 16 entries hold. *)
Definition star_space : FiniteElementSpace := {|
  GetNE := 17;
  GetVDim := 1;
  byVDIM := false;
  GetNDofs := 18;
  GetDof := 2;
  GetDofMap := None;
  GetElementToDofTable := flat_map (fun k => [0; k + 1]) (zseq 17)
|}.

(** *** Continuous face restriction: the gather *)

(** What the kernels of the continuous face restriction need of its index
    arrays: every offset is a position of [gather_indices] or its end, and
    every entry of [gather_indices] is a face slot. *)
Definition h1_bounded (r : H1Face.t) : Prop :=
  zlen (H1Face.offsets r) = Z.max 0 (H1Face.ndofs r + 1) /\
  Forall (fun v => 0 <= v <= zlen (H1Face.gather_indices r)) (H1Face.offsets r) /\
  0 <= H1Face.nf r /\
  H1Face.nfdofs r = H1Face.nf r * H1Face.dof r /\
  Forall (fun v => 0 <= v < H1Face.nf r * H1Face.dof r) (H1Face.gather_indices r).

Section H1Stores.
Context {V : Type} `{Scalar V}.

(** The local value of face slot [v] at component [c]. *)
Definition h1_term (r : H1Face.t) (x : list V) (c v : Z) : V :=
  nth (Z.to_nat (ix3 (H1Face.dof r) (H1Face.vdim r) (Z.rem v (H1Face.dof r)) c
                     (Z.quot v (H1Face.dof r)))) x szero.

(** The sum over the bucket of global dof [g]. *)
Definition h1_bucket_sum (r : H1Face.t) (x : list V) (g c : Z) : V :=
  sum_terms
    (map (h1_term r x c)
         (slice (H1Face.gather_indices r)
                (nth (Z.to_nat g) (H1Face.offsets r) 0)
                (nth (Z.to_nat (g + 1)) (H1Face.offsets r) 0))).

(** [H1Face.MultTranspose] as a sequence of accumulating stores. *)
Definition H1_MultTranspose_stores (r : H1Face.t) (x : list V) : list (Z * V) :=
  map (fun ic =>
         (gix (H1Face.byvdim r) (H1Face.vdim r) (H1Face.ndofs r) (fst ic) (snd ic),
          h1_bucket_sum r x (fst ic) (snd ic)))
      (pairs (zseq (H1Face.ndofs r)) (zseq (H1Face.vdim r))).

End H1Stores.

(** The element slot that [GetFaceDofs] stores for face dof [k] of
    reference face [face_id]. *)
Definition face_dof_slot (dim face_id dof1d k : Z) : Z :=
  let i := k mod dof1d in
  let j := k / dof1d in
  match dim with
  | 1 =>
      match face_id with
      | 0 => 0
      | _ => dof1d - 1
      end
  | 2 =>
      match face_id with
      | 0 => k
      | 1 => dof1d - 1 + k * dof1d
      | 2 => (dof1d - 1) * dof1d + k
      | _ => k * dof1d
      end
  | _ =>
      match face_id with
      | 0 => i + j * dof1d
      | 1 => i + j * dof1d * dof1d
      | 2 => dof1d - 1 + i * dof1d + j * dof1d * dof1d
      | 3 => (dof1d - 1) * dof1d + i + j * dof1d * dof1d
      | 4 => i * dof1d + j * dof1d * dof1d
      | _ => (dof1d - 1) * dof1d * dof1d + i + j * dof1d
      end
  end.

(** The faces the constructor visits are faces of a segment, a
    quadrilateral or a hexahedron: the dimension is 1, 2 or 3, a face
    element has [(order+1)^(dim-1)] dofs, and every selected face is one of
    the [2*dim] reference faces of its element. *)
Definition valid_faces (fs : FaceSpace) (ty : FaceType) : Prop :=
  0 <= GetNDofs (fes fs) /\
  1 <= SpaceDimension fs <= 3 /\
  0 <= GetOrder fs /\
  GetFaceDof fs = (GetOrder fs + 1) ^ (SpaceDimension fs - 1) /\
  Forall (fun fi => face_selected ty fi = true ->
                    0 <= Z.quot (inf1 fi) 64 < 2 * SpaceDimension fs)
         (faces fs).

Section H1Keys.
Variables (fs : FaceSpace) (o : ElementDofOrdering) (ty : FaceType).

Definition h1_dof : Z := if GetNFbyType fs ty >? 0 then GetFaceDof fs else 0.

(** The face map of a face, and the global dofs of its slots. *)
Definition h1_face_map (fi : FaceInfo) : list Z :=
  map (face_dof_slot (SpaceDimension fs) (Z.quot (inf1 fi) 64) (GetOrder fs + 1))
      (zseq h1_dof).

Definition h1_face_gid (dm : list Z) (fi : FaceInfo) (d : Z) : Z :=
  match H1Face.face_gid fs o dm (h1_face_map fi) fi d with
  | Some g => g
  | None => 0
  end.

Definition h1_face_keys (dm : list Z) (fi : FaceInfo) : list Z :=
  map (h1_face_gid dm fi) (zseq h1_dof).

(** The global dofs of the slots of the selected faces of [l], in the
    order the loops of the constructor meet them, and these keys paired
    with their face slots, [f_ind] being the index of the first face. *)
Definition h1_loop_keys (dm : list Z) (l : list FaceInfo) : list Z :=
  flat_map (h1_face_keys dm) (filter (face_selected ty) l).

Definition h1_loop_items (dm : list Z) (l : list FaceInfo) (f_ind : Z)
  : list (Z * Z) :=
  combine (h1_loop_keys dm l)
          (zrange (h1_dof * f_ind) (length (h1_loop_keys dm l))).

End H1Keys.

(** What the constructor establishes, [scatter_indices] giving the global
    dof of every face slot: [offsets] holds the bucket starts of a stable
    counting sort of the slots by global dof, and [gather_indices] the slots
    at their sorted positions. *)
Definition h1_built (r : H1Face.t) : Prop :=
  let keys := H1Face.scatter_indices r in
  H1Face.nfdofs r = H1Face.nf r * H1Face.dof r /\
  zlen keys = H1Face.nfdofs r /\
  Forall (fun g => 0 <= g < H1Face.ndofs r) keys /\
  arr_is (H1Face.offsets r) (H1Face.ndofs r + 1) (fun g => below g keys) /\
  zlen (H1Face.gather_indices r) = H1Face.nfdofs r /\
  (forall k, (k < length keys)%nat ->
     rd (H1Face.gather_indices r) (pos keys k) = Some (Z.of_nat k)).

(** A single quadrilateral H1 element of order 1 (4 dofs, the vertices in
    counter-clockwise order, lexicographic order through the dof map) with
    its four boundary faces, each of 2 dofs. *)
Definition quad1_space : FiniteElementSpace := {|
  GetNE := 1;
  GetVDim := 1;
  byVDIM := false;
  GetNDofs := 4;
  GetDof := 4;
  GetDofMap := Some [0; 1; 3; 2];
  GetElementToDofTable := [0; 1; 2; 3]
|}.

Definition quad1_faces : FaceSpace := {|
  fes := quad1_space;
  faces :=
    map (fun k => {| e1 := 0; e2 := -1; inf1 := 64 * k; inf2 := -1 |}) (zseq 4);
  GetNFbyType := fun t => match t with Interior => 0 | Boundary => 4 end;
  GetFaceDof := 2;
  GetOrder := 1;
  SpaceDimension := 2;
  Conforming := true;
  BasisSupported := true;
  FaceElementsTensor := true;
  FaceDofMapSize := 2
|}.

(** The restriction the constructor builds over the boundary faces of
    [quad1_faces]: every vertex belongs to two faces. *)
Definition quad1_boundary : H1Face.t := {|
  H1Face.nf := 4;
  H1Face.vdim := 1;
  H1Face.byvdim := false;
  H1Face.ndofs := 4;
  H1Face.dof := 2;
  H1Face.nfdofs := 8;
  H1Face.scatter_indices := [0; 1; 1; 2; 3; 2; 0; 3];
  H1Face.offsets := [0; 2; 4; 6; 8];
  H1Face.gather_indices := [0; 6; 1; 2; 3; 5; 4; 7]
|}.

(** * Further functions of the restriction layer *)

(** ** Unsigned kernels and the boolean mask of the element restriction *)

Section MoreKernels.
Context {V : Type} `{Scalar V}.

(** [ElementRestriction::MultUnsigned] *)
Definition MultUnsigned (r : ElementRestriction) (x y : list V)
  : option (list V) :=
  let nd := dof r in
  let vd := vdim r in
  let t := byvdim r in
  forZ 0 (dof r * ne r) (fun i y =>
    gid <- rd (gatherMap r) i ;;
    let j := if gid >=? 0 then gid else -1 - gid in
    forZ 0 vd (fun c y =>
      v <- rd x (gix t vd (ndofs r) j c) ;;
      wr y (ix3 nd vd (Z.rem i nd) c (Z.quot i nd)) v) y) y.

(** The accumulation loop of [MultTransposeUnsigned] over one bucket. *)
Definition gather_bucket_unsigned (r : ElementRestriction) (x : list V) (c : Z)
  (offset nextOffset : Z) : option V :=
  let nd := dof r in
  let vd := vdim r in
  forZ offset nextOffset (fun j dofValue =>
    v <- rd (indices r) j ;;
    let idx_j := if v >=? 0 then v else -1 - v in
    xv <- rd x (ix3 nd vd (Z.rem idx_j nd) c (Z.quot idx_j nd)) ;;
    Some (sadd dofValue xv)) szero.

(** [ElementRestriction::MultTransposeUnsigned] *)
Definition MultTransposeUnsigned (r : ElementRestriction) (x y : list V)
  : option (list V) :=
  let vd := vdim r in
  let t := byvdim r in
  forZ 0 (ndofs r) (fun i y =>
    offset <- rd (offsets r) i ;;
    nextOffset <- rd (offsets r) (i + 1) ;;
    forZ 0 vd (fun c y =>
      dofValue <- gather_bucket_unsigned r x c offset nextOffset ;;
      wr y (gix t vd (ndofs r) i c) dofValue) y) y.

(** The body of the innermost loop of [BooleanMask]: the first slot met for
    the entry [(i, c)] receives [1.0], the later ones [0.0].  The state is
    the array [processed] and the output. *)
Definition mask_slot (one : V) (r : ElementRestriction) (i c j : Z)
  (st : list Z * list V) : option (list Z * list V) :=
  let nd := dof r in
  let vd := vdim r in
  let t := byvdim r in
  idx_j <- rd (indices r) j ;;
  p <- rd (fst st) (gix t vd (ndofs r) i c) ;;
  if negb (p =? 0) then
    y <- wr (snd st) (ix3 nd vd (Z.rem idx_j nd) c (Z.quot idx_j nd)) szero ;;
    Some (fst st, y)
  else
    y <- wr (snd st) (ix3 nd vd (Z.rem idx_j nd) c (Z.quot idx_j nd)) one ;;
    processed <- wr (fst st) (gix t vd (ndofs r) i c) 1 ;;
    Some (processed, y).

(** [ElementRestriction::BooleanMask]; [one] is the scalar [1.0]. *)
Definition BooleanMask (one : V) (r : ElementRestriction) (y : list V)
  : option (list V) :=
  let vd := vdim r in
  let processed := alloc (vd * ndofs r) 0 in
  st <-
    forZ 0 (ndofs r) (fun i st =>
      offset <- rd (offsets r) i ;;
      nextOffset <- rd (offsets r) (i + 1) ;;
      forZ 0 vd (fun c st =>
        forZ offset nextOffset (mask_slot one r i c) st) st) (processed, y) ;;
  Some (snd st).

End MoreKernels.

(** ** Element restriction of a discontinuous space

    The quotient and remainder by [ndof] are those of the source; they are
    meaningful where [ndof] is positive. *)

Module L2Element.

Record t : Type := {
  ne : Z;
  vdim : Z;
  byvdim : bool;
  ndof : Z;
  ndofs : Z
}.

Definition new (f : FiniteElementSpace) : t := {|
  ne := GetNE f;
  vdim := GetVDim f;
  byvdim := byVDIM f;
  ndof := if GetNE f >? 0 then GetDof f else 0;
  ndofs := GetNDofs f
|}.

Section Kernels.
Context {V : Type} `{Scalar V}.

(** [L2ElementRestriction::Mult] *)
Definition Mult (r : t) (x y : list V) : option (list V) :=
  let nd := ndof r in
  let vd := vdim r in
  let t := byvdim r in
  forZ 0 (ndofs r) (fun i y =>
    let idx := i in
    let dof := Z.rem idx nd in
    let e := Z.quot idx nd in
    forZ 0 vd (fun c y =>
      v <- rd x (gix t vd (ndofs r) idx c) ;;
      wr y (ix3 nd vd dof c e) v) y) y.

(** [L2ElementRestriction::MultTranspose] *)
Definition MultTranspose (r : t) (x y : list V) : option (list V) :=
  let nd := ndof r in
  let vd := vdim r in
  let t := byvdim r in
  forZ 0 (ndofs r) (fun i y =>
    let idx := i in
    let dof := Z.rem idx nd in
    let e := Z.quot idx nd in
    forZ 0 vd (fun c y =>
      v <- rd x (ix3 nd vd dof c e) ;;
      wr y (gix t vd (ndofs r) idx c) v) y) y.

(** [L2ElementRestriction::FillI], on the row array [I] of [mat]. *)
Definition FillI (r : t) (I_ : list Z) : option (list Z) :=
  let elem_dofs := ndof r in
  let vd := vdim r in
  forZ 0 (ne r * elem_dofs * vd) (fun dof I_ => wr I_ dof elem_dofs) I_.

(** [L2ElementRestriction::FillJAndData], on the arrays [I], [J] and [Data]
    of [mat]. *)
Definition FillJAndData (r : t) (ea_data : list V)
  (mat : list Z * list Z * list V) : option (list Z * list Z * list V) :=
  let elem_dofs := ndof r in
  let vd := vdim r in
  forZ 0 (ne r * elem_dofs * vd) (fun iE '(I_, J, Data) =>
    '(offset, I_) <- AddNnz iE I_ elem_dofs ;;
    let e := Z.quot iE elem_dofs in
    let i := Z.rem iE elem_dofs in
    '(J, Data) <-
      forZ 0 elem_dofs (fun j '(J, Data) =>
        J <- wr J (offset + j) (e * elem_dofs + j) ;;
        v <- rd ea_data (ix3 elem_dofs elem_dofs j i e) ;;
        Data <- wr Data (offset + j) v ;;
        Some (J, Data)) (J, Data) ;;
    Some (I_, J, Data)) mat.

End Kernels.

End L2Element.

(** ** Normal-derivative stencil and the lexicographic reordering *)

Definition Get_dof_from_ijk (i j k dof1d : Z) : Z :=
  i + dof1d * j + dof1d * dof1d * k.

(** [GetNormalDFaceDofStencil]: for every dof of reference face [face_id]
    the [dof1d] element slots met when leaving the face along its normal.
    Dimension 1 and an unknown face id abort; another dimension leaves
    [facemapnor] as it is. *)
Definition GetNormalDFaceDofStencil (dim face_id dof1d : Z)
  (facemapnor : list Z) : option (list Z) :=
  let end_ := dof1d - 1 in
  let fill2 (h : Z -> Z -> Z) :=
    forZ 0 dof1d (fun i fm =>
      forZ 0 dof1d (fun s fm => wr fm (dof1d * i + s) (h i s)) fm) facemapnor in
  let fill3 (h : Z -> Z -> Z -> Z) :=
    forZ 0 dof1d (fun i fm =>
      forZ 0 dof1d (fun j fm =>
        forZ 0 dof1d (fun s fm =>
          wr fm (s + i * dof1d + j * dof1d * dof1d) (h i j s)) fm) fm)
      facemapnor in
  match dim with
  | 1 => None
  | 2 =>
      match face_id with
      | 0 => fill2 (fun i s => Get_dof_from_ijk i s 0 dof1d)
      | 1 => fill2 (fun j s => Get_dof_from_ijk (end_ - s) j 0 dof1d)
      | 2 => fill2 (fun i s => Get_dof_from_ijk i (end_ - s) 0 dof1d)
      | 3 => fill2 (fun j s => Get_dof_from_ijk s j 0 dof1d)
      | _ => None
      end
  | 3 =>
      match face_id with
      | 0 => fill3 (fun i j s => Get_dof_from_ijk i j s dof1d)
      | 1 => fill3 (fun i j s => Get_dof_from_ijk i s j dof1d)
      | 2 => fill3 (fun i j s => Get_dof_from_ijk (end_ - s) i j dof1d)
      | 3 => fill3 (fun i j s => Get_dof_from_ijk i (end_ - s) j dof1d)
      | 4 => fill3 (fun i j s => Get_dof_from_ijk s i j dof1d)
      | 5 => fill3 (fun i j s => Get_dof_from_ijk i j (end_ - s) dof1d)
      | _ => None
      end
  | _ => Some facemapnor
  end.

(** [ToLexOrdering]; an unsupported dimension is an error. *)
Definition ToLexOrdering (dim face_id size1d index : Z) : option Z :=
  match dim with
  | 1 => Some 0
  | 2 => Some (ToLexOrdering2D face_id size1d index)
  | 3 => Some (ToLexOrdering3D face_id size1d (Z.rem index size1d)
                               (Z.quot index size1d))
  | _ => None
  end.

(** ** Discontinuous face restriction: the scatter arrays

    For the first [n] face slots, [scatter_indices1] holds an entry of the
    element-to-dof table, and for a double-valued restriction
    [scatter_indices2] holds an entry of the table on interior faces and
    the sentinel on boundary faces. *)
Definition l2_scatter_built (table : list Z) (ty : FaceType)
  (mode : L2FaceValues) (s1 s2 : list Z) (n : Z) : Prop :=
  forall lid, 0 <= lid < n ->
    (exists g, rd s1 lid = Some g /\ In g table) /\
    (mode = DoubleValued ->
     exists g, rd s2 lid = Some g /\
               match ty with Interior => In g table | Boundary => g = -1 end).

(** Two quadrilateral L2 elements of order 1 side by side (4 dofs each,
    numbered element by element in lexicographic order): face 1 of element
    0 is face 3 of element 1, the other six faces are boundary faces. *)
Definition l2pair_space : FiniteElementSpace := {|
  GetNE := 2;
  GetVDim := 1;
  byVDIM := false;
  GetNDofs := 8;
  GetDof := 4;
  GetDofMap := Some [];
  GetElementToDofTable := [0; 1; 2; 3; 4; 5; 6; 7]
|}.

Definition l2pair_faces : FaceSpace := {|
  fes := l2pair_space;
  faces :=
    [ {| e1 := 0; e2 := -1; inf1 := 0; inf2 := -1 |};
      {| e1 := 0; e2 := 1; inf1 := 64; inf2 := 64 * 3 + 1 |};
      {| e1 := 0; e2 := -1; inf1 := 128; inf2 := -1 |};
      {| e1 := 0; e2 := -1; inf1 := 192; inf2 := -1 |};
      {| e1 := 1; e2 := -1; inf1 := 0; inf2 := -1 |};
      {| e1 := 1; e2 := -1; inf1 := 64; inf2 := -1 |};
      {| e1 := 1; e2 := -1; inf1 := 128; inf2 := -1 |} ];
  GetNFbyType := fun t => match t with Interior => 1 | Boundary => 6 end;
  GetFaceDof := 2;
  GetOrder := 1;
  SpaceDimension := 2;
  Conforming := true;
  BasisSupported := true;
  FaceElementsTensor := true;
  FaceDofMapSize := 2
|}.

(** The restrictions the constructor builds over the interior face of
    [l2pair_faces] (double-valued) and over its boundary faces
    (single-valued). *)
Definition l2pair_interior : L2Face.t := {|
  L2Face.nf := 1;
  L2Face.ne := 2;
  L2Face.vdim := 1;
  L2Face.byvdim := false;
  L2Face.ndofs := 8;
  L2Face.dof := 2;
  L2Face.elemDofs := 4;
  L2Face.m := DoubleValued;
  L2Face.nfdofs := 2;
  L2Face.scatter_indices1 := [1; 3];
  L2Face.scatter_indices2 := [4; 6];
  L2Face.offsets := [0; 0; 1; 1; 2; 3; 3; 4; 4];
  L2Face.gather_indices := [0; 1; 2; 3]
|}.

Definition l2pair_boundary : L2Face.t := {|
  L2Face.nf := 6;
  L2Face.ne := 2;
  L2Face.vdim := 1;
  L2Face.byvdim := false;
  L2Face.ndofs := 8;
  L2Face.dof := 2;
  L2Face.elemDofs := 4;
  L2Face.m := SingleValued;
  L2Face.nfdofs := 12;
  L2Face.scatter_indices1 := [0; 1; 2; 3; 0; 2; 4; 5; 5; 7; 6; 7];
  L2Face.scatter_indices2 := [];
  L2Face.offsets := [0; 2; 3; 5; 6; 7; 9; 10; 12];
  L2Face.gather_indices := [0; 4; 1; 2; 5; 3; 6; 7; 8; 10; 9; 11]
|}.

(** ** The boolean mask: vocabulary

    [mask_before g c' i c]: the pair (dof [g], component [c']) is handled
    before the pair [(i, c)] by the loops of [BooleanMask]. *)
Definition mask_before (g c' i c : Z) : Prop := g < i \/ (g = i /\ c' < c).

(** The value stored at position [j] of a bucket starting at [first]. *)
Definition mask_value {V : Type} `{Scalar V} (one : V) (first j : Z) : V :=
  if j =? first then one else szero.

(** ** The normal-derivative stencil: vocabulary

    The step between consecutive element slots when leaving reference face
    [face_id] along its normal, towards the inside of the element. *)
Definition normal_stride (dim face_id dof1d : Z) : Z :=
  match dim with
  | 2 =>
      match face_id with
      | 0 => dof1d
      | 1 => -1
      | 2 => - dof1d
      | 3 => 1
      | _ => 0
      end
  | 3 =>
      match face_id with
      | 0 => dof1d * dof1d
      | 1 => dof1d
      | 2 => -1
      | 3 => - dof1d
      | 4 => 1
      | 5 => - (dof1d * dof1d)
      | _ => 0
      end
  | _ => 0
  end.

(** ** Discontinuous face restriction: the gather kernel *)

Module L2FaceGather.

Section Kernels.
Context {V : Type} `{Scalar V}.

(** [L2FaceRestriction::MultTranspose]: [d_y(...) += dofValue]; an entry of
    [gather_indices] below [nfdofs] is a slot of side 1 of its face, another
    one the slot [idx_j - nfdofs] of side 2. *)
Definition MultTranspose (r : L2Face.t) (x y : list V) : option (list V) :=
  let nd := L2Face.dof r in
  let vd := L2Face.vdim r in
  let t := L2Face.byvdim r in
  let dofs := L2Face.nfdofs r in
  if L2Face.double_valued (L2Face.m r) then
    forZ 0 (L2Face.ndofs r) (fun i y =>
      offset <- rd (L2Face.offsets r) i ;;
      nextOffset <- rd (L2Face.offsets r) (i + 1) ;;
      forZ 0 vd (fun c y =>
        dofValue <-
          forZ offset nextOffset (fun j dofValue =>
            idx_j <- rd (L2Face.gather_indices r) j ;;
            let isE1 := idx_j <? dofs in
            let idx_j := if isE1 then idx_j else idx_j - dofs in
            xv <- (if isE1
                   then rd x (ix4 nd vd 2 (Z.rem idx_j nd) c 0 (Z.quot idx_j nd))
                   else rd x (ix4 nd vd 2 (Z.rem idx_j nd) c 1 (Z.quot idx_j nd))) ;;
            Some (sadd dofValue xv)) szero ;;
        old <- rd y (gix t vd (L2Face.ndofs r) i c) ;;
        wr y (gix t vd (L2Face.ndofs r) i c) (sadd old dofValue)) y) y
  else
    forZ 0 (L2Face.ndofs r) (fun i y =>
      offset <- rd (L2Face.offsets r) i ;;
      nextOffset <- rd (L2Face.offsets r) (i + 1) ;;
      forZ 0 vd (fun c y =>
        dofValue <-
          forZ offset nextOffset (fun j dofValue =>
            idx_j <- rd (L2Face.gather_indices r) j ;;
            xv <- rd x (ix3 nd vd (Z.rem idx_j nd) c (Z.quot idx_j nd)) ;;
            Some (sadd dofValue xv)) szero ;;
        old <- rd y (gix t vd (L2Face.ndofs r) i c) ;;
        wr y (gix t vd (L2Face.ndofs r) i c) (sadd old dofValue)) y) y.

End Kernels.

End L2FaceGather.

(** The number of sides a restriction stores per face. *)
Definition l2_sides (r : L2Face.t) : Z :=
  if L2Face.double_valued (L2Face.m r) then 2 else 1.

(** What the gather kernel needs of the index arrays: the offsets are
    positions among the first [total] entries of [gather_indices], the part
    that holds the gathered slots, and each of these entries is a face slot
    of one of the sides. *)
Definition l2_bounded (r : L2Face.t) (total : Z) : Prop :=
  total <= zlen (L2Face.gather_indices r) /\
  zlen (L2Face.offsets r) = Z.max 0 (L2Face.ndofs r + 1) /\
  Forall (fun v => 0 <= v <= total) (L2Face.offsets r) /\
  0 <= L2Face.nf r /\
  L2Face.nfdofs r = L2Face.nf r * L2Face.dof r /\
  forall j, 0 <= j < total ->
    0 <= nth (Z.to_nat j) (L2Face.gather_indices r) 0
    < l2_sides r * (L2Face.nf r * L2Face.dof r).

Section L2Stores.
Context {V : Type} `{Scalar V}.

(** The local value that the entry [v] of [gather_indices] stands for, at
    component [c]. *)
Definition l2_term (r : L2Face.t) (x : list V) (c v : Z) : V :=
  let nd := L2Face.dof r in
  let vd := L2Face.vdim r in
  if L2Face.double_valued (L2Face.m r) then
    let isE1 := v <? L2Face.nfdofs r in
    let idx := if isE1 then v else v - L2Face.nfdofs r in
    nth (Z.to_nat (ix4 nd vd 2 (Z.rem idx nd) c (if isE1 then 0 else 1)
                       (Z.quot idx nd))) x szero
  else
    nth (Z.to_nat (ix3 nd vd (Z.rem v nd) c (Z.quot v nd))) x szero.

(** The sum over the bucket of global dof [g]. *)
Definition l2_bucket_sum (r : L2Face.t) (x : list V) (g c : Z) : V :=
  sum_terms
    (map (l2_term r x c)
         (slice (L2Face.gather_indices r)
                (nth (Z.to_nat g) (L2Face.offsets r) 0)
                (nth (Z.to_nat (g + 1)) (L2Face.offsets r) 0))).

(** [MultTranspose] as a sequence of accumulating stores. *)
Definition L2_MultTranspose_stores (r : L2Face.t) (x : list V) : list (Z * V) :=
  map (fun ic =>
         (gix (L2Face.byvdim r) (L2Face.vdim r) (L2Face.ndofs r) (fst ic) (snd ic),
          l2_bucket_sum r x (fst ic) (snd ic)))
      (pairs (zseq (L2Face.ndofs r)) (zseq (L2Face.vdim r))).

End L2Stores.

(** The faces the gather loops visit are faces of segments, quadrilaterals
    or hexahedra: the dimension is 1, 2 or 3, a face element has
    [(order+1)^(dim-1)] dofs, and both face ids of every selected face are
    among the [2*dim] reference faces. *)
Definition valid_faces_L2 (fs : FaceSpace) (ty : FaceType) : Prop :=
  0 <= GetNDofs (fes fs) /\
  1 <= SpaceDimension fs <= 3 /\
  0 <= GetOrder fs /\
  GetFaceDof fs = (GetOrder fs + 1) ^ (SpaceDimension fs - 1) /\
  Forall (fun fi => face_selected ty fi = true ->
                    0 <= Z.quot (inf1 fi) 64 < 2 * SpaceDimension fs /\
                    0 <= Z.quot (inf2 fi) 64 < 2 * SpaceDimension fs)
         (faces fs).

Section L2Keys.
Variables (fs : FaceSpace) (ty : FaceType) (mode : L2FaceValues).

Definition l2_dof : Z := if GetNFbyType fs ty >? 0 then GetFaceDof fs else 0.

(** The face maps of the two sides of a face. *)
Definition l2_face_maps (fi : FaceInfo) : list Z * list Z :=
  (map (face_dof_slot (SpaceDimension fs) (Z.quot (inf1 fi) 64) (GetOrder fs + 1))
       (zseq l2_dof),
   map (face_dof_slot (SpaceDimension fs) (Z.quot (inf2 fi) 64) (GetOrder fs + 1))
       (zseq l2_dof)).

(** The global dofs of slot [d] on the two sides. *)
Definition l2_gid1 (fi : FaceInfo) (d : Z) : Z :=
  match L2Face.gid1 fs (fst (l2_face_maps fi)) fi d with
  | Some g => g
  | None => 0
  end.

Definition l2_gid2 (fi : FaceInfo) (d : Z) : Z :=
  match L2Face.gid2 fs (snd (l2_face_maps fi)) fi d with
  | Some g => g
  | None => 0
  end.

(** Whether the gather loops handle the second side of a face. *)
Definition l2_second (fi : FaceInfo) : bool :=
  L2Face.double_valued mode && L2Face.interior_face ty fi.

(** The global dofs the gather loops meet at the face of index [f], each
    with the entry stored for it in [gather_indices]: the slots of side 1,
    then those of side 2 shifted by [nfdofs]. *)
Definition l2_face_items (nfdofs : Z) (fi : FaceInfo) (f : Z) : list (Z * Z) :=
  map (fun d => (l2_gid1 fi d, l2_dof * f + d)) (zseq l2_dof)
  ++ (if l2_second fi
      then map (fun d => (l2_gid2 fi d, nfdofs + (l2_dof * f + d))) (zseq l2_dof)
      else []).

Fixpoint l2_loop_items (nfdofs : Z) (l : list FaceInfo) (f : Z)
  : list (Z * Z) :=
  match l with
  | [] => []
  | fi :: t =>
      if face_selected ty fi
      then l2_face_items nfdofs fi f ++ l2_loop_items nfdofs t (f + 1)
      else l2_loop_items nfdofs t f
  end.

End L2Keys.

(** What the constructor establishes for the gather: [items] being the
    global dofs met by the gather loops with the entries stored for them,
    [offsets] holds the bucket starts of a stable counting sort of the items
    by global dof, and the first entries of [gather_indices] hold the stored
    entries at their sorted positions. *)
Definition l2_built (r : L2Face.t) (items : list (Z * Z)) : Prop :=
  let keys := map fst items in
  L2Face.nfdofs r = L2Face.nf r * L2Face.dof r /\
  Forall (fun g => 0 <= g < L2Face.ndofs r) keys /\
  Forall (fun v => 0 <= v < l2_sides r * L2Face.nfdofs r) (map snd items) /\
  arr_is (L2Face.offsets r) (L2Face.ndofs r + 1) (fun g => below g keys) /\
  zlen items <= zlen (L2Face.gather_indices r) /\
  (forall k, (k < length items)%nat ->
     rd (L2Face.gather_indices r) (pos keys k)
     = Some (nth k (map snd items) 0)).

(** * Properties *)

(** ** Arrays *)

Lemma upd_length {A : Type} (n : nat) (v : A) (a : list A) :
  length (upd n v a) = length a.
Proof.
  revert n; induction a as [|h t IH]; intros [|n]; simpl; auto.
Qed.

Lemma nth_error_upd_same {A : Type} (n : nat) (v : A) (a : list A) :
  (n < length a)%nat -> nth_error (upd n v a) n = Some v.
Proof.
  revert n; induction a as [|h t IH]; intros [|n] Hn; simpl in *;
    try lia; auto.
  apply IH; lia.
Qed.

Lemma nth_error_upd_other {A : Type} (n m : nat) (v : A) (a : list A) :
  n <> m -> nth_error (upd n v a) m = nth_error a m.
Proof.
  revert n m; induction a as [|h t IH]; intros [|n] [|m] Hnm; simpl;
    try congruence; auto.
Qed.

Lemma rd_in_range {A : Type} (a : list A) (i : Z) :
  0 <= i < zlen a -> exists v, rd a i = Some v.
Proof.
  unfold rd, zlen; intros Hi.
  destruct (Z.ltb_spec i 0); [lia|].
  destruct (nth_error a (Z.to_nat i)) eqn:E; eauto.
  apply nth_error_None in E; lia.
Qed.

Lemma rd_Some_range {A : Type} (a : list A) (i : Z) (v : A) :
  rd a i = Some v -> 0 <= i < zlen a.
Proof.
  unfold rd, zlen; destruct (Z.ltb_spec i 0); [discriminate|].
  intros E.
  assert (Z.to_nat i < length a)%nat by (apply nth_error_Some; congruence).
  lia.
Qed.

Lemma wr_in_range {A : Type} (a : list A) (i : Z) (v : A) :
  0 <= i < zlen a -> wr a i v = Some (upd (Z.to_nat i) v a).
Proof.
  unfold wr; intros Hi.
  destruct (Z.leb_spec 0 i); [|lia].
  destruct (Z.ltb_spec i (zlen a)); [|lia].
  reflexivity.
Qed.

Lemma wr_Some {A : Type} (a a' : list A) (i : Z) (v : A) :
  wr a i v = Some a' ->
  0 <= i < zlen a /\ a' = upd (Z.to_nat i) v a.
Proof.
  unfold wr.
  destruct (Z.leb_spec 0 i); simpl; [|discriminate].
  destruct (Z.ltb_spec i (zlen a)); [|discriminate].
  intros E; inversion E; auto.
Qed.

Lemma zlen_upd {A : Type} (n : nat) (v : A) (a : list A) :
  zlen (upd n v a) = zlen a.
Proof. unfold zlen; now rewrite upd_length. Qed.

Lemma rd_upd_same {A : Type} (a : list A) (i : Z) (v : A) :
  0 <= i < zlen a -> rd (upd (Z.to_nat i) v a) i = Some v.
Proof.
  unfold rd, zlen; intros Hi.
  destruct (Z.ltb_spec i 0); [lia|].
  apply nth_error_upd_same; lia.
Qed.

Lemma rd_upd_other {A : Type} (a : list A) (i j : Z) (v : A) :
  0 <= i -> i <> j -> rd (upd (Z.to_nat i) v a) j = rd a j.
Proof.
  unfold rd; intros Hi Hij.
  destruct (Z.ltb_spec j 0); [reflexivity|].
  apply nth_error_upd_other; lia.
Qed.

Lemma zlen_alloc {A : Type} (n : Z) (v : A) : 0 <= n -> zlen (alloc n v) = n.
Proof. unfold zlen, alloc; rewrite repeat_length; lia. Qed.

Lemma rd_alloc {A : Type} (n i : Z) (v : A) :
  0 <= i < n -> rd (alloc n v) i = Some v.
Proof.
  unfold rd, alloc; intros Hi.
  destruct (Z.ltb_spec i 0); [lia|].
  apply nth_error_repeat; lia.
Qed.

Lemma arr_is_ext {A : Type} (a : list A) (n : Z) (f g : Z -> A) :
  arr_is a n f -> (forall i, 0 <= i < n -> f i = g i) -> arr_is a n g.
Proof.
  intros [Hl Hf] Hfg; split; auto.
  intros i Hi; rewrite <- Hfg by assumption; auto.
Qed.

Lemma arr_is_rd {A : Type} (a : list A) (n : Z) (f : Z -> A) (i : Z) :
  arr_is a n f -> 0 <= i < n -> rd a i = Some (f i).
Proof. intros [_ Hf]; auto. Qed.

Lemma arr_is_wr {A : Type} (a : list A) (n : Z) (f : Z -> A) (i : Z) (v : A) :
  arr_is a n f -> 0 <= i < n ->
  exists a', wr a i v = Some a' /\
             arr_is a' n (fun j => if j =? i then v else f j).
Proof.
  intros [Hl Hf] Hi.
  exists (upd (Z.to_nat i) v a); split.
  - apply wr_in_range; lia.
  - split; [now rewrite zlen_upd|].
    intros j Hj; destruct (Z.eqb_spec j i) as [->|Hne].
    + apply rd_upd_same; lia.
    + rewrite rd_upd_other by lia; auto.
Qed.

Lemma arr_is_alloc {A : Type} (n : Z) (v : A) :
  0 <= n -> arr_is (alloc n v) n (fun _ => v).
Proof.
  intros Hn; split; [now apply zlen_alloc|].
  intros i Hi; now apply rd_alloc.
Qed.

Lemma arr_is_self {A : Type} (a : list A) (d : A) :
  arr_is a (zlen a) (fun i => nth (Z.to_nat i) a d).
Proof.
  split; [reflexivity|].
  intros i Hi; unfold rd, zlen in *.
  destruct (Z.ltb_spec i 0); [lia|].
  apply nth_error_nth'; lia.
Qed.

(** ** Loops *)

Lemma foldM_app {A St : Type} (body : A -> St -> option St) (l1 l2 : list A) (s : St) :
  foldM body (l1 ++ l2) s = s' <- foldM body l1 s ;; foldM body l2 s'.
Proof.
  revert s; induction l1 as [|a t IH]; intros s; simpl; auto.
  destruct (body a s); simpl; auto.
Qed.

Lemma foldM_ext_in {A St : Type} (f g : A -> St -> option St) (l : list A) (s : St) :
  (forall a s, In a l -> f a s = g a s) -> foldM f l s = foldM g l s.
Proof.
  revert s; induction l as [|a t IH]; intros s Hfg; simpl; auto.
  rewrite Hfg by (left; auto).
  destruct (g a s); simpl; auto.
  apply IH; intros; apply Hfg; right; auto.
Qed.

Lemma foldM_map {A B St : Type} (h : A -> B) (f : B -> St -> option St)
  (l : list A) (s : St) :
  foldM f (map h l) s = foldM (fun a => f (h a)) l s.
Proof.
  revert s; induction l as [|a t IH]; intros s; simpl; auto.
  destruct (f (h a) s); simpl; auto.
Qed.

Lemma foldM_flat_map {A B St : Type} (h : A -> list B) (f : B -> St -> option St)
  (l : list A) (s : St) :
  foldM f (flat_map h l) s = foldM (fun a s => foldM f (h a) s) l s.
Proof.
  revert s; induction l as [|a t IH]; intros s; simpl; auto.
  rewrite foldM_app.
  destruct (foldM f (h a) s); simpl; auto.
Qed.

(** A loop whose body skips the iterations failing [p]. *)
Lemma foldM_filter {A St : Type} (p : A -> bool) (f : A -> St -> option St)
  (l : list A) (s : St) :
  foldM (fun a s => if p a then f a s else Some s) l s = foldM f (filter p l) s.
Proof.
  revert s; induction l as [|a t IH]; intros s; simpl; auto.
  destruct (p a); simpl; auto.
  destruct (f a s); simpl; auto.
Qed.

(** Invariant rule for a fold: [I done s] is kept by every iteration. *)
Lemma foldM_inv {A St : Type} (I : list A -> St -> Prop)
  (body : A -> St -> option St) (l : list A) :
  (forall done a todo s, l = done ++ a :: todo -> I done s ->
     exists s', body a s = Some s' /\ I (done ++ [a]) s') ->
  forall s, I [] s -> exists s', foldM body l s = Some s' /\ I l s'.
Proof.
  intros Hstep.
  assert (G : forall todo done s, l = done ++ todo -> I done s ->
            exists s', foldM body todo s = Some s' /\ I l s').
  { induction todo as [|a t IH]; intros done s Hl HI; simpl.
    - rewrite app_nil_r in Hl; subst; eauto.
    - destruct (Hstep done a t s Hl HI) as (s' & Hb & HI').
      rewrite Hb; simpl.
      apply (IH (done ++ [a])); auto.
      now rewrite <- app_assoc. }
  intros s HI; apply (G l [] s); auto.
Qed.

Lemma zrange_length (lo : Z) (n : nat) : length (zrange lo n) = n.
Proof. revert lo; induction n; intros; simpl; auto. Qed.

Lemma zrange_snoc (lo : Z) (n : nat) :
  zrange lo (S n) = zrange lo n ++ [lo + Z.of_nat n].
Proof.
  revert lo; induction n as [|n IH]; intros lo.
  - simpl; f_equal; lia.
  - change (zrange lo (S (S n))) with (lo :: zrange (lo + 1) (S n)).
    rewrite IH; simpl; do 3 f_equal; lia.
Qed.

Lemma in_zrange (lo : Z) (n : nat) (i : Z) :
  In i (zrange lo n) <-> lo <= i < lo + Z.of_nat n.
Proof.
  revert lo; induction n as [|n IH]; intros lo; simpl.
  - lia.
  - rewrite IH; lia.
Qed.

Lemma in_zseq (n i : Z) : In i (zseq n) <-> 0 <= i < n.
Proof. unfold zseq; rewrite in_zrange; lia. Qed.

Lemma zseq_length (n : Z) : 0 <= n -> zlen (zseq n) = n.
Proof. intros; unfold zlen, zseq; rewrite zrange_length; lia. Qed.

Lemma nth_error_zrange (lo : Z) (n k : nat) :
  (k < n)%nat -> nth_error (zrange lo n) k = Some (lo + Z.of_nat k).
Proof.
  revert lo k; induction n as [|n IH]; intros lo [|k] Hk; simpl; try lia.
  - f_equal; lia.
  - rewrite IH by lia; f_equal; lia.
Qed.

Lemma NoDup_zrange (lo : Z) (n : nat) : NoDup (zrange lo n).
Proof.
  revert lo; induction n as [|n IH]; intros lo; simpl; constructor; auto.
  rewrite in_zrange; lia.
Qed.

(** Invariant rule for an ascending [for] loop. *)
Lemma forZ_inv {St : Type} (I : Z -> St -> Prop) (lo hi : Z)
  (body : Z -> St -> option St) (s : St) :
  lo <= hi -> I lo s ->
  (forall i s, lo <= i < hi -> I i s ->
     exists s', body i s = Some s' /\ I (i + 1) s') ->
  exists s', forZ lo hi body s = Some s' /\ I hi s'.
Proof.
  intros Hle H0 Hstep; unfold forZ.
  assert (G : forall n : nat, lo + Z.of_nat n <= hi ->
            exists s', foldM body (zrange lo n) s = Some s' /\
                       I (lo + Z.of_nat n) s').
  { induction n as [|n IH]; intros Hn.
    - simpl; exists s; split; auto. now rewrite Z.add_0_r.
    - destruct IH as (s1 & E1 & I1); [lia|].
      rewrite zrange_snoc, foldM_app, E1; cbn [obind foldM].
      destruct (Hstep (lo + Z.of_nat n) s1) as (s2 & E2 & I2); [lia|auto|].
      rewrite E2; cbn [obind]; exists s2; split; auto.
      now replace (lo + Z.of_nat (S n)) with (lo + Z.of_nat n + 1) by lia. }
  destruct (G (Z.to_nat (hi - lo))) as (s' & E & HI); [lia|].
  exists s'; split; auto.
  now replace (lo + Z.of_nat (Z.to_nat (hi - lo))) with hi in HI by lia.
Qed.

(** Invariant rule for a descending [for] loop. *)
Lemma forZ_down_inv {St : Type} (I : Z -> St -> Prop) (hi lo : Z)
  (body : Z -> St -> option St) (s : St) :
  lo <= hi -> I hi s ->
  (forall i s, lo < i <= hi -> I i s ->
     exists s', body i s = Some s' /\ I (i - 1) s') ->
  exists s', forZ_down hi lo body s = Some s' /\ I lo s'.
Proof.
  intros Hle H0 Hstep; unfold forZ_down.
  assert (G : forall (n : nat) (b : Z) (s : St), lo <= b -> I (b + Z.of_nat n) s ->
            b + Z.of_nat n <= hi ->
            exists s', foldM body (rev (zrange (b + 1) n)) s = Some s' /\ I b s').
  { induction n as [|n IH]; intros b s0 Hb HI Hhi.
    - simpl in *; exists s0; split; auto. now rewrite Z.add_0_r in HI.
    - rewrite zrange_snoc, rev_app_distr; cbn [rev app foldM].
      destruct (Hstep (b + 1 + Z.of_nat n) s0) as (s1 & E1 & I1); [lia| |].
      { now replace (b + 1 + Z.of_nat n) with (b + Z.of_nat (S n)) by lia. }
      rewrite E1; cbn [obind].
      apply IH; auto; [|lia].
      now replace (b + Z.of_nat n) with (b + 1 + Z.of_nat n - 1) by lia. }
  apply (G (Z.to_nat (hi - lo)) lo s); auto; try lia.
  now replace (lo + Z.of_nat (Z.to_nat (hi - lo))) with hi by lia.
Qed.

Lemma foldM_pairs {St : Type} (body : Z -> Z -> St -> option St)
  (l1 l2 : list Z) (s : St) :
  foldM (fun a s => foldM (body a) l2 s) l1 s =
  foldM (fun ab s => body (fst ab) (snd ab) s) (pairs l1 l2) s.
Proof.
  unfold pairs; rewrite foldM_flat_map.
  apply foldM_ext_in; intros a s' _.
  now rewrite foldM_map.
Qed.

Lemma in_pairs (l1 l2 : list Z) (a b : Z) :
  In (a, b) (pairs l1 l2) <-> In a l1 /\ In b l2.
Proof.
  unfold pairs; rewrite in_flat_map; split.
  - intros (x & Hx & Hin); apply in_map_iff in Hin as (y & E & Hy).
    inversion E; subst; auto.
  - intros [Ha Hb]; exists a; split; auto. now apply in_map.
Qed.

Lemma forZ_0 {St : Type} (n : Z) (body : Z -> St -> option St) (s : St) :
  forZ 0 n body s = foldM body (zseq n) s.
Proof. unfold forZ, zseq; now rewrite Z.sub_0_r. Qed.

(** An array that was allocated and never written has its size. *)
Lemma zlen_uninit (content : Z -> Z) (n : Z) :
  zlen (uninit content n) = Z.max 0 n.
Proof.
  unfold uninit, zlen; rewrite length_map; fold (zlen (zseq n)).
  destruct (Z.le_gt_cases 0 n) as [Hn|Hn].
  - rewrite zseq_length by lia; lia.
  - unfold zseq, zlen; rewrite zrange_length; lia.
Qed.

Lemma zlen_uninit_nonneg (content : Z -> Z) (n : Z) :
  0 <= n -> zlen (uninit content n) = n.
Proof. intros; rewrite zlen_uninit; lia. Qed.

(** ** Face-dof permutations *)

(** C10: the permutation used for the normal-derivative restriction is the
    same function as the one used for the value restriction, index by index,
    and so are their dimension dispatchers on every 2D input. *)
Theorem PermuteDFaceDNorm2D_eq_PermuteFace2D :
  (forall face_id1 face_id2 orientation size1d index,
     PermuteDFaceDNorm2D face_id1 face_id2 orientation size1d index =
     PermuteFace2D face_id1 face_id2 orientation size1d index) /\
  (forall face_id1 face_id2 orientation size1d index,
     PermuteDFaceDNormL2 2 face_id1 face_id2 orientation size1d index =
     PermuteFaceL2 2 face_id1 face_id2 orientation size1d index).
Proof.
  split; intros; reflexivity.
Qed.

Lemma PermuteFace2D_range f1 f2 o s i :
  0 <= i < s -> 0 <= PermuteFace2D f1 f2 o s i < s.
Proof.
  intros Hi; unfold PermuteFace2D, ToLexOrdering2D.
  destruct ((f1 =? 2) || (f1 =? 3)), (o =? 1), ((f2 =? 2) || (f2 =? 3)); lia.
Qed.

Lemma PermuteFace2D_inj f1 f2 o s i i' :
  PermuteFace2D f1 f2 o s i = PermuteFace2D f1 f2 o s i' -> i = i'.
Proof.
  unfold PermuteFace2D, ToLexOrdering2D.
  destruct ((f1 =? 2) || (f1 =? 3)), (o =? 1), ((f2 =? 2) || (f2 =? 3)); lia.
Qed.

(** In 2D the permutation is its own inverse. *)
Lemma PermuteFace2D_surj f1 f2 o s k :
  0 <= k < s ->
  exists i, 0 <= i < s /\ PermuteFace2D f1 f2 o s i = k.
Proof.
  intros Hk.
  exists (if xorb (xorb ((f1 =? 2) || (f1 =? 3)) (o =? 1)) ((f2 =? 2) || (f2 =? 3))
          then s - 1 - k else k).
  unfold PermuteFace2D, ToLexOrdering2D.
  destruct ((f1 =? 2) || (f1 =? 3)), (o =? 1), ((f2 =? 2) || (f2 =? 3));
    simpl; lia.
Qed.

Lemma lex_pair_inj (s a b a' b' : Z) :
  0 <= a < s -> 0 <= a' < s -> a + b * s = a' + b' * s -> a = a' /\ b = b'.
Proof.
  intros Ha Ha' E.
  assert (b = b') by nia.
  subst; lia.
Qed.

Lemma lex_split (s k : Z) :
  1 <= s -> 0 <= k < s * s ->
  in_square s (Z.rem k s, Z.quot k s) /\ k = Z.rem k s + Z.quot k s * s.
Proof.
  intros Hs Hk.
  rewrite Z.rem_mod_nonneg, Z.quot_div_nonneg by lia.
  pose proof (Z.mod_pos_bound k s ltac:(lia)).
  pose proof (Z.div_mod k s ltac:(lia)).
  assert (0 <= k / s) by (apply Z.div_pos; lia).
  assert (k / s < s) by (apply Z.div_lt_upper_bound; lia).
  unfold in_square; simpl; lia.
Qed.

Lemma lex_join (s i j : Z) :
  1 <= s -> 0 <= i < s -> 0 <= j ->
  Z.rem (i + j * s) s = i /\ Z.quot (i + j * s) s = j.
Proof.
  intros Hs Hi Hj.
  rewrite Z.rem_mod_nonneg, Z.quot_div_nonneg by nia.
  rewrite Z.mod_add, Z.div_add by lia.
  rewrite Z.mod_small, Z.div_small by lia; lia.
Qed.

Lemma FromLex3D_square f s ij : in_square s ij -> in_square s (FromLex3D f s ij).
Proof.
  destruct ij as [i j]; unfold in_square, FromLex3D; simpl; intros.
  destruct ((f =? 3) || (f =? 4)); [|destruct (f =? 0)]; simpl; lia.
Qed.

Lemma FromLex3D_involutive f s ij : FromLex3D f s (FromLex3D f s ij) = ij.
Proof.
  destruct ij as [i j]; unfold FromLex3D.
  destruct ((f =? 3) || (f =? 4)) eqn:E1; [|destruct (f =? 0) eqn:E2];
    cbn [fst snd]; rewrite ?E1, ?E2; f_equal; lia.
Qed.

Ltac orient_cases o H :=
  assert (o = 0 \/ o = 1 \/ o = 2 \/ o = 3 \/ o = 4 \/ o = 5 \/ o = 6 \/ o = 7)
    as H by lia;
  repeat (destruct H as [H|H]); subst o.

Lemma Orient3D_square o s ij :
  0 <= o < 8 -> in_square s ij -> in_square s (Orient3D o s ij).
Proof.
  intros Ho; destruct ij as [i j]; unfold in_square; simpl; intros.
  orient_cases o Ho'; simpl; lia.
Qed.

Lemma Orient3D_inv_range o : 0 <= o < 8 -> 0 <= Orient3D_inv o < 8.
Proof. intros Ho; orient_cases o Ho'; simpl; lia. Qed.

Lemma Orient3D_inv_left o s ij :
  0 <= o < 8 -> Orient3D (Orient3D_inv o) s (Orient3D o s ij) = ij.
Proof.
  intros Ho; destruct ij as [i j].
  orient_cases o Ho'; simpl; f_equal; lia.
Qed.

Lemma Orient3D_inv_right o s ij :
  0 <= o < 8 -> Orient3D o s (Orient3D (Orient3D_inv o) s ij) = ij.
Proof.
  intros Ho; destruct ij as [i j].
  orient_cases o Ho'; simpl; f_equal; lia.
Qed.

Lemma ToLexOrdering3D_range f s i j :
  in_square s (i, j) -> 0 <= ToLexOrdering3D f s i j < s * s.
Proof.
  unfold in_square, ToLexOrdering3D; simpl; intros.
  destruct ((f =? 2) || (f =? 1) || (f =? 5));
    [|destruct ((f =? 3) || (f =? 4))]; nia.
Qed.

Lemma ToLexOrdering3D_inj f s i j i' j' :
  in_square s (i, j) -> in_square s (i', j') ->
  ToLexOrdering3D f s i j = ToLexOrdering3D f s i' j' -> (i, j) = (i', j').
Proof.
  unfold in_square, ToLexOrdering3D; simpl; intros H1 H2 E.
  destruct ((f =? 2) || (f =? 1) || (f =? 5));
    [|destruct ((f =? 3) || (f =? 4))];
    apply lex_pair_inj in E; try lia; f_equal; lia.
Qed.

Lemma ToLexOrdering3D_surj f s k :
  1 <= s -> 0 <= k < s * s ->
  exists i j, in_square s (i, j) /\ ToLexOrdering3D f s i j = k.
Proof.
  intros Hs Hk.
  destruct (lex_split s k Hs Hk) as [[Ha Hb] E]; simpl in Ha, Hb.
  unfold ToLexOrdering3D, in_square.
  destruct ((f =? 2) || (f =? 1) || (f =? 5));
    [|destruct ((f =? 3) || (f =? 4))].
  - exists (Z.rem k s), (Z.quot k s); simpl; lia.
  - exists (s - 1 - Z.rem k s), (Z.quot k s); simpl; lia.
  - exists (Z.rem k s), (s - 1 - Z.quot k s); simpl; lia.
Qed.

(** [PermuteFace3D] as the composition of its three stages. *)
Lemma PermuteFace3D_stages f1 f2 o s index :
  PermuteFace3D f1 f2 o s index =
  let ij := Orient3D o s (FromLex3D f1 s (Z.rem index s, Z.quot index s)) in
  ToLexOrdering3D f2 s (fst ij) (snd ij).
Proof.
  unfold PermuteFace3D.
  destruct (FromLex3D f1 s (Z.rem index s, Z.quot index s)) as [i j].
  destruct (Orient3D o s (i, j)) as [ni nj]; reflexivity.
Qed.

Lemma PermuteFace3D_range f1 f2 o s i :
  1 <= s -> 0 <= o < 8 -> 0 <= i < s * s ->
  0 <= PermuteFace3D f1 f2 o s i < s * s.
Proof.
  intros Hs Ho Hi; rewrite PermuteFace3D_stages; cbv zeta.
  apply ToLexOrdering3D_range.
  rewrite <- surjective_pairing.
  apply Orient3D_square, FromLex3D_square; auto.
  now apply lex_split.
Qed.

Lemma PermuteFace3D_inj f1 f2 o s i i' :
  1 <= s -> 0 <= o < 8 -> 0 <= i < s * s -> 0 <= i' < s * s ->
  PermuteFace3D f1 f2 o s i = PermuteFace3D f1 f2 o s i' -> i = i'.
Proof.
  intros Hs Ho Hi Hi'; rewrite !PermuteFace3D_stages; cbv zeta; intros E.
  destruct (lex_split s i Hs Hi) as [Sq Ei].
  destruct (lex_split s i' Hs Hi') as [Sq' Ei'].
  apply ToLexOrdering3D_inj in E;
    try (rewrite <- surjective_pairing;
         apply Orient3D_square, FromLex3D_square; auto).
  rewrite <- !surjective_pairing in E.
  apply (f_equal (Orient3D (Orient3D_inv o) s)) in E.
  rewrite !Orient3D_inv_left in E by assumption.
  apply (f_equal (FromLex3D f1 s)) in E.
  rewrite !FromLex3D_involutive in E.
  inversion E; lia.
Qed.

Lemma PermuteFace3D_surj f1 f2 o s k :
  1 <= s -> 0 <= o < 8 -> 0 <= k < s * s ->
  exists i, 0 <= i < s * s /\ PermuteFace3D f1 f2 o s i = k.
Proof.
  intros Hs Ho Hk.
  destruct (ToLexOrdering3D_surj f2 s k Hs Hk) as (a & b & Sq & E).
  pose (ij := FromLex3D f1 s (Orient3D (Orient3D_inv o) s (a, b))).
  assert (Sq' : in_square s ij).
  { apply FromLex3D_square, Orient3D_square; auto using Orient3D_inv_range. }
  exists (fst ij + snd ij * s).
  destruct Sq' as [Hi Hj].
  destruct (lex_join s (fst ij) (snd ij)) as [Er Eq]; try lia.
  split; [nia|].
  rewrite PermuteFace3D_stages, Er, Eq; cbv zeta.
  rewrite <- surjective_pairing; unfold ij.
  now rewrite FromLex3D_involutive, Orient3D_inv_right.
Qed.

(** C5: on a 2D or 3D tensor mesh, for every pair of face ids, every
    orientation code and every [size1d >= 1], [PermuteFaceL2] maps the
    face-dof index set [[0, size1d^(dim-1))] one-to-one onto itself. *)
Theorem PermuteFaceL2_bijection dim face_id1 face_id2 orientation size1d :
  face_codes dim face_id1 face_id2 orientation ->
  1 <= size1d ->
  bijective_on (size1d ^ (dim - 1))
    (PermuteFaceL2 dim face_id1 face_id2 orientation size1d).
Proof.
  intros [(-> & _ & _ & _) | (-> & _ & _ & Ho)] Hs; unfold bijective_on.
  - replace (size1d ^ (2 - 1)) with size1d by (simpl; lia).
    cbn [PermuteFaceL2]; repeat split.
    + intros i Hi; eexists; split; [reflexivity|].
      now apply PermuteFace2D_range.
    + intros i i' k _ _ E E'; rewrite <- E' in E; inversion E.
      eapply PermuteFace2D_inj; eauto.
    + intros k Hk.
      destruct (PermuteFace2D_surj face_id1 face_id2 orientation size1d k Hk)
        as (i & Hi & E).
      exists i; split; auto; now rewrite E.
  - replace (size1d ^ (3 - 1)) with (size1d * size1d) by (simpl; lia).
    cbn [PermuteFaceL2]; repeat split.
    + intros i Hi; eexists; split; [reflexivity|].
      now apply PermuteFace3D_range.
    + intros i i' k Hi Hi' E E'; rewrite <- E' in E; inversion E.
      eapply PermuteFace3D_inj; eauto.
    + intros k Hk.
      destruct (PermuteFace3D_surj face_id1 face_id2 orientation size1d k Hs Ho Hk)
        as (i & Hi & E).
      exists i; split; auto; now rewrite E.
Qed.

Lemma PermuteFaceL2_bijection_witness :
  bijective_on (3 ^ (3 - 1)) (PermuteFaceL2 3 0 3 2 3).
Proof.
  apply PermuteFaceL2_bijection.
  - right; lia.
  - lia.
Defined.

(** ** Counting sort *)

Lemma countZ_cons g k l :
  countZ g (k :: l) = (if k =? g then 1 else 0) + countZ g l.
Proof.
  unfold countZ; simpl.
  destruct (Z.eq_dec k g), (Z.eqb_spec k g); try congruence; lia.
Qed.

Lemma countZ_app g l1 l2 : countZ g (l1 ++ l2) = countZ g l1 + countZ g l2.
Proof. unfold countZ; rewrite count_occ_app; lia. Qed.

Lemma countZ_nonneg g l : 0 <= countZ g l.
Proof. unfold countZ; lia. Qed.

Lemma countZ_absent g l : ~ In g l -> countZ g l = 0.
Proof.
  intros Hn; unfold countZ.
  rewrite (proj1 (count_occ_not_In Z.eq_dec l g) Hn); reflexivity.
Qed.

Lemma countZ_perm g l l' : Permutation l l' -> countZ g l = countZ g l'.
Proof.
  intros P; unfold countZ.
  now rewrite (proj1 (Permutation_count_occ Z.eq_dec l l') P g).
Qed.

Lemma below_cons g k l :
  below g (k :: l) = (if k <? g then 1 else 0) + below g l.
Proof. unfold below; cbn [filter]; destruct (k <? g); cbn [length]; lia. Qed.

Lemma below_nonneg g l : 0 <= below g l.
Proof. unfold below; lia. Qed.

Lemma below_succ g l : below (g + 1) l = below g l + countZ g l.
Proof.
  induction l as [|k t IH]; [reflexivity|].
  rewrite !below_cons, countZ_cons, IH.
  destruct (Z.ltb_spec k (g + 1)), (Z.ltb_spec k g), (Z.eqb_spec k g); lia.
Qed.

Lemma below_mono g g' l : g <= g' -> below g l <= below g' l.
Proof.
  intros Hg; induction l as [|k t IH]; [reflexivity|].
  rewrite !below_cons.
  destruct (Z.ltb_spec k g), (Z.ltb_spec k g'); lia.
Qed.

Lemma below_low g l : Forall (fun k => g <= k) l -> below g l = 0.
Proof.
  induction 1 as [|k t Hk _ IH]; [reflexivity|].
  rewrite below_cons, IH; destruct (Z.ltb_spec k g); lia.
Qed.

Lemma below_high g l : Forall (fun k => k < g) l -> below g l = zlen l.
Proof.
  induction 1 as [|k t Hk _ IH]; [reflexivity|].
  rewrite below_cons, IH; unfold zlen; simpl length.
  destruct (Z.ltb_spec k g); lia.
Qed.

Lemma below_perm g l l' : Permutation l l' -> below g l = below g l'.
Proof.
  induction 1 as [|x l l' _ IH|x y l|l l' l'' _ IH1 _ IH2].
  - reflexivity.
  - now rewrite !below_cons, IH.
  - rewrite !below_cons; lia.
  - congruence.
Qed.

Lemma firstn_snoc_nth (l : list Z) (k : nat) :
  (k < length l)%nat -> firstn (S k) l = firstn k l ++ [nth k l 0].
Proof.
  revert k; induction l as [|a t IH]; intros [|k] Hk; simpl in *; try lia; auto.
  f_equal; apply IH; lia.
Qed.

Lemma countZ_firstn_le g (l : list Z) (k k' : nat) :
  (k <= k')%nat -> countZ g (firstn k l) <= countZ g (firstn k' l).
Proof.
  revert k k'; induction l as [|a t IH]; intros [|k] [|k'] Hk; simpl;
    try lia; try apply countZ_nonneg.
  rewrite !countZ_cons.
  specialize (IH k k' ltac:(lia)); lia.
Qed.

Lemma countZ_firstn_lt (l : list Z) (k k' : nat) :
  (k < k')%nat -> (k < length l)%nat ->
  countZ (nth k l 0) (firstn k l) + 1 <= countZ (nth k l 0) (firstn k' l).
Proof.
  intros Hk Hl.
  pose proof (countZ_firstn_le (nth k l 0) l (S k) k' ltac:(lia)) as Hle.
  rewrite firstn_snoc_nth, countZ_app, countZ_cons, Z.eqb_refl in Hle by assumption.
  unfold countZ in Hle at 2; simpl in Hle; lia.
Qed.

Lemma countZ_firstn_total g (l : list Z) (k : nat) :
  countZ g (firstn k l) <= countZ g l.
Proof.
  rewrite <- (firstn_skipn k l) at 2.
  rewrite countZ_app; pose proof (countZ_nonneg g (skipn k l)); lia.
Qed.

Lemma countZ_firstn_lt_total (l : list Z) (k : nat) :
  (k < length l)%nat ->
  countZ (nth k l 0) (firstn k l) + 1 <= countZ (nth k l 0) l.
Proof.
  intros Hl.
  pose proof (countZ_firstn_lt l k (length l) Hl Hl) as Hlt.
  now rewrite firstn_all in Hlt.
Qed.

(** A key's position lies in the bucket of the key. *)
Lemma pos_bucket keys k :
  (k < length keys)%nat ->
  below (nth k keys 0) keys <= pos keys k < below (nth k keys 0 + 1) keys.
Proof.
  intros Hk; unfold pos; rewrite below_succ.
  pose proof (countZ_firstn_lt_total keys k Hk).
  pose proof (countZ_nonneg (nth k keys 0) (firstn k keys)); lia.
Qed.

Lemma pos_range n keys k :
  Forall (fun g => 0 <= g < n) keys -> (k < length keys)%nat ->
  0 <= pos keys k < zlen keys.
Proof.
  intros Hr Hk.
  pose proof (pos_bucket keys k Hk) as Hb.
  pose proof (below_nonneg (nth k keys 0) keys).
  assert (Hg : 0 <= nth k keys 0 < n).
  { rewrite Forall_forall in Hr; apply Hr, nth_In; auto. }
  pose proof (below_mono (nth k keys 0 + 1) n keys ltac:(lia)).
  rewrite (below_high n keys) in *; [lia|].
  eapply Forall_impl; [|exact Hr]; simpl; intros; lia.
Qed.

Lemma pos_lt keys k k' :
  (k < k')%nat -> (k' < length keys)%nat -> pos keys k <> pos keys k'.
Proof.
  intros Hk Hk'.
  pose proof (pos_bucket keys k ltac:(lia)) as B.
  pose proof (pos_bucket keys k' Hk') as B'.
  destruct (Z.lt_trichotomy (nth k keys 0) (nth k' keys 0)) as [Hl|[He|Hg]].
  - pose proof (below_mono (nth k keys 0 + 1) (nth k' keys 0) keys ltac:(lia)).
    lia.
  - pose proof (countZ_firstn_lt keys k k' Hk ltac:(lia)) as Hc.
    unfold pos; rewrite <- He; lia.
  - pose proof (below_mono (nth k' keys 0 + 1) (nth k keys 0) keys ltac:(lia)).
    lia.
Qed.

Lemma pos_inj keys k k' :
  (k < length keys)%nat -> (k' < length keys)%nat ->
  pos keys k = pos keys k' -> k = k'.
Proof.
  intros Hk Hk' E.
  destruct (Nat.lt_trichotomy k k') as [Hl|[He|Hg]]; auto.
  - exfalso; eapply pos_lt; eauto.
  - exfalso; eapply (pos_lt keys k' k); eauto.
Qed.

(** The positions of the keys are the numbers below their count. *)
Lemma pos_perm n keys :
  Forall (fun g => 0 <= g < n) keys ->
  Permutation (map (pos keys) (seq 0 (length keys))) (zrange 0 (length keys)).
Proof.
  intros Hr.
  apply NoDup_Permutation_bis.
  - apply Finite.Injective_map_NoDup_in; [|apply seq_NoDup].
    intros a b Ha Hb; rewrite in_seq in Ha, Hb.
    apply pos_inj; lia.
  - rewrite length_map, length_seq, zrange_length; lia.
  - intros p Hp; apply in_map_iff in Hp as (k & <- & Hk).
    rewrite in_seq in Hk; rewrite in_zrange.
    pose proof (pos_range n keys k Hr ltac:(lia)); unfold zlen in *; lia.
Qed.

(** Every position is taken by some key. *)
Lemma pos_onto n keys j :
  Forall (fun g => 0 <= g < n) keys -> 0 <= j < zlen keys ->
  exists k, (k < length keys)%nat /\ pos keys k = j.
Proof.
  intros Hr Hj.
  assert (Hin : In j (map (pos keys) (seq 0 (length keys)))).
  { eapply Permutation_in; [symmetry; exact (pos_perm n keys Hr)|].
    rewrite in_zrange; unfold zlen in Hj; lia. }
  apply in_map_iff in Hin as (k & E & Hk).
  rewrite in_seq in Hk; exists k; split; auto; lia.
Qed.

(** A position lies in bucket [g] exactly when its key is [g]. *)
Lemma pos_bucket_iff keys k g :
  (k < length keys)%nat ->
  below g keys <= pos keys k < below (g + 1) keys <-> g = nth k keys 0.
Proof.
  intros Hk; pose proof (pos_bucket keys k Hk) as B; split.
  - intros Hb.
    destruct (Z.lt_trichotomy g (nth k keys 0)) as [Hl|[He|Hg]]; auto.
    + pose proof (below_mono (g + 1) (nth k keys 0) keys ltac:(lia)); lia.
    + pose proof (below_mono (nth k keys 0 + 1) g keys ltac:(lia)); lia.
  - intros ->; exact B.
Qed.

(** Perform the next write of the goal on an array described by [HI]. *)
Ltac step_wr HI s' Hs' :=
  match goal with
  | |- context [wr ?a ?i ?v] =>
      let Hw := fresh "Hw" in
      destruct (arr_is_wr a _ _ i v HI ltac:(lia)) as (s' & Hw & Hs');
      rewrite Hw; cbn [obind]
  end.

Lemma bump_pass n keys :
  Forall (fun g => 0 <= g < n) keys ->
  forall off f, arr_is off (n + 1) f ->
  exists off', foldM bump keys off = Some off' /\
               arr_is off' (n + 1) (fun i => f i + countZ (i - 1) keys).
Proof.
  induction 1 as [|g t Hg _ IH]; intros off f Ha.
  - exists off; split; [reflexivity|].
    eapply arr_is_ext; [exact Ha|]; intros; unfold countZ; simpl; lia.
  - cbn [foldM]; unfold bump at 1.
    rewrite (arr_is_rd _ _ _ (g + 1) Ha) by lia; cbn [obind].
    destruct (arr_is_wr off (n + 1) f (g + 1) (f (g + 1) + 1) Ha ltac:(lia))
      as (off1 & -> & Ha1); cbn [obind].
    destruct (IH off1 _ Ha1) as (off' & -> & Ha').
    exists off'; split; [reflexivity|].
    eapply arr_is_ext; [exact Ha'|]; intros i Hi; cbv beta.
    rewrite countZ_cons.
    destruct (Z.eqb_spec i (g + 1)), (Z.eqb_spec g (i - 1)); subst; lia.
Qed.

Lemma prefix_pass n keys off :
  0 <= n -> Forall (fun g => 0 <= g) keys ->
  arr_is off (n + 1) (fun i => countZ (i - 1) keys) ->
  exists off', forZ 1 (n + 1) prefix_sum off = Some off' /\
               arr_is off' (n + 1) (fun i => below i keys).
Proof.
  intros Hn Hk Ha.
  destruct (forZ_inv
    (fun i off => arr_is off (n + 1)
       (fun g => if g <? i then below g keys else countZ (g - 1) keys))
    1 (n + 1) prefix_sum off) as (off' & E & HI); try lia.
  - eapply arr_is_ext; [exact Ha|]; intros i Hi; cbv beta.
    destruct (Z.ltb_spec i 1); auto.
    assert (i = 0) by lia; subst.
    rewrite below_low by assumption.
    apply countZ_absent; intros Hin.
    rewrite Forall_forall in Hk; apply Hk in Hin; lia.
  - intros i s Hi HI; unfold prefix_sum.
    rewrite (arr_is_rd _ _ _ i HI), (arr_is_rd _ _ _ (i - 1) HI) by lia.
    cbn [obind].
    destruct (Z.ltb_spec i i); [lia|].
    destruct (Z.ltb_spec (i - 1) i); [|lia].
    step_wr HI s' Hs'.
    exists s'; split; [reflexivity|].
    eapply arr_is_ext; [exact Hs'|]; intros g Hg; cbv beta.
    destruct (Z.eqb_spec g i), (Z.ltb_spec g (i + 1)), (Z.ltb_spec g i);
      subst; try lia.
    replace i with (i - 1 + 1) at 3 by lia.
    rewrite below_succ; lia.
  - exists off'; split; auto.
    eapply arr_is_ext; [exact HI|]; intros g Hg; cbv beta.
    destruct (Z.ltb_spec g (n + 1)); auto; lia.
Qed.

Lemma place_pass n (items : list (Z * Z)) off ind :
  let keys := map fst items in
  Forall (fun g => 0 <= g < n) keys ->
  arr_is off (n + 1) (fun g => below g keys) ->
  zlen ind = zlen items ->
  exists off' ind',
    foldM place items (off, ind) = Some (off', ind') /\
    arr_is off' (n + 1) (fun g => below (g + 1) keys) /\
    zlen ind' = zlen items /\
    forall k, (k < length items)%nat ->
      rd ind' (pos keys k) = Some (nth k (map snd items) 0).
Proof.
  intros keys Hr Ha Hl.
  assert (Hlen : length keys = length items) by (unfold keys; apply length_map).
  destruct (foldM_inv
    (fun done (st : list Z * list Z) =>
       arr_is (fst st) (n + 1)
         (fun g => below g keys + countZ g (map fst done)) /\
       zlen (snd st) = zlen items /\
       forall k, (k < length done)%nat ->
         rd (snd st) (pos keys k) = Some (nth k (map snd items) 0))
    place items) with (s := (off, ind)) as ([off' ind'] & E & HO & HL & HP).
  - intros done [g v] todo [o d] Hsplit (HO & HL & HP); cbn [fst snd] in *.
    assert (Hk : (length done < length keys)%nat).
    { rewrite Hlen, Hsplit, length_app; simpl; lia. }
    assert (Hnth : nth (length done) keys 0 = g).
    { unfold keys; rewrite Hsplit, map_app, app_nth2; rewrite length_map; [|lia].
      now rewrite Nat.sub_diag. }
    assert (Hfirst : firstn (length done) keys = map fst done).
    { unfold keys; rewrite Hsplit, map_app.
      rewrite <- (length_map fst done), firstn_app, Nat.sub_diag, firstn_all.
      simpl; now rewrite app_nil_r. }
    assert (Hp : pos keys (length done) = below g keys + countZ g (map fst done)).
    { unfold pos; now rewrite Hnth, Hfirst. }
    assert (Hg : 0 <= g < n).
    { rewrite Forall_forall in Hr; apply Hr; rewrite <- Hnth; apply nth_In; auto. }
    pose proof (pos_range n keys (length done) Hr Hk) as Hpr.
    unfold place; cbn [fst snd].
    rewrite (arr_is_rd _ _ _ g HO) by lia; cbn [obind]; rewrite <- Hp.
    step_wr HO o' HO'.
    rewrite wr_in_range by (unfold zlen in *; lia); cbn [obind].
    eexists; split; [reflexivity|]; cbn [fst snd]; repeat split.
    + apply HO'.
    + intros i Hi; destruct HO' as [_ HO']; rewrite HO' by assumption.
      f_equal; rewrite map_app, countZ_app; cbn [map fst]; rewrite countZ_cons.
      unfold countZ at 3; cbn [count_occ].
      destruct (Z.eqb_spec i g) as [Hig|Hig], (Z.eqb_spec g i); try lia.
      rewrite Hig; lia.
    + now rewrite zlen_upd.
    + intros k Hlt; rewrite length_app in Hlt; simpl in Hlt.
      destruct (Nat.eq_dec k (length done)) as [->|Hne].
      * rewrite rd_upd_same by (unfold zlen in *; lia).
        f_equal; rewrite Hsplit, map_app, app_nth2; rewrite length_map; [|lia].
        now rewrite Nat.sub_diag.
      * rewrite rd_upd_other; [apply HP; lia|lia|].
        apply not_eq_sym, pos_lt; lia.
  - cbn [fst snd]; repeat split; auto.
    + apply Ha.
    + intros i Hi; destruct Ha as [_ Ha]; rewrite Ha by assumption.
      unfold countZ; simpl; f_equal; lia.
    + simpl; intros; lia.
  - exists off', ind'; cbn [fst snd] in *; repeat split; auto.
    + apply HO.
    + intros i Hi; destruct HO as [_ HO]; rewrite HO by assumption.
      now rewrite below_succ.
Qed.

Lemma shift_pass n off f :
  0 <= n -> arr_is off (n + 1) f ->
  exists off', forZ_down n 0 shift_back off = Some off' /\
               arr_is off' (n + 1) (fun i => if i =? 0 then f 0 else f (i - 1)).
Proof.
  intros Hn Ha.
  destruct (forZ_down_inv
    (fun i off => arr_is off (n + 1) (fun g => if i <? g then f (g - 1) else f g))
    n 0 shift_back off) as (off' & E & HI); try lia.
  - eapply arr_is_ext; [exact Ha|]; intros i Hi; cbv beta.
    destruct (Z.ltb_spec n i); auto; lia.
  - intros i s Hi HI; unfold shift_back.
    rewrite (arr_is_rd _ _ _ (i - 1) HI) by lia; cbn [obind].
    destruct (Z.ltb_spec i (i - 1)); [lia|].
    step_wr HI s' Hs'.
    exists s'; split; [reflexivity|].
    eapply arr_is_ext; [exact Hs'|]; intros g Hg; cbv beta.
    destruct (Z.eqb_spec g i), (Z.ltb_spec (i - 1) g), (Z.ltb_spec i g);
      subst; try lia; reflexivity.
  - exists off'; split; auto.
    eapply arr_is_ext; [exact HI|]; intros g Hg; cbv beta.
    destruct (Z.eqb_spec g 0), (Z.ltb_spec 0 g); subst; auto; lia.
Qed.

(** ** Iteration spaces *)

Lemma pairs_snoc (l1 l2 : list Z) (a : Z) :
  pairs (l1 ++ [a]) l2 = pairs l1 l2 ++ map (pair a) l2.
Proof. unfold pairs; rewrite flat_map_app; simpl; now rewrite app_nil_r. Qed.

Lemma map_pairs {B : Type} (g : Z * Z -> B) (l1 l2 : list Z) :
  map g (pairs l1 l2) = flat_map (fun a => map (fun b => g (a, b)) l2) l1.
Proof.
  unfold pairs; induction l1 as [|a t IH]; simpl; auto.
  now rewrite map_app, map_map, IH.
Qed.

Lemma pairs_length (l1 l2 : list Z) :
  length (pairs l1 l2) = (length l1 * length l2)%nat.
Proof.
  unfold pairs; induction l1 as [|a t IH]; simpl; auto.
  now rewrite length_app, length_map, IH.
Qed.

Lemma pairs_zrange_nth (n m : nat) (e d : nat) :
  (e < n)%nat -> (d < m)%nat ->
  nth_error (pairs (zrange 0 n) (zrange 0 m)) (m * e + d)
  = Some (Z.of_nat e, Z.of_nat d).
Proof.
  induction n as [|n IH]; intros He Hd; [lia|].
  rewrite zrange_snoc, pairs_snoc.
  destruct (Nat.eq_dec e n) as [->|Hne].
  - rewrite nth_error_app2; rewrite pairs_length, !zrange_length; [|nia].
    replace (m * n + d - n * m)%nat with d by nia.
    rewrite nth_error_map, nth_error_zrange by assumption.
    reflexivity.
  - rewrite nth_error_app1; [apply IH; lia|].
    rewrite pairs_length, !zrange_length; nia.
Qed.

Lemma pairs_zseq_nth (n m e d : Z) :
  0 <= e < n -> 0 <= d < m ->
  nth_error (pairs (zseq n) (zseq m)) (Z.to_nat (m * e + d)) = Some (e, d).
Proof.
  intros He Hd; unfold zseq.
  replace (Z.to_nat (m * e + d)) with (Z.to_nat m * Z.to_nat e + Z.to_nat d)%nat
    by nia.
  rewrite pairs_zrange_nth by lia.
  f_equal; f_equal; lia.
Qed.

Lemma pairs_zseq_length (n m : Z) :
  0 <= n -> 0 <= m -> zlen (pairs (zseq n) (zseq m)) = n * m.
Proof.
  intros; unfold zlen, zseq; rewrite pairs_length, !zrange_length; nia.
Qed.

Lemma flat_index_split (m k n : Z) :
  0 <= k < n * m -> 0 <= n -> 0 <= m ->
  0 <= k / m < n /\ 0 <= k mod m < m /\ m * (k / m) + k mod m = k.
Proof.
  intros Hk Hn Hm.
  assert (0 < m) by nia.
  pose proof (Z.mod_pos_bound k m ltac:(lia)).
  pose proof (Z.div_mod k m ltac:(lia)).
  assert (0 <= k / m) by (apply Z.div_pos; lia).
  assert (k / m < n) by (apply Z.div_lt_upper_bound; nia).
  lia.
Qed.

Lemma flat_index_join (m e d : Z) :
  0 <= d < m -> (m * e + d) / m = e /\ (m * e + d) mod m = d.
Proof.
  intros Hd.
  replace (m * e + d) with (d + e * m) by lia.
  rewrite Z.div_add, Z.mod_add by lia.
  rewrite Z.div_small, Z.mod_small by lia; lia.
Qed.

Lemma flat_index_quot_rem (m e d : Z) :
  0 <= e -> 0 <= d < m -> Z.quot (m * e + d) m = e /\ Z.rem (m * e + d) m = d.
Proof.
  intros He Hd.
  rewrite Z.quot_div_nonneg, Z.rem_mod_nonneg by nia.
  now apply flat_index_join.
Qed.

Lemma Permutation_flat_map_pointwise {A B : Type} (h h' : A -> list B) (l : list A) :
  (forall a, In a l -> Permutation (h a) (h' a)) ->
  Permutation (flat_map h l) (flat_map h' l).
Proof.
  induction l as [|a t IH]; intros Hp; simpl; auto.
  apply Permutation_app; [apply Hp; now left|].
  apply IH; intros; apply Hp; now right.
Qed.

Lemma map_nth_zseq (m : list Z) :
  map (fun d => nth (Z.to_nat d) m 0) (zseq (zlen m)) = m.
Proof.
  apply nth_error_ext; intros k.
  destruct (Nat.lt_ge_cases k (length m)) as [Hk|Hk].
  - rewrite nth_error_map; unfold zseq, zlen.
    rewrite nth_error_zrange by lia; cbn [option_map].
    rewrite Z.add_0_l, Nat2Z.id.
    symmetry; now apply nth_error_nth'.
  - rewrite (proj2 (nth_error_None m k)) by assumption.
    apply nth_error_None.
    rewrite length_map; unfold zseq, zlen; rewrite zrange_length; lia.
Qed.

(** Filling an array slot by slot, in increasing order. *)
Lemma fill_pass {A : Type} (n : Z) (v : Z -> A) (a : list A) :
  zlen a = n ->
  exists a', foldM (fun k a => wr a k (v k)) (zseq n) a = Some a' /\
             arr_is a' n v.
Proof.
  intros Hl.
  assert (Hn : 0 <= n) by (unfold zlen in Hl; lia).
  rewrite <- forZ_0.
  destruct (forZ_inv
    (fun i a => zlen a = n /\ forall k, 0 <= k < i -> rd a k = Some (v k))
    0 n (fun k a => wr a k (v k)) a) as (a' & E & HL & HI); try lia.
  - split; auto; intros; lia.
  - intros i s Hi [HL HI].
    rewrite wr_in_range by lia.
    eexists; split; [reflexivity|]; split; [now rewrite zlen_upd|].
    intros k Hk; destruct (Z.eq_dec k i) as [->|Hne].
    + apply rd_upd_same; lia.
    + rewrite rd_upd_other by lia; apply HI; lia.
  - exists a'; repeat split; auto.
Qed.

(** A fold over a pair of independent states splits into two folds. *)
Lemma foldM_prod {A S1 S2 : Type} (f : A -> S1 -> option S1)
  (g : A -> S2 -> option S2) (l : list A) (s : S1) (t : S2) :
  foldM (fun a st =>
           s' <- f a (fst st) ;; t' <- g a (snd st) ;; Some (s', t')) l (s, t)
  = s' <- foldM f l s ;; t' <- foldM g l t ;; Some (s', t').
Proof.
  revert s t; induction l as [|a l IH]; intros s t; simpl; auto.
  destruct (f a s) as [s1|]; simpl; auto.
  destruct (g a t) as [t1|]; simpl; auto.
  destruct (foldM f l s1); reflexivity.
Qed.

(** ** Construction of the element restriction *)

Section ElementConstruction.
Variables (f : FiniteElementSpace) (o : ElementDofOrdering).
Hypothesis WF : wf_space f o.

Local Abbreviation n := (GetNDofs f).
Local Abbreviation em := (GetElementToDofTable f).
Local Abbreviation nE := (GetNE f).
Local Abbreviation nd := (er_dof f).

Lemma er_dof_nonneg : 0 <= nd.
Proof.
  unfold er_dof; destruct WF as (_ & _ & Hd & _).
  destruct (GetNE f >? 0); lia.
Qed.

Lemma er_table_length : zlen em = nE * nd.
Proof.
  unfold er_dof; destruct WF as (Hne & _ & _ & Hl & _).
  destruct (Z.gtb_spec (GetNE f) 0); [assumption|].
  rewrite Hl; replace (GetNE f) with 0 by lia; lia.
Qed.

Lemma er_table_rd k :
  0 <= k < nE * nd ->
  rd em k = Some (nth (Z.to_nat k) em 0) /\
  0 <= decode (nth (Z.to_nat k) em 0) < n.
Proof.
  intros Hk; pose proof er_table_length as Hl.
  destruct (arr_is_self em 0) as [_ Hrd].
  split; [apply Hrd; lia|].
  destruct WF as (_ & _ & _ & _ & Hr & _).
  rewrite Forall_forall in Hr; apply Hr, nth_In.
  unfold zlen in Hl; lia.
Qed.

Lemma er_slots_in e d : In (e, d) (er_slots f) <-> 0 <= e < nE /\ 0 <= d < nd.
Proof. unfold er_slots; now rewrite in_pairs, !in_zseq. Qed.

Lemma er_dof_map_perm :
  er_reorder o = true -> 0 < nE ->
  Permutation (map decode (er_dof_map f)) (zseq nd).
Proof.
  intros Hr Hne; destruct o; [discriminate|].
  destruct WF as (_ & _ & _ & _ & _ & Hm).
  destruct (Hm eq_refl) as (m & Em & Pm).
  unfold er_dof_map, er_dof; rewrite Em.
  destruct (Z.gtb_spec (GetNE f) 0); [assumption|lia].
Qed.

Lemma er_dof_map_length :
  er_reorder o = true -> 0 < nE -> zlen (er_dof_map f) = nd.
Proof.
  intros Hr Hne.
  pose proof (Permutation_length (er_dof_map_perm Hr Hne)) as Hl.
  rewrite length_map in Hl; unfold zseq in Hl; rewrite zrange_length in Hl.
  pose proof er_dof_nonneg; unfold zlen; lia.
Qed.

(** The local slots visited by the filling loop are those of the counting
    loop, in another order. *)
Lemma er_did_perm : 0 < nE -> Permutation (map (er_did f o) (zseq nd)) (zseq nd).
Proof.
  intros Hne; unfold er_did, er_sdid.
  destruct (er_reorder o) eqn:Hr; cbn [negb].
  - rewrite <- (er_dof_map_length Hr Hne) at 1.
    rewrite <- (map_map (fun d => nth (Z.to_nat d) (er_dof_map f) 0) decode).
    rewrite map_nth_zseq.
    now apply er_dof_map_perm.
  - now rewrite map_id.
Qed.

Lemma er_did_range d : 0 <= d < nd -> 0 < nE -> 0 <= er_did f o d < nd.
Proof.
  intros Hd Hne; apply in_zseq.
  eapply Permutation_in; [apply (er_did_perm Hne)|].
  apply in_map, in_zseq; assumption.
Qed.

Lemma er_sdid_rd d :
  er_reorder o = true -> 0 <= d < nd -> 0 < nE ->
  rd (er_dof_map f) d = Some (er_sdid f o d).
Proof.
  intros Hr Hd Hne; unfold er_sdid; rewrite Hr.
  destruct (arr_is_self (er_dof_map f) 0) as [_ Hrd].
  apply Hrd; rewrite (er_dof_map_length Hr Hne); lia.
Qed.

Lemma er_sgid_rd e d :
  0 <= e < nE -> 0 <= d < nd ->
  rd em (nd * e + er_did f o d) = Some (er_sgid f o (e, d)) /\
  0 <= decode (er_sgid f o (e, d)) < n.
Proof.
  intros He Hd.
  pose proof (er_did_range d Hd ltac:(lia)).
  unfold er_sgid; cbn [fst snd]; apply er_table_rd; nia.
Qed.

Lemma er_keys_range : Forall (fun g => 0 <= g < n) (er_keys f o).
Proof.
  unfold er_keys; rewrite map_map; apply Forall_forall; intros g Hg.
  apply in_map_iff in Hg as ([e d] & <- & Hin).
  apply er_slots_in in Hin as [He Hd].
  now apply er_sgid_rd.
Qed.

Lemma er_keys_length : zlen (er_keys f o) = nE * nd.
Proof.
  unfold er_keys, zlen; rewrite !length_map.
  apply pairs_zseq_length; [apply WF|apply er_dof_nonneg].
Qed.

Lemma er_count_keys_perm : Permutation (er_count_keys f) (er_keys f o).
Proof.
  unfold er_count_keys, er_keys, er_slots; rewrite map_map, !map_pairs.
  apply Permutation_flat_map_pointwise; intros e He; apply in_zseq in He.
  cbn [fst snd er_item er_sgid].
  rewrite <- (map_map (er_did f o)
    (fun d' => decode (nth (Z.to_nat (nd * e + d')) em 0))).
  symmetry; apply Permutation_map, er_did_perm; lia.
Qed.

Lemma er_count_keys_range : Forall (fun g => 0 <= g < n) (er_count_keys f).
Proof.
  apply Forall_forall; intros g Hg.
  eapply Permutation_in in Hg; [|apply er_count_keys_perm].
  revert g Hg; apply Forall_forall, er_keys_range.
Qed.

Lemma er_init_pass :
  exists off, forZ 0 (n + 1) (fun i off => wr off i 0) (alloc (n + 1) 0) = Some off /\
              arr_is off (n + 1) (fun _ => 0).
Proof.
  assert (Hn : 0 <= n) by apply WF.
  destruct (forZ_inv (fun _ off => arr_is off (n + 1) (fun _ => 0)) 0 (n + 1)
              (fun i off => wr off i 0) (alloc (n + 1) 0)) as (off & E & HI);
    try lia.
  - apply arr_is_alloc; lia.
  - intros i s Hi HI; step_wr HI s' Hs'.
    exists s'; split; auto.
    eapply arr_is_ext; [exact Hs'|]; intros g _; cbv beta.
    now destruct (g =? i).
  - eauto.
Qed.

Lemma er_count_pass off :
  arr_is off (n + 1) (fun _ => 0) ->
  exists off',
    forZ 0 nE (fun e off => forZ 0 nd (count_dof em nd e) off) off = Some off' /\
    arr_is off' (n + 1) (fun i => countZ (i - 1) (er_count_keys f)).
Proof.
  intros Ha.
  rewrite forZ_0.
  rewrite (foldM_ext_in _ (fun e off => foldM (count_dof em nd e) (zseq nd) off))
    by (intros; apply forZ_0).
  rewrite foldM_pairs.
  rewrite (foldM_ext_in _
    (fun ed => bump (decode (nth (Z.to_nat (nd * fst ed + snd ed)) em 0)))).
  2:{ intros [e d] s Hin; apply er_slots_in in Hin as [He Hd].
      cbn [fst snd]; unfold count_dof, bump.
      destruct (er_table_rd (nd * e + d)) as [-> _]; [nia|].
      reflexivity. }
  rewrite <- (foldM_map _ bump).
  destruct (bump_pass n _ er_count_keys_range off _ Ha) as (off' & E & Ha').
  exists off'; split; [exact E|].
  eapply arr_is_ext; [exact Ha'|]; intros; cbv beta; lia.
Qed.

Lemma fill_dof_split e d st :
  0 <= e < nE -> 0 <= d < nd ->
  fill_dof (er_reorder o) (er_dof_map f) em nd e d st =
  s' <- place (er_item f o (e, d)) (fst st) ;;
  t' <- wr (snd st) (er_lid f (e, d)) (er_gather f o (e, d)) ;;
  Some (s', t').
Proof.
  intros He Hd; destruct st as [[off ind] gm]; unfold fill_dof.
  assert (Esd : (if er_reorder o then rd (er_dof_map f) d else Some 0)
                = Some (er_sdid f o d)).
  { destruct (er_reorder o) eqn:Hr.
    - apply er_sdid_rd; auto; lia.
    - unfold er_sdid; now rewrite Hr. }
  rewrite Esd; cbn [obind].
  change (if negb (er_reorder o) then d
          else if er_sdid f o d >=? 0 then er_sdid f o d else -1 - er_sdid f o d)
    with (er_did f o d).
  destruct (er_sgid_rd e d He Hd) as [-> _]; cbn [obind].
  unfold place, er_item, er_gather, er_plus, er_lid; cbn [fst snd]; fold (decode (er_sgid f o (e, d))).
  destruct (wr gm _ _), (rd off _); cbn [obind]; try reflexivity;
    (destruct (wr off _ _); cbn [obind]; try reflexivity);
    destruct (wr ind _ _); reflexivity.
Qed.

Lemma er_slots_eq : er_slots f = map (er_slot f) (zseq (nE * nd)).
Proof.
  pose proof er_dof_nonneg as Hd.
  assert (Hne : 0 <= nE) by apply WF.
  apply nth_error_ext; intros k.
  destruct (Nat.lt_ge_cases k (Z.to_nat (nE * nd))) as [Hk|Hk].
  - rewrite nth_error_map; unfold zseq.
    rewrite nth_error_zrange by assumption; cbn [option_map]; rewrite Z.add_0_l.
    destruct (flat_index_split nd (Z.of_nat k) nE) as (He & Hd' & Ek); try lia.
    unfold er_slots, er_slot.
    rewrite <- (pairs_zseq_nth nE nd _ _ He Hd'), Ek.
    now rewrite Nat2Z.id.
  - rewrite (proj2 (nth_error_None _ _)).
    + symmetry; apply nth_error_None.
      rewrite length_map; unfold zseq; rewrite zrange_length; lia.
    + pose proof (pairs_zseq_length nE nd Hne Hd) as Hl.
      unfold er_slots, zlen in *; lia.
Qed.

Lemma er_lid_slot k : 0 <= k < nE * nd -> er_lid f (er_slot f k) = k.
Proof.
  intros Hk; unfold er_lid, er_slot; cbn [fst snd].
  apply (flat_index_split nd k nE); try lia; [apply WF|apply er_dof_nonneg].
Qed.

Lemma er_fill_pass off ind gm :
  arr_is off (n + 1) (fun g => below g (er_keys f o)) ->
  zlen ind = nE * nd -> zlen gm = nE * nd ->
  exists off' ind' gm',
    forZ 0 nE (fun e st =>
      forZ 0 nd (fill_dof (er_reorder o) (er_dof_map f) em nd e) st)
      (off, ind, gm) = Some (off', ind', gm') /\
    arr_is off' (n + 1) (fun g => below (g + 1) (er_keys f o)) /\
    zlen ind' = nE * nd /\
    (forall k, 0 <= k < nE * nd ->
       rd ind' (pos (er_keys f o) (Z.to_nat k))
       = Some (snd (er_item f o (er_slot f k)))) /\
    arr_is gm' (nE * nd) (fun k => er_gather f o (er_slot f k)).
Proof.
  intros Ha Hind Hgm.
  pose proof er_dof_nonneg as Hd.
  assert (Hne : 0 <= nE) by apply WF.
  assert (Hsl : zlen (er_slots f) = nE * nd) by now apply pairs_zseq_length.
  rewrite forZ_0.
  rewrite (foldM_ext_in _
    (fun e st => foldM (fill_dof (er_reorder o) (er_dof_map f) em nd e) (zseq nd) st))
    by (intros; apply forZ_0).
  rewrite foldM_pairs; fold (er_slots f).
  rewrite (foldM_ext_in _
    (fun a st => s' <- place (er_item f o a) (fst st) ;;
                 t' <- wr (snd st) (er_lid f a) (er_gather f o a) ;;
                 Some (s', t'))).
  2:{ intros [e d] st Hin; apply er_slots_in in Hin as [He Hd'].
      now apply fill_dof_split. }
  rewrite (foldM_prod (fun a => place (er_item f o a))
             (fun a t => wr t (er_lid f a) (er_gather f o a))).
  rewrite <- (foldM_map (er_item f o) place).
  destruct (place_pass n (map (er_item f o) (er_slots f)) off ind)
    as (off' & ind' & -> & Hoff & Hlen & Hplaced).
  { apply er_keys_range. }
  { exact Ha. }
  { unfold zlen in *; rewrite length_map; lia. }
  cbn [obind].
  destruct (fill_pass (nE * nd) (fun k => er_gather f o (er_slot f k)) gm Hgm)
    as (gm' & Egm & Hgm').
  assert (Egm' : foldM (fun a t => wr t (er_lid f a) (er_gather f o a))
                   (er_slots f) gm = Some gm').
  { rewrite er_slots_eq, foldM_map, <- Egm.
    apply foldM_ext_in; intros k a Hin; apply in_zseq in Hin.
    now rewrite er_lid_slot. }
  rewrite Egm'; cbn [obind].
  exists off', ind', gm'; repeat split; try apply Hoff; try apply Hgm'.
  - unfold zlen in *; rewrite length_map in Hlen; lia.
  - intros k Hk.
    fold (er_keys f o) in Hplaced.
    rewrite Hplaced by (rewrite length_map; unfold zlen in Hsl; lia).
    f_equal; rewrite er_slots_eq, !map_map.
    rewrite (nth_indep _ 0 (snd (er_item f o (er_slot f 0)))).
    2:{ rewrite length_map; unfold zseq; rewrite zrange_length; lia. }
    rewrite (map_nth (fun x => snd (er_item f o (er_slot f x)))).
    do 3 f_equal.
    apply nth_error_nth; unfold zseq; rewrite nth_error_zrange by lia.
    f_equal; lia.
Qed.

(** The dof map the constructor obtains, when it does not abort. *)
Lemma er_dof_map_bind :
  (er_reorder o = true -> 0 < nE -> 0 < GetDof f) ->
  exists dm,
    (if er_reorder o && (nE >? 0) then
       fe_dof_map <- GetDofMap f ;;
       _ <- verify (zlen fe_dof_map >? 0) ;;
       Some fe_dof_map
     else Some []) = Some dm /\
    forall st,
      forZ 0 nE (fun e st =>
        forZ 0 nd (fill_dof (er_reorder o) dm em nd e) st) st =
      forZ 0 nE (fun e st =>
        forZ 0 nd (fill_dof (er_reorder o) (er_dof_map f) em nd e) st) st.
Proof.
  intros Hpos.
  destruct (er_reorder o) eqn:Hr; cbn [andb].
  - destruct (Z.gtb_spec nE 0) as [Hne|Hne].
    + pose proof (er_dof_map_length Hr Hne) as Hl.
      specialize (Hpos eq_refl Hne).
      destruct o; [discriminate|].
      destruct WF as (_ & _ & _ & _ & _ & Hm).
      destruct (Hm eq_refl) as (m & Em & _).
      unfold er_dof_map in *; rewrite Em in *; cbn [obind].
      assert (Hnd : nd = GetDof f).
      { unfold er_dof; destruct (Z.gtb_spec nE 0); lia. }
      destruct (Z.gtb_spec (zlen m) 0); [|lia].
      exists m; split; [reflexivity|]; auto.
    + exists []; split; [reflexivity|]; intros st.
      assert (E0 : nE = 0) by (destruct WF; lia).
      unfold forZ; rewrite E0; reflexivity.
  - exists []; split; [reflexivity|]; intros st; reflexivity.
Qed.

Lemma ElementRestriction_new_total :
  (er_reorder o = true -> 0 < nE -> 0 < GetDof f) ->
  exists r, ElementRestriction_new f o = Some r /\ er_built f o r.
Proof.
  intros Hpos.
  pose proof er_dof_nonneg as Hd.
  assert (Hne : 0 <= nE) by apply WF.
  assert (Hn : 0 <= n) by apply WF.
  unfold ElementRestriction_new.
  fold (er_reorder o); fold nd.
  destruct (er_dof_map_bind Hpos) as (dm & -> & Hfill); cbn [obind].
  destruct er_init_pass as (off0 & -> & H0); cbn [obind].
  destruct (er_count_pass off0 H0) as (off1 & -> & H1); cbn [obind].
  destruct (prefix_pass n (er_count_keys f) off1 Hn) as (off2 & E2 & H2).
  { eapply Forall_impl; [|apply er_count_keys_range]; simpl; intros; lia. }
  { exact H1. }
  unfold prefix_sum in E2 at 1; rewrite E2; cbn [obind].
  rewrite Hfill.
  destruct (er_fill_pass off2 (alloc (nE * nd) 0) (alloc (nE * nd) 0))
    as (off3 & ind & gm & -> & H3 & Hind & Hplaced & Hgm).
  { eapply arr_is_ext; [exact H2|]; intros g _; cbv beta.
    apply below_perm, er_count_keys_perm. }
  { apply zlen_alloc; nia. }
  { apply zlen_alloc; nia. }
  cbn [obind].
  destruct (shift_pass n off3 _ Hn H3) as (off4 & E4 & H4).
  unfold shift_back in E4 at 1; rewrite E4; cbn [obind].
  step_wr H4 off5 H5.
  eexists; split; [reflexivity|].
  unfold er_built; cbn [ne ndofs dof vdim byvdim offsets indices gatherMap].
  repeat split; auto; try apply H5; try apply Hgm.
  intros g Hg; destruct H5 as [_ H5]; rewrite H5 by assumption; f_equal.
  destruct (Z.eqb_spec g 0) as [->|Hg0].
  - symmetry; apply below_low.
    eapply Forall_impl; [|apply er_keys_range]; simpl; intros; lia.
  - f_equal; lia.
Qed.

(** A constructor call that returns was made on a non-degenerate space. *)
Lemma ElementRestriction_new_built r :
  ElementRestriction_new f o = Some r -> er_built f o r.
Proof.
  intros E.
  destruct (er_reorder o) eqn:Hr.
  - destruct (Z_lt_le_dec 0 nE) as [Hne|Hne].
    + destruct (Z_lt_le_dec 0 (GetDof f)) as [Hd|Hd].
      * destruct ElementRestriction_new_total as (r' & E' & B); auto.
        congruence.
      * exfalso.
        destruct o; [discriminate|].
        destruct WF as (_ & _ & Hd0 & _ & _ & Hm).
        destruct (Hm eq_refl) as (m & Em & Pm).
        replace (GetDof f) with 0 in Pm by lia.
        apply Permutation_length in Pm; rewrite length_map in Pm.
        destruct m; [|discriminate].
        unfold ElementRestriction_new in E; rewrite Em in E.
        destruct (Z.gtb_spec nE 0); [|lia].
        discriminate.
    + destruct ElementRestriction_new_total as (r' & E' & B); [lia|].
      congruence.
  - destruct ElementRestriction_new_total as (r' & E' & B); [congruence|].
    congruence.
Qed.

End ElementConstruction.

(** ** The element restriction after construction *)

Lemma decode_signed (b : bool) (x : Z) :
  0 <= x -> decode (if b then x else -1 - x) = x.
Proof.
  intros Hx; unfold decode; destruct b.
  - destruct (Z.geb_spec x 0); lia.
  - destruct (Z.geb_spec (-1 - x) 0); lia.
Qed.

Lemma decode_nonneg (s : Z) : 0 <= decode s.
Proof. unfold decode; destruct (Z.geb_spec s 0); lia. Qed.

Lemma signed_geb (b : bool) (x : Z) :
  0 <= x -> ((if b then x else -1 - x) >=? 0) = b.
Proof.
  intros Hx; destruct b.
  - destruct (Z.geb_spec x 0); auto; lia.
  - destruct (Z.geb_spec (-1 - x) 0); auto; lia.
Qed.

Section ElementBuilt.
Variables (f : FiniteElementSpace) (o : ElementDofOrdering) (r : ElementRestriction).
Hypothesis WF : wf_space f o.
Hypothesis Built : er_built f o r.

Local Abbreviation n := (GetNDofs f).
Local Abbreviation nE := (GetNE f).
Local Abbreviation nd := (er_dof f).
Local Abbreviation keys := (er_keys f o).

Lemma er_slot_range k :
  0 <= k < nE * nd ->
  0 <= fst (er_slot f k) < nE /\ 0 <= snd (er_slot f k) < nd /\
  er_lid f (er_slot f k) = k.
Proof.
  intros Hk; unfold er_slot, er_lid; cbn [fst snd].
  apply (flat_index_split nd k nE); auto; [apply WF|now apply er_dof_nonneg with o].
Qed.

Lemma er_key_range k :
  0 <= k < nE * nd -> 0 <= decode (er_sgid f o (er_slot f k)) < n.
Proof.
  intros Hk; destruct (er_slot_range k Hk) as (He & Hd & _).
  rewrite (surjective_pairing (er_slot f k)).
  now apply er_sgid_rd.
Qed.

Lemma er_key_nth k :
  0 <= k < nE * nd ->
  nth (Z.to_nat k) keys 0 = decode (er_sgid f o (er_slot f k)).
Proof.
  intros Hk; unfold er_keys.
  rewrite (er_slots_eq f o WF), !map_map.
  apply nth_error_nth; rewrite nth_error_map; unfold zseq.
  rewrite nth_error_zrange by lia; cbn [option_map er_item fst].
  do 4 f_equal; lia.
Qed.

Lemma er_item_decode k :
  0 <= k < nE * nd -> decode (snd (er_item f o (er_slot f k))) = k.
Proof.
  intros Hk; destruct (er_slot_range k Hk) as (_ & _ & El).
  unfold er_item; cbn [snd]; rewrite decode_signed; lia.
Qed.

Lemma er_item_sign k :
  0 <= k < nE * nd ->
  (snd (er_item f o (er_slot f k)) >=? 0) = er_plus f o (er_slot f k).
Proof.
  intros Hk; destruct (er_slot_range k Hk) as (_ & _ & El).
  unfold er_item; cbn [snd]; apply signed_geb; lia.
Qed.

Lemma er_gather_decode k :
  decode (er_gather f o (er_slot f k)) = decode (er_sgid f o (er_slot f k)).
Proof. unfold er_gather; apply decode_signed, decode_nonneg. Qed.

Lemma er_gather_sign k :
  (er_gather f o (er_slot f k) >=? 0) = er_plus f o (er_slot f k).
Proof. unfold er_gather; apply signed_geb, decode_nonneg. Qed.

Lemma er_keys_len : length keys = Z.to_nat (nE * nd).
Proof. pose proof (er_keys_length f o WF) as H; unfold zlen in H; lia. Qed.

Lemma er_offsets_rd g :
  0 <= g <= n -> rd (offsets r) g = Some (below g keys).
Proof.
  intros Hg; destruct Built as (_ & _ & _ & _ & _ & [_ Ho] & _).
  apply Ho; lia.
Qed.

Lemma er_gatherMap_rd k :
  0 <= k < nE * nd -> rd (gatherMap r) k = Some (er_gather f o (er_slot f k)).
Proof.
  intros Hk; destruct Built as (_ & _ & _ & _ & _ & _ & _ & _ & [_ Hg]).
  now apply Hg.
Qed.

(** Entry [j] of [indices] is the signed slot of the key placed there. *)
Lemma er_indices_rd j :
  0 <= j < nE * nd ->
  exists k, 0 <= k < nE * nd /\ j = pos keys (Z.to_nat k) /\
            rd (indices r) j = Some (snd (er_item f o (er_slot f k))).
Proof.
  intros Hj.
  destruct (pos_onto n keys j (er_keys_range f o WF)) as (k & Hk & E).
  { rewrite (er_keys_length f o WF); lia. }
  rewrite er_keys_len in Hk.
  exists (Z.of_nat k); rewrite Nat2Z.id; repeat split; try lia.
  destruct Built as (_ & _ & _ & _ & _ & _ & _ & Hp & _).
  rewrite <- E, <- (Nat2Z.id k) at 1; apply Hp; lia.
Qed.

Lemma er_offsets_first : below 0 keys = 0.
Proof.
  apply below_low; eapply Forall_impl; [|apply (er_keys_range f o WF)].
  simpl; intros; lia.
Qed.

Lemma er_offsets_last : below n keys = nE * nd.
Proof.
  rewrite below_high; [apply (er_keys_length f o WF)|].
  eapply Forall_impl; [|apply (er_keys_range f o WF)]; simpl; intros; lia.
Qed.

Lemma er_indices_perm : Permutation (map decode (indices r)) (zseq (nE * nd)).
Proof.
  destruct Built as (_ & _ & _ & _ & _ & _ & Hl & Hp & _).
  pose proof (pos_perm n keys (er_keys_range f o WF)) as P.
  rewrite er_keys_len in P.
  apply (Permutation_map (fun j => decode (nth (Z.to_nat j) (indices r) 0))) in P.
  rewrite map_map in P.
  assert (E1 : map (fun k => decode (nth (Z.to_nat (pos keys k)) (indices r) 0))
                 (seq 0 (Z.to_nat (nE * nd))) = zseq (nE * nd)).
  { apply nth_error_ext; intros k.
    destruct (Nat.lt_ge_cases k (Z.to_nat (nE * nd))) as [Hk|Hk].
    - rewrite nth_error_map, nth_error_seq.
      destruct (Nat.ltb_spec k (Z.to_nat (nE * nd))); [|lia].
      cbn [option_map]; unfold zseq; rewrite nth_error_zrange by lia.
      f_equal; rewrite Nat.add_0_l, Z.add_0_l.
      specialize (Hp (Z.of_nat k) ltac:(lia)); rewrite Nat2Z.id in Hp.
      unfold rd in Hp.
      destruct (pos keys k <? 0); [discriminate|].
      rewrite (nth_error_nth _ _ 0 Hp).
      apply er_item_decode; lia.
    - rewrite (proj2 (nth_error_None _ _)).
      + symmetry; apply nth_error_None; unfold zseq; rewrite zrange_length; lia.
      + rewrite length_map, length_seq; lia. }
  assert (E2 : map (fun j => decode (nth (Z.to_nat j) (indices r) 0))
                 (zrange 0 (Z.to_nat (nE * nd))) = map decode (indices r)).
  { rewrite <- (map_map (fun j => nth (Z.to_nat j) (indices r) 0) decode).
    f_equal.
    transitivity (map (fun d => nth (Z.to_nat d) (indices r) 0)
                      (zseq (zlen (indices r)))); [|apply map_nth_zseq].
    unfold zseq; now rewrite Hl. }
  rewrite E1, E2 in P; now symmetry.
Qed.

End ElementBuilt.

(** C3: after the constructor has returned, [offsets] starts at 0, ends at
    [ne*dof] and never decreases; the unsigned decodings of [indices] are a
    permutation of the local slots [[0, ne*dof)]; and the entry at position
    [j] lies in the bucket of global dof [g] exactly when [g] is the
    unsigned global dof that [gatherMap] records for the slot stored there. *)
Theorem ElementRestriction_offsets_invariant f o r :
  wf_space f o -> ElementRestriction_new f o = Some r ->
  zlen (offsets r) = ndofs r + 1 /\
  rd (offsets r) 0 = Some 0 /\
  rd (offsets r) (ndofs r) = Some (ne r * dof r) /\
  (forall i, 0 <= i < ndofs r ->
     exists a b, rd (offsets r) i = Some a /\ rd (offsets r) (i + 1) = Some b /\
                 a <= b) /\
  Permutation (map decode (indices r)) (zseq (ne r * dof r)) /\
  (forall j, 0 <= j < ne r * dof r ->
     exists v s, rd (indices r) j = Some v /\
                 rd (gatherMap r) (decode v) = Some s /\
                 0 <= decode s < ndofs r /\
                 forall g, 0 <= g < ndofs r ->
                   exists a b, rd (offsets r) g = Some a /\
                               rd (offsets r) (g + 1) = Some b /\
                               (a <= j < b <-> g = decode s)).
Proof.
  intros WF E.
  pose proof (ElementRestriction_new_built f o WF r E) as B.
  pose proof B as (-> & -> & -> & _ & _ & [Hlo _] & _).
  assert (Hn : 0 <= GetNDofs f) by apply WF.
  repeat split.
  - exact Hlo.
  - rewrite (er_offsets_rd f o r B) by lia; f_equal.
    apply (er_offsets_first f o WF).
  - rewrite (er_offsets_rd f o r B) by lia; f_equal.
    apply (er_offsets_last f o WF).
  - intros i Hi; do 2 eexists.
    rewrite !(er_offsets_rd f o r B) by lia.
    repeat split; apply below_mono; lia.
  - apply (er_indices_perm f o r WF B).
  - intros j Hj.
    destruct (er_indices_rd f o r WF B j Hj) as (k & Hk & Ej & Ev).
    do 2 eexists; split; [exact Ev|].
    rewrite (er_item_decode f o WF k Hk).
    split; [now apply (er_gatherMap_rd f o r B)|].
    rewrite er_gather_decode.
    split; [now apply (er_key_range f o WF)|].
    intros g Hg.
    exists (below g (er_keys f o)), (below (g + 1) (er_keys f o)).
    split; [apply (er_offsets_rd f o r B); lia|].
    split; [apply (er_offsets_rd f o r B); lia|].
    rewrite Ej, <- (er_key_nth f o WF k Hk).
    apply pos_bucket_iff; rewrite (er_keys_len f o WF); lia.
Qed.

(** ** Store sequences *)

Lemma rd_nth {A : Type} (a : list A) (i : Z) (d : A) :
  0 <= i < zlen a -> rd a i = Some (nth (Z.to_nat i) a d).
Proof. intros Hi; now apply (arr_is_self a d). Qed.

(** Stores to pairwise distinct targets: every target ends with the value
    stored to it, every other entry keeps its value. *)
Lemma stores_result {V : Type} (stores : list (Z * V)) :
  NoDup (map fst stores) ->
  forall y0, (forall s, In s stores -> 0 <= fst s < zlen y0) ->
  exists y, foldM store stores y0 = Some y /\ zlen y = zlen y0 /\
            (forall s, In s stores -> rd y (fst s) = Some (snd s)) /\
            (forall t, ~ In t (map fst stores) -> rd y t = rd y0 t).
Proof.
  induction stores as [|s rest IH]; intros ND y0 Hr.
  - exists y0; simpl; repeat split; auto; intros s [].
  - inversion ND as [|? ? Hnotin ND']; subst.
    assert (Hs : 0 <= fst s < zlen y0) by (apply Hr; now left).
    cbn [foldM]; unfold store at 1; rewrite wr_in_range by assumption.
    cbn [obind].
    destruct (IH ND' (upd (Z.to_nat (fst s)) (snd s) y0))
      as (y & E & Hl & Hin & Hout).
    { intros s' Hs'; rewrite zlen_upd; apply Hr; now right. }
    exists y; rewrite zlen_upd in Hl; repeat split; auto.
    + intros s' [<-|Hs'].
      * rewrite Hout by assumption; now apply rd_upd_same.
      * now apply Hin.
    + intros t Ht; simpl in Ht.
      rewrite Hout by tauto.
      apply rd_upd_other; [lia|tauto].
Qed.

(** Accumulating stores to pairwise distinct targets. *)
Lemma stores_add_result {V : Type} `{Scalar V} (stores : list (Z * V)) :
  NoDup (map fst stores) ->
  forall y0, (forall s, In s stores -> 0 <= fst s < zlen y0) ->
  exists y, foldM store_add stores y0 = Some y /\ zlen y = zlen y0 /\
            (forall s, In s stores ->
               exists old, rd y0 (fst s) = Some old /\
                           rd y (fst s) = Some (sadd old (snd s))) /\
            (forall t, ~ In t (map fst stores) -> rd y t = rd y0 t).
Proof.
  induction stores as [|s rest IH]; intros ND y0 Hr.
  - exists y0; simpl; repeat split; auto; intros s [].
  - inversion ND as [|? ? Hnotin ND']; subst.
    assert (Hs : 0 <= fst s < zlen y0) by (apply Hr; now left).
    destruct (rd_in_range y0 (fst s) Hs) as (old & Eold).
    cbn [foldM]; unfold store_add at 1; rewrite Eold; cbn [obind].
    rewrite wr_in_range by assumption; cbn [obind].
    destruct (IH ND' (upd (Z.to_nat (fst s)) (sadd old (snd s)) y0))
      as (y & E & Hl & Hin & Hout).
    { intros s' Hs'; rewrite zlen_upd; apply Hr; now right. }
    exists y; rewrite zlen_upd in Hl; repeat split; auto.
    + intros s' [<-|Hs'].
      * exists old; split; auto.
        rewrite Hout by assumption; now apply rd_upd_same.
      * destruct (Hin s' Hs') as (old' & E1 & E2).
        exists old'; split; auto.
        rewrite <- E1; symmetry; apply rd_upd_other; [lia|].
        intros Heq; apply Hnotin; rewrite Heq; now apply in_map.
    + intros t Ht; simpl in Ht.
      rewrite Hout by tauto.
      apply rd_upd_other; [lia|tauto].
Qed.

Lemma ix3_range (n0 n1 n2 i0 i1 i2 : Z) :
  0 <= i0 < n0 -> 0 <= i1 < n1 -> 0 <= i2 < n2 ->
  0 <= ix3 n0 n1 i0 i1 i2 < n0 * n1 * n2.
Proof.
  unfold ix3; intros H0 H1 H2.
  assert (0 <= i1 + n1 * i2 <= n1 * n2 - 1) by nia.
  assert (0 <= n0 * (i1 + n1 * i2) <= n0 * (n1 * n2 - 1)) by nia.
  nia.
Qed.

Lemma ix3_inj (n0 n1 i0 i1 i2 j0 j1 j2 : Z) :
  0 <= i0 < n0 -> 0 <= i1 < n1 -> 0 <= j0 < n0 -> 0 <= j1 < n1 ->
  ix3 n0 n1 i0 i1 i2 = ix3 n0 n1 j0 j1 j2 -> i0 = j0 /\ i1 = j1 /\ i2 = j2.
Proof.
  unfold ix3; intros H0 H1 H0' H1' E.
  assert (E1 : i0 + (i1 + n1 * i2) * n0 = j0 + (j1 + n1 * j2) * n0) by lia.
  apply lex_pair_inj in E1 as [-> E2]; try lia.
  assert (E3 : i1 + i2 * n1 = j1 + j2 * n1) by lia.
  apply lex_pair_inj in E3 as [-> ->]; auto.
Qed.

Lemma gix_range (t : bool) (vd nn j c : Z) :
  0 <= j < nn -> 0 <= c < vd -> 0 <= gix t vd nn j c < vd * nn.
Proof. unfold gix, ix2; intros; destruct t; nia. Qed.

Lemma gix_inj (t : bool) (vd nn j c j' c' : Z) :
  0 <= j < nn -> 0 <= c < vd -> 0 <= j' < nn -> 0 <= c' < vd ->
  gix t vd nn j c = gix t vd nn j' c' -> j = j' /\ c = c'.
Proof.
  unfold gix, ix2; intros Hj Hc Hj' Hc' E; destruct t.
  - assert (E1 : c + j * vd = c' + j' * vd) by lia.
    apply lex_pair_inj in E1; lia.
  - assert (E1 : j + c * nn = j' + c' * nn) by lia.
    apply lex_pair_inj in E1; lia.
Qed.

(** Distinct targets that fill the index range are a permutation of it. *)
Lemma targets_perm (targets : list Z) (n : Z) :
  NoDup targets -> (forall t, In t targets -> 0 <= t < n) ->
  zlen targets = n -> Permutation targets (zseq n).
Proof.
  intros ND Hr Hl.
  apply NoDup_Permutation_bis; auto.
  - unfold zseq; rewrite zrange_length; unfold zlen in Hl; lia.
  - intros t Ht; apply in_zseq; auto.
Qed.

Lemma NoDup_pairs (l1 l2 : list Z) : NoDup l1 -> NoDup l2 -> NoDup (pairs l1 l2).
Proof.
  intros N1 N2; unfold pairs; induction N1 as [|a t Ha _ IH]; simpl.
  - constructor.
  - apply NoDup_app; auto.
    + apply Finite.Injective_map_NoDup_in; auto; congruence.
    + intros [x y] Hin1 Hin2.
      apply in_map_iff in Hin1 as (? & E & _); inversion E; subst.
      apply (in_pairs t l2 x y) in Hin2 as [Hx _]; auto.
Qed.

(** ** Scatter: [ElementRestriction::Mult] *)

Section MultSpec.
Context {V : Type} `{Scalar V}.
Variables (f : FiniteElementSpace) (o : ElementDofOrdering) (r : ElementRestriction).
Hypothesis WF : wf_space f o.
Hypothesis Built : er_built f o r.
Variable x : list V.
Hypothesis Hvd : 0 <= vdim r.
Hypothesis Hx : zlen x = vdim r * ndofs r.

Lemma er_fields :
  ne r = GetNE f /\ ndofs r = GetNDofs f /\ dof r = er_dof f.
Proof. destruct Built as (? & ? & ? & _); auto. Qed.

Lemma er_sizes : 0 <= ne r /\ 0 <= ndofs r /\ 0 <= dof r.
Proof.
  destruct er_fields as (-> & -> & ->).
  repeat split; try apply WF; now apply er_dof_nonneg with o.
Qed.

Lemma er_gatherMap_entry i :
  0 <= i < dof r * ne r ->
  exists s, rd (gatherMap r) i = Some s /\
            nth (Z.to_nat i) (gatherMap r) 0 = s /\
            0 <= decode s < ndofs r.
Proof.
  destruct er_fields as (E1 & E2 & E3); rewrite E1, E2, E3; intros Hi.
  assert (Hk : 0 <= i < GetNE f * er_dof f) by lia.
  pose proof (er_gatherMap_rd f o r Built i Hk) as Hrd.
  eexists; split; [exact Hrd|]; split.
  - unfold rd in Hrd; destruct (i <? 0); [discriminate|].
    now apply nth_error_nth.
  - rewrite er_gather_decode; now apply er_key_range.
Qed.

Lemma Mult_as_stores (y0 : list V) :
  Mult r x y0 = foldM store (Mult_stores r x) y0.
Proof.
  pose (T := fun i c : Z =>
    (ix3 (dof r) (vdim r) (Z.rem i (dof r)) c (Z.quot i (dof r)),
     scatter_value r x (nth (Z.to_nat i) (gatherMap r) 0) c)).
  transitivity
    (foldM (fun i y => foldM (fun c y => store (T i c) y) (zseq (vdim r)) y)
           (zseq (dof r * ne r)) y0).
  - unfold Mult; rewrite forZ_0.
    apply foldM_ext_in; intros i y Hi; apply in_zseq in Hi.
    destruct (er_gatherMap_entry i Hi) as (s & Es & En & Hs).
    rewrite Es; cbn [obind].
    rewrite forZ_0; apply foldM_ext_in; intros c y' Hc; apply in_zseq in Hc.
    rewrite (rd_nth x _ szero); cbn [obind].
    + unfold T, store, scatter_value; cbn [fst snd]; rewrite En; reflexivity.
    + rewrite Hx; apply gix_range; auto.
  - rewrite (foldM_pairs (fun i c => store (T i c))).
    unfold Mult_stores; rewrite foldM_map; reflexivity.
Qed.

Lemma Mult_slot_split i :
  0 <= i < dof r * ne r ->
  0 <= Z.rem i (dof r) < dof r /\ 0 <= Z.quot i (dof r) < ne r /\
  dof r * Z.quot i (dof r) + Z.rem i (dof r) = i.
Proof.
  intros Hi; destruct er_sizes as (Hne & _ & Hd).
  rewrite Z.rem_mod_nonneg, Z.quot_div_nonneg by nia.
  destruct (flat_index_split (dof r) i (ne r)); try lia.
Qed.

Lemma Mult_targets_perm :
  Permutation (map fst (Mult_stores r x)) (zseq (dof r * vdim r * ne r)).
Proof.
  destruct er_sizes as (Hne & _ & Hd).
  unfold Mult_stores; rewrite map_map; cbn [fst].
  apply targets_perm.
  - apply Finite.Injective_map_NoDup_in;
      [|apply NoDup_pairs; apply NoDup_zrange].
    intros [i c] [i' c'] Hin Hin' E; cbn [fst snd] in E.
    apply in_pairs in Hin as [Hi Hc], Hin' as [Hi' Hc'].
    rewrite in_zseq in Hi, Hc, Hi', Hc'.
    destruct (Mult_slot_split i Hi) as (? & ? & Ei).
    destruct (Mult_slot_split i' Hi') as (? & ? & Ei').
    apply ix3_inj in E as (E1 & E2 & E3); try lia.
    f_equal; [|assumption].
    rewrite <- Ei, <- Ei', E1, E3; reflexivity.
  - intros t Ht; apply in_map_iff in Ht as ([i c] & <- & Hin).
    apply in_pairs in Hin as [Hi Hc]; rewrite in_zseq in Hi, Hc.
    destruct (Mult_slot_split i Hi) as (? & ? & _).
    cbn [fst snd]; apply ix3_range; lia.
  - unfold zlen; rewrite length_map.
    fold (zlen (pairs (zseq (dof r * ne r)) (zseq (vdim r)))).
    rewrite pairs_zseq_length by nia; lia.
Qed.

Lemma Mult_store_in e d c :
  0 <= e < ne r -> 0 <= d < dof r -> 0 <= c < vdim r ->
  In (ix3 (dof r) (vdim r) d c e,
      scatter_value r x (nth (Z.to_nat (e * dof r + d)) (gatherMap r) 0) c)
     (Mult_stores r x).
Proof.
  intros He Hd Hc; unfold Mult_stores.
  apply in_map_iff; exists (dof r * e + d, c); cbn [fst snd].
  destruct (flat_index_quot_rem (dof r) e d) as [-> ->]; try lia.
  split; [do 3 f_equal; lia|].
  apply in_pairs; rewrite !in_zseq; split; [nia|lia].
Qed.

(** [Mult] returns; each output entry holds the value stored to it. *)
Lemma Mult_values (y0 : list V) :
  zlen y0 = dof r * vdim r * ne r ->
  exists y,
    Mult r x y0 = Some y /\ zlen y = zlen y0 /\
    forall e d c, 0 <= e < ne r -> 0 <= d < dof r -> 0 <= c < vdim r ->
      rd y (ix3 (dof r) (vdim r) d c e)
      = Some (scatter_value r x
                (nth (Z.to_nat (e * dof r + d)) (gatherMap r) 0) c).
Proof.
  intros Hy.
  pose proof Mult_targets_perm as P.
  destruct (stores_result (Mult_stores r x)) with (y0 := y0)
    as (y & Ey & Hl & Hin & _).
  { eapply Permutation_NoDup; [symmetry; exact P|apply NoDup_zrange]. }
  { intros s Hs; rewrite Hy; apply in_zseq.
    eapply Permutation_in; [exact P|now apply in_map]. }
  exists y; rewrite Mult_as_stores; repeat split; auto.
  intros e d c He Hd Hc.
  apply (Hin _ (Mult_store_in e d c He Hd Hc)).
Qed.

End MultSpec.

(** C1: after construction, for every global vector [x], [Mult] returns and
    the local entry [(d,c,e)] of its output is the global entry of dof
    [gid] at component [c], negated when the gather-map entry
    [s = gatherMap[e*dof+d]] is negative, [gid] being [s] or [-1-s].  The
    kernel is a sequence of plain stores whose targets are a permutation of
    the output entries: nothing is accumulated and each output entry is
    written exactly once. *)
Theorem Mult_scatter {V : Type} `{Scalar V} f o r (x y0 : list V) :
  wf_space f o -> ElementRestriction_new f o = Some r ->
  0 <= vdim r ->
  zlen x = vdim r * ndofs r ->
  zlen y0 = dof r * vdim r * ne r ->
  exists y,
    Mult r x y0 = Some y /\ zlen y = zlen y0 /\
    (forall e d c, 0 <= e < ne r -> 0 <= d < dof r -> 0 <= c < vdim r ->
       exists s xv,
         rd (gatherMap r) (e * dof r + d) = Some s /\
         0 <= decode s < ndofs r /\
         rd x (gix (byvdim r) (vdim r) (ndofs r) (decode s) c) = Some xv /\
         rd y (ix3 (dof r) (vdim r) d c e)
         = Some (if s >=? 0 then xv else sneg xv)) /\
    Mult r x y0 = foldM store (Mult_stores r x) y0 /\
    Permutation (map fst (Mult_stores r x)) (zseq (zlen y0)).
Proof.
  intros WF E Hvd Hx Hy.
  pose proof (ElementRestriction_new_built f o WF r E) as B.
  destruct (Mult_values f o r WF B x Hvd Hx y0 Hy) as (y & Ey & Hl & Hval).
  exists y; rewrite Hy in *; repeat split; auto.
  - intros e d c He Hd Hc.
    destruct (er_gatherMap_entry f o r WF B (e * dof r + d))
      as (s & Es & En & Hs); [nia|].
    exists s; eexists; split; [exact Es|]; split; [exact Hs|]; split.
    + apply (rd_nth x _ szero); rewrite Hx; apply gix_range; auto.
    + rewrite (Hval e d c He Hd Hc), En; reflexivity.
  - eapply Mult_as_stores; eauto.
  - eapply Mult_targets_perm; eauto.
Qed.

(** ** Gather: [ElementRestriction::MultTranspose] *)

Lemma skipn_nth_cons {A : Type} (l : list A) (k : nat) (d : A) :
  (k < length l)%nat -> skipn k l = nth k l d :: skipn (S k) l.
Proof.
  revert k; induction l as [|a t IH]; intros [|k] Hk; simpl in *; try lia; auto.
  apply IH; lia.
Qed.

(** A loop reading the entries [lo..hi-1] of an array folds over them. *)

Lemma foldM_rd_range {St : Type} (l : list Z) (body : Z -> St -> option St) :
  forall (k : nat) (lo : Z) (s : St),
  0 <= lo -> lo + Z.of_nat k <= zlen l ->
  foldM (fun j s => v <- rd l j ;; body v s) (zrange lo k) s
  = foldM body (firstn k (skipn (Z.to_nat lo) l)) s.
Proof.
  induction k as [|k IH]; intros lo s Hlo Hhi; [reflexivity|].
  cbn [zrange foldM].
  rewrite (skipn_nth_cons l (Z.to_nat lo) 0) by (unfold zlen in Hhi; lia).
  rewrite (rd_nth l lo 0) by lia; cbn [obind firstn foldM].
  destruct (body (nth (Z.to_nat lo) l 0) s) as [s'|]; cbn [obind]; auto.
  rewrite IH by lia.
  now replace (Z.to_nat (lo + 1)) with (S (Z.to_nat lo)) by lia.
Qed.

Lemma foldM_pure {A St : Type} (g : St -> A -> St) (l : list A) (s : St) :
  foldM (fun a s => Some (g s a)) l s = Some (fold_left g l s).
Proof. revert s; induction l as [|a t IH]; intros s; simpl; auto. Qed.

Lemma fold_left_map {A B St : Type} (h : A -> B) (g : St -> B -> St)
  (l : list A) (s : St) :
  fold_left g (map h l) s = fold_left (fun s a => g s (h a)) l s.
Proof. revert s; induction l as [|a t IH]; intros s; simpl; auto. Qed.

Lemma slice_incl (l : list Z) (lo hi v : Z) : In v (slice l lo hi) -> In v l.
Proof.
  unfold slice; intros Hin.
  rewrite <- (firstn_skipn (Z.to_nat lo) l); apply in_or_app; right.
  rewrite <- (firstn_skipn (Z.to_nat (hi - lo)) (skipn (Z.to_nat lo) l)).
  apply in_or_app; now left.
Qed.

Section TransposeSpec.
Context {V : Type} `{Scalar V}.
Variables (f : FiniteElementSpace) (o : ElementDofOrdering) (r : ElementRestriction).
Hypothesis WF : wf_space f o.
Hypothesis Built : er_built f o r.
Variable x : list V.
Hypothesis Hvd : 0 <= vdim r.
Hypothesis Hx : zlen x = dof r * vdim r * ne r.

Local Abbreviation keys := (er_keys f o).

Lemma er_offsets_entry g :
  0 <= g <= ndofs r ->
  rd (offsets r) g = Some (below g keys) /\
  nth (Z.to_nat g) (offsets r) 0 = below g keys.
Proof.
  destruct (er_fields f o r Built) as (_ & E2 & _); rewrite E2; intros Hg.
  pose proof (er_offsets_rd f o r Built g Hg) as Hrd.
  split; auto.
  unfold rd in Hrd; destruct (g <? 0); [discriminate|].
  now apply nth_error_nth.
Qed.

Lemma er_indices_length : zlen (indices r) = dof r * ne r.
Proof.
  destruct (er_fields f o r Built) as (E1 & _ & E3); rewrite E1, E3.
  destruct Built as (_ & _ & _ & _ & _ & _ & Hl & _); lia.
Qed.

Lemma er_indices_entry v :
  In v (indices r) -> 0 <= decode v < dof r * ne r.
Proof.
  destruct (er_fields f o r Built) as (E1 & _ & E3); rewrite E1, E3; intros Hin.
  assert (Hd : In (decode v) (zseq (GetNE f * er_dof f))).
  { eapply Permutation_in; [apply (er_indices_perm f o r WF Built)|].
    now apply in_map. }
  apply in_zseq in Hd; lia.
Qed.

Lemma er_bucket_bounds g :
  0 <= g < ndofs r ->
  0 <= below g keys <= below (g + 1) keys /\
  below (g + 1) keys <= zlen (indices r).
Proof.
  intros Hg; rewrite er_indices_length.
  destruct (er_fields f o r Built) as (E1 & E2 & E3).
  rewrite E1, E2, E3 in *.
  pose proof (below_nonneg g keys).
  pose proof (below_mono g (g + 1) keys ltac:(lia)).
  pose proof (below_mono (g + 1) (GetNDofs f) keys ltac:(lia)) as Hm.
  rewrite (er_offsets_last f o WF) in Hm; lia.
Qed.

Lemma gather_bucket_sum g c :
  0 <= g < ndofs r -> 0 <= c < vdim r ->
  gather_bucket r x c (below g keys) (below (g + 1) keys)
  = Some (sum_terms (map (gather_term r x c)
                         (slice (indices r) (below g keys) (below (g + 1) keys)))).
Proof.
  intros Hg Hc; destruct (er_bucket_bounds g Hg) as (Hlo & Hhi).
  unfold gather_bucket, forZ.
  rewrite (foldM_rd_range (indices r)
             (fun v dofValue =>
                xv <- rd x (ix3 (dof r) (vdim r)
                              (Z.rem (if v >=? 0 then v else -1 - v) (dof r)) c
                              (Z.quot (if v >=? 0 then v else -1 - v) (dof r))) ;;
                Some (sadd dofValue (if v >=? 0 then xv else sneg xv))))
    by lia.
  fold (slice (indices r) (below g keys) (below (g + 1) keys)).
  rewrite (foldM_ext_in _ (fun v acc => Some (sadd acc (gather_term r x c v)))).
  - rewrite foldM_pure; unfold sum_terms; now rewrite fold_left_map.
  - intros v acc Hin; apply slice_incl, er_indices_entry in Hin.
    fold (decode v).
    destruct (Mult_slot_split f o r WF Built (decode v) Hin) as (? & ? & _).
    rewrite (rd_nth x _ szero); [reflexivity|].
    rewrite Hx; apply ix3_range; lia.
Qed.

Lemma MultTranspose_as_stores (y0 : list V) :
  MultTranspose r x y0 = foldM store (MultTranspose_stores r x) y0.
Proof.
  pose (T := fun i c : Z =>
    (gix (byvdim r) (vdim r) (ndofs r) i c, bucket_sum r x i c)).
  transitivity
    (foldM (fun i y => foldM (fun c y => store (T i c) y) (zseq (vdim r)) y)
           (zseq (ndofs r)) y0).
  - unfold MultTranspose; rewrite forZ_0.
    apply foldM_ext_in; intros i y Hi; apply in_zseq in Hi.
    destruct (er_offsets_entry i ltac:(lia)) as (-> & Ea).
    destruct (er_offsets_entry (i + 1) ltac:(lia)) as (-> & Eb).
    cbn [obind].
    rewrite forZ_0; apply foldM_ext_in; intros c y' Hc; apply in_zseq in Hc.
    rewrite gather_bucket_sum by assumption; cbn [obind].
    unfold T, store, bucket_sum; cbn [fst snd]; now rewrite Ea, Eb.
  - rewrite (foldM_pairs (fun i c => store (T i c))).
    unfold MultTranspose_stores; rewrite foldM_map; reflexivity.
Qed.

Lemma MultTranspose_targets_perm :
  Permutation (map fst (MultTranspose_stores r x)) (zseq (vdim r * ndofs r)).
Proof.
  destruct (er_sizes f o r WF Built) as (_ & Hn & _).
  unfold MultTranspose_stores; rewrite map_map; cbn [fst].
  apply targets_perm.
  - apply Finite.Injective_map_NoDup_in;
      [|apply NoDup_pairs; apply NoDup_zrange].
    intros [i c] [i' c'] Hin Hin' E; cbn [fst snd] in E.
    apply in_pairs in Hin as [Hi Hc], Hin' as [Hi' Hc'].
    rewrite in_zseq in Hi, Hc, Hi', Hc'.
    apply gix_inj in E as [-> ->]; auto.
  - intros t Ht; apply in_map_iff in Ht as ([i c] & <- & Hin).
    apply in_pairs in Hin as [Hi Hc]; rewrite in_zseq in Hi, Hc.
    cbn [fst snd]; apply gix_range; lia.
  - unfold zlen; rewrite length_map.
    fold (zlen (pairs (zseq (ndofs r)) (zseq (vdim r)))).
    rewrite pairs_zseq_length by nia; lia.
Qed.

(** [MultTranspose] returns; each output entry holds its bucket sum. *)
Lemma MultTranspose_values (y0 : list V) :
  zlen y0 = vdim r * ndofs r ->
  exists y,
    MultTranspose r x y0 = Some y /\ zlen y = zlen y0 /\
    forall g c, 0 <= g < ndofs r -> 0 <= c < vdim r ->
      rd y (gix (byvdim r) (vdim r) (ndofs r) g c) = Some (bucket_sum r x g c).
Proof.
  intros Hy.
  pose proof MultTranspose_targets_perm as P.
  destruct (stores_result (MultTranspose_stores r x)) with (y0 := y0)
    as (y & Ey & Hl & Hin & _).
  { eapply Permutation_NoDup; [symmetry; exact P|apply NoDup_zrange]. }
  { intros s Hs; rewrite Hy; apply in_zseq.
    eapply Permutation_in; [exact P|now apply in_map]. }
  exists y; rewrite MultTranspose_as_stores; repeat split; auto.
  intros g c Hg Hc.
  apply (Hin (gix (byvdim r) (vdim r) (ndofs r) g c, bucket_sum r x g c)).
  unfold MultTranspose_stores; apply in_map_iff; exists (g, c); split; auto.
  apply in_pairs; rewrite !in_zseq; lia.
Qed.

End TransposeSpec.

(** C2: after construction, for every local vector [x], [MultTranspose]
    returns and sets the global entry of every dof [g] and component [c] to
    the sum, over the entries [v = indices[j]] of the bucket
    [offsets[g] <= j < offsets[g+1]], of the local value at the decoded slot
    of [v], negated when [v] is negative.  The sum starts from zero: the
    previous contents of the output do not enter the result. *)
Theorem MultTranspose_gather {V : Type} `{Scalar V} f o r (x y0 : list V) :
  wf_space f o -> ElementRestriction_new f o = Some r ->
  0 <= vdim r ->
  zlen x = dof r * vdim r * ne r ->
  zlen y0 = vdim r * ndofs r ->
  exists y,
    MultTranspose r x y0 = Some y /\ zlen y = zlen y0 /\
    forall g c, 0 <= g < ndofs r -> 0 <= c < vdim r ->
      exists a b,
        rd (offsets r) g = Some a /\ rd (offsets r) (g + 1) = Some b /\
        0 <= a <= b /\ b <= zlen (indices r) /\
        rd y (gix (byvdim r) (vdim r) (ndofs r) g c)
        = Some (sum_terms (map (gather_term r x c) (slice (indices r) a b))).
Proof.
  intros WF E Hvd Hx Hy.
  pose proof (ElementRestriction_new_built f o WF r E) as B.
  destruct (MultTranspose_values f o r WF B x Hvd Hx y0 Hy)
    as (y & Ey & Hl & Hval).
  exists y; repeat split; auto.
  intros g c Hg Hc.
  destruct (er_offsets_entry f o r B g ltac:(lia)) as (Ra & Ea).
  destruct (er_offsets_entry f o r B (g + 1) ltac:(lia)) as (Rb & Eb).
  assert (Hb : 0 <= below g (er_keys f o) <= below (g + 1) (er_keys f o) /\
               below (g + 1) (er_keys f o) <= zlen (indices r))
    by (eapply er_bucket_bounds; eauto).
  destruct Hb as (Hlo & Hhi).
  do 2 eexists; split; [exact Ra|]; split; [exact Rb|].
  split; [exact Hlo|]; split; [exact Hhi|].
  rewrite (Hval g c Hg Hc); unfold bucket_sum; now rewrite Ea, Eb.
Qed.

(** ** Scatter followed by gather *)

Lemma slice_map_nth (l : list Z) (lo hi : Z) :
  0 <= lo -> hi <= zlen l ->
  slice l lo hi
  = map (fun j => nth (Z.to_nat j) l 0) (zrange lo (Z.to_nat (hi - lo))).
Proof.
  intros Hlo Hhi; unfold slice.
  assert (G : forall (k : nat) (a : Z), 0 <= a -> a + Z.of_nat k <= zlen l ->
            firstn k (skipn (Z.to_nat a) l)
            = map (fun j => nth (Z.to_nat j) l 0) (zrange a k)).
  { induction k as [|k IH]; intros a Ha Hk; [reflexivity|].
    rewrite (skipn_nth_cons l (Z.to_nat a) 0) by (unfold zlen in Hk; lia).
    cbn [firstn zrange map]; f_equal.
    rewrite <- IH by lia.
    now replace (Z.to_nat (a + 1)) with (S (Z.to_nat a)) by lia. }
  destruct (Z_le_gt_dec lo hi).
  - apply G; lia.
  - replace (Z.to_nat (hi - lo)) with O by lia; reflexivity.
Qed.

Lemma arr_is_eq_map (a : list Z) (n : Z) (h : Z -> Z) :
  arr_is a n h -> a = map h (zseq n).
Proof.
  intros [Hl Hrd].
  rewrite <- (map_nth_zseq a) at 1; rewrite Hl.
  apply map_ext_in; intros k Hk; apply in_zseq in Hk.
  specialize (Hrd k Hk); unfold rd in Hrd.
  destruct (k <? 0); [discriminate|].
  now apply nth_error_nth.
Qed.

Lemma nth_nonneg (l : list Z) (k : nat) :
  Forall (fun s => 0 <= s) l -> 0 <= nth k l 0.
Proof.
  intros Hl; destruct (nth_in_or_default k l 0) as [Hin | Hd]; [|rewrite Hd; lia].
  rewrite Forall_forall in Hl; auto.
Qed.

Lemma decode_id (s : Z) : 0 <= s -> decode s = s.
Proof. intros Hs; unfold decode; destruct (Z.geb_spec s 0); lia. Qed.

Section Unsigned.
Variables (f : FiniteElementSpace) (o : ElementDofOrdering) (r : ElementRestriction).
Hypothesis WF : wf_space f o.
Hypothesis UN : unsigned_space f o.
Hypothesis Built : er_built f o r.

Lemma er_sgid_unsigned ed : 0 <= er_sgid f o ed.
Proof. unfold er_sgid; apply nth_nonneg; destruct UN as [Ht _]; exact Ht. Qed.

Lemma er_plus_unsigned ed : er_plus f o ed = true.
Proof.
  unfold er_plus.
  assert (Hd : 0 <= er_sdid f o (snd ed)).
  { unfold er_sdid, er_dof_map, er_reorder; destruct o; [lia|].
    destruct (GetDofMap f) as [m|] eqn:Em.
    - apply nth_nonneg; destruct UN as [_ Um]; now apply Um.
    - destruct (Z.to_nat (snd ed)); simpl; lia. }
  pose proof (er_sgid_unsigned ed).
  destruct (Z.geb_spec (er_sgid f o ed) 0), (Z.geb_spec (er_sdid f o (snd ed)) 0);
    try lia; reflexivity.
Qed.

Lemma er_gather_unsigned ed : er_gather f o ed = er_sgid f o ed.
Proof.
  unfold er_gather; rewrite er_plus_unsigned.
  apply decode_id, er_sgid_unsigned.
Qed.

(** Without signs the gather map is the list of the keys. *)
Lemma er_gatherMap_keys : gatherMap r = er_keys f o.
Proof.
  destruct Built as (_ & _ & _ & _ & _ & _ & _ & _ & Hg).
  rewrite (arr_is_eq_map _ _ _ Hg).
  unfold er_keys; rewrite (er_slots_eq f o WF), !map_map.
  apply map_ext; intros k; cbn [er_item fst].
  now rewrite er_gather_unsigned, decode_id by apply er_sgid_unsigned.
Qed.

(** The entries of the bucket of [g] are slots whose gather-map entry is
    [g]. *)
Lemma er_bucket_entry g j :
  0 <= g < GetNDofs f ->
  below g (er_keys f o) <= j < below (g + 1) (er_keys f o) ->
  let v := nth (Z.to_nat j) (indices r) 0 in
  0 <= v < GetNE f * er_dof f /\
  nth (Z.to_nat v) (gatherMap r) 0 = g.
Proof.
  intros Hg Hj; cbv zeta.
  assert (Hj' : 0 <= j < GetNE f * er_dof f).
  { pose proof (below_nonneg g (er_keys f o)).
    pose proof (below_mono (g + 1) (GetNDofs f) (er_keys f o) ltac:(lia)) as Hm.
    rewrite (er_offsets_last f o WF) in Hm; lia. }
  destruct (er_indices_rd f o r WF Built j Hj') as (k & Hk & Ej & Ev).
  assert (En : nth (Z.to_nat j) (indices r) 0 = k).
  { unfold rd in Ev; destruct (j <? 0); [discriminate|].
    rewrite (nth_error_nth _ _ 0 Ev).
    unfold er_item; cbn [snd]; rewrite er_plus_unsigned.
    now apply er_slot_range with o. }
  rewrite En; split; [exact Hk|].
  pose proof (er_gatherMap_rd f o r Built k Hk) as Eg.
  unfold rd in Eg; destruct (k <? 0); [discriminate|].
  rewrite (nth_error_nth _ _ 0 Eg), er_gather_unsigned.
  rewrite Ej in Hj; apply pos_bucket_iff in Hj;
    [|rewrite (er_keys_len f o WF); lia].
  rewrite Hj, (er_key_nth f o WF k Hk).
  symmetry; apply decode_id, er_sgid_unsigned.
Qed.

End Unsigned.

Lemma sum_terms_repeat {V : Type} `{Scalar V} (m : Z) (v : V) :
  sum_terms (repeat v (Z.to_nat m)) = nmul m v.
Proof. reflexivity. Qed.

(** Scattering and then gathering multiplies each global entry by the number
    of local slots that map to it. *)
Lemma scatter_gather_multiplicity {V : Type} `{Scalar V} f o r (x y0 z0 : list V) :
  wf_space f o -> unsigned_space f o ->
  ElementRestriction_new f o = Some r ->
  0 <= vdim r ->
  zlen x = vdim r * ndofs r ->
  zlen y0 = dof r * vdim r * ne r ->
  zlen z0 = vdim r * ndofs r ->
  exists y z,
    Mult r x y0 = Some y /\ MultTranspose r y z0 = Some z /\
    zlen z = zlen x /\
    forall g c, 0 <= g < ndofs r -> 0 <= c < vdim r ->
      exists xv,
        rd x (gix (byvdim r) (vdim r) (ndofs r) g c) = Some xv /\
        rd z (gix (byvdim r) (vdim r) (ndofs r) g c)
        = Some (nmul (countZ g (gatherMap r)) xv).
Proof.
  intros WF UN E Hvd Hx Hy Hz.
  pose proof (ElementRestriction_new_built f o WF r E) as B.
  destruct (er_fields f o r B) as (E1 & E2 & E3).
  destruct (Mult_values f o r WF B x Hvd Hx y0 Hy) as (y & Ey & Hly & Hvy).
  assert (Hxy : zlen y = dof r * vdim r * ne r) by lia.
  destruct (MultTranspose_values f o r WF B y Hvd Hxy z0 Hz)
    as (z & Ez & Hlz & Hvz).
  exists y, z; repeat split; auto; [lia|].
  intros g c Hg Hc.
  exists (nth (Z.to_nat (gix (byvdim r) (vdim r) (ndofs r) g c)) x szero).
  split.
  { apply rd_nth; rewrite Hx; apply gix_range; auto. }
  rewrite (Hvz g c Hg Hc); f_equal.
  unfold bucket_sum, nmul; f_equal.
  destruct (er_offsets_entry f o r B g ltac:(lia)) as (_ & Ea).
  destruct (er_offsets_entry f o r B (g + 1) ltac:(lia)) as (_ & Eb).
  rewrite Ea, Eb.
  assert (Hb : 0 <= below g (er_keys f o) <= below (g + 1) (er_keys f o) /\
               below (g + 1) (er_keys f o) <= zlen (indices r))
    by (eapply er_bucket_bounds; eauto).
  rewrite slice_map_nth, map_map by lia.
  rewrite (er_gatherMap_keys f o r WF UN B).
  replace (countZ g (er_keys f o))
    with (below (g + 1) (er_keys f o) - below g (er_keys f o))
    by (rewrite below_succ; lia).
  rewrite <- (zrange_length (below g (er_keys f o))
                (Z.to_nat (below (g + 1) (er_keys f o) - below g (er_keys f o))))
    at 2.
  rewrite <- map_const.
  apply map_ext_in; intros j Hj; apply in_zrange in Hj.
  destruct (er_bucket_entry f o r WF UN B g j) as (Hv & Eg); [lia|lia|].
  set (v := nth (Z.to_nat j) (indices r) 0) in *.
  unfold gather_term.
  rewrite decode_id by lia.
  destruct (Z.geb_spec v 0); [|lia].
  destruct (Mult_slot_split f o r WF B v ltac:(nia)) as (Hd' & He' & Esplit).
  pose proof (Hvy _ _ c He' Hd' Hc) as Hrd.
  unfold rd in Hrd.
  destruct (ix3 (dof r) (vdim r) (Z.rem v (dof r)) c (Z.quot v (dof r)) <? 0);
    [discriminate|].
  rewrite (nth_error_nth _ _ szero Hrd).
  replace (Z.quot v (dof r) * dof r + Z.rem v (dof r)) with v by lia.
  rewrite Eg; unfold scatter_value.
  rewrite decode_id by lia.
  destruct (Z.geb_spec g 0); [reflexivity|lia].
Qed.

(** *** The 2x2 scenario *)

Lemma Forall_forallb {A : Type} (p : A -> bool) (P : A -> Prop) (l : list A) :
  (forall a, p a = true -> P a) -> forallb p l = true -> Forall P l.
Proof.
  intros Hp Hl; apply Forall_forall; intros a Ha.
  apply Hp; now apply (proj1 (forallb_forall p l) Hl).
Qed.

Lemma quad2x2_wf o : wf_space quad2x2_space o.
Proof.
  unfold wf_space; cbn [GetNE GetNDofs GetDof GetElementToDofTable GetDofMap
                        quad2x2_space].
  repeat split; try lia.
  - apply (Forall_forallb (fun s => (0 <=? decode s) && (decode s <? 25))).
    + intros a Ha; apply andb_prop in Ha as [H1 H2]; lia.
    + vm_compute; reflexivity.
  - intros _; exists (zseq 9); split; [reflexivity|].
    change (map decode (zseq 9)) with (zseq 9); reflexivity.
Qed.

Lemma quad2x2_unsigned o : unsigned_space quad2x2_space o.
Proof.
  split.
  - apply (Forall_forallb (fun s => 0 <=? s)); [intros; lia|].
    vm_compute; reflexivity.
  - intros _ m Em; inversion Em; subst.
    apply (Forall_forallb (fun s => 0 <=? s)); [intros; lia|].
    vm_compute; reflexivity.
Qed.

Lemma quad2x2_total o :
  exists r, ElementRestriction_new quad2x2_space o = Some r /\
            er_built quad2x2_space o r.
Proof.
  apply ElementRestriction_new_total; [apply quad2x2_wf|].
  intros _ _; simpl; lia.
Qed.

Lemma quad2x2_counts o g :
  0 <= g < 25 -> countZ g (er_keys quad2x2_space o) = quad2x2_multiplicity g.
Proof.
  intros Hg.
  assert (Hall : forallb (fun g => countZ g (er_keys quad2x2_space o)
                                   =? quad2x2_multiplicity g) (zseq 25) = true)
    by (destruct o; vm_compute; reflexivity).
  rewrite forallb_forall in Hall.
  apply Z.eqb_eq, Hall, in_zseq; lia.
Qed.




(** ** Discontinuous face restriction: the boundary sentinel *)

Lemma obind_Some {A B : Type} (c : option A) (k : A -> option B) (b : B) :
  obind c k = Some b -> exists a, c = Some a /\ k a = Some b.
Proof. destruct c as [a|]; simpl; [eauto|discriminate]. Qed.

Lemma verify_Some (b : bool) (u : unit) : verify b = Some u -> b = true.
Proof. destruct b; [reflexivity|discriminate]. Qed.

(** Split the next binding of a computation known to return. *)
Ltac bind_inv H x E :=
  apply obind_Some in H; destruct H as (x & E & H).

(** Partial-correctness rule for a fold: a property kept by every iteration
    that returns holds when the fold returns. *)
Lemma foldM_keeps {A St : Type} (I : St -> Prop) (body : A -> St -> option St)
  (l : list A) :
  (forall a s s', In a l -> I s -> body a s = Some s' -> I s') ->
  forall s s', I s -> foldM body l s = Some s' -> I s'.
Proof.
  induction l as [|a t IH]; intros Hstep s s' HI E; simpl in E.
  - inversion E; subst; auto.
  - bind_inv E s1 E1.
    apply (IH (fun a s s' Hin => Hstep a s s' (or_intror Hin)) s1); auto.
    apply (Hstep a s s1); auto; now left.
Qed.

Lemma forZ_keeps {St : Type} (I : Z -> St -> Prop) (lo hi : Z)
  (body : Z -> St -> option St) (s s' : St) :
  lo <= hi -> I lo s ->
  (forall i s s', lo <= i < hi -> I i s -> body i s = Some s' -> I (i + 1) s') ->
  forZ lo hi body s = Some s' -> I hi s'.
Proof.
  intros Hle H0 Hstep; unfold forZ.
  assert (G : forall (k : nat) s', lo + Z.of_nat k <= hi ->
            foldM body (zrange lo k) s = Some s' -> I (lo + Z.of_nat k) s').
  { induction k as [|k IH]; intros s1 Hk E.
    - simpl in E; inversion E; subst. now rewrite Z.add_0_r.
    - rewrite zrange_snoc, foldM_app in E.
      bind_inv E s2 E2; cbn [foldM] in E; bind_inv E s3 E3.
      inversion E; subst.
      replace (lo + Z.of_nat (S k)) with (lo + Z.of_nat k + 1) by lia.
      apply (Hstep _ s2); auto; [lia|].
      apply IH; auto; lia. }
  intros E; specialize (G (Z.to_nat (hi - lo)) s' ltac:(lia) E).
  now replace (lo + Z.of_nat (Z.to_nat (hi - lo))) with hi in G by lia.
Qed.

Lemma forZ_empty {St : Type} (lo hi : Z) (body : Z -> St -> option St) (s : St) :
  hi <= lo -> forZ lo hi body s = Some s.
Proof.
  intros Hle; unfold forZ.
  now replace (Z.to_nat (hi - lo)) with O by lia.
Qed.

Lemma rd_In {A : Type} (a : list A) (i : Z) (v : A) : rd a i = Some v -> In v a.
Proof.
  unfold rd; destruct (i <? 0); [discriminate|]; apply nth_error_In.
Qed.

Lemma wr_rd_other {A : Type} (a a' : list A) (i j : Z) (v : A) :
  wr a i v = Some a' -> i <> j -> rd a' j = rd a j.
Proof.
  intros E Hij; apply wr_Some in E as [Hi ->].
  apply rd_upd_other; lia.
Qed.

Lemma wr_rd_same {A : Type} (a a' : list A) (i : Z) (v : A) :
  wr a i v = Some a' -> rd a' i = Some v.
Proof.
  intros E; apply wr_Some in E as [Hi ->]; now apply rd_upd_same.
Qed.

Lemma wr_zlen {A : Type} (a a' : list A) (i : Z) (v : A) :
  wr a i v = Some a' -> zlen a' = zlen a.
Proof. intros E; apply wr_Some in E as [Hi ->]; apply zlen_upd. Qed.

(** A loop storing one value per iteration at [base + d]: the entries
    below [base] are kept and the entries written satisfy [P]. *)
Lemma forZ_fill_keeps (P : Z -> Prop) (base n : Z)
  (val : Z -> list Z -> option Z) (a a' : list Z) :
  (forall d s v, val d s = Some v -> P v) ->
  forZ 0 n (fun d s => v <- val d s ;; wr s (base + d) v) a = Some a' ->
  zlen a' = zlen a /\
  (forall k, k < base -> rd a' k = rd a k) /\
  (forall k, base <= k < base + n -> exists v, rd a' k = Some v /\ P v).
Proof.
  intros HP E.
  destruct (Z_le_gt_dec 0 n) as [Hn|Hn].
  - apply (forZ_keeps
      (fun d s => zlen s = zlen a /\
                  (forall k, k < base -> rd s k = rd a k) /\
                  (forall k, base <= k < base + d ->
                     exists v, rd s k = Some v /\ P v)) 0 n) in E; auto.
    + repeat split; auto; intros; lia.
    + intros d s s' Hd (Hl & Hlow & Hnew) Eb.
      bind_inv Eb v Ev.
      repeat split.
      * rewrite (wr_zlen _ _ _ _ Eb); auto.
      * intros k Hk; rewrite (wr_rd_other _ _ _ _ _ Eb) by lia; auto.
      * intros k Hk; destruct (Z.eq_dec k (base + d)) as [->|Hne].
        -- exists v; split; [eapply wr_rd_same; eauto|eapply HP; eauto].
        -- rewrite (wr_rd_other _ _ _ _ _ Eb) by lia; apply Hnew; lia.
  - rewrite forZ_empty in E by lia; inversion E; subst.
    repeat split; auto; intros; lia.
Qed.

Section BoundaryScatter.
Variables (fs : FaceSpace) (o : ElementDofOrdering).

Local Abbreviation table := (GetElementToDofTable (fes fs)).

Lemma L2_scatter_face_boundary dof fi f_ind fm s1 s2 f_ind' fm' s1' s2' :
  L2Face.scatter_face fs o Boundary DoubleValued dof fi (f_ind, fm, (s1, s2))
  = Some (f_ind', fm', (s1', s2')) ->
  0 <= f_ind -> boundary_scatter table s1 s2 (dof * f_ind) ->
  0 <= f_ind' /\ zlen s1' = zlen s1 /\ zlen s2' = zlen s2 /\
  boundary_scatter table s1' s2' (dof * f_ind').
Proof.
  intros E Hf HB; unfold L2Face.scatter_face in E.
  bind_inv E fm1 Efm.
  destruct (face_selected_L2 Boundary fi) eqn:Hsel.
  - bind_inv E t1 E1; bind_inv E t2 E2; inversion E; subst; clear E.
    cbn [L2Face.double_valued] in E2.
    assert (Hint : L2Face.interior_face Boundary fi = false) by reflexivity.
    assert (Hbd : L2Face.boundary_face Boundary fi = true) by exact Hsel.
    rewrite forZ_0 in E2.
    rewrite (foldM_ext_in _
      (fun d s => v <- Some (-1) ;; wr s (dof * f_ind + d) v)) in E2
      by (intros; rewrite Hint, Hbd; reflexivity).
    rewrite <- forZ_0 in E2.
    apply (forZ_fill_keeps (fun g => In g table)) in E1 as (L1 & K1 & N1).
    2:{ intros d s v Ev; unfold L2Face.gid1 in Ev.
        bind_inv Ev did Ed; eapply rd_In; eauto. }
    apply (forZ_fill_keeps (fun g => g = -1)) in E2 as (L2 & K2 & N2).
    2:{ intros d s v Ev; inversion Ev; auto. }
    repeat split; auto; try lia.
    + destruct (Z_lt_ge_dec lid (dof * f_ind)) as [Hlt|Hge].
      * rewrite K1 by assumption; apply HB; lia.
      * apply N1; nia.
    + destruct (Z_lt_ge_dec lid (dof * f_ind)) as [Hlt|Hge].
      * rewrite K2 by assumption; apply HB; lia.
      * destruct (N2 lid ltac:(nia)) as (v & Rv & ->); exact Rv.
  - inversion E; subst; auto.
Qed.

Lemma L2_scatter_boundary dof l :
  forall f_ind fm s1 s2 f_ind' fm' s1' s2',
  foldM (L2Face.scatter_face fs o Boundary DoubleValued dof) l
    (f_ind, fm, (s1, s2)) = Some (f_ind', fm', (s1', s2')) ->
  0 <= f_ind -> boundary_scatter table s1 s2 (dof * f_ind) ->
  0 <= f_ind' /\ zlen s1' = zlen s1 /\ zlen s2' = zlen s2 /\
  boundary_scatter table s1' s2' (dof * f_ind').
Proof.
  induction l as [|fi l IH]; intros f_ind fm s1 s2 f_ind' fm' s1' s2' E Hf HB.
  - inversion E; subst; auto.
  - cbn [foldM] in E; bind_inv E st Est.
    destruct st as [[f1 fm1] [t1 t2]].
    apply L2_scatter_face_boundary in Est as (Hf1 & L1 & L2 & HB1); auto.
    apply IH in E as (Hf' & L1' & L2' & HB'); auto.
    split; [auto|]; split; [lia|]; split; [lia|auto].
Qed.

(** The scatter arrays of a double-valued restriction built over boundary
    faces. *)
Lemma L2_new_boundary mem r :
  L2Face.new mem fs o Boundary DoubleValued = Some r ->
  0 <= L2Face.nf r /\
  L2Face.nfdofs r = L2Face.nf r * L2Face.dof r /\
  L2Face.m r = DoubleValued /\
  L2Face.ndofs r = GetNDofs (fes fs) /\
  boundary_scatter table (L2Face.scatter_indices1 r) (L2Face.scatter_indices2 r)
    (L2Face.nfdofs r).
Proof.
  intros E; unfold L2Face.new in E.
  bind_inv E dm Edm; bind_inv E u1 Eu1; bind_inv E u2 Eu2.
  destruct (Z.eqb_spec (GetNFbyType fs Boundary) 0) as [Hnf|Hnf].
  - inversion E; subst; cbn.
    rewrite Hnf; repeat split; try lia; intros lid Hl; lia.
  - bind_inv E u3 Eu3; bind_inv E u4 Eu4.
    bind_inv E st Est; destruct st as [[f_ind fm] [s1 s2]].
    bind_inv E u5 Eu5; apply verify_Some, Z.eqb_eq in Eu5; subst f_ind.
    apply L2_scatter_boundary in Est as (Hf & L1 & L2 & HB);
      [|lia|intros lid Hl; lia].
    bind_inv E off0 E0; bind_inv E st1 E1; destruct st1 as [[f1 fm1] off1].
    bind_inv E u6 Eu6; bind_inv E off2 E2.
    bind_inv E st3 E3; destruct st3 as [[f3 fm3] og3].
    bind_inv E u7 Eu7; bind_inv E off4 E4; bind_inv E off5 E5.
    inversion E; subst; cbn.
    repeat split; auto.
    all: rewrite Z.mul_comm in HB; apply HB; assumption.
Qed.

End BoundaryScatter.

Lemma ix4_as_ix3 (n0 n1 n2 i0 i1 i2 i3 : Z) :
  ix4 n0 n1 n2 i0 i1 i2 i3 = ix3 n0 n1 i0 i1 (i2 + i3 * n2).
Proof. unfold ix4, ix3; f_equal; f_equal; f_equal; lia. Qed.

Lemma ix4_range (n0 n1 n2 n3 i0 i1 i2 i3 : Z) :
  0 <= i0 < n0 -> 0 <= i1 < n1 -> 0 <= i2 < n2 -> 0 <= i3 < n3 ->
  0 <= ix4 n0 n1 n2 i0 i1 i2 i3 < n0 * n1 * n2 * n3.
Proof.
  intros H0 H1 H2 H3; rewrite ix4_as_ix3.
  pose proof (ix3_range n0 n1 (n2 * n3) i0 i1 (i2 + i3 * n2) H0 H1 ltac:(nia)).
  lia.
Qed.

Lemma ix4_inj (n0 n1 n2 i0 i1 i2 i3 j0 j1 j2 j3 : Z) :
  0 <= i0 < n0 -> 0 <= i1 < n1 -> 0 <= i2 < n2 ->
  0 <= j0 < n0 -> 0 <= j1 < n1 -> 0 <= j2 < n2 ->
  ix4 n0 n1 n2 i0 i1 i2 i3 = ix4 n0 n1 n2 j0 j1 j2 j3 ->
  i0 = j0 /\ i1 = j1 /\ i2 = j2 /\ i3 = j3.
Proof.
  intros H0 H1 H2 H0' H1' H2'; rewrite !ix4_as_ix3; intros E.
  apply ix3_inj in E as (-> & -> & E); auto.
  apply lex_pair_inj in E as [-> ->]; auto.
Qed.

(** A loop storing one value per iteration at pairwise distinct targets. *)
Lemma store_loop {V : Type} (vd : Z) (T : Z -> Z) (F : Z -> option V)
  (val : Z -> V) (y : list V) :
  (forall c, 0 <= c < vd -> F c = Some (val c)) ->
  (forall c, 0 <= c < vd -> 0 <= T c < zlen y) ->
  (forall c c', 0 <= c < vd -> 0 <= c' < vd -> T c = T c' -> c = c') ->
  exists y',
    forZ 0 vd (fun c y => v <- F c ;; wr y (T c) v) y = Some y' /\
    zlen y' = zlen y /\
    (forall c, 0 <= c < vd -> rd y' (T c) = Some (val c)) /\
    (forall t, (forall c, 0 <= c < vd -> t <> T c) -> rd y' t = rd y t).
Proof.
  intros HF HT Hinj.
  destruct (stores_result (map (fun c => (T c, val c)) (zseq vd))) with (y0 := y)
    as (y' & E & Hl & Hin & Hout).
  { rewrite map_map; cbn [fst].
    apply Finite.Injective_map_NoDup_in; [|apply NoDup_zrange].
    intros c c' Hc Hc'; rewrite in_zseq in Hc, Hc'; auto. }
  { intros s Hs; apply in_map_iff in Hs as (c & <- & Hc).
    apply in_zseq in Hc; cbn [fst]; auto. }
  exists y'; repeat split; auto.
  - rewrite forZ_0, <- E, foldM_map.
    apply foldM_ext_in; intros c s Hc; apply in_zseq in Hc.
    rewrite HF by assumption; reflexivity.
  - intros c Hc; apply (Hin (T c, val c)).
    apply in_map_iff; exists c; split; auto; now apply in_zseq.
  - intros t Ht; apply Hout.
    rewrite map_map; cbn [fst]; intros Hin'.
    apply in_map_iff in Hin' as (c & Ec & Hc); apply in_zseq in Hc.
    apply (Ht c Hc); auto.
Qed.

Lemma slot_quot_rem (nd nf i : Z) :
  0 <= nf -> 0 <= i < nf * nd ->
  0 < nd /\ 0 <= Z.rem i nd < nd /\ 0 <= Z.quot i nd < nf /\
  nd * Z.quot i nd + Z.rem i nd = i.
Proof.
  intros Hnf Hi.
  assert (Hnd : 0 < nd) by nia.
  rewrite Z.rem_mod_nonneg, Z.quot_div_nonneg by lia.
  destruct (flat_index_split nd i nf) as (? & ? & ?); try lia.
Qed.

(** C7: a double-valued restriction built over boundary faces holds the
    sentinel -1 at every slot of [scatter_indices2], and [Mult] returns
    (no access leaves its arrays) with the zero scalar at every side-2
    entry of the local output. *)
Theorem L2_Mult_boundary_zero {V : Type} `{Scalar V}
  mem fs o r (x y0 : list V) :
  L2Face.new mem fs o Boundary DoubleValued = Some r ->
  Forall (fun g => 0 <= g < GetNDofs (fes fs)) (GetElementToDofTable (fes fs)) ->
  0 <= L2Face.vdim r ->
  zlen x = L2Face.vdim r * L2Face.ndofs r ->
  zlen y0 = L2Face.dof r * L2Face.vdim r * 2 * L2Face.nf r ->
  (forall i, 0 <= i < L2Face.nf r * L2Face.dof r ->
     rd (L2Face.scatter_indices2 r) i = Some (-1)) /\
  exists y,
    L2Face.Mult r x y0 = Some y /\ zlen y = zlen y0 /\
    forall f d c,
      0 <= f < L2Face.nf r -> 0 <= d < L2Face.dof r -> 0 <= c < L2Face.vdim r ->
      rd (L2Face.scatter_indices2 r) (L2Face.dof r * f + d) = Some (-1) /\
      rd y (ix4 (L2Face.dof r) (L2Face.vdim r) 2 d c 1 f) = Some szero.
Proof.
  intros E Htab Hvd Hx Hy.
  destruct (L2_new_boundary fs o mem r E) as (Hnf & Enfd & Em & End & HB).
  rewrite Enfd in HB.
  split; [intros i Hi; now apply HB|].
  set (nd := L2Face.dof r) in *; set (vd := L2Face.vdim r) in *.
  set (T := fun side i c => ix4 nd vd 2 (Z.rem i nd) c side (Z.quot i nd)).
  assert (TR : forall side i c, 0 <= side < 2 -> 0 <= i < L2Face.nf r * nd ->
                 0 <= c < vd -> 0 <= T side i c < zlen y0).
  { intros side i c Hs Hi Hc; unfold T; rewrite Hy.
    destruct (slot_quot_rem nd (L2Face.nf r) i Hnf Hi) as (? & ? & ? & _).
    apply ix4_range; lia. }
  assert (TI : forall side i c side' i' c',
                 0 <= side < 2 -> 0 <= i < L2Face.nf r * nd -> 0 <= c < vd ->
                 0 <= side' < 2 -> 0 <= i' < L2Face.nf r * nd -> 0 <= c' < vd ->
                 T side i c = T side' i' c' -> side = side' /\ i = i' /\ c = c').
  { intros side i c side' i' c' Hs Hi Hc Hs' Hi' Hc' ET; unfold T in ET.
    destruct (slot_quot_rem nd (L2Face.nf r) i Hnf Hi) as (? & ? & ? & Ei).
    destruct (slot_quot_rem nd (L2Face.nf r) i' Hnf Hi') as (? & ? & ? & Ei').
    apply ix4_inj in ET as (E1 & E2 & E3 & E4); [|lia..].
    repeat split; auto.
    rewrite <- Ei, <- Ei', E1, E4; reflexivity. }
  assert (Main : exists y,
            L2Face.Mult r x y0 = Some y /\ zlen y = zlen y0 /\
            forall i c, 0 <= i < L2Face.nf r * nd -> 0 <= c < vd ->
              rd y (T 1 i c) = Some szero).
  { unfold L2Face.Mult; rewrite Em, Enfd; cbn [L2Face.double_valued].
    fold nd; fold vd.
    destruct (Z_le_gt_dec 0 (L2Face.nf r * nd)) as [Hpos|Hneg].
    2:{ rewrite forZ_empty by lia; exists y0; repeat split; auto; intros; lia. }
    destruct (forZ_inv
      (fun i y => zlen y = zlen y0 /\
                  forall i' c, 0 <= i' < i -> 0 <= c < vd ->
                    rd y (T 1 i' c) = Some szero)
      0 (L2Face.nf r * nd)) with (s := y0) (body := fun i y =>
        idx1 <- rd (L2Face.scatter_indices1 r) i ;;
        y1 <- forZ 0 vd (fun c y =>
                v <- rd x (gix (L2Face.byvdim r) vd (L2Face.ndofs r) idx1 c) ;;
                wr y (ix4 nd vd 2 (Z.rem i nd) c 0 (Z.quot i nd)) v) y ;;
        idx2 <- rd (L2Face.scatter_indices2 r) i ;;
        forZ 0 vd (fun c y =>
          v <- (if idx2 =? -1 then Some szero
                else rd x (gix (L2Face.byvdim r) vd (L2Face.ndofs r) idx2 c)) ;;
          wr y (ix4 nd vd 2 (Z.rem i nd) c 1 (Z.quot i nd)) v) y1)
      as (y & Ey & Hl & Hz); auto.
    - split; auto; intros; lia.
    - intros i s Hi (Hl & Hz).
      destruct (HB i Hi) as ((g & Rg & Hg) & R2).
      rewrite Forall_forall in Htab; apply Htab in Hg.
      rewrite Rg, R2; cbn [obind].
      destruct (store_loop vd (T 0 i)
                  (fun c => rd x (gix (L2Face.byvdim r) vd (L2Face.ndofs r) g c))
                  (fun c => nth (Z.to_nat (gix (L2Face.byvdim r) vd
                                             (L2Face.ndofs r) g c)) x szero) s)
        as (y1 & E1 & L1 & _ & O1).
      { intros c Hc; apply rd_nth; rewrite Hx; apply gix_range; auto.
        rewrite End; auto. }
      { intros c Hc; rewrite Hl; apply TR; auto; lia. }
      { intros c c' Hc Hc' ET; apply TI in ET; auto; lia. }
      unfold T in E1 at 1; rewrite E1; cbn [obind]; cbn [Z.eqb Pos.eqb].
      destruct (store_loop vd (T 1 i) (fun _ => Some szero) (fun _ => szero) y1)
        as (y2 & E2 & L2 & I2 & O2); auto.
      { intros c Hc; rewrite L1, Hl; apply TR; auto; lia. }
      { intros c c' Hc Hc' ET; apply TI in ET; auto; lia. }
      unfold T in E2 at 1; rewrite E2.
      exists y2; split; auto; split; [lia|].
      intros i' c Hi' Hc.
      destruct (Z.eq_dec i' i) as [->|Hne]; [now apply I2|].
      rewrite O2, O1; [apply Hz; lia| |];
        intros c' Hc' ET; apply TI in ET; auto; lia.
    - exists y; repeat split; auto. }
  destruct Main as (y & Ey & Hl & Hz).
  exists y; split; [exact Ey|]; split; [exact Hl|].
  intros f d c Hf Hd Hc.
  assert (Hi : 0 <= nd * f + d < L2Face.nf r * nd) by nia.
  split; [now apply HB|].
  specialize (Hz (nd * f + d) c Hi Hc); unfold T in Hz.
  destruct (flat_index_quot_rem nd f d) as [Eq Er]; try lia.
  now rewrite Eq, Er in Hz.
Qed.

(** ** Discontinuous face restriction: consumers of the sentinel *)

Lemma l2quad_boundary_built mem :
  L2Face.new mem l2quad_faces LEXICOGRAPHIC Boundary DoubleValued
  = Some (l2quad_boundary mem).
Proof. vm_compute; reflexivity. Qed.

(** The sentinel used as a row index leaves the row array. *)
Lemma AddNnz_sentinel (I_ : list Z) (dofs : Z) : AddNnz (-1) I_ dofs = None.
Proof. reflexivity. Qed.

Lemma AtomicAdd_negative {V : Type} `{Scalar V} (a : list V) (i : Z) (v : V) :
  i < 0 -> L2Face.AtomicAdd a i v = None.
Proof.
  intros Hi; unfold L2Face.AtomicAdd, rd.
  destruct (Z.ltb_spec i 0); [reflexivity|lia].
Qed.

Lemma L2_FillI_sentinel mem (I_ : list Z) :
  L2Face.FillI (l2quad_boundary mem) I_ = None.
Proof.
  unfold L2Face.FillI, forZ; cbn [L2Face.nf L2Face.dof l2quad_boundary].
  change (Z.to_nat (4 * 2 - 0)) with 8%nat; cbn [zrange foldM].
  cbn [L2Face.scatter_indices1 L2Face.scatter_indices2 l2quad_boundary].
  change (rd [0; 1; 1; 3; 2; 3; 0; 2] 0) with (Some 0).
  change (rd [-1; -1; -1; -1; -1; -1; -1; -1] 0) with (Some (-1)).
  cbn [obind].
  destruct (AddNnz 0 I_ 2) as [[v I']|]; reflexivity.
Qed.

Lemma L2_FillJAndData_sentinel {V : Type} `{Scalar V}
  mem (ea_data : list V) (mat : list Z * list Z * list V) :
  L2Face.FillJAndData (l2quad_boundary mem) ea_data mat = None.
Proof.
  destruct mat as [[I_ J] Data].
  unfold L2Face.FillJAndData, forZ; cbn [L2Face.nf L2Face.dof l2quad_boundary].
  change (Z.to_nat (4 * 2 - 0)) with 8%nat; cbn [zrange foldM].
  cbn [L2Face.scatter_indices1 L2Face.scatter_indices2 l2quad_boundary].
  change (rd [0; 1; 1; 3; 2; 3; 0; 2] (0 ÷ 2 * 2 + Z.rem 0 2)) with (Some 0).
  change (rd [-1; -1; -1; -1; -1; -1; -1; -1] (0 ÷ 2 * 2 + Z.rem 0 2))
    with (Some (-1)).
  cbn [obind].
  destruct (AddNnz 0 I_ 2) as [[v I']|]; reflexivity.
Qed.

Lemma L2_AddFaceMatrices_sentinel {V : Type} `{Scalar V}
  mem (fea_data ea_data : list V) :
  L2Face.AddFaceMatricesToElementMatrices (l2quad_boundary mem)
    fea_data ea_data
  = None.
Proof.
  unfold L2Face.AddFaceMatricesToElementMatrices.
  cbn [L2Face.nf L2Face.dof L2Face.m L2Face.ne L2Face.elemDofs
       L2Face.double_valued l2quad_boundary
       L2Face.scatter_indices1 L2Face.scatter_indices2].
  unfold forZ at 1; change (Z.to_nat (4 - 0)) with 4%nat; cbn [zrange foldM].
  change (rd [0; 1; 1; 3; 2; 3; 0; 2] (0 * 2)) with (Some 0).
  change (rd [-1; -1; -1; -1; -1; -1; -1; -1] (0 * 2)) with (Some (-1)).
  cbn [obind].
  match goal with
  | |- obind (obind ?side1 _) _ = None => destruct side1 as [ea|]
  end; [|reflexivity].
  cbn [obind]; change (-1 ÷ 4 <? 1) with true; cbv iota.
  unfold forZ at 1; change (Z.to_nat (2 - 0)) with 2%nat; cbn [zrange foldM].
  change (rd [-1; -1; -1; -1; -1; -1; -1; -1] (0 * 2 + 0)) with (Some (-1)).
  cbn [obind].
  unfold forZ at 1; change (Z.to_nat (2 - 0)) with 2%nat; cbn [zrange foldM].
  change (rd [-1; -1; -1; -1; -1; -1; -1; -1] (0 * 2 + 0)) with (Some (-1)).
  cbn [obind].
  destruct (rd fea_data _) as [v|]; [|reflexivity].
  cbn [obind]; rewrite AtomicAdd_negative; [reflexivity|].
  vm_compute; reflexivity.
Qed.

(** C8 (failing input): on the double-valued restriction built over the
    boundary faces of a single quadrilateral, whose [scatter_indices2] holds
    the sentinel -1, neither [FillI], [FillJAndData] nor
    [AddFaceMatricesToElementMatrices] tests the entry: each uses it as an
    index and leaves its array, whatever the matrices it is given and
    whatever the memory held when the restriction was built. *)
Theorem L2_sentinel_unchecked :
  forall mem,
  L2Face.new mem l2quad_faces LEXICOGRAPHIC Boundary DoubleValued
  = Some (l2quad_boundary mem) /\
  rd (L2Face.scatter_indices2 (l2quad_boundary mem)) 0 = Some (-1) /\
  (forall I_ dofs, AddNnz (-1) I_ dofs = None) /\
  (forall I_, L2Face.FillI (l2quad_boundary mem) I_ = None) /\
  (forall (ea_data : list Z) mat,
     L2Face.FillJAndData (l2quad_boundary mem) ea_data mat = None) /\
  (forall fea_data ea_data : list Z,
     L2Face.AddFaceMatricesToElementMatrices (l2quad_boundary mem)
       fea_data ea_data
     = None).
Proof.
  intros mem.
  split; [apply l2quad_boundary_built|].
  split; [reflexivity|].
  split; [apply AddNnz_sentinel|].
  split; [apply L2_FillI_sentinel|].
  split; [intros; apply L2_FillJAndData_sentinel|].
  intros; apply L2_AddFaceMatrices_sentinel.
Qed.

Lemma L2_Mult_boundary_zero_witness :
  exists y : list Z,
    L2Face.Mult (l2quad_boundary l2_stale) [10; 20; 30; 40] (alloc 16 7)
    = Some y /\
    zlen y = 16 /\
    rd y (ix4 2 1 2 0 0 1 0) = Some 0.
Proof.
  destruct (L2_Mult_boundary_zero l2_stale l2quad_faces LEXICOGRAPHIC
              (l2quad_boundary l2_stale) [10; 20; 30; 40] (alloc 16 7)
              (l2quad_boundary_built l2_stale))
    as (_ & y & Ey & Hl & Hz).
  - apply (Forall_forallb (fun g => (0 <=? g) && (g <? 4))).
    + intros a Ha; apply andb_prop in Ha as [H1 H2]; cbn; lia.
    + vm_compute; reflexivity.
  - cbn; lia.
  - reflexivity.
  - reflexivity.
  - exists y; split; [exact Ey|]; split; [exact Hl|].
    apply (Hz 0 0 0); cbn; lia.
Defined.

(** ** The theorems on a small signed space *)

Lemma signed_space_wf : wf_space signed_space LEXICOGRAPHIC.
Proof.
  unfold wf_space; cbn [GetNE GetNDofs GetDof GetElementToDofTable GetDofMap
                        signed_space].
  repeat split; try lia.
  - apply (Forall_forallb (fun s => (0 <=? decode s) && (decode s <? 3))).
    + intros a Ha; apply andb_prop in Ha as [H1 H2]; lia.
    + vm_compute; reflexivity.
  - intros _; exists [-2; 0]; split; [reflexivity|].
    change (map decode [-2; 0]) with [1; 0]; change (zseq 2) with [0; 1].
    apply perm_swap.
Defined.

Lemma signed_restriction_built :
  ElementRestriction_new signed_space LEXICOGRAPHIC = Some signed_restriction.
Proof. vm_compute; reflexivity. Defined.

Lemma ElementRestriction_offsets_invariant_witness :
  Permutation (map decode (indices signed_restriction))
              (zseq (ne signed_restriction * dof signed_restriction)).
Proof.
  apply (ElementRestriction_offsets_invariant
           signed_space LEXICOGRAPHIC signed_restriction
           signed_space_wf signed_restriction_built).
Defined.

Lemma Mult_scatter_witness :
  exists y : list Z,
    Mult signed_restriction [10; 11; 20; 21; 30; 31] (alloc 8 0) = Some y /\
    zlen y = 8.
Proof.
  destruct (Mult_scatter signed_space LEXICOGRAPHIC signed_restriction
              [10; 11; 20; 21; 30; 31] (alloc 8 0)
              signed_space_wf signed_restriction_built)
    as (y & Ey & Hl & _); try reflexivity; [cbn; lia|].
  exists y; split; [exact Ey|exact Hl].
Defined.

Lemma MultTranspose_gather_witness :
  exists y : list Z,
    MultTranspose signed_restriction [20; 10; 21; 11; -30; 20; -31; 21]
      (alloc 6 7) = Some y /\
    zlen y = 6.
Proof.
  destruct (MultTranspose_gather signed_space LEXICOGRAPHIC signed_restriction
              [20; 10; 21; 11; -30; 20; -31; 21] (alloc 6 7)
              signed_space_wf signed_restriction_built)
    as (y & Ey & Hl & _); try reflexivity; [cbn; lia|].
  exists y; split; [exact Ey|exact Hl].
Defined.

(** ** Sparse pattern of the element restriction *)

Lemma list_min_le m0 l : list_min m0 l <= m0.
Proof.
  unfold list_min; revert m0; induction l as [|v t IH]; intros m0; simpl; [lia|].
  destruct (Z.ltb_spec v m0); [specialize (IH v)|specialize (IH m0)]; lia.
Qed.

Lemma list_min_lower m0 l x : In x l -> list_min m0 l <= x.
Proof.
  unfold list_min; revert m0; induction l as [|v t IH]; intros m0 Hin;
    [contradiction|].
  simpl; destruct Hin as [->|Hin]; [|now apply IH].
  destruct (Z.ltb_spec x m0).
  - apply (list_min_le x t).
  - pose proof (list_min_le m0 t); unfold list_min in *; lia.
Qed.

Lemma list_min_in m0 l : list_min m0 l = m0 \/ In (list_min m0 l) l.
Proof.
  unfold list_min; revert m0; induction l as [|v t IH]; intros m0; simpl; auto.
  destruct (Z.ltb_spec v m0).
  - destruct (IH v) as [E|Hin]; [rewrite E|]; auto.
  - destruct (IH m0) as [E|Hin]; auto.
Qed.

Lemma in_inter_list A B x : In x (inter_list A B) <-> In x A /\ In x B.
Proof.
  unfold inter_list; rewrite in_map_iff; split.
  - intros ([a b] & <- & Hin); apply filter_In in Hin as [Hin E].
    apply in_pairs in Hin; cbn [fst snd] in *.
    apply Z.eqb_eq in E; subst; tauto.
  - intros [HA HB]; exists (x, x); split; auto.
    apply filter_In; split; [now apply in_pairs|apply Z.eqb_refl].
Qed.

(** The minimum of the common entries is a common entry below the others. *)
Lemma min_common_spec A B :
  inter_list A B <> [] ->
  In (min_common A B) A /\ In (min_common A B) B /\
  forall x, In x A -> In x B -> min_common A B <= x.
Proof.
  intros Hne; unfold min_common.
  destruct (inter_list A B) as [|x t] eqn:E; [congruence|].
  assert (Hin : In (list_min x t) (x :: t)).
  { destruct (list_min_in x t) as [->|Ht]; [now left|now right]. }
  rewrite <- E in Hin; apply in_inter_list in Hin as [HA HB].
  repeat split; auto.
  intros y Hy1 Hy2.
  assert (Hy : In y (x :: t)) by (rewrite <- E; now apply in_inter_list).
  destruct Hy as [->|Hy]; [apply list_min_le|now apply list_min_lower].
Qed.

Lemma inter_list_length_le A B :
  NoDup B -> (length (inter_list A B) <= length A)%nat.
Proof.
  intros NB; unfold inter_list, pairs; rewrite length_map.
  induction A as [|a t IH]; simpl; [lia|].
  rewrite filter_app, length_app.
  assert (Hone : (length (filter (fun ab : Z * Z => Z.eqb (fst ab) (snd ab))
                            (map (pair a) B)) <= 1)%nat).
  { clear IH; induction NB as [|b B' Hb _ IHB]; simpl; [lia|].
    destruct (Z.eqb_spec a b) as [->|Hne]; simpl; [|lia].
    assert (E0 : filter (fun ab : Z * Z => fst ab =? snd ab) (map (pair b) B')
                 = []).
    { clear IHB; induction B' as [|c B'' IHc]; simpl; auto.
      destruct (Z.eqb_spec b c) as [->|Hc]; [exfalso; apply Hb; now left|].
      apply IHc; intros Hin; apply Hb; now right. }
    rewrite E0; simpl; lia. }
  lia.
Qed.

(** Pushing a list into the buffer. *)
Lemma push_pass (L : list Z) :
  forall (buf : list Z) (cpt : Z),
  0 <= cpt -> cpt + zlen L <= zlen buf ->
  exists buf',
    foldM push L (buf, cpt) = Some (buf', cpt + zlen L) /\
    zlen buf' = zlen buf /\
    (forall k, 0 <= k < cpt -> rd buf' k = rd buf k) /\
    (forall k, 0 <= k < zlen L ->
       rd buf' (cpt + k) = Some (nth (Z.to_nat k) L 0)).
Proof.
  induction L as [|x t IH]; intros buf cpt Hc Hl.
  - exists buf; cbn [foldM]; unfold zlen at 1; simpl; rewrite Z.add_0_r.
    repeat split; auto; unfold zlen; simpl; intros; lia.
  - unfold zlen in Hl; cbn [length] in Hl.
    cbn [foldM]; unfold push at 1; cbn [fst snd].
    rewrite wr_in_range by (unfold zlen; lia); cbn [obind].
    destruct (IH (upd (Z.to_nat cpt) x buf) (cpt + 1)) as (buf' & E & L' & K & N);
      [lia|rewrite zlen_upd; unfold zlen; lia|].
    exists buf'; rewrite zlen_upd in L'.
    replace (cpt + zlen (x :: t)) with (cpt + 1 + zlen t)
      by (unfold zlen; cbn [length]; lia).
    repeat split; auto.
    + intros k Hk; rewrite K by lia; apply rd_upd_other; lia.
    + intros k Hk; unfold zlen in Hk; cbn [length] in Hk.
      destruct (Z.eq_dec k 0) as [->|Hne].
      * rewrite Z.add_0_r, K by lia.
        rewrite rd_upd_same by (unfold zlen; lia); reflexivity.
      * replace (cpt + k) with (cpt + 1 + (k - 1)) by lia.
        rewrite N by (unfold zlen; lia).
        replace (Z.to_nat k) with (S (Z.to_nat (k - 1))) by lia; reflexivity.
Qed.

(** A loop over the first entries of a buffer folds over them. *)
Lemma forZ_prefix {St : Type} (buf A : list Z) (nA : Z)
  (body : Z -> St -> option St) (s : St) :
  firstn (Z.to_nat nA) buf = A -> zlen A = nA ->
  forZ 0 nA (fun i s => v <- rd buf i ;; body v s) s = foldM body A s.
Proof.
  intros EA HA; unfold forZ; rewrite Z.sub_0_r.
  rewrite foldM_rd_range.
  - change (Z.to_nat 0) with O; cbn [skipn]; now rewrite EA.
  - lia.
  - rewrite <- HA, <- EA; unfold zlen; rewrite length_firstn; lia.
Qed.

Lemma list_min_loop (buf L : list Z) (x : Z) :
  (forall k, 0 <= k < zlen L -> rd buf (1 + k) = Some (nth (Z.to_nat k) L 0)) ->
  forZ 1 (1 + zlen L) (fun i min =>
    v <- rd buf i ;; Some (if v <? min then v else min)) x
  = Some (list_min x L).
Proof.
  intros Hrd; unfold forZ.
  replace (Z.to_nat (1 + zlen L - 1)) with (length L) by (unfold zlen; lia).
  unfold list_min.
  assert (G : forall (done todo : list Z) (m : Z), L = done ++ todo ->
            foldM (fun i min => v <- rd buf i ;;
                                Some (if v <? min then v else min))
              (zrange (1 + zlen done) (length todo)) m
            = Some (fold_left (fun m v => if v <? m then v else m) todo m)).
  { intros done todo; revert done; induction todo as [|v t IH];
      intros done m HL; [reflexivity|].
    cbn [length zrange foldM fold_left].
    rewrite Hrd by (rewrite HL; unfold zlen; rewrite length_app; cbn [length]; lia).
    rewrite HL, app_nth2 by (unfold zlen; lia).
    replace (Z.to_nat (zlen done) - length done)%nat with O
      by (unfold zlen; lia).
    cbn [nth obind].
    specialize (IH (done ++ [v]) (if v <? m then v else m)).
    replace (1 + zlen (done ++ [v])) with (1 + zlen done + 1) in IH
      by (unfold zlen; rewrite length_app; cbn [length]; lia).
    apply IH; now rewrite <- app_assoc. }
  apply (G [] L x); reflexivity.
Qed.

Lemma GetMinElt_spec (Max : Z) (bufA bufB A B : list Z) (nA nB : Z) :
  firstn (Z.to_nat nA) bufA = A -> zlen A = nA ->
  firstn (Z.to_nat nB) bufB = B -> zlen B = nB ->
  inter_list A B <> [] -> zlen (inter_list A B) <= Max ->
  GetMinElt Max bufA nA bufB nB = Some (min_common A B).
Proof.
  intros EA HA EB HB Hne Hlen; unfold GetMinElt.
  assert (HMax : 0 <= Max) by (unfold zlen in Hlen; lia).
  rewrite (forZ_prefix bufA A nA
             (fun e_i st =>
                forZ 0 nB (fun j st =>
                  nbr <- rd bufB j ;;
                  if e_i =? nbr then
                    inter <- wr (fst st) (snd st) e_i ;; Some (inter, snd st + 1)
                  else Some st) st)) by assumption.
  rewrite (foldM_ext_in _
    (fun a st => foldM (fun b st => if a =? b then push a st else Some st) B st)).
  2:{ intros a st _.
      apply (forZ_prefix bufB B nB
               (fun b st => if a =? b then push a st else Some st)); auto. }
  rewrite (foldM_pairs (fun a b st => if a =? b then push a st else Some st)).
  rewrite (foldM_filter (fun ab => fst ab =? snd ab) (fun ab => push (fst ab))).
  rewrite <- (foldM_map fst push); fold (inter_list A B).
  destruct (push_pass (inter_list A B) (alloc Max 0) 0) as (buf' & -> & L' & _ & N);
    [lia|rewrite zlen_alloc by lia; lia|].
  cbn [obind]; rewrite Z.add_0_l.
  unfold min_common.
  destruct (inter_list A B) as [|x t] eqn:E; [congruence|].
  assert (N0 := N 0 ltac:(unfold zlen; cbn [length]; lia)).
  change (0 + 0) with 0 in N0; rewrite N0; cbn [nth Z.to_nat obind].
  replace (zlen (x :: t)) with (1 + zlen t) by (unfold zlen; cbn [length]; lia).
  apply list_min_loop; intros k Hk.
  replace (1 + k) with (0 + (k + 1)) by lia.
  rewrite N by (unfold zlen in *; cbn [length]; lia).
  replace (Z.to_nat (k + 1)) with (S (Z.to_nat k)) by lia; reflexivity.
Qed.

Lemma NoDup_firstn {A : Type} (k : nat) (l : list A) : NoDup l -> NoDup (firstn k l).
Proof.
  intros ND; rewrite <- (firstn_skipn k l) in ND.
  eapply NoDup_app_remove_r; eauto.
Qed.

Lemma NoDup_skipn {A : Type} (k : nat) (l : list A) : NoDup l -> NoDup (skipn k l).
Proof.
  intros ND; rewrite <- (firstn_skipn k l) in ND.
  eapply NoDup_app_remove_l; eauto.
Qed.

Lemma slice_length (l : list Z) (lo hi : Z) :
  0 <= lo <= hi -> hi <= zlen l -> zlen (slice l lo hi) = hi - lo.
Proof.
  intros Hlo Hhi; unfold slice, zlen in *.
  rewrite length_firstn, length_skipn; lia.
Qed.

Lemma firstn_of_rd (buf : list Z) (nb : Z) (h : Z -> Z) :
  0 <= nb <= zlen buf ->
  (forall k, 0 <= k < nb -> rd buf k = Some (h k)) ->
  firstn (Z.to_nat nb) buf = map h (zseq nb).
Proof.
  intros Hnb Hrd.
  apply nth_error_ext; intros k.
  destruct (Nat.lt_ge_cases k (Z.to_nat nb)) as [Hk|Hk].
  - rewrite nth_error_firstn.
    destruct (Nat.ltb_spec k (Z.to_nat nb)); [|lia].
    rewrite nth_error_map; unfold zseq; rewrite nth_error_zrange by lia.
    cbn [option_map]; rewrite Z.add_0_l.
    specialize (Hrd (Z.of_nat k) ltac:(lia)); unfold rd in Hrd.
    destruct (Z.of_nat k <? 0); [discriminate|].
    now rewrite Nat2Z.id in Hrd.
  - rewrite (proj2 (nth_error_None _ _)).
    + symmetry; apply nth_error_None.
      rewrite length_map; unfold zseq; rewrite zrange_length; lia.
    + rewrite length_firstn; lia.
Qed.

Section FillISpec.
Variables (f : FiniteElementSpace) (o : ElementDofOrdering) (r : ElementRestriction).
Variable Max : Z.
Hypothesis WF : wf_space f o.
Hypothesis UN : unsigned_space f o.
Hypothesis Built : er_built f o r.
Hypothesis HDist : distinct_per_element r.
Hypothesis HShare : bounded_sharing Max r.

Local Abbreviation keys := (er_keys f o).
Local Abbreviation nE := (GetNE f).
Local Abbreviation nd := (er_dof f).
Local Abbreviation n := (GetNDofs f).

Lemma fi_fields : ne r = nE /\ ndofs r = n /\ dof r = nd /\ gatherMap r = keys.
Proof.
  destruct (er_fields f o r Built) as (E1 & E2 & E3).
  repeat split; auto; now apply er_gatherMap_keys.
Qed.

Lemma fi_bucket_eq g :
  0 <= g < n ->
  er_bucket r g = slice (indices r) (below g keys) (below (g + 1) keys).
Proof.
  intros Hg; unfold er_bucket.
  destruct (fi_fields) as (_ & E2 & _).
  destruct (er_offsets_entry f o r Built g) as (_ & ->); [lia|].
  destruct (er_offsets_entry f o r Built (g + 1)) as (_ & ->); [lia|].
  reflexivity.
Qed.

Lemma fi_bucket_bounds g :
  0 <= g < n ->
  0 <= below g keys <= below (g + 1) keys /\
  below (g + 1) keys <= zlen (indices r).
Proof.
  intros Hg.
  destruct Built as (_ & _ & _ & _ & _ & _ & Hl & _); rewrite Hl.
  pose proof (below_nonneg g keys).
  pose proof (below_mono g (g + 1) keys ltac:(lia)).
  pose proof (below_mono (g + 1) n keys ltac:(lia)) as Hm.
  rewrite (er_offsets_last f o WF) in Hm; lia.
Qed.

Lemma fi_bucket_length g :
  0 <= g < n -> zlen (er_bucket r g) = countZ g keys.
Proof.
  intros Hg; rewrite fi_bucket_eq by assumption.
  destruct (fi_bucket_bounds g Hg) as (Hlo & Hhi).
  rewrite slice_length by lia; rewrite below_succ; lia.
Qed.

Lemma fi_key_range k : 0 <= k < nE * nd -> 0 <= nth (Z.to_nat k) keys 0 < n.
Proof.
  intros Hk; rewrite (er_key_nth f o WF k Hk).
  now apply er_key_range.
Qed.

(** The slot [k] sits at its sorted position. *)
Lemma fi_indices_at_pos k :
  0 <= k < nE * nd -> nth (Z.to_nat (pos keys (Z.to_nat k))) (indices r) 0 = k.
Proof.
  intros Hk.
  destruct Built as (_ & _ & _ & _ & _ & _ & _ & Hp & _).
  specialize (Hp k Hk); unfold rd in Hp.
  destruct (pos keys (Z.to_nat k) <? 0); [discriminate|].
  rewrite (nth_error_nth _ _ 0 Hp).
  unfold er_item; cbn [snd]; rewrite (er_plus_unsigned f o r WF UN Built).
  now apply er_slot_range with o.
Qed.

Lemma fi_bucket_in g v :
  0 <= g < n ->
  In v (er_bucket r g) <-> 0 <= v < nE * nd /\ nth (Z.to_nat v) keys 0 = g.
Proof.
  intros Hg; rewrite fi_bucket_eq by assumption.
  destruct (fi_bucket_bounds g Hg) as (Hlo & Hhi).
  destruct fi_fields as (_ & _ & _ & Egm).
  rewrite slice_map_nth by lia; rewrite in_map_iff; split.
  - intros (j & <- & Hj); apply in_zrange in Hj.
    rewrite <- Egm.
    apply (er_bucket_entry f o r WF UN Built g j Hg); lia.
  - intros [Hv Ek].
    exists (pos keys (Z.to_nat v)); split; [now apply fi_indices_at_pos|].
    apply in_zrange.
    pose proof (pos_bucket keys (Z.to_nat v)) as B.
    rewrite (er_keys_len f o WF), Ek in B; lia.
Qed.

Lemma fi_indices_NoDup : NoDup (indices r).
Proof.
  apply (NoDup_map_inv decode).
  eapply Permutation_NoDup;
    [symmetry; apply (er_indices_perm f o r WF Built)|apply NoDup_zrange].
Qed.

Lemma fi_bucket_NoDup g : NoDup (er_bucket r g).
Proof. unfold er_bucket, slice; apply NoDup_firstn, NoDup_skipn, fi_indices_NoDup. Qed.

Lemma fi_slot_quot v :
  0 <= v < nE * nd ->
  0 <= Z.quot v nd < nE /\ 0 <= Z.rem v nd < nd /\
  Z.quot v nd * nd + Z.rem v nd = v.
Proof.
  intros Hv.
  destruct (slot_quot_rem nd nE v) as (? & ? & ? & ?); try lia; apply WF.
Qed.

Lemma fi_elts_in g e :
  0 <= g < n ->
  In e (er_elts r g) <->
  0 <= e < nE /\ exists i, 0 <= i < nd /\ nth (Z.to_nat (e * nd + i)) keys 0 = g.
Proof.
  intros Hg; unfold er_elts; rewrite in_map_iff.
  destruct fi_fields as (_ & _ & -> & _); split.
  - intros (v & <- & Hin); apply fi_bucket_in in Hin as [Hv Ek]; auto.
    destruct (fi_slot_quot v Hv) as (He & Hi & Ev).
    split; auto; exists (Z.rem v nd); split; auto; now rewrite Ev.
  - intros (He & i & Hi & Ek).
    exists (e * nd + i); split.
    + destruct (flat_index_quot_rem nd e i) as [Eq _]; try lia.
      now replace (e * nd + i) with (nd * e + i) by lia.
    + apply fi_bucket_in; auto; split; auto; nia.
Qed.

Lemma fi_elts_NoDup g : 0 <= g < n -> NoDup (er_elts r g).
Proof.
  intros Hg; unfold er_elts.
  apply Finite.Injective_map_NoDup_in; [|apply fi_bucket_NoDup].
  destruct fi_fields as (E1 & _ & E3 & Egm).
  intros v v' Hv Hv' Eq; rewrite E3 in Eq.
  apply fi_bucket_in in Hv as [Hv Ek], Hv' as [Hv' Ek']; auto.
  destruct (fi_slot_quot v Hv) as (He & Hi & Ev).
  destruct (fi_slot_quot v' Hv') as (He' & Hi' & Ev').
  assert (Ei : Z.rem v nd = Z.rem v' nd).
  { apply (HDist (Z.quot v nd)).
    - rewrite E1; exact He.
    - rewrite E3; exact Hi.
    - rewrite E3; exact Hi'.
    - rewrite E3, Egm, Ev, Eq, Ev'; congruence. }
  rewrite <- Ev, <- Ev', Eq, Ei; reflexivity.
Qed.

Lemma fi_elts_length g : 0 <= g < n -> zlen (er_elts r g) = countZ g keys.
Proof.
  intros Hg; unfold er_elts, zlen; rewrite length_map.
  now apply fi_bucket_length.
Qed.

Lemma fi_share g : 0 <= g < n -> countZ g keys <= Max.
Proof.
  intros Hg; destruct fi_fields as (_ & E2 & _ & Egm).
  rewrite <- Egm; apply HShare; lia.
Qed.

(** The element buffer of a bucket. *)
Lemma bucket_elts_spec g :
  0 <= g < n ->
  exists buf,
    bucket_elts Max r (below g keys) (countZ g keys) = Some buf /\
    firstn (Z.to_nat (countZ g keys)) buf = er_elts r g.
Proof.
  intros Hg.
  destruct (fi_bucket_bounds g Hg) as (Hlo & Hhi).
  pose proof (fi_share g Hg) as Hs.
  pose proof (countZ_nonneg g keys) as Hc.
  rewrite below_succ in Hlo, Hhi.
  unfold bucket_elts.
  destruct (forZ_inv
    (fun k buf => zlen buf = Max /\
       forall t, 0 <= t < k ->
         rd buf t = Some (Z.quot (nth (Z.to_nat (below g keys + t)) (indices r) 0)
                                 (dof r)))
    0 (countZ g keys)) with
    (s := alloc Max 0)
    (body := fun e_i elts =>
       i_E <- rd (indices r) (below g keys + e_i) ;;
       wr elts e_i (Z.quot i_E (dof r)))
    as (buf & E & Hl & Hrd); auto.
  - split; [apply zlen_alloc; lia|intros; lia].
  - intros k s Hk (Hl & Hrd).
    rewrite (rd_nth (indices r) _ 0) by lia; cbn [obind].
    rewrite wr_in_range by lia.
    eexists; split; [reflexivity|]; split; [now rewrite zlen_upd|].
    intros t Ht; destruct (Z.eq_dec t k) as [->|Hne].
    + apply rd_upd_same; lia.
    + rewrite rd_upd_other by lia; apply Hrd; lia.
  - exists buf; split; auto.
    rewrite (firstn_of_rd buf (countZ g keys) _ ltac:(lia) Hrd).
    unfold er_elts; rewrite fi_bucket_eq by assumption.
    rewrite below_succ, slice_map_nth by lia.
    rewrite map_map.
    replace (below g keys + countZ g keys - below g keys) with (countZ g keys)
      by lia.
    unfold zseq.
    assert (G : forall (k : nat) (a b : Z),
              map (fun t => Z.quot (nth (Z.to_nat (a + t)) (indices r) 0) (dof r))
                  (zrange b k)
              = map (fun j => Z.quot (nth (Z.to_nat j) (indices r) 0) (dof r))
                    (zrange (a + b) k)).
    { induction k as [|k IH]; intros a b; [reflexivity|].
      cbn [zrange map]; f_equal.
      rewrite IH; f_equal; f_equal; lia. }
    rewrite G; f_equal; f_equal; lia.
Qed.


Lemma fi_row_col e i :
  0 <= e < nE -> 0 <= i < nd ->
  let a := nth (Z.to_nat (e * dof r + i)) (gatherMap r) 0 in
  0 <= a < n /\
  rd (gatherMap r) (e * dof r + i) = Some a /\
  rd (offsets r) a = Some (below a keys) /\
  rd (offsets r) (a + 1) = Some (below (a + 1) keys) /\
  below (a + 1) keys - below a keys = countZ a keys /\
  In e (er_elts r a).
Proof.
  intros He Hi; cbv zeta.
  destruct fi_fields as (E1 & E2 & E3 & Egm).
  assert (Hk : 0 <= e * nd + i < nE * nd) by nia.
  assert (Ha : 0 <= nth (Z.to_nat (e * dof r + i)) (gatherMap r) 0 < n).
  { rewrite E3, Egm; now apply fi_key_range. }
  split; [exact Ha|]; split.
  - apply rd_nth; rewrite Egm, (er_keys_length f o WF), E3; lia.
  - split; [apply (er_offsets_entry f o r Built); lia|].
    split; [apply (er_offsets_entry f o r Built); lia|].
    split; [rewrite below_succ; lia|].
    apply fi_elts_in; auto; split; auto.
    exists i; split; auto; now rewrite <- Egm, <- E3.
Qed.

Lemma FillI_column_spec e i j I_ bufA :
  0 <= e < nE -> 0 <= i < nd -> 0 <= j < nd ->
  let t := ((e, i), j) in
  firstn (Z.to_nat (countZ (row_of r t) keys)) bufA = er_elts r (row_of r t) ->
  FillI_column Max r e (row_of r t) (countZ (row_of r t) keys) bufA j I_
  = if fill_cond r t then incr_row (row_of r t) I_ else Some I_.
Proof.
  intros He Hi Hj t EA.
  destruct (fi_row_col e i He Hi) as (Ha & _ & _ & _ & _ & Ina).
  destruct (fi_row_col e j He Hj) as (Hb & Rb & Ob & Ob' & Cb & Inb).
  unfold fill_cond, FillI_column.
  change (row_of r t) with (nth (Z.to_nat (e * dof r + i)) (gatherMap r) 0) in *.
  change (col_of r t) with (nth (Z.to_nat (e * dof r + j)) (gatherMap r) 0).
  change (fst (fst t)) with e.
  set (a := nth (Z.to_nat (e * dof r + i)) (gatherMap r) 0) in *.
  set (b := nth (Z.to_nat (e * dof r + j)) (gatherMap r) 0) in *.
  rewrite Rb; cbn [obind]; rewrite Ob; cbn [obind]; rewrite Ob'; cbn [obind].
  rewrite Cb.
  rewrite !fi_bucket_length by assumption.
  destruct ((countZ a keys =? 1) || (countZ b keys =? 1)); [reflexivity|].
  cbn [orb].
  destruct (bucket_elts_spec b Hb) as (bufB & -> & EB); cbn [obind].
  assert (Hne : inter_list (er_elts r a) (er_elts r b) <> []).
  { intros E0.
    assert (Hin : In e (inter_list (er_elts r a) (er_elts r b)))
      by (apply in_inter_list; auto).
    rewrite E0 in Hin; contradiction. }
  assert (Hlen : zlen (inter_list (er_elts r a) (er_elts r b)) <= Max).
  { pose proof (inter_list_length_le (er_elts r a) (er_elts r b)
                  (fi_elts_NoDup b Hb)) as Hle.
    pose proof (fi_elts_length a Ha) as Hla.
    pose proof (fi_share a Ha).
    unfold zlen in *; lia. }
  rewrite (GetMinElt_spec Max bufA bufB (er_elts r a) (er_elts r b)
             (countZ a keys) (countZ b keys)
             EA (fi_elts_length a Ha) EB (fi_elts_length b Hb) Hne Hlen).
  cbn [obind]; destruct (e =? min_common (er_elts r a) (er_elts r b));
    reflexivity.
Qed.

Lemma FillI_row_spec e i I_ :
  0 <= e < nE -> 0 <= i < nd ->
  FillI_row Max r e i I_
  = foldM (fun j I_ =>
             if fill_cond r ((e, i), j) then incr_row (row_of r ((e, i), j)) I_
             else Some I_) (zseq nd) I_.
Proof.
  intros He Hi.
  destruct (fi_row_col e i He Hi) as (Ha & Ra & Oa & Oa' & Ca & _).
  destruct fi_fields as (_ & _ & E3 & _).
  unfold FillI_row; rewrite Ra; cbn [obind]; rewrite Oa; cbn [obind].
  rewrite Oa'; cbn [obind]; rewrite Ca.
  destruct (bucket_elts_spec _ Ha) as (bufA & -> & EA); cbn [obind].
  rewrite E3 at 1; rewrite forZ_0.
  apply foldM_ext_in; intros j s Hin; apply in_zseq in Hin.
  now apply (FillI_column_spec e i j s bufA).
Qed.

(** The loop nest of [FillI] increments the row of the iterations passing
    the test. *)
Lemma FillI_nest_spec I_ :
  forZ 0 (ne r) (fun e I_ => forZ 0 (dof r) (FillI_row Max r e) I_) I_
  = foldM incr_row (map (row_of r) (filter (fill_cond r) (er_triples r))) I_.
Proof.
  destruct fi_fields as (E1 & _ & E3 & _).
  rewrite foldM_map, <- foldM_filter.
  unfold er_triples; rewrite foldM_flat_map.
  rewrite forZ_0.
  rewrite (foldM_ext_in _ (fun e s => foldM (FillI_row Max r e) (zseq (dof r)) s))
    by (intros; apply forZ_0).
  rewrite foldM_pairs.
  apply foldM_ext_in; intros [e i] s Hin.
  apply in_pairs in Hin as [He Hi]; rewrite in_zseq in He, Hi.
  rewrite E1 in He; rewrite E3 in Hi.
  cbn [fst snd]; rewrite foldM_map, E3.
  now apply FillI_row_spec.
Qed.


Lemma fi_triples_in e i j :
  In ((e, i), j) (er_triples r) <->
  0 <= e < nE /\ 0 <= i < nd /\ 0 <= j < nd.
Proof.
  destruct fi_fields as (E1 & _ & E3 & _).
  unfold er_triples; rewrite in_flat_map, E1, E3; split.
  - intros ([e' i'] & Hin & Hj); apply in_map_iff in Hj as (j' & Ej & Hj).
    inversion Ej; subst; apply in_pairs in Hin as [He Hi].
    rewrite in_zseq in He, Hi, Hj; auto.
  - intros (He & Hi & Hj); exists (e, i); split.
    + apply in_pairs; rewrite !in_zseq; auto.
    + apply in_map, in_zseq; auto.
Qed.

(** Two iterations that pass the test and couple the same pair of global
    dofs are the same iteration. *)
Lemma fi_cond_inj t t' :
  In t (er_triples r) -> In t' (er_triples r) ->
  fill_cond r t = true -> fill_cond r t' = true ->
  row_of r t = row_of r t' -> col_of r t = col_of r t' -> t = t'.
Proof.
  destruct t as [[e i] j], t' as [[e' i'] j']; intros Hin Hin' Hc Hc' Er Ec.
  apply fi_triples_in in Hin as (He & Hi & Hj), Hin' as (He' & Hi' & Hj').
  destruct fi_fields as (E1 & E2 & E3 & Egm).
  destruct (fi_row_col e i He Hi) as (Ha & _).
  destruct (fi_row_col e j He Hj) as (Hb & _).
  unfold fill_cond in Hc, Hc'; rewrite <- Er, <- Ec in Hc'.
  unfold row_of, col_of in *; cbn [fst snd] in *.
  set (a := nth (Z.to_nat (e * dof r + i)) (gatherMap r) 0) in *.
  set (b := nth (Z.to_nat (e * dof r + j)) (gatherMap r) 0) in *.
  assert (Same : forall x y, 0 <= x < nd -> 0 <= y < nd ->
            nth (Z.to_nat (e * dof r + x)) (gatherMap r) 0
            = nth (Z.to_nat (e * dof r + y)) (gatherMap r) 0 -> x = y).
  { intros x y Hx Hy; apply HDist; rewrite ?E1, ?E3; auto. }
  assert (Single : forall g x y x' y', 0 <= g < n ->
            zlen (er_bucket r g) = 1 ->
            0 <= x < nE -> 0 <= y < nd -> 0 <= x' < nE -> 0 <= y' < nd ->
            nth (Z.to_nat (x * dof r + y)) (gatherMap r) 0 = g ->
            nth (Z.to_nat (x' * dof r + y')) (gatherMap r) 0 = g ->
            x = x' /\ y = y').
  { intros g x y x' y' Hg Hone Hx Hy Hx' Hy' K K'.
    rewrite E3, Egm in K, K'.
    assert (I1 : In (x * nd + y) (er_bucket r g))
      by (apply fi_bucket_in; auto; split; auto; nia).
    assert (I2 : In (x' * nd + y') (er_bucket r g))
      by (apply fi_bucket_in; auto; split; auto; nia).
    destruct (er_bucket r g) as [|v [|w tl]]; unfold zlen in Hone;
      cbn [length] in Hone; try lia.
    destruct I1 as [I1|[]], I2 as [I2|[]].
    assert (Exy : y + x * nd = y' + x' * nd) by lia.
    apply lex_pair_inj in Exy; lia. }
  assert (Rest : e = e' -> (e, i, j) = (e', i', j')).
  { intros <-; f_equal; [f_equal|]; apply Same; auto. }
  apply orb_prop in Hc as [Hc|Hc]; [apply orb_prop in Hc as [Hc|Hc]|].
  - apply Z.eqb_eq in Hc.
    destruct (Single a e i e' i' Ha Hc) as [-> _]; auto.
  - apply Z.eqb_eq in Hc.
    destruct (Single b e j e' j' Hb Hc) as [-> _]; auto.
  - apply orb_prop in Hc' as [Hc'|Hc']; [apply orb_prop in Hc' as [Hc'|Hc']|].
    + apply Z.eqb_eq in Hc'.
      destruct (Single a e i e' i' Ha Hc') as [-> _]; auto.
    + apply Z.eqb_eq in Hc'.
      destruct (Single b e j e' j' Hb Hc') as [-> _]; auto.
    + apply Z.eqb_eq in Hc, Hc'; cbn [fst] in Hc, Hc'.
      apply Rest; congruence.
Qed.

(** Every coupled pair is the pair of an iteration that passes the test. *)
Lemma fi_cond_onto t :
  In t (er_triples r) ->
  exists t', In t' (er_triples r) /\ fill_cond r t' = true /\
             row_of r t' = row_of r t /\ col_of r t' = col_of r t.
Proof.
  destruct t as [[e i] j]; intros Hin.
  destruct (fill_cond r (e, i, j)) eqn:Hc; [exists (e, i, j); auto|].
  apply fi_triples_in in Hin as (He & Hi & Hj).
  destruct fi_fields as (E1 & E2 & E3 & Egm).
  destruct (fi_row_col e i He Hi) as (Ha & _ & _ & _ & _ & Ina).
  destruct (fi_row_col e j He Hj) as (Hb & _ & _ & _ & _ & Inb).
  unfold row_of, col_of in *; cbn [fst snd] in *.
  set (a := nth (Z.to_nat (e * dof r + i)) (gatherMap r) 0) in *.
  set (b := nth (Z.to_nat (e * dof r + j)) (gatherMap r) 0) in *.
  destruct (min_common_spec (er_elts r a) (er_elts r b)) as (Ma & Mb & _).
  { intros E0.
    assert (Hin : In e (inter_list (er_elts r a) (er_elts r b)))
      by (apply in_inter_list; auto).
    rewrite E0 in Hin; contradiction. }
  set (m := min_common (er_elts r a) (er_elts r b)) in *.
  apply fi_elts_in in Ma as (Hm & i' & Hi' & Ki'); auto.
  apply fi_elts_in in Mb as (_ & j' & Hj' & Kj'); auto.
  rewrite <- Egm, <- E3 in Ki', Kj'.
  exists (m, i', j'); split; [apply fi_triples_in; auto|].
  unfold fill_cond, row_of, col_of; cbn [fst snd].
  rewrite Ki', Kj'; fold m; rewrite Z.eqb_refl, !orb_true_r; auto.
Qed.

Lemma NoDup_product {A B : Type} (l1 : list A) (l2 : list B) :
  NoDup l1 -> NoDup l2 -> NoDup (flat_map (fun a => map (pair a) l2) l1).
Proof.
  intros N1 N2; induction N1 as [|a t Ha _ IH]; simpl.
  - constructor.
  - apply NoDup_app; auto.
    + apply Finite.Injective_map_NoDup_in; auto; congruence.
    + intros [x y] Hin1 Hin2.
      apply in_map_iff in Hin1 as (? & E & _); inversion E; subst.
      apply in_flat_map in Hin2 as (a' & Ha' & Hin2).
      apply in_map_iff in Hin2 as (? & E' & _); inversion E'; subst; auto.
Qed.

Lemma fi_triples_NoDup : NoDup (er_triples r).
Proof.
  unfold er_triples; apply NoDup_product; [|apply NoDup_zrange].
  apply NoDup_pairs; apply NoDup_zrange.
Qed.

(** The iterations passing the test are in one-to-one correspondence with
    the distinct coupled pairs. *)
Lemma fi_cond_perm :
  Permutation
    (map (fun t => (row_of r t, col_of r t)) (filter (fill_cond r) (er_triples r)))
    (distinct_pairs r).
Proof.
  apply NoDup_Permutation.
  - apply Finite.Injective_map_NoDup_in;
      [|apply NoDup_filter, fi_triples_NoDup].
    intros t t' Hin Hin' E; inversion E.
    apply filter_In in Hin as [Hin Hc], Hin' as [Hin' Hc'].
    now apply fi_cond_inj.
  - apply NoDup_nodup.
  - intros p; unfold distinct_pairs, coupled_pairs; rewrite nodup_In; split.
    + intros Hin; apply in_map_iff in Hin as (t & <- & Hin).
      apply filter_In in Hin as [Hin _].
      now apply (in_map (fun t => (row_of r t, col_of r t))).
    + intros Hin; apply in_map_iff in Hin as (t & <- & Hin).
      destruct (fi_cond_onto t Hin) as (t' & Hin' & Hc & Er & Ec).
      apply in_map_iff; exists t'; split; [now rewrite Er, Ec|].
      apply filter_In; auto.
Qed.

End FillISpec.

Lemma incr_pass m rows :
  Forall (fun g => 0 <= g < m) rows ->
  forall I_ h, arr_is I_ m h ->
  exists I', foldM incr_row rows I_ = Some I' /\
             arr_is I' m (fun i => h i + countZ i rows).
Proof.
  induction 1 as [|g t Hg _ IH]; intros I_ h Ha.
  - exists I_; split; [reflexivity|].
    eapply arr_is_ext; [exact Ha|]; intros; unfold countZ; simpl; lia.
  - cbn [foldM]; unfold incr_row at 1, GetAndIncrementNnzIndex.
    rewrite (arr_is_rd _ _ _ g Ha) by lia; cbn [obind].
    destruct (arr_is_wr I_ m h g (h g + 1) Ha ltac:(lia)) as (I1 & -> & Ha1).
    cbn [obind].
    destruct (IH I1 _ Ha1) as (I' & -> & Ha').
    exists I'; split; [reflexivity|].
    eapply arr_is_ext; [exact Ha'|]; intros i Hi; cbv beta.
    rewrite countZ_cons.
    destruct (Z.eqb_spec i g), (Z.eqb_spec g i); subst; lia.
Qed.

(** The sequential sum of [FillI]: counts become row pointers. *)
Lemma FillI_prefix m rows I_ :
  0 <= m -> Forall (fun g => 0 <= g < m) rows ->
  arr_is I_ (m + 1) (fun g => countZ g rows) ->
  exists I',
    forZ 0 m (fun i st =>
      nnz <- rd (snd st) i ;;
      h_I <- wr (snd st) i (fst st) ;;
      Some (fst st + nnz, h_I)) (0, I_) = Some (zlen rows, I') /\
    arr_is I' (m + 1) (fun g => if g <? m then below g rows else countZ g rows).
Proof.
  intros Hm Hr Ha.
  destruct (forZ_inv
    (fun i (st : Z * list Z) =>
       fst st = below i rows /\
       arr_is (snd st) (m + 1)
         (fun g => if g <? i then below g rows else countZ g rows))
    0 m) with (s := (0, I_))
    (body := fun i (st : Z * list Z) =>
       nnz <- rd (snd st) i ;;
       h_I <- wr (snd st) i (fst st) ;;
       Some (fst st + nnz, h_I))
    as ([sum I'] & E & Hs & HI); auto.
  - cbn [fst snd]; split.
    + symmetry; apply below_low.
      eapply Forall_impl; [|exact Hr]; simpl; intros; lia.
    + eapply arr_is_ext; [exact Ha|]; intros g Hg; cbv beta.
      destruct (Z.ltb_spec g 0); auto; lia.
  - intros i [sum s] Hi [Hs HI]; cbn [fst snd] in *.
    rewrite (arr_is_rd _ _ _ i HI) by lia; cbn [obind].
    destruct (Z.ltb_spec i i); [lia|].
    step_wr HI s' Hs'.
    eexists; split; [reflexivity|]; cbn [fst snd]; split.
    + rewrite below_succ; lia.
    + eapply arr_is_ext; [exact Hs'|]; intros g Hg; cbv beta.
      destruct (Z.eqb_spec g i), (Z.ltb_spec g (i + 1)), (Z.ltb_spec g i);
        subst; try lia; reflexivity.
  - cbn [fst snd] in *; exists I'; split; auto.
    rewrite E; do 2 f_equal; rewrite Hs.
    apply below_high; eapply Forall_impl; [|exact Hr]; simpl; intros; lia.
Qed.


(** ** The sparse pattern on two small spaces *)

Lemma seg2_space_wf : wf_space seg2_space NATIVE.
Proof.
  unfold wf_space; cbn [GetNE GetNDofs GetDof GetElementToDofTable GetDofMap
                        seg2_space].
  repeat split; try lia.
  - apply (Forall_forallb (fun s => (0 <=? decode s) && (decode s <? 3))).
    + intros a Ha; apply andb_prop in Ha as [H1 H2]; lia.
    + vm_compute; reflexivity.
  - discriminate.
Defined.

Lemma seg2_space_unsigned : unsigned_space seg2_space NATIVE.
Proof.
  split; [|discriminate].
  apply (Forall_forallb (fun s => 0 <=? s)); [intros; lia|].
  vm_compute; reflexivity.
Defined.

Lemma seg2_restriction_built :
  ElementRestriction_new seg2_space NATIVE = Some seg2_restriction.
Proof. vm_compute; reflexivity. Defined.

Lemma seg2_distinct : distinct_per_element seg2_restriction.
Proof.
  intros e i i' He Hi Hi'; cbn [ne dof gatherMap seg2_restriction] in *.
  assert (Hc : (e = 0 \/ e = 1) /\ (i = 0 \/ i = 1) /\ (i' = 0 \/ i' = 1))
    by lia.
  destruct Hc as ([-> | ->] & [-> | ->] & [-> | ->]);
    vm_compute; congruence.
Defined.

Lemma seg2_sharing : bounded_sharing 16 seg2_restriction.
Proof.
  intros g Hg; cbn [ndofs gatherMap seg2_restriction] in *.
  assert (Hc : g = 0 \/ g = 1 \/ g = 2) by lia.
  destruct Hc as [-> | [-> | ->]]; vm_compute; discriminate.
Defined.




(** ** Continuous face restriction: what the constructor guarantees *)

Lemma Forall_rd {A : Type} (P : A -> Prop) (a : list A) :
  (forall k v, 0 <= k < zlen a -> rd a k = Some v -> P v) -> Forall P a.
Proof.
  intros Hrd; apply Forall_forall; intros v Hin.
  apply In_nth_error in Hin as (n & En).
  assert (Hn : (n < length a)%nat) by (apply nth_error_Some; congruence).
  apply (Hrd (Z.of_nat n)); [unfold zlen; lia|].
  unfold rd; destruct (Z.ltb_spec (Z.of_nat n) 0); [lia|].
  now rewrite Nat2Z.id.
Qed.

(** The face counter of the counting loop does not decrease. *)
Lemma H1_count_index fs o ty dm dof l :
  forall f0 fm off f1 fm1 off1,
  foldM (H1Face.count_face fs o ty dm dof) l (f0, fm, off)
  = Some (f1, fm1, off1) ->
  f0 <= f1.
Proof.
  induction l as [|fi l IH]; intros f0 fm off f1 fm1 off1 E;
    [injection E as <- <- <-; lia|].
  cbn [foldM] in E; bind_inv E s Es; destruct s as [[f' fm'] off'].
  apply IH in E.
  unfold H1Face.count_face in Es; destruct (face_selected ty fi).
  - bind_inv Es a Ea; bind_inv Es b Eb; injection Es as <- <- <-; lia.
  - injection Es as <- <- <-; lia.
Qed.

(** ** Gather on faces: [H1FaceRestriction::MultTranspose] *)

Section H1Transpose.
Context {V : Type} `{Scalar V}.
Variables (r : H1Face.t) (x : list V).
Hypothesis Bnd : h1_bounded r.
Hypothesis Hx : zlen x = H1Face.nfdofs r * H1Face.vdim r.

Local Abbreviation gi := (H1Face.gather_indices r).

Lemma h1_offsets_entry g :
  0 <= g <= H1Face.ndofs r ->
  exists a, rd (H1Face.offsets r) g = Some a /\
            nth (Z.to_nat g) (H1Face.offsets r) 0 = a /\
            0 <= a <= zlen gi.
Proof.
  intros Hg; destruct Bnd as (Hl & Ho & _).
  assert (Hr : 0 <= g < zlen (H1Face.offsets r)) by lia.
  exists (nth (Z.to_nat g) (H1Face.offsets r) 0).
  split; [now apply rd_nth|]; split; [reflexivity|].
  rewrite Forall_forall in Ho; apply Ho, nth_In; unfold zlen in Hr; lia.
Qed.

Lemma h1_gather_bucket_sum a b c :
  0 <= a <= zlen gi -> 0 <= b <= zlen gi -> 0 <= c < H1Face.vdim r ->
  H1Face.gather_bucket r x c a b
  = Some (sum_terms (map (h1_term r x c) (slice gi a b))).
Proof.
  intros Ha Hb Hc; destruct Bnd as (_ & _ & Hnf & Enfd & Hg).
  unfold H1Face.gather_bucket, forZ.
  rewrite (foldM_rd_range gi
             (fun v dofValue =>
                xv <- rd x (ix3 (H1Face.dof r) (H1Face.vdim r)
                              (Z.rem v (H1Face.dof r)) c
                              (Z.quot v (H1Face.dof r))) ;;
                Some (sadd dofValue xv)))
    by lia.
  fold (slice gi a b).
  rewrite (foldM_ext_in _ (fun v acc => Some (sadd acc (h1_term r x c v)))).
  - rewrite foldM_pure; unfold sum_terms; now rewrite fold_left_map.
  - intros v acc Hin; apply slice_incl in Hin.
    rewrite Forall_forall in Hg; apply Hg in Hin.
    destruct (slot_quot_rem (H1Face.dof r) (H1Face.nf r) v Hnf Hin)
      as (? & ? & ? & _).
    unfold h1_term; rewrite (rd_nth x _ szero); [reflexivity|].
    rewrite Hx, Enfd.
    pose proof (ix3_range (H1Face.dof r) (H1Face.vdim r) (H1Face.nf r)
                  (Z.rem v (H1Face.dof r)) c (Z.quot v (H1Face.dof r))
                  ltac:(lia) ltac:(lia) ltac:(lia)).
    lia.
Qed.

Lemma H1_MultTranspose_as_stores (y0 : list V) :
  H1Face.MultTranspose r x y0 = foldM store_add (H1_MultTranspose_stores r x) y0.
Proof.
  pose (T := fun i c : Z =>
    (gix (H1Face.byvdim r) (H1Face.vdim r) (H1Face.ndofs r) i c,
     h1_bucket_sum r x i c)).
  transitivity
    (foldM (fun i y => foldM (fun c y => store_add (T i c) y)
                             (zseq (H1Face.vdim r)) y)
           (zseq (H1Face.ndofs r)) y0).
  - unfold H1Face.MultTranspose; rewrite forZ_0.
    apply foldM_ext_in; intros i y Hi; apply in_zseq in Hi.
    destruct (h1_offsets_entry i ltac:(lia)) as (a & -> & Ea & Ha).
    destruct (h1_offsets_entry (i + 1) ltac:(lia)) as (b & -> & Eb & Hb).
    cbn [obind].
    rewrite forZ_0; apply foldM_ext_in; intros c y' Hc; apply in_zseq in Hc.
    rewrite h1_gather_bucket_sum by assumption; cbn [obind].
    unfold T, store_add, h1_bucket_sum; cbn [fst snd]; now rewrite Ea, Eb.
  - rewrite (foldM_pairs (fun i c => store_add (T i c))).
    unfold H1_MultTranspose_stores; rewrite foldM_map; reflexivity.
Qed.

(** [MultTranspose] returns; each output entry holds its previous content
    plus its bucket sum. *)
Lemma H1_MultTranspose_values (y0 : list V) :
  zlen y0 = H1Face.vdim r * H1Face.ndofs r ->
  exists y,
    H1Face.MultTranspose r x y0 = Some y /\ zlen y = zlen y0 /\
    forall g c, 0 <= g < H1Face.ndofs r -> 0 <= c < H1Face.vdim r ->
      exists old,
        rd y0 (gix (H1Face.byvdim r) (H1Face.vdim r) (H1Face.ndofs r) g c)
        = Some old /\
        rd y (gix (H1Face.byvdim r) (H1Face.vdim r) (H1Face.ndofs r) g c)
        = Some (sadd old (h1_bucket_sum r x g c)).
Proof.
  intros Hy.
  destruct (stores_add_result (H1_MultTranspose_stores r x)) with (y0 := y0)
    as (y & Ey & Hl & Hin & _).
  { unfold H1_MultTranspose_stores; rewrite map_map; cbn [fst].
    apply Finite.Injective_map_NoDup_in;
      [|apply NoDup_pairs; apply NoDup_zrange].
    intros [i c] [i' c'] Hi Hi' E; cbn [fst snd] in E.
    apply in_pairs in Hi as [Hi Hc], Hi' as [Hi' Hc'].
    rewrite in_zseq in Hi, Hc, Hi', Hc'.
    apply gix_inj in E as [-> ->]; auto. }
  { intros s Hs; unfold H1_MultTranspose_stores in Hs.
    apply in_map_iff in Hs as ([i c] & <- & Hic).
    apply in_pairs in Hic as [Hi Hc]; rewrite in_zseq in Hi, Hc.
    cbn [fst snd]; rewrite Hy; apply gix_range; lia. }
  exists y; rewrite H1_MultTranspose_as_stores; repeat split; auto.
  intros g c Hg Hc.
  apply (Hin (gix (H1Face.byvdim r) (H1Face.vdim r) (H1Face.ndofs r) g c,
              h1_bucket_sum r x g c)).
  unfold H1_MultTranspose_stores; apply in_map_iff; exists (g, c); split; auto.
  apply in_pairs; rewrite !in_zseq; lia.
Qed.

End H1Transpose.

(** ** Continuous face restriction: the constructor as a counting sort *)

(** A fold that returns can be replayed on the images of its items by any
    body that follows it. *)
Lemma foldM_replay {A B St : Type} (h : A -> B) (body : A -> St -> option St)
  (body' : B -> St -> option St) (l : list A) :
  (forall a s s', In a l -> body a s = Some s' -> body' (h a) s = Some s') ->
  forall s s', foldM body l s = Some s' -> foldM body' (map h l) s = Some s'.
Proof.
  induction l as [|a t IH]; intros Hb s s' E; [exact E|].
  cbn [foldM map] in *; bind_inv E s1 E1.
  rewrite (Hb a s s1 (or_introl eq_refl) E1); cbn [obind].
  apply IH; auto; intros; apply Hb; auto; now right.
Qed.

Lemma zrange_app (lo : Z) (n m : nat) :
  zrange lo (n + m) = zrange lo n ++ zrange (lo + Z.of_nat n) m.
Proof.
  revert lo; induction n as [|n IH]; intros lo.
  - simpl; f_equal; lia.
  - cbn [Nat.add zrange app]; rewrite IH; do 3 f_equal; lia.
Qed.

Lemma combine_app_eq {A B : Type} (a a' : list A) (b b' : list B) :
  length a = length b -> combine (a ++ a') (b ++ b') = combine a b ++ combine a' b'.
Proof.
  revert b; induction a as [|x a IH]; intros [|y b] Hl; simpl in *;
    try discriminate; auto.
  now rewrite IH by lia.
Qed.

Lemma combine_map_zrange {A : Type} (g : Z -> A) (base lo : Z) (n : nat) :
  combine (map g (zrange lo n)) (zrange (base + lo) n)
  = map (fun d => (g d, base + d)) (zrange lo n).
Proof.
  revert lo; induction n as [|n IH]; intros lo; [reflexivity|].
  cbn [zrange map combine]; f_equal.
  replace (base + lo + 1) with (base + (lo + 1)) by lia; apply IH.
Qed.

Lemma map_fst_combine {A B : Type} (a : list A) (b : list B) :
  length a = length b -> map fst (combine a b) = a.
Proof.
  revert b; induction a as [|x a IH]; intros [|y b] Hl; simpl in *;
    try discriminate; auto.
  now rewrite IH by lia.
Qed.

Lemma map_snd_combine {A B : Type} (a : list A) (b : list B) :
  length a = length b -> map snd (combine a b) = b.
Proof.
  revert b; induction a as [|x a IH]; intros [|y b] Hl; simpl in *;
    try discriminate; auto.
  now rewrite IH by lia.
Qed.

(** Two arrays with the same entries are equal. *)
Lemma arr_is_unique (a b : list Z) (n : Z) (h : Z -> Z) :
  arr_is a n h -> arr_is b n h -> a = b.
Proof.
  intros Ha Hb.
  now rewrite (arr_is_eq_map a n h Ha), (arr_is_eq_map b n h Hb).
Qed.

(** The keys a returning pass has read were indices of [offsets]. *)
Lemma bump_range (keys : list Z) :
  forall off off', foldM bump keys off = Some off' ->
  zlen off' = zlen off /\ Forall (fun g => 0 <= g + 1 < zlen off) keys.
Proof.
  induction keys as [|g t IH]; intros off off' E.
  - inversion E; subst; auto.
  - cbn [foldM] in E; bind_inv E off1 E1; unfold bump in E1.
    bind_inv E1 c Ec.
    pose proof (wr_Some _ _ _ _ E1) as [Hg _].
    pose proof (wr_zlen _ _ _ _ E1) as Hl.
    apply IH in E as (Hl' & Ht); rewrite Hl in *.
    split; auto.
Qed.

Lemma place_range (items : list (Z * Z)) :
  forall st st', foldM place items st = Some st' ->
  zlen (fst st') = zlen (fst st) /\
  Forall (fun g => 0 <= g < zlen (fst st)) (map fst items).
Proof.
  induction items as [|[g v] t IH]; intros st st' E.
  - inversion E; subst; auto.
  - cbn [foldM] in E; bind_inv E st1 E1; unfold place in E1.
    cbn [fst snd] in E1.
    bind_inv E1 p Ep; bind_inv E1 off1 Ew; bind_inv E1 ind1 Ei.
    injection E1 as <-.
    pose proof (wr_Some _ _ _ _ Ew) as [Hg _].
    pose proof (wr_zlen _ _ _ _ Ew) as Hl.
    apply IH in E as (Hl' & Ht); cbn [fst] in *; rewrite Hl in *.
    split; auto; cbn [map fst]; constructor; auto.
Qed.

(** A returning sequence of stores of [keys] at the consecutive positions
    from [lo]. *)
Lemma store_keys (keys : list Z) :
  forall lo a a',
  foldM (fun kv s => wr s (snd kv) (fst kv))
        (combine keys (zrange lo (length keys))) a = Some a' ->
  zlen a' = zlen a /\
  (forall j, j < lo -> rd a' j = rd a j) /\
  (forall k, (k < length keys)%nat ->
     rd a' (lo + Z.of_nat k) = Some (nth k keys 0)).
Proof.
  induction keys as [|g t IH]; intros lo a a' E.
  - inversion E; subst; repeat split; auto; simpl; intros; lia.
  - cbn [length zrange combine foldM fst snd] in E; bind_inv E a1 E1.
    apply IH in E as (Hl & Hlow & Hv).
    split; [rewrite Hl; eapply wr_zlen; eauto|]; split.
    + intros j Hj; rewrite Hlow by lia.
      eapply wr_rd_other; eauto; lia.
    + intros [|k] Hk; cbn [nth length] in *.
      * rewrite Z.add_0_r, Hlow by lia; eapply wr_rd_same; eauto.
      * replace (lo + Z.of_nat (S k)) with (lo + 1 + Z.of_nat k) by lia.
        apply Hv; lia.
Qed.

Lemma store_all_keys (keys a a' : list Z) :
  foldM (fun kv s => wr s (snd kv) (fst kv))
        (combine keys (zrange 0 (length keys))) a = Some a' ->
  zlen a = zlen keys -> a' = keys.
Proof.
  intros E Hl; apply store_keys in E as (Hl' & _ & Hv).
  apply (arr_is_unique a' keys (zlen keys) (fun k => nth (Z.to_nat k) keys 0)).
  - split; [lia|]; intros k Hk.
    specialize (Hv (Z.to_nat k) ltac:(unfold zlen in Hk; lia)).
    now replace (0 + Z.of_nat (Z.to_nat k)) with k in Hv by lia.
  - apply arr_is_self.
Qed.

(** What a stable counting sort of the slots [0 .. length keys - 1] by key
    gives: the sorted slots are a permutation of the slots, and a position
    lies in the bucket of [g] exactly when the slot stored there has key
    [g]. *)
Lemma counting_sort_spec (n : Z) (keys off ind : list Z) :
  Forall (fun g => 0 <= g < n) keys ->
  arr_is off (n + 1) (fun g => below g keys) ->
  zlen ind = zlen keys ->
  (forall k, (k < length keys)%nat -> rd ind (pos keys k) = Some (Z.of_nat k)) ->
  Permutation ind (zseq (zlen keys)) /\
  forall j, 0 <= j < zlen keys ->
    exists v g0, rd ind j = Some v /\ rd keys v = Some g0 /\ 0 <= g0 < n /\
      forall g, 0 <= g < n ->
        exists a b, rd off g = Some a /\ rd off (g + 1) = Some b /\
                    (a <= j < b <-> g = g0).
Proof.
  intros Hr Ho Hl Hp; split.
  - pose proof (pos_perm n keys Hr) as P.
    apply (Permutation_map (fun j => nth (Z.to_nat j) ind 0)) in P.
    rewrite map_map in P.
    assert (E1 : map (fun k => nth (Z.to_nat (pos keys k)) ind 0)
                     (seq 0 (length keys)) = zrange 0 (length keys)).
    { apply nth_error_ext; intros k.
      destruct (Nat.lt_ge_cases k (length keys)) as [Hk|Hk].
      - rewrite nth_error_map, nth_error_seq.
        destruct (Nat.ltb_spec k (length keys)); [|lia].
        cbn [option_map]; rewrite nth_error_zrange by lia.
        f_equal; rewrite Nat.add_0_l, Z.add_0_l.
        specialize (Hp k Hk); unfold rd in Hp.
        destruct (pos keys k <? 0); [discriminate|].
        now rewrite (nth_error_nth _ _ 0 Hp).
      - rewrite (proj2 (nth_error_None _ _)).
        + symmetry; apply nth_error_None; rewrite zrange_length; lia.
        + rewrite length_map, length_seq; lia. }
    assert (E2 : map (fun j => nth (Z.to_nat j) ind 0) (zrange 0 (length keys))
                 = ind).
    { transitivity (map (fun d => nth (Z.to_nat d) ind 0) (zseq (zlen ind)));
        [|apply map_nth_zseq].
      unfold zseq; rewrite Hl; unfold zlen; now rewrite Nat2Z.id. }
    rewrite E1, E2 in P; unfold zseq, zlen; rewrite Nat2Z.id; now symmetry.
  - intros j Hj.
    destruct (pos_onto n keys j Hr Hj) as (k & Hk & <-).
    assert (Hg : 0 <= nth k keys 0 < n).
    { rewrite Forall_forall in Hr; apply Hr, nth_In; auto. }
    exists (Z.of_nat k), (nth k keys 0); split; [now apply Hp|].
    split; [|split; [exact Hg|]].
    + rewrite (rd_nth keys _ 0) by (unfold zlen; lia).
      now rewrite Nat2Z.id.
    + intros g Hgr; exists (below g keys), (below (g + 1) keys).
      split; [apply (arr_is_rd _ _ _ g Ho); lia|].
      split; [apply (arr_is_rd _ _ _ (g + 1) Ho); lia|].
      now apply pos_bucket_iff.
Qed.

(** *** [GetFaceDofs] overwrites the whole face map *)

Lemma fill1_fresh (d : Z) (h : Z -> Z) (fm fm1 : list Z) :
  zlen fm = d ->
  forZ 0 d (fun i fm => wr fm i (h i)) fm = Some fm1 ->
  fm1 = map h (zseq d).
Proof.
  intros Hl E; rewrite forZ_0 in E.
  destruct (fill_pass d h fm Hl) as (a' & E' & Ha).
  rewrite E' in E; injection E as <-.
  now apply arr_is_eq_map.
Qed.

Lemma fill2_fresh (d : Z) (h : Z -> Z -> Z) (fm fm1 : list Z) :
  0 <= d -> zlen fm = d * d ->
  forZ 0 d (fun i fm =>
    forZ 0 d (fun j fm => wr fm (i + j * d) (h i j)) fm) fm = Some fm1 ->
  fm1 = map (fun k => h (k mod d) (k / d)) (zseq (d * d)).
Proof.
  intros Hd Hl E; rewrite forZ_0 in E.
  rewrite (foldM_ext_in _
    (fun i fm => foldM (fun j fm => wr fm (i + j * d) (h i j)) (zseq d) fm))
    in E by (intros; apply forZ_0).
  rewrite (foldM_pairs (fun i j fm => wr fm (i + j * d) (h i j))) in E.
  pose (T := fun ab : Z * Z => (fst ab + snd ab * d, h (fst ab) (snd ab))).
  assert (E' : foldM store (map T (pairs (zseq d) (zseq d))) fm = Some fm1)
    by (rewrite foldM_map; exact E).
  destruct (stores_result (map T (pairs (zseq d) (zseq d)))) with (y0 := fm)
    as (y & Ey & Hy & Hin & _).
  { rewrite map_map; cbn [T fst].
    apply Finite.Injective_map_NoDup_in;
      [|apply NoDup_pairs; apply NoDup_zrange].
    intros [i j] [i' j'] Hi Hi' Eq; cbn [fst snd] in Eq.
    apply in_pairs in Hi as [Hi Hj], Hi' as [Hi' Hj'].
    rewrite in_zseq in Hi, Hj, Hi', Hj'.
    apply lex_pair_inj in Eq as [-> ->]; auto. }
  { intros s Hs; apply in_map_iff in Hs as ([i j] & <- & Hij).
    apply in_pairs in Hij as [Hi Hj]; rewrite in_zseq in Hi, Hj.
    cbn [T fst snd]; nia. }
  rewrite Ey in E'; injection E' as ->.
  apply arr_is_eq_map; split; [lia|].
  intros k Hk.
  destruct (flat_index_split d k d Hk Hd Hd) as (Hq & Hm & Ek).
  assert (HT : In (T (k mod d, k / d)) (map T (pairs (zseq d) (zseq d)))).
  { apply in_map, in_pairs; rewrite !in_zseq; lia. }
  apply Hin in HT; cbn [T fst snd] in HT.
  now replace (k mod d + k / d * d) with k in HT by lia.
Qed.

Lemma GetFaceDofs_fresh (dim face_id dof1d : Z) (fm fm1 : list Z) :
  1 <= dim <= 3 -> 0 <= face_id < 2 * dim -> 0 <= dof1d ->
  zlen fm = dof1d ^ (dim - 1) ->
  GetFaceDofs dim face_id dof1d fm = Some fm1 ->
  fm1 = map (face_dof_slot dim face_id dof1d) (zseq (dof1d ^ (dim - 1))).
Proof.
  intros Hdim Hid Hd Hl E.
  assert (Hc : dim = 1 \/ dim = 2 \/ dim = 3) by lia.
  destruct Hc as [-> | [-> | ->]].
  - change (1 - 1) with 0 in *; rewrite Z.pow_0_r in *.
    assert (Hi : face_id = 0 \/ face_id = 1) by lia.
    destruct fm as [|a [|b t]]; try (unfold zlen in Hl; simpl in Hl; lia).
    destruct Hi as [-> | ->]; cbn in E; injection E as <-; reflexivity.
  - change (2 - 1) with 1 in *; rewrite Z.pow_1_r in *.
    assert (Hi : face_id = 0 \/ face_id = 1 \/ face_id = 2 \/ face_id = 3) by lia.
    destruct Hi as [-> | [-> | [-> | ->]]];
      cbv beta iota zeta delta [GetFaceDofs] in E;
      apply fill1_fresh in E; auto; rewrite E; apply map_ext; intros k;
      reflexivity.
  - change (3 - 1) with 2 in *; rewrite Z.pow_2_r in *.
    assert (Hi : face_id = 0 \/ face_id = 1 \/ face_id = 2 \/ face_id = 3 \/
                 face_id = 4 \/ face_id = 5) by lia.
    destruct Hi as [-> | [-> | [-> | [-> | [-> | ->]]]]];
      cbv beta iota zeta delta [GetFaceDofs] in E;
      apply fill2_fresh in E; auto; rewrite E; apply map_ext; intros k;
      reflexivity.
Qed.

Section H1Replay.
Variables (fs : FaceSpace) (o : ElementDofOrdering) (ty : FaceType).
Variable dm : list Z.
Hypothesis Valid : valid_faces fs ty.
Hypothesis Hdof : h1_dof fs ty = GetFaceDof fs.

Local Abbreviation dof := (h1_dof fs ty).
Local Abbreviation valid_id :=
  (fun fi => face_selected ty fi = true ->
             0 <= Z.quot (inf1 fi) 64 < 2 * SpaceDimension fs).

Lemma h1_dof_nonneg : 0 <= dof.
Proof.
  destruct Valid as (_ & _ & Ho & Ef & _); rewrite Hdof, Ef.
  apply Z.pow_nonneg; lia.
Qed.

Lemma h1_face_map_length fi : zlen (h1_face_map fs ty fi) = dof.
Proof.
  pose proof h1_dof_nonneg.
  unfold h1_face_map, zlen; rewrite length_map.
  apply zseq_length; lia.
Qed.

Lemma h1_face_keys_length fi :
  length (h1_face_keys fs o ty dm fi) = Z.to_nat dof.
Proof. unfold h1_face_keys, zseq; now rewrite length_map, zrange_length. Qed.

Lemma H1_face_map_fresh fi fm fm1 :
  0 <= Z.quot (inf1 fi) 64 < 2 * SpaceDimension fs -> zlen fm = dof ->
  GetFaceDofs (SpaceDimension fs) (Z.quot (inf1 fi) 64) (GetOrder fs + 1) fm
  = Some fm1 ->
  fm1 = h1_face_map fs ty fi.
Proof.
  intros Hv Hl E; destruct Valid as (_ & Hdim & Ho & Ef & _).
  unfold h1_face_map; rewrite Hdof, Ef in *.
  apply GetFaceDofs_fresh in E; auto; lia.
Qed.

Lemma h1_loop_keys_cons fi l :
  h1_loop_keys fs o ty dm (fi :: l)
  = (if face_selected ty fi then h1_face_keys fs o ty dm fi else [])
    ++ h1_loop_keys fs o ty dm l.
Proof.
  unfold h1_loop_keys; cbn [filter].
  destruct (face_selected ty fi); reflexivity.
Qed.

Lemma h1_loop_keys_length l :
  zlen (h1_loop_keys fs o ty dm l) = dof * zlen (filter (face_selected ty) l).
Proof.
  pose proof h1_dof_nonneg as Hd.
  induction l as [|fi l IH]; [unfold zlen; simpl; lia|].
  rewrite h1_loop_keys_cons; cbn [filter]; unfold zlen in *.
  rewrite length_app.
  destruct (face_selected ty fi); cbn [length].
  - rewrite h1_face_keys_length; lia.
  - lia.
Qed.

Section Loop.
Context {St : Type}.
Variable step : Z -> Z -> St -> option St.
Variable loop_face : FaceInfo -> Z * list Z * St -> option (Z * list Z * St).

(** The common shape of the three loops over the faces. *)
Hypothesis Hface : forall fi f fm st f' fm' st',
  loop_face fi (f, fm, st) = Some (f', fm', st') ->
  if face_selected ty fi then
    exists fm1,
      GetFaceDofs (SpaceDimension fs) (Z.quot (inf1 fi) 64) (GetOrder fs + 1) fm
      = Some fm1 /\
      fm' = fm1 /\ f' = f + 1 /\
      forZ 0 dof (fun d st =>
        gid <- H1Face.face_gid fs o dm fm1 fi d ;;
        step gid (dof * f + d) st) st = Some st'
  else f' = f /\ fm' = fm /\ st' = st.

Lemma H1_loop_replay l :
  forall f0 fm st f1 fm1 st1,
  Forall valid_id l -> zlen fm = dof ->
  foldM loop_face l (f0, fm, st) = Some (f1, fm1, st1) ->
  zlen fm1 = dof /\ f1 = f0 + zlen (filter (face_selected ty) l) /\
  foldM (fun kv st => step (fst kv) (snd kv) st)
        (h1_loop_items fs o ty dm l f0) st = Some st1.
Proof.
  pose proof h1_dof_nonneg as Hd.
  induction l as [|fi l IH]; intros f0 fm st f1 fm1 st1 Hv Hl E.
  - injection E as <- <- <-; repeat split; auto; unfold zlen; simpl; lia.
  - inversion Hv as [|? ? Hfi Hv']; subst.
    cbn [foldM] in E; bind_inv E s1 E1; destruct s1 as [[f' fm'] st'].
    apply Hface in E1.
    unfold h1_loop_items; rewrite h1_loop_keys_cons; cbn [filter].
    destruct (face_selected ty fi) eqn:Hs.
    + destruct E1 as (fm2 & Eg & -> & -> & Ein).
      pose proof (H1_face_map_fresh fi fm fm2 (Hfi eq_refl) Hl Eg) as ->.
      apply IH in E as (L1 & F1 & R1); auto using h1_face_map_length.
      split; [exact L1|]; split; [unfold zlen in *; cbn [length]; lia|].
      rewrite length_app, zrange_app, combine_app_eq
        by now rewrite zrange_length.
      rewrite foldM_app, h1_face_keys_length.
      unfold h1_face_keys, zseq at 1.
      replace (dof * f0) with (dof * f0 + 0) at 1 by lia.
      rewrite combine_map_zrange.
      rewrite forZ_0 in Ein; fold (zseq dof).
      assert (R0 : foldM (fun kv st => step (fst kv) (snd kv) st)
                     (map (fun d => (h1_face_gid fs o ty dm fi d, dof * f0 + d))
                          (zseq dof)) st = Some st').
      { revert Ein; apply foldM_replay.
        intros d s s' _ Eb; bind_inv Eb gid Eg'; cbn [fst snd].
        unfold h1_face_gid; now rewrite Eg'. }
      rewrite R0; cbn [obind].
      replace (dof * f0 + Z.of_nat (Z.to_nat dof)) with (dof * (f0 + 1))
        by lia.
      exact R1.
    + destruct E1 as (-> & -> & ->).
      apply IH in E as (L1 & F1 & R1); auto.
Qed.

End Loop.

Lemma H1_scatter_replay l f0 fm sc f1 fm1 sc1 :
  Forall valid_id l -> zlen fm = dof ->
  foldM (H1Face.scatter_face fs o ty dm dof) l (f0, fm, sc) = Some (f1, fm1, sc1) ->
  zlen fm1 = dof /\ f1 = f0 + zlen (filter (face_selected ty) l) /\
  foldM (fun kv s => wr s (snd kv) (fst kv)) (h1_loop_items fs o ty dm l f0) sc
  = Some sc1.
Proof.
  apply (H1_loop_replay (fun gid lid s => wr s lid gid)).
  intros fi f fm0 st f' fm' st' E; unfold H1Face.scatter_face in E.
  destruct (face_selected ty fi).
  - bind_inv E fm2 Eg; bind_inv E sc2 Es; injection E as <- <- <-.
    destruct (H1Face.dof_reorder o); [|discriminate].
    destruct (Z.rem (inf1 fi) 64 =? 0); [|discriminate].
    exists fm2; repeat split; auto.
  - injection E as <- <- <-; auto.
Qed.

Lemma H1_count_replay l f0 fm off f1 fm1 off1 :
  Forall valid_id l -> zlen fm = dof ->
  foldM (H1Face.count_face fs o ty dm dof) l (f0, fm, off) = Some (f1, fm1, off1) ->
  zlen fm1 = dof /\ f1 = f0 + zlen (filter (face_selected ty) l) /\
  foldM (fun kv s => bump (fst kv) s) (h1_loop_items fs o ty dm l f0) off
  = Some off1.
Proof.
  apply (H1_loop_replay (fun gid lid s => bump gid s)).
  intros fi f fm0 st f' fm' st' E; unfold H1Face.count_face in E.
  destruct (face_selected ty fi).
  - bind_inv E fm2 Eg; bind_inv E off2 Es; injection E as <- <- <-.
    exists fm2; repeat split; auto.
  - injection E as <- <- <-; auto.
Qed.

Lemma H1_gather_replay l f0 fm og f1 fm1 og1 :
  Forall valid_id l -> zlen fm = dof ->
  foldM (H1Face.gather_face fs o ty dm dof) l (f0, fm, og) = Some (f1, fm1, og1) ->
  zlen fm1 = dof /\ f1 = f0 + zlen (filter (face_selected ty) l) /\
  foldM (fun kv s => place (fst kv, snd kv) s) (h1_loop_items fs o ty dm l f0) og
  = Some og1.
Proof.
  apply (H1_loop_replay (fun gid lid s => place (gid, lid) s)).
  intros fi f fm0 st f' fm' st' E; unfold H1Face.gather_face in E.
  destruct (face_selected ty fi).
  - bind_inv E fm2 Eg; bind_inv E og2 Es; injection E as <- <- <-.
    exists fm2; repeat split; auto.
  - injection E as <- <- <-; auto.
Qed.

End H1Replay.

Lemma nth_zrange (lo : Z) (n k : nat) :
  (k < n)%nat -> nth k (zrange lo n) 0 = lo + Z.of_nat k.
Proof.
  intros Hk; apply nth_error_nth; now apply nth_error_zrange.
Qed.

(** On valid faces of which one at least is of the requested type, a
    constructor call that returns has sorted the face slots by their global
    dof, whatever its arrays held when they were allocated. *)
Lemma H1_new_built mem fs o ty r :
  valid_faces fs ty -> GetNFbyType fs ty <> 0 ->
  H1Face.new mem fs o ty = Some r ->
  h1_built r /\ H1Face.nf r = GetNFbyType fs ty /\ 0 < H1Face.nf r /\
  H1Face.ndofs r = GetNDofs (fes fs) /\ H1Face.dof r = GetFaceDof fs.
Proof.
  intros V Hnf0 E.
  pose proof V as (Hnd & Hdim & Hord & Efd & Hids).
  unfold H1Face.new in E; cbv zeta in E.
  change (if GetNFbyType fs ty >? 0 then GetFaceDof fs else 0)
    with (h1_dof fs ty) in E.
  set (nf := GetNFbyType fs ty) in *.
  set (nd := GetNDofs (fes fs)) in *.
  destruct (Z.eqb_spec nf 0) as [Hnf|Hnf].
  - contradiction.
  - bind_inv E dm Edm; bind_inv E u1 Eu1; bind_inv E u2 Eu2; bind_inv E u3 Eu3.
    bind_inv E st Est; destruct st as [[f0 fm0] sc].
    bind_inv E u4 Eu4; apply verify_Some, Z.eqb_eq in Eu4.
    bind_inv E off0 E0.
    bind_inv E st1 E1; destruct st1 as [[f1 fm1] off1].
    bind_inv E u5 Eu5; apply verify_Some, Z.eqb_eq in Eu5.
    bind_inv E off2 E2.
    bind_inv E st3 E3; destruct st3 as [[f3 fm3] og3].
    bind_inv E u6 Eu6; apply verify_Some, Z.eqb_eq in Eu6.
    bind_inv E off4 E4; bind_inv E off5 E5.
    injection E as <-.
    (* the arrays as allocated and zeroed *)
    destruct (fill_pass (nd + 1) (fun _ => 0)
                (uninit (H1Face.fresh_offsets mem) (nd + 1)))
      as (a0 & Ea0 & H0); [apply zlen_uninit_nonneg; lia|].
    rewrite forZ_0 in E0; cbv beta in Ea0; rewrite Ea0 in E0.
    injection E0 as ->.
    (* there is a face *)
    assert (Hpos : 0 < nf).
    { pose proof (H1_count_index _ _ _ _ _ _ _ _ _ _ _ _ E1); lia. }
    assert (Hdof : h1_dof fs ty = GetFaceDof fs).
    { unfold h1_dof; fold nf; destruct (Z.gtb_spec nf 0); lia. }
    pose proof (h1_dof_nonneg fs ty V Hdof) as Hd.
    set (dof := h1_dof fs ty) in *.
    set (keys := h1_loop_keys fs o ty dm (faces fs)).
    (* the three loops over the faces *)
    apply (H1_scatter_replay fs o ty dm V Hdof) in Est as (Lfm0 & Ef0 & Rs);
      [|exact Hids|apply zlen_uninit_nonneg; exact Hd].
    apply (H1_count_replay fs o ty dm V Hdof) in E1 as (Lfm1 & Ef1 & Rc);
      [|exact Hids|exact Lfm0].
    apply (H1_gather_replay fs o ty dm V Hdof) in E3 as (Lfm3 & Ef3 & Rg);
      [|exact Hids|exact Lfm1].
    assert (Hkl : zlen keys = nf * dof).
    { unfold keys; rewrite (h1_loop_keys_length fs o ty dm V Hdof).
      fold dof; lia. }
    assert (Eit : h1_loop_items fs o ty dm (faces fs) 0
                  = combine keys (zrange 0 (length keys))).
    { unfold h1_loop_items; fold dof; fold keys.
      now replace (dof * 0) with 0 by lia. }
    rewrite Eit in Rs, Rc, Rg.
    set (items := combine keys (zrange 0 (length keys))) in *.
    assert (Efst : map fst items = keys)
      by (apply map_fst_combine; now rewrite zrange_length).
    assert (Esnd : map snd items = zrange 0 (length keys))
      by (apply map_snd_combine; now rewrite zrange_length).
    assert (Hil : zlen items = zlen keys).
    { unfold zlen; now rewrite <- (length_map fst items), Efst. }
    apply store_all_keys in Rs; [|rewrite zlen_uninit_nonneg; lia]; subst sc.
    assert (Rc' : foldM bump keys off0 = Some off1)
      by (rewrite <- Efst, foldM_map; exact Rc).
    assert (Rg' : foldM place items
                    (off2, uninit (H1Face.fresh_gather_indices mem) (nf * dof))
                  = Some og3).
    { rewrite <- Rg; apply foldM_ext_in; intros [g v] s _; reflexivity. }
    (* the keys are dofs of the space *)
    assert (Hr : Forall (fun g => 0 <= g < nd) keys).
    { destruct (bump_range _ _ _ Rc') as (L1 & B1).
      destruct (place_range _ _ _ Rg') as (_ & B3); cbn [fst] in *.
      rewrite Efst in B3; destruct H0 as [L0 _].
      rewrite Forall_forall in *; intros g Hg.
      specialize (B1 g Hg); specialize (B3 g Hg); lia. }
    (* the passes of the counting sort *)
    destruct (bump_pass nd keys Hr off0 (fun _ => 0) H0) as (b1 & Eb1 & H1).
    rewrite Eb1 in Rc'; injection Rc' as ->.
    destruct (prefix_pass nd keys off1 Hnd) as (b2 & Eb2 & H2).
    { eapply Forall_impl; [|exact Hr]; cbv beta; intros; lia. }
    { eapply arr_is_ext; [exact H1|]; intros; cbv beta; lia. }
    unfold prefix_sum in Eb2 at 1; rewrite Eb2 in E2; injection E2 as ->.
    destruct (place_pass nd items off2
                (uninit (H1Face.fresh_gather_indices mem) (nf * dof)))
      as (b3 & gi & Eb3 & H3 & Lgi & Hgi).
    { rewrite Efst; exact Hr. }
    { rewrite Efst; exact H2. }
    { rewrite zlen_uninit_nonneg; lia. }
    rewrite Eb3 in Rg'; injection Rg' as <-; cbn [fst snd] in *.
    rewrite Efst in H3, Hgi.
    destruct (shift_pass nd b3 _ Hnd H3) as (b4 & Eb4 & H4).
    unfold shift_back in Eb4 at 1; rewrite Eb4 in E4; injection E4 as ->.
    destruct (arr_is_wr off4 _ _ 0 0 H4 ltac:(lia)) as (b5 & Eb5 & H5).
    rewrite Eb5 in E5; injection E5 as ->.
    unfold h1_built.
    cbn [H1Face.offsets H1Face.gather_indices H1Face.scatter_indices
         H1Face.nf H1Face.ndofs H1Face.dof H1Face.nfdofs].
    split; [|repeat split; auto].
    split; [reflexivity|]; split; [exact Hkl|]; split; [exact Hr|].
    split; [|split; [lia|]].
    + eapply arr_is_ext; [exact H5|]; intros g Hg; cbv beta.
      destruct (Z.eqb_spec g 0) as [->|Hg0].
      * symmetry; apply below_low.
        eapply Forall_impl; [|exact Hr]; cbv beta; intros; lia.
      * f_equal; lia.
    + intros k Hk.
      assert (Hk' : (k < length items)%nat) by (unfold zlen in Hil; lia).
      rewrite (Hgi k Hk'), Esnd, nth_zrange by assumption.
      f_equal; lia.
Qed.

Lemma below_le_zlen g l : below g l <= zlen l.
Proof.
  induction l as [|k t IH]; [reflexivity|].
  rewrite below_cons; unfold zlen in *; cbn [length].
  destruct (k <? g); lia.
Qed.

(** The sorted index arrays are within the bounds the kernels need. *)
Lemma h1_built_bounded r :
  h1_built r -> 0 <= H1Face.nf r -> 0 <= H1Face.ndofs r -> h1_bounded r.
Proof.
  intros (Enfd & Hkl & Hr & Ho & Hgl & Hp) Hnf Hnd.
  destruct (counting_sort_spec (H1Face.ndofs r) (H1Face.scatter_indices r)
              (H1Face.offsets r) (H1Face.gather_indices r) Hr Ho)
    as (P & _); [lia|exact Hp|].
  unfold h1_bounded.
  split; [destruct Ho as [-> _]; lia|].
  split; [|split; [exact Hnf|split; [exact Enfd|]]].
  - apply Forall_rd; intros k v Hk R.
    destruct Ho as [Lo Ho]; rewrite Ho in R by lia.
    injection R as <-.
    pose proof (below_nonneg k (H1Face.scatter_indices r)).
    pose proof (below_le_zlen k (H1Face.scatter_indices r)); lia.
  - rewrite <- Enfd, <- Hkl.
    apply Forall_forall; intros v Hv.
    apply (Permutation_in _ P), in_zseq in Hv; lia.
Qed.

(** C9 (amended): on valid faces of which at least one is of the requested
    type, for every restriction the constructor of the continuous face
    restriction returns, whatever its arrays held when they were allocated,
    and every local face vector [x], [MultTranspose] returns and ADDS to
    the global entry of every dof [g] and component [c] the sum, over the
    entries [v = gather_indices[j]] of the bucket
    [offsets[g] <= j < offsets[g+1]], of the local value at face slot [v]:
    the output entry is its previous content plus the bucket sum,
    accumulated, not assigned.  The buckets sort the face slots by global
    dof: [gather_indices] is a permutation of the slots and position [j]
    lies in the bucket of [g] exactly when [g] is the global dof that
    [scatter_indices] records for the slot stored at [j]. *)
Theorem H1_MultTranspose_accumulates {V : Type} `{Scalar V}
  mem fs o ty r (x y0 : list V) :
  valid_faces fs ty -> GetNFbyType fs ty <> 0 ->
  H1Face.new mem fs o ty = Some r ->
  zlen x = H1Face.nfdofs r * H1Face.vdim r ->
  zlen y0 = H1Face.vdim r * H1Face.ndofs r ->
  (exists y,
     H1Face.MultTranspose r x y0 = Some y /\ zlen y = zlen y0 /\
     forall g c, 0 <= g < H1Face.ndofs r -> 0 <= c < H1Face.vdim r ->
       exists a b old,
         rd (H1Face.offsets r) g = Some a /\
         rd (H1Face.offsets r) (g + 1) = Some b /\
         0 <= a <= zlen (H1Face.gather_indices r) /\
         0 <= b <= zlen (H1Face.gather_indices r) /\
         rd y0 (gix (H1Face.byvdim r) (H1Face.vdim r) (H1Face.ndofs r) g c)
         = Some old /\
         rd y (gix (H1Face.byvdim r) (H1Face.vdim r) (H1Face.ndofs r) g c)
         = Some (sadd old
                   (sum_terms (map (h1_term r x c)
                                   (slice (H1Face.gather_indices r) a b))))) /\
  (zlen (H1Face.scatter_indices r) = H1Face.nfdofs r /\
   Permutation (H1Face.gather_indices r) (zseq (H1Face.nfdofs r)) /\
   forall j, 0 <= j < H1Face.nfdofs r ->
     exists v g0,
       rd (H1Face.gather_indices r) j = Some v /\
       rd (H1Face.scatter_indices r) v = Some g0 /\
       0 <= g0 < H1Face.ndofs r /\
       forall g, 0 <= g < H1Face.ndofs r ->
         exists a b, rd (H1Face.offsets r) g = Some a /\
                     rd (H1Face.offsets r) (g + 1) = Some b /\
                     (a <= j < b <-> g = g0)).
Proof.
  intros Vf Hnf0 E Hx Hy.
  destruct (H1_new_built mem fs o ty r Vf Hnf0 E) as (Bt & _ & Hnf & End & _).
  assert (Hnd : 0 <= H1Face.ndofs r) by (rewrite End; apply Vf).
  split.
  - pose proof (h1_built_bounded r Bt ltac:(lia) Hnd) as B.
    destruct (H1_MultTranspose_values r x B Hx y0 Hy) as (y & Ey & Hl & Hval).
    exists y; repeat split; auto.
    intros g c Hg Hc.
    destruct (h1_offsets_entry r B g ltac:(lia)) as (a & Ra & Ea & Ha).
    destruct (h1_offsets_entry r B (g + 1) ltac:(lia)) as (b & Rb & Eb & Hb).
    destruct (Hval g c Hg Hc) as (old & Ro & Ry).
    exists a, b, old; repeat split; auto; try lia.
    rewrite Ry; unfold h1_bucket_sum; now rewrite Ea, Eb.
  - destruct Bt as (_ & Hkl & Hr & Ho & Hgl & Hp).
    destruct (counting_sort_spec (H1Face.ndofs r) (H1Face.scatter_indices r)
                (H1Face.offsets r) (H1Face.gather_indices r) Hr Ho)
      as (P & Hb); [lia|exact Hp|].
    rewrite Hkl in P, Hb; auto.
Qed.

Lemma quad1_faces_valid : valid_faces quad1_faces Boundary.
Proof.
  unfold valid_faces; cbn [quad1_faces quad1_space fes GetNDofs SpaceDimension
                           GetOrder GetFaceDof faces].
  repeat split; try lia.
  apply (Forall_forallb
           (fun fi => (0 <=? Z.quot (inf1 fi) 64) && (Z.quot (inf1 fi) 64 <? 4))).
  - intros fi Hfi _; apply andb_prop in Hfi as [H1 H2]; lia.
  - vm_compute; reflexivity.
Defined.

Lemma quad1_boundary_built mem :
  H1Face.new mem quad1_faces LEXICOGRAPHIC Boundary = Some quad1_boundary.
Proof. vm_compute; reflexivity. Defined.

Lemma H1_MultTranspose_accumulates_witness :
  (exists y : list Z,
     H1Face.MultTranspose quad1_boundary (repeat 1 8) [100; 100; 100; 100]
     = Some y /\
     zlen y = 4) /\
  Permutation (H1Face.gather_indices quad1_boundary) (zseq 8).
Proof.
  destruct (H1_MultTranspose_accumulates
              h1_stale quad1_faces LEXICOGRAPHIC Boundary quad1_boundary
              (repeat 1 8) [100; 100; 100; 100] quad1_faces_valid
              ltac:(discriminate) (quad1_boundary_built h1_stale))
    as ((y & Ey & Hl & _) & _ & Hs & _); try reflexivity.
  split; [exists y; split; [exact Ey|exact Hl]|exact Hs].
Defined.

(** C9 as stated fails: on the boundary faces of a single quadrilateral,
    where every vertex has a bucket of two face slots, gathering the
    vector of ones into an output holding 100 leaves 102 at every entry,
    not the bucket sum 2, whatever the arrays of the restriction held when
    they were allocated. *)
Lemma H1_MultTranspose_assign_counterexample :
  (forall mem,
     H1Face.new mem quad1_faces LEXICOGRAPHIC Boundary = Some quad1_boundary) /\
  map (fun g => h1_bucket_sum quad1_boundary (repeat 1 8) g 0) (zseq 4)
  = [2; 2; 2; 2] /\
  H1Face.MultTranspose quad1_boundary (repeat 1 8) [100; 100; 100; 100]
  = Some [102; 102; 102; 102].
Proof. repeat split; try intros mem; vm_compute; reflexivity. Qed.

(** * Further properties of the restriction layer *)

(** ** The element restriction *)

(** X1: on a well-formed space the constructor returns: no access leaves an
    array and no check aborts, unless lexicographic ordering is requested
    for elements without dofs, where the dof map is empty and the check of
    its size aborts.  The arrays have the sizes of the space. *)
Theorem ElementRestriction_new_returns f o :
  wf_space f o ->
  ((o = LEXICOGRAPHIC -> 0 < GetNE f -> 0 < GetDof f) ->
   exists r, ElementRestriction_new f o = Some r /\
             ne r = GetNE f /\ ndofs r = GetNDofs f /\
             zlen (offsets r) = ndofs r + 1 /\
             zlen (indices r) = ne r * dof r /\
             zlen (gatherMap r) = ne r * dof r) /\
  (o = LEXICOGRAPHIC -> 0 < GetNE f -> GetDof f = 0 ->
   ElementRestriction_new f o = None).
Proof.
  intros WF; split.
  - intros Hpos.
    destruct (ElementRestriction_new_total f o WF) as (r & E & B).
    { intros Hr; destruct o; [discriminate|auto]. }
    exists r; split; [exact E|].
    destruct B as (E1 & E2 & E3 & _ & _ & [Lo _] & Li & _ & [Lg _]).
    rewrite E1, E2, E3; repeat split; auto.
  - intros -> Hne Hd.
    destruct WF as (_ & _ & _ & _ & _ & Hm).
    destruct (Hm eq_refl) as (m & Em & Pm).
    rewrite Hd in Pm; apply Permutation_length in Pm.
    rewrite length_map in Pm; destruct m; [|discriminate].
    unfold ElementRestriction_new; rewrite Em.
    destruct (Z.gtb_spec (GetNE f) 0); [reflexivity|lia].
Qed.

Lemma ElementRestriction_new_returns_witness :
  exists r, ElementRestriction_new signed_space LEXICOGRAPHIC = Some r /\
            zlen (indices r) = ne r * dof r.
Proof.
  destruct (proj1 (ElementRestriction_new_returns signed_space LEXICOGRAPHIC
                     signed_space_wf)) as (r & E & _ & _ & _ & Li & _).
  - intros _ _; cbn; lia.
  - exists r; split; [exact E|exact Li].
Defined.

(** With native ordering the gather map is the element-to-dof table. *)
Lemma er_gather_native f o ed :
  o = NATIVE -> er_gather f o ed = er_sgid f o ed.
Proof.
  intros ->; unfold er_gather, er_plus, er_sdid; cbn [er_reorder].
  change (0 >=? 0) with true; change (0 <? 0) with false.
  rewrite andb_true_r, andb_false_r, orb_false_r.
  unfold decode.
  destruct (Z.geb_spec (er_sgid f NATIVE ed) 0); lia.
Qed.

(** X2: with native ordering the constructor copies the element-to-dof
    table into [gatherMap], signs included. *)
Theorem gatherMap_native f r :
  wf_space f NATIVE -> ElementRestriction_new f NATIVE = Some r ->
  gatherMap r = GetElementToDofTable f.
Proof.
  intros WF E.
  pose proof (ElementRestriction_new_built f NATIVE WF r E) as B.
  pose proof B as (_ & _ & _ & _ & _ & _ & _ & _ & Hg).
  pose proof WF as (Hne & _ & Hd & Hl & _).
  pose proof (er_dof_nonneg f) as Hnd.
  assert (Hl' : zlen (GetElementToDofTable f) = GetNE f * er_dof f).
  { rewrite Hl; unfold er_dof; destruct (Z.gtb_spec (GetNE f) 0); nia. }
  apply (arr_is_unique _ _ (GetNE f * er_dof f)
           (fun k => nth (Z.to_nat k) (GetElementToDofTable f) 0)).
  - eapply arr_is_ext; [exact Hg|]; intros k Hk; cbv beta.
    rewrite er_gather_native by reflexivity.
    unfold er_sgid, er_did, er_slot; cbn [er_reorder negb fst snd].
    destruct (flat_index_split (er_dof f) k (GetNE f)) as (_ & _ & Ek);
      try lia.
    now rewrite Ek.
  - rewrite <- Hl'; apply arr_is_self.
Qed.

Lemma gatherMap_native_witness :
  gatherMap seg2_restriction = GetElementToDofTable seg2_space.
Proof.
  apply (gatherMap_native seg2_space seg2_restriction seg2_space_wf
           seg2_restriction_built).
Defined.

(** X3: the sign that [indices] records for a local slot is the sign that
    [gatherMap] records for it: the entry at position [j] of [indices] and
    the gather-map entry of the slot it decodes to are both non-negative or
    both negative. *)
Theorem indices_gatherMap_signs f o r :
  wf_space f o -> ElementRestriction_new f o = Some r ->
  forall j, 0 <= j < ne r * dof r ->
    exists v s,
      rd (indices r) j = Some v /\ 0 <= decode v < ne r * dof r /\
      rd (gatherMap r) (decode v) = Some s /\
      (v >=? 0) = (s >=? 0).
Proof.
  intros WF E j Hj.
  pose proof (ElementRestriction_new_built f o WF r E) as B.
  destruct (er_fields f o r B) as (E1 & _ & E3); rewrite E1, E3 in *.
  destruct (er_indices_rd f o r WF B j Hj) as (k & Hk & _ & Ev).
  exists (snd (er_item f o (er_slot f k))), (er_gather f o (er_slot f k)).
  rewrite (er_item_decode f o WF k Hk).
  split; [exact Ev|]; split; [exact Hk|]; split.
  - now apply (er_gatherMap_rd f o r B).
  - rewrite (er_item_sign f o WF k Hk); symmetry; apply er_gather_sign.
Qed.

Lemma indices_gatherMap_signs_witness :
  exists v s,
    rd (indices signed_restriction) 3 = Some v /\
    0 <= decode v < ne signed_restriction * dof signed_restriction /\
    rd (gatherMap signed_restriction) (decode v) = Some s /\
    (v >=? 0) = (s >=? 0).
Proof.
  apply (indices_gatherMap_signs signed_space LEXICOGRAPHIC signed_restriction
           signed_space_wf signed_restriction_built 3).
  cbn; lia.
Defined.

(** Pushing more entries than the buffer has left overruns it. *)
Lemma push_overrun (L : list Z) :
  forall (buf : list Z) (cpt : Z),
  0 <= cpt <= zlen buf -> zlen buf < cpt + zlen L ->
  foldM push L (buf, cpt) = None.
Proof.
  induction L as [|x t IH]; intros buf cpt Hc Hl.
  - unfold zlen in Hl at 2; simpl in Hl; lia.
  - cbn [foldM]; unfold push at 1; cbn [fst snd].
    destruct (wr buf cpt x) as [buf1|] eqn:Ew; [|reflexivity].
    cbn [obind].
    pose proof (wr_Some _ _ _ _ Ew) as [Hr _].
    apply IH; rewrite (wr_zlen _ _ _ _ Ew); [lia|].
    unfold zlen in *; cbn [length] in Hl; lia.
Qed.

(** X4: [GetMinElt] returns the least element common to the first [nbElts]
    entries of [my_elts] and the first [nbrNbElts] entries of [nbr_elts],
    provided they share an element and the matching pairs fit into the
    intersection buffer; with more than [MaxNbNbr] matching pairs it
    overruns the buffer. *)
Theorem GetMinElt_minimum (MaxNbNbr : Z) (my_elts nbr_elts : list Z)
  (nbElts nbrNbElts : Z) :
  0 <= nbElts <= zlen my_elts -> 0 <= nbrNbElts <= zlen nbr_elts ->
  0 <= MaxNbNbr ->
  let A := firstn (Z.to_nat nbElts) my_elts in
  let B := firstn (Z.to_nat nbrNbElts) nbr_elts in
  ((exists x, In x A /\ In x B) -> zlen (inter_list A B) <= MaxNbNbr ->
   exists m, GetMinElt MaxNbNbr my_elts nbElts nbr_elts nbrNbElts = Some m /\
             In m A /\ In m B /\ forall x, In x A -> In x B -> m <= x) /\
  (MaxNbNbr < zlen (inter_list A B) ->
   GetMinElt MaxNbNbr my_elts nbElts nbr_elts nbrNbElts = None).
Proof.
  intros HA HB HM A B.
  assert (LA : zlen A = nbElts).
  { unfold A, zlen in *; rewrite length_firstn; lia. }
  assert (LB : zlen B = nbrNbElts).
  { unfold B, zlen in *; rewrite length_firstn; lia. }
  split.
  - intros (x & HxA & HxB) Hfit.
    assert (Hne : inter_list A B <> []).
    { intros E0.
      assert (Hin : In x (inter_list A B)) by (apply in_inter_list; auto).
      rewrite E0 in Hin; exact Hin. }
    exists (min_common A B); split.
    + now apply GetMinElt_spec.
    + now apply min_common_spec.
  - intros Hover; unfold GetMinElt.
    rewrite (forZ_prefix my_elts A nbElts
               (fun e_i st =>
                  forZ 0 nbrNbElts (fun j st =>
                    nbr <- rd nbr_elts j ;;
                    if e_i =? nbr then
                      inter <- wr (fst st) (snd st) e_i ;;
                      Some (inter, snd st + 1)
                    else Some st) st)) by auto.
    rewrite (foldM_ext_in _
      (fun a st =>
         foldM (fun b st => if a =? b then push a st else Some st) B st)).
    2:{ intros a st _.
        apply (forZ_prefix nbr_elts B nbrNbElts
                 (fun b st => if a =? b then push a st else Some st)); auto. }
    rewrite (foldM_pairs (fun a b st => if a =? b then push a st else Some st)).
    rewrite (foldM_filter (fun ab => fst ab =? snd ab) (fun ab => push (fst ab))).
    rewrite <- (foldM_map fst push); fold (inter_list A B).
    rewrite push_overrun; [reflexivity| |]; rewrite zlen_alloc; lia.
Qed.

Lemma GetMinElt_minimum_witness :
  exists m, GetMinElt 16 [3; 1; 2] 3 [2; 5; 1] 3 = Some m /\
            In m [3; 1; 2] /\ In m [2; 5; 1] /\
            forall x, In x [3; 1; 2] -> In x [2; 5; 1] -> m <= x.
Proof.
  apply (proj1 (GetMinElt_minimum 16 [3; 1; 2] [2; 5; 1] 3 3
                  ltac:(cbn; lia) ltac:(cbn; lia) ltac:(lia))).
  - exists 1; split; [right; left; reflexivity|].
    right; right; left; reflexivity.
  - vm_compute; discriminate.
Defined.

(** ** The unsigned kernels *)

Section UnsignedKernels.
Context {V : Type} `{Scalar V}.
Variables (f : FiniteElementSpace) (o : ElementDofOrdering) (r : ElementRestriction).
Hypothesis WF : wf_space f o.
Hypothesis Built : er_built f o r.

(** The decoded gather map is the list of the keys of the counting sort. *)
Lemma er_gatherMap_decoded : map decode (gatherMap r) = er_keys f o.
Proof.
  destruct Built as (_ & _ & _ & _ & _ & _ & _ & _ & Hg).
  rewrite (arr_is_eq_map _ _ _ Hg).
  unfold er_keys; rewrite (er_slots_eq f o WF), !map_map.
  apply map_ext; intros k; cbn [er_item fst].
  apply er_gather_decode.
Qed.

(** The entries of the bucket of [g] decode to slots whose gather-map entry
    decodes to [g]. *)
Lemma er_bucket_entry_decoded g j :
  0 <= g < GetNDofs f ->
  below g (er_keys f o) <= j < below (g + 1) (er_keys f o) ->
  let k := decode (nth (Z.to_nat j) (indices r) 0) in
  0 <= k < GetNE f * er_dof f /\
  decode (nth (Z.to_nat k) (gatherMap r) 0) = g.
Proof.
  intros Hg Hj; cbv zeta.
  assert (Hj' : 0 <= j < GetNE f * er_dof f).
  { pose proof (below_nonneg g (er_keys f o)).
    pose proof (below_mono (g + 1) (GetNDofs f) (er_keys f o) ltac:(lia)) as Hm.
    rewrite (er_offsets_last f o WF) in Hm; lia. }
  destruct (er_indices_rd f o r WF Built j Hj') as (k & Hk & Ej & Ev).
  assert (En : decode (nth (Z.to_nat j) (indices r) 0) = k).
  { unfold rd in Ev; destruct (j <? 0); [discriminate|].
    rewrite (nth_error_nth _ _ 0 Ev).
    now apply er_item_decode with (o := o). }
  rewrite En; split; [exact Hk|].
  pose proof (er_gatherMap_rd f o r Built k Hk) as Eg.
  unfold rd in Eg; destruct (k <? 0); [discriminate|].
  rewrite (nth_error_nth _ _ 0 Eg), er_gather_decode.
  rewrite Ej in Hj; apply pos_bucket_iff in Hj;
    [|rewrite (er_keys_len f o WF); lia].
  now rewrite Hj, (er_key_nth f o WF k Hk).
Qed.

Variable x : list V.
Hypothesis Hvd : 0 <= vdim r.

Local Abbreviation T :=
  (fun i c : Z => ix3 (dof r) (vdim r) (Z.rem i (dof r)) c (Z.quot i (dof r))).

Local Abbreviation unsigned_value :=
  (fun i c : Z =>
     nth (Z.to_nat (gix (byvdim r) (vdim r) (ndofs r)
                        (decode (nth (Z.to_nat i) (gatherMap r) 0)) c)) x szero).

Lemma MultUnsigned_values (y0 : list V) :
  zlen x = vdim r * ndofs r ->
  zlen y0 = dof r * vdim r * ne r ->
  exists y,
    MultUnsigned r x y0 = Some y /\ zlen y = zlen y0 /\
    forall i c, 0 <= i < dof r * ne r -> 0 <= c < vdim r ->
      rd y (T i c) = Some (unsigned_value i c).
Proof.
  intros Hx Hy.
  pose (S := map (fun ic => (T (fst ic) (snd ic), unsigned_value (fst ic) (snd ic)))
                 (pairs (zseq (dof r * ne r)) (zseq (vdim r)))).
  assert (ES : MultUnsigned r x y0 = foldM store S y0).
  { transitivity
      (foldM (fun i y => foldM (fun c y => store (T i c, unsigned_value i c) y)
                               (zseq (vdim r)) y)
             (zseq (dof r * ne r)) y0).
    - unfold MultUnsigned; rewrite forZ_0.
      apply foldM_ext_in; intros i y Hi; apply in_zseq in Hi.
      destruct (er_gatherMap_entry f o r WF Built i Hi) as (s & Es & En & Hs).
      rewrite Es; cbn [obind].
      rewrite forZ_0; apply foldM_ext_in; intros c y' Hc; apply in_zseq in Hc.
      fold (decode s).
      rewrite (rd_nth x _ szero); cbn [obind].
      + unfold store; cbn [fst snd]; rewrite En; reflexivity.
      + rewrite Hx; apply gix_range; auto.
    - rewrite (foldM_pairs (fun i c => store (T i c, unsigned_value i c))).
      unfold S; rewrite foldM_map; reflexivity. }
  assert (P : Permutation (map fst S) (zseq (dof r * vdim r * ne r))).
  { pose proof (Mult_targets_perm f o r WF Built x Hvd) as P.
    unfold Mult_stores in P; unfold S.
    rewrite map_map in *; cbn [fst] in P |- *; exact P. }
  destruct (stores_result S) with (y0 := y0) as (y & Ey & Hl & Hin & _).
  { eapply Permutation_NoDup; [symmetry; exact P|apply NoDup_zrange]. }
  { intros s Hs; rewrite Hy; apply in_zseq.
    eapply Permutation_in; [exact P|now apply in_map]. }
  exists y; rewrite ES; repeat split; auto.
  intros i c Hi Hc.
  apply (Hin (T i c, unsigned_value i c)).
  unfold S; apply in_map_iff; exists (i, c); split; auto.
  apply in_pairs; rewrite !in_zseq; lia.
Qed.

Local Abbreviation unsigned_term :=
  (fun (c v : Z) => nth (Z.to_nat (T (decode v) c)) x szero).

Lemma gather_bucket_unsigned_sum g c :
  zlen x = dof r * vdim r * ne r ->
  0 <= g < ndofs r -> 0 <= c < vdim r ->
  gather_bucket_unsigned r x c (below g (er_keys f o)) (below (g + 1) (er_keys f o))
  = Some (sum_terms (map (unsigned_term c)
                         (slice (indices r) (below g (er_keys f o))
                                (below (g + 1) (er_keys f o))))).
Proof.
  intros Hx Hg Hc.
  assert (Hb : 0 <= below g (er_keys f o) <= below (g + 1) (er_keys f o) /\
               below (g + 1) (er_keys f o) <= zlen (indices r))
    by (eapply er_bucket_bounds; eauto).
  destruct Hb as (Hlo & Hhi).
  unfold gather_bucket_unsigned, forZ.
  rewrite (foldM_rd_range (indices r)
             (fun v dofValue =>
                xv <- rd x (ix3 (dof r) (vdim r)
                              (Z.rem (if v >=? 0 then v else -1 - v) (dof r)) c
                              (Z.quot (if v >=? 0 then v else -1 - v) (dof r))) ;;
                Some (sadd dofValue xv)))
    by lia.
  fold (slice (indices r) (below g (er_keys f o)) (below (g + 1) (er_keys f o))).
  rewrite (foldM_ext_in _ (fun v acc => Some (sadd acc (unsigned_term c v)))).
  - rewrite foldM_pure; unfold sum_terms; now rewrite fold_left_map.
  - intros v acc Hin; apply slice_incl in Hin.
    assert (Hd : 0 <= decode v < dof r * ne r)
      by (eapply er_indices_entry; eauto).
    fold (decode v).
    destruct (Mult_slot_split f o r WF Built (decode v) Hd) as (? & ? & _).
    rewrite (rd_nth x _ szero); [reflexivity|].
    rewrite Hx; apply ix3_range; lia.
Qed.

Lemma MultTransposeUnsigned_values (y0 : list V) :
  zlen x = dof r * vdim r * ne r ->
  zlen y0 = vdim r * ndofs r ->
  exists y,
    MultTransposeUnsigned r x y0 = Some y /\ zlen y = zlen y0 /\
    forall g c, 0 <= g < ndofs r -> 0 <= c < vdim r ->
      rd y (gix (byvdim r) (vdim r) (ndofs r) g c)
      = Some (sum_terms (map (unsigned_term c)
                             (slice (indices r) (below g (er_keys f o))
                                    (below (g + 1) (er_keys f o))))).
Proof.
  intros Hx Hy.
  pose (G := fun g c : Z =>
    (gix (byvdim r) (vdim r) (ndofs r) g c,
     sum_terms (map (unsigned_term c)
                    (slice (indices r) (below g (er_keys f o))
                           (below (g + 1) (er_keys f o)))))).
  pose (S := map (fun ic => G (fst ic) (snd ic))
                 (pairs (zseq (ndofs r)) (zseq (vdim r)))).
  assert (ES : MultTransposeUnsigned r x y0 = foldM store S y0).
  { transitivity
      (foldM (fun i y => foldM (fun c y => store (G i c) y) (zseq (vdim r)) y)
             (zseq (ndofs r)) y0).
    - unfold MultTransposeUnsigned; rewrite forZ_0.
      apply foldM_ext_in; intros i y Hi; apply in_zseq in Hi.
      destruct (er_offsets_entry f o r Built i ltac:(lia)) as (-> & _).
      destruct (er_offsets_entry f o r Built (i + 1) ltac:(lia)) as (-> & _).
      cbn [obind].
      rewrite forZ_0; apply foldM_ext_in; intros c y' Hc; apply in_zseq in Hc.
      rewrite gather_bucket_unsigned_sum by assumption; cbn [obind].
      reflexivity.
    - rewrite (foldM_pairs (fun i c => store (G i c))).
      unfold S; rewrite foldM_map; reflexivity. }
  assert (P : Permutation (map fst S) (zseq (vdim r * ndofs r))).
  { pose proof (MultTranspose_targets_perm f o r WF Built x Hvd) as P.
    unfold MultTranspose_stores in P; unfold S, G.
    rewrite map_map in *; cbn [fst] in P |- *; exact P. }
  destruct (stores_result S) with (y0 := y0) as (y & Ey & Hl & Hin & _).
  { eapply Permutation_NoDup; [symmetry; exact P|apply NoDup_zrange]. }
  { intros s Hs; rewrite Hy; apply in_zseq.
    eapply Permutation_in; [exact P|now apply in_map]. }
  exists y; rewrite ES; repeat split; auto.
  intros g c Hg Hc.
  apply (Hin (G g c)).
  unfold S; apply in_map_iff; exists (g, c); split; auto.
  apply in_pairs; rewrite !in_zseq; lia.
Qed.

End UnsignedKernels.

(** X5: [MultUnsigned] is [Mult] without the signs: on every constructed
    restriction both return, the entry [(d,c,e)] of [MultUnsigned] is the
    global value at the dof that [gatherMap[e*dof+d]] decodes to, and the
    entry of [Mult] is that value, negated when the gather-map entry is
    negative. *)
Theorem MultUnsigned_scatter {V : Type} `{Scalar V} f o r (x y0 : list V) :
  wf_space f o -> ElementRestriction_new f o = Some r ->
  0 <= vdim r ->
  zlen x = vdim r * ndofs r ->
  zlen y0 = dof r * vdim r * ne r ->
  exists y yu,
    Mult r x y0 = Some y /\ MultUnsigned r x y0 = Some yu /\
    zlen yu = zlen y0 /\
    forall e d c, 0 <= e < ne r -> 0 <= d < dof r -> 0 <= c < vdim r ->
      exists s xv,
        rd (gatherMap r) (e * dof r + d) = Some s /\
        rd x (gix (byvdim r) (vdim r) (ndofs r) (decode s) c) = Some xv /\
        rd yu (ix3 (dof r) (vdim r) d c e) = Some xv /\
        rd y (ix3 (dof r) (vdim r) d c e)
        = Some (if s >=? 0 then xv else sneg xv).
Proof.
  intros WF E Hvd Hx Hy.
  pose proof (ElementRestriction_new_built f o WF r E) as B.
  destruct (Mult_values f o r WF B x Hvd Hx y0 Hy) as (y & Ey & Hl & Hval).
  destruct (MultUnsigned_values f o r WF B x Hvd y0 Hx Hy)
    as (yu & Eyu & Hlu & Hvu).
  exists y, yu; repeat split; auto.
  intros e d c He Hd Hc.
  destruct (er_gatherMap_entry f o r WF B (e * dof r + d))
    as (s & Es & En & Hs); [nia|].
  exists s; eexists; split; [exact Es|]; split.
  - apply (rd_nth x _ szero); rewrite Hx; apply gix_range; auto.
  - split.
    + specialize (Hvu (e * dof r + d) c ltac:(nia) Hc).
      destruct (flat_index_quot_rem (dof r) e d) as [Eq Er]; try lia.
      replace (e * dof r + d) with (dof r * e + d) in Hvu at 1 2 by lia.
      rewrite Eq, Er, En in Hvu; exact Hvu.
    + rewrite (Hval e d c He Hd Hc), En; reflexivity.
Qed.

Lemma MultUnsigned_scatter_witness :
  exists y yu : list Z,
    Mult signed_restriction [10; 11; 20; 21; 30; 31] (alloc 8 0) = Some y /\
    MultUnsigned signed_restriction [10; 11; 20; 21; 30; 31] (alloc 8 0)
    = Some yu /\
    zlen yu = 8.
Proof.
  destruct (MultUnsigned_scatter signed_space LEXICOGRAPHIC signed_restriction
              [10; 11; 20; 21; 30; 31] (alloc 8 0)
              signed_space_wf signed_restriction_built)
    as (y & yu & Ey & Eyu & Hl & _); try reflexivity; [cbn; lia|].
  exists y, yu; repeat split; assumption.
Defined.

(** X6: on every constructed restriction, signed or not, scattering with
    [MultUnsigned] and gathering with [MultTransposeUnsigned] returns each
    global entry accumulated as many times as local slots map to its dof. *)
Theorem unsigned_scatter_gather {V : Type} `{Scalar V} f o r (x y0 z0 : list V) :
  wf_space f o -> ElementRestriction_new f o = Some r ->
  0 <= vdim r ->
  zlen x = vdim r * ndofs r ->
  zlen y0 = dof r * vdim r * ne r ->
  zlen z0 = vdim r * ndofs r ->
  exists y z,
    MultUnsigned r x y0 = Some y /\ MultTransposeUnsigned r y z0 = Some z /\
    zlen z = zlen x /\
    forall g c, 0 <= g < ndofs r -> 0 <= c < vdim r ->
      exists xv,
        rd x (gix (byvdim r) (vdim r) (ndofs r) g c) = Some xv /\
        rd z (gix (byvdim r) (vdim r) (ndofs r) g c)
        = Some (nmul (countZ g (map decode (gatherMap r))) xv).
Proof.
  intros WF E Hvd Hx Hy Hz.
  pose proof (ElementRestriction_new_built f o WF r E) as B.
  destruct (er_fields f o r B) as (E1 & E2 & E3).
  destruct (MultUnsigned_values f o r WF B x Hvd y0 Hx Hy)
    as (y & Ey & Hly & Hvy).
  assert (Hxy : zlen y = dof r * vdim r * ne r) by lia.
  destruct (MultTransposeUnsigned_values f o r WF B y Hvd z0 Hxy Hz)
    as (z & Ez & Hlz & Hvz).
  exists y, z; repeat split; auto; [lia|].
  intros g c Hg Hc.
  exists (nth (Z.to_nat (gix (byvdim r) (vdim r) (ndofs r) g c)) x szero).
  split.
  { apply rd_nth; rewrite Hx; apply gix_range; auto. }
  rewrite (Hvz g c Hg Hc); f_equal.
  unfold nmul; f_equal.
  assert (Hb : 0 <= below g (er_keys f o) <= below (g + 1) (er_keys f o) /\
               below (g + 1) (er_keys f o) <= zlen (indices r))
    by (eapply er_bucket_bounds; eauto).
  rewrite slice_map_nth, map_map by lia.
  rewrite (er_gatherMap_decoded f o r WF B).
  replace (countZ g (er_keys f o))
    with (below (g + 1) (er_keys f o) - below g (er_keys f o))
    by (rewrite below_succ; lia).
  rewrite <- (zrange_length (below g (er_keys f o))
                (Z.to_nat (below (g + 1) (er_keys f o) - below g (er_keys f o))))
    at 2.
  rewrite <- map_const.
  apply map_ext_in; intros j Hj; apply in_zrange in Hj.
  destruct (er_bucket_entry_decoded f o r WF B g j) as (Hk & Eg); [lia|lia|].
  set (k := decode (nth (Z.to_nat j) (indices r) 0)) in *.
  specialize (Hvy k c ltac:(nia) Hc).
  unfold rd in Hvy.
  destruct (ix3 (dof r) (vdim r) (Z.rem k (dof r)) c (Z.quot k (dof r)) <? 0);
    [discriminate|].
  rewrite (nth_error_nth _ _ szero Hvy), Eg; reflexivity.
Qed.

Lemma unsigned_scatter_gather_witness :
  exists y z : list Z,
    MultUnsigned signed_restriction [10; 11; 20; 21; 30; 31] (alloc 8 0)
    = Some y /\
    MultTransposeUnsigned signed_restriction y (alloc 6 0) = Some z /\
    zlen z = 6.
Proof.
  destruct (unsigned_scatter_gather signed_space LEXICOGRAPHIC
              signed_restriction [10; 11; 20; 21; 30; 31] (alloc 8 0)
              (alloc 6 0) signed_space_wf signed_restriction_built)
    as (y & z & Ey & Ez & Hl & _); try reflexivity; [cbn; lia|].
  exists y, z; repeat split; assumption.
Defined.

(** ** Element restriction of a discontinuous space *)

(** Two nested loops copying [x[S i c]] to [y[T i c]], the targets being
    pairwise distinct. *)
Lemma copy_loops {V : Type} `{Scalar V} (n vd : Z) (S T : Z -> Z -> Z)
  (x y0 : list V) :
  (forall i c, 0 <= i < n -> 0 <= c < vd -> 0 <= S i c < zlen x) ->
  (forall i c, 0 <= i < n -> 0 <= c < vd -> 0 <= T i c < zlen y0) ->
  (forall i c i' c', 0 <= i < n -> 0 <= c < vd -> 0 <= i' < n -> 0 <= c' < vd ->
     T i c = T i' c' -> i = i' /\ c = c') ->
  exists y,
    forZ 0 n (fun i y =>
      forZ 0 vd (fun c y => v <- rd x (S i c) ;; wr y (T i c) v) y) y0 = Some y /\
    zlen y = zlen y0 /\
    (forall i c, 0 <= i < n -> 0 <= c < vd -> rd y (T i c) = rd x (S i c)) /\
    (forall t, (forall i c, 0 <= i < n -> 0 <= c < vd -> t <> T i c) ->
       rd y t = rd y0 t).
Proof.
  intros HS HT Hinj.
  pose (G := fun ic : Z * Z =>
    (T (fst ic) (snd ic), nth (Z.to_nat (S (fst ic) (snd ic))) x szero)).
  pose (L := map G (pairs (zseq n) (zseq vd))).
  assert (EL : forZ 0 n (fun i y =>
                 forZ 0 vd (fun c y => v <- rd x (S i c) ;; wr y (T i c) v) y) y0
               = foldM store L y0).
  { transitivity
      (foldM (fun i y => foldM (fun c y => store (G (i, c)) y) (zseq vd) y)
             (zseq n) y0).
    - rewrite forZ_0; apply foldM_ext_in; intros i y Hi; apply in_zseq in Hi.
      rewrite forZ_0; apply foldM_ext_in; intros c y' Hc; apply in_zseq in Hc.
      rewrite (rd_nth x _ szero) by auto; reflexivity.
    - rewrite (foldM_pairs (fun i c => store (G (i, c)))).
      unfold L; rewrite foldM_map.
      apply foldM_ext_in; intros [i c] s _; reflexivity. }
  destruct (stores_result L) with (y0 := y0) as (y & Ey & Hl & Hin & Hout).
  { unfold L; rewrite map_map; cbn [G fst].
    apply Finite.Injective_map_NoDup_in;
      [|apply NoDup_pairs; apply NoDup_zrange].
    intros [i c] [i' c'] Hi Hi' E; cbn [fst snd] in E.
    apply in_pairs in Hi as [Hi Hc], Hi' as [Hi' Hc'].
    rewrite in_zseq in Hi, Hc, Hi', Hc'.
    apply Hinj in E as [-> ->]; auto. }
  { intros s Hs; unfold L in Hs.
    apply in_map_iff in Hs as ([i c] & <- & Hic).
    apply in_pairs in Hic as [Hi Hc]; rewrite in_zseq in Hi, Hc.
    cbn [G fst snd]; auto. }
  exists y; rewrite EL; repeat split; auto.
  - intros i c Hi Hc.
    rewrite (rd_nth x _ szero) by auto.
    apply (Hin (G (i, c))).
    unfold L; apply in_map, in_pairs; rewrite !in_zseq; auto.
  - intros t Ht; apply Hout; intros Hin'.
    unfold L in Hin'; rewrite map_map in Hin'.
    apply in_map_iff in Hin' as ([i c] & Et & Hic).
    apply in_pairs in Hic as [Hi Hc]; rewrite in_zseq in Hi, Hc.
    cbn [G fst snd] in Et; apply (Ht i c Hi Hc); auto.
Qed.

(** Arrays of the same length with the same entries are equal. *)
Lemma rd_ext {A : Type} (a b : list A) :
  zlen a = zlen b -> (forall t, 0 <= t < zlen a -> rd a t = rd b t) -> a = b.
Proof.
  intros Hl Hrd; apply nth_error_ext; intros k.
  destruct (Nat.lt_ge_cases k (length a)) as [Hk|Hk].
  - specialize (Hrd (Z.of_nat k) ltac:(unfold zlen; lia)).
    unfold rd in Hrd; destruct (Z.ltb_spec (Z.of_nat k) 0); [lia|].
    now rewrite Nat2Z.id in Hrd.
  - rewrite (proj2 (nth_error_None a k)), (proj2 (nth_error_None b k)); auto.
    unfold zlen in Hl; lia.
Qed.

(** Every index of a [Reshape] view is the image of its coordinates. *)
Lemma gix_onto (t : bool) (vd nn k : Z) :
  0 <= vd -> 0 <= nn -> 0 <= k < vd * nn ->
  exists j c, 0 <= j < nn /\ 0 <= c < vd /\ gix t vd nn j c = k.
Proof.
  intros Hvd Hnn Hk; unfold gix, ix2; destruct t.
  - destruct (flat_index_split vd k nn) as (Hq & Hm & E); try lia.
    exists (k / vd), (k mod vd); repeat split; lia.
  - destruct (flat_index_split nn k vd) as (Hq & Hm & E); try lia.
    exists (k mod nn), (k / nn); repeat split; lia.
Qed.

Lemma ix3_onto (n0 n1 n2 k : Z) :
  0 <= n0 -> 0 <= n1 -> 0 <= n2 -> 0 <= k < n0 * n1 * n2 ->
  exists i0 i1 i2, 0 <= i0 < n0 /\ 0 <= i1 < n1 /\ 0 <= i2 < n2 /\
                   ix3 n0 n1 i0 i1 i2 = k.
Proof.
  intros H0 H1 H2 Hk; unfold ix3.
  destruct (flat_index_split n0 k (n1 * n2)) as (Hq & Hm & E); try nia.
  destruct (flat_index_split n1 (k / n0) n2) as (Hq' & Hm' & E'); try nia.
  exists (k mod n0), ((k / n0) mod n1), ((k / n0) / n1).
  repeat split; lia.
Qed.

Section L2ElementSpec.
Context {V : Type} `{Scalar V}.
Variable r : L2Element.t.
Hypothesis Hne : 0 <= L2Element.ne r.
Hypothesis Hnd : 0 <= L2Element.ndof r.
Hypothesis Hvd : 0 <= L2Element.vdim r.
Hypothesis Hn : L2Element.ndofs r = L2Element.ne r * L2Element.ndof r.

Local Abbreviation nd := (L2Element.ndof r).
Local Abbreviation vd := (L2Element.vdim r).
Local Abbreviation nn := (L2Element.ndofs r).
Local Abbreviation G := (gix (L2Element.byvdim r) vd nn).
Local Abbreviation T := (fun i c : Z => ix3 nd vd (Z.rem i nd) c (Z.quot i nd)).

Lemma l2e_T_range i c :
  0 <= i < nn -> 0 <= c < vd -> 0 <= T i c < nd * vd * L2Element.ne r.
Proof.
  intros Hi Hc; rewrite Hn in Hi.
  destruct (slot_quot_rem nd (L2Element.ne r) i Hne Hi) as (? & ? & ? & _).
  apply ix3_range; lia.
Qed.

Lemma l2e_T_inj i c i' c' :
  0 <= i < nn -> 0 <= c < vd -> 0 <= i' < nn -> 0 <= c' < vd ->
  T i c = T i' c' -> i = i' /\ c = c'.
Proof.
  intros Hi Hc Hi' Hc' E; rewrite Hn in Hi, Hi'.
  destruct (slot_quot_rem nd (L2Element.ne r) i Hne Hi) as (? & ? & ? & Ei).
  destruct (slot_quot_rem nd (L2Element.ne r) i' Hne Hi') as (? & ? & ? & Ei').
  apply ix3_inj in E as (E1 & E2 & E3); [|lia..].
  split; [|assumption].
  rewrite <- Ei, <- Ei', E1, E3; reflexivity.
Qed.

Lemma l2e_T_onto k :
  0 <= k < nd * vd * L2Element.ne r ->
  exists i c, 0 <= i < nn /\ 0 <= c < vd /\ T i c = k.
Proof.
  intros Hk.
  destruct (ix3_onto nd vd (L2Element.ne r) k) as (d & c & e & Hd & Hc & He & E);
    auto.
  exists (nd * e + d), c.
  destruct (flat_index_quot_rem nd e d) as [Eq Er]; try lia.
  rewrite Eq, Er, Hn; repeat split; auto; nia.
Qed.

Lemma L2Element_Mult_values (x y0 : list V) :
  zlen x = vd * nn -> zlen y0 = nd * vd * L2Element.ne r ->
  exists y,
    L2Element.Mult r x y0 = Some y /\ zlen y = zlen y0 /\
    forall i c, 0 <= i < nn -> 0 <= c < vd -> rd y (T i c) = rd x (G i c).
Proof.
  intros Hx Hy.
  destruct (copy_loops nn vd G T x y0) as (y & Ey & Hl & Hv & _).
  - intros i c Hi Hc; rewrite Hx; apply gix_range; auto.
  - intros i c Hi Hc; rewrite Hy; now apply l2e_T_range.
  - apply l2e_T_inj.
  - exists y; repeat split; auto.
Qed.

Lemma L2Element_MultTranspose_values (x y0 : list V) :
  zlen x = nd * vd * L2Element.ne r -> zlen y0 = vd * nn ->
  exists y,
    L2Element.MultTranspose r x y0 = Some y /\ zlen y = zlen y0 /\
    forall i c, 0 <= i < nn -> 0 <= c < vd -> rd y (G i c) = rd x (T i c).
Proof.
  intros Hx Hy.
  destruct (copy_loops nn vd T G x y0) as (y & Ey & Hl & Hv & _).
  - intros i c Hi Hc; rewrite Hx; now apply l2e_T_range.
  - intros i c Hi Hc; rewrite Hy; apply gix_range; auto.
  - intros i c i' c' Hi Hc Hi' Hc' E; apply gix_inj in E; auto.
  - exists y; repeat split; auto.
Qed.

End L2ElementSpec.

(** X7: for a discontinuous space ([ndofs = ne * ndof]) the two kernels of
    [L2ElementRestriction] are inverse reorderings of each other:
    [MultTranspose] applied to the result of [Mult] returns the global
    vector, and [Mult] applied to the result of [MultTranspose] returns the
    local vector, whatever the output buffers held. *)
Theorem L2Element_round_trip {V : Type} `{Scalar V} (r : L2Element.t)
  (x w y0 z0 : list V) :
  0 <= L2Element.ne r -> 0 <= L2Element.ndof r -> 0 <= L2Element.vdim r ->
  L2Element.ndofs r = L2Element.ne r * L2Element.ndof r ->
  zlen x = L2Element.vdim r * L2Element.ndofs r ->
  zlen z0 = L2Element.vdim r * L2Element.ndofs r ->
  zlen w = L2Element.ndof r * L2Element.vdim r * L2Element.ne r ->
  zlen y0 = L2Element.ndof r * L2Element.vdim r * L2Element.ne r ->
  (exists y, L2Element.Mult r x y0 = Some y /\
             L2Element.MultTranspose r y z0 = Some x) /\
  (exists z, L2Element.MultTranspose r w z0 = Some z /\
             L2Element.Mult r z y0 = Some w).
Proof.
  intros Hne Hnd Hvd Hn Hx Hz Hw Hy.
  assert (Hnn : 0 <= L2Element.ndofs r) by nia.
  split.
  - destruct (L2Element_Mult_values r Hne Hn x y0 Hx Hy) as (y & Ey & Hl & Hv).
    destruct (L2Element_MultTranspose_values r Hne Hn y z0)
      as (z & Ez & Hlz & Hvz); [lia|exact Hz|].
    exists y; split; [exact Ey|]; rewrite Ez; f_equal.
    apply rd_ext; [lia|]; intros t Ht.
    destruct (gix_onto (L2Element.byvdim r) (L2Element.vdim r)
                (L2Element.ndofs r) t) as (i & c & Hi & Hc & <-); auto; [lia|].
    rewrite (Hvz i c Hi Hc); auto.
  - destruct (L2Element_MultTranspose_values r Hne Hn w z0 Hw Hz)
      as (z & Ez & Hlz & Hvz).
    destruct (L2Element_Mult_values r Hne Hn z y0) as (y & Ey & Hl & Hv);
      [lia|exact Hy|].
    exists z; split; [exact Ez|]; rewrite Ey; f_equal.
    apply rd_ext; [lia|]; intros t Ht.
    destruct (l2e_T_onto r Hne Hnd Hvd Hn t) as (i & c & Hi & Hc & <-); [lia|].
    rewrite (Hv i c Hi Hc); auto.
Qed.

Lemma L2Element_round_trip_witness :
  (exists y : list Z,
     L2Element.Mult (L2Element.new l2quad_space) [10; 20; 30; 40] (alloc 4 0)
     = Some y /\
     L2Element.MultTranspose (L2Element.new l2quad_space) y (alloc 4 0)
     = Some [10; 20; 30; 40]) /\
  (exists z : list Z,
     L2Element.MultTranspose (L2Element.new l2quad_space) [1; 2; 3; 4]
       (alloc 4 0) = Some z /\
     L2Element.Mult (L2Element.new l2quad_space) z (alloc 4 0)
     = Some [1; 2; 3; 4]).
Proof.
  apply (L2Element_round_trip (L2Element.new l2quad_space));
    try reflexivity; cbn; lia.
Defined.

(** ** Face dof maps *)

Lemma fill1_total (d : Z) (h : Z -> Z) (fm : list Z) :
  zlen fm = d ->
  exists fm1, forZ 0 d (fun i fm => wr fm i (h i)) fm = Some fm1.
Proof.
  intros Hl; destruct (fill_pass d h fm Hl) as (a' & E' & _).
  exists a'; now rewrite forZ_0.
Qed.

(** Stores at the images of the pairs [(i, j)] under a one-to-one [T]. *)
Lemma fill_pairs_total (d : Z) (T h : Z -> Z -> Z) (fm : list Z) :
  (forall i j, 0 <= i < d -> 0 <= j < d -> 0 <= T i j < zlen fm) ->
  (forall i j i' j', 0 <= i < d -> 0 <= j < d -> 0 <= i' < d -> 0 <= j' < d ->
     T i j = T i' j' -> i = i' /\ j = j') ->
  exists fm1,
    forZ 0 d (fun i fm =>
      forZ 0 d (fun j fm => wr fm (T i j) (h i j)) fm) fm = Some fm1 /\
    zlen fm1 = zlen fm /\
    forall i j, 0 <= i < d -> 0 <= j < d -> rd fm1 (T i j) = Some (h i j).
Proof.
  intros HT Hinj.
  pose (G := fun ab : Z * Z => (T (fst ab) (snd ab), h (fst ab) (snd ab))).
  destruct (stores_result (map G (pairs (zseq d) (zseq d)))) with (y0 := fm)
    as (y & Ey & Hy & Hin & _).
  { rewrite map_map; cbn [G fst].
    apply Finite.Injective_map_NoDup_in;
      [|apply NoDup_pairs; apply NoDup_zrange].
    intros [i j] [i' j'] Hi Hi' Eq; cbn [fst snd] in Eq.
    apply in_pairs in Hi as [Hi Hj], Hi' as [Hi' Hj'].
    rewrite in_zseq in Hi, Hj, Hi', Hj'.
    apply Hinj in Eq as [-> ->]; auto. }
  { intros s Hs; apply in_map_iff in Hs as ([i j] & <- & Hij).
    apply in_pairs in Hij as [Hi Hj]; rewrite in_zseq in Hi, Hj.
    cbn [G fst snd]; auto. }
  exists y; split; [|split; [exact Hy|]].
  - rewrite forZ_0.
    rewrite (foldM_ext_in _
      (fun i fm => foldM (fun j fm => wr fm (T i j) (h i j)) (zseq d) fm))
      by (intros; apply forZ_0).
    rewrite (foldM_pairs (fun i j fm => wr fm (T i j) (h i j))).
    rewrite <- Ey, foldM_map; reflexivity.
  - intros i j Hi Hj.
    apply (Hin (G (i, j))), in_map, in_pairs; rewrite !in_zseq; auto.
Qed.

Lemma fill2_total (d : Z) (h : Z -> Z -> Z) (fm : list Z) :
  0 <= d -> zlen fm = d * d ->
  exists fm1,
    forZ 0 d (fun i fm =>
      forZ 0 d (fun j fm => wr fm (i + j * d) (h i j)) fm) fm = Some fm1.
Proof.
  intros Hd Hl.
  destruct (fill_pairs_total d (fun i j => i + j * d) h fm)
    as (fm1 & E & _).
  - intros i j Hi Hj; rewrite Hl; nia.
  - intros i j i' j' Hi Hj Hi' Hj' E; apply lex_pair_inj in E; auto.
  - now exists fm1.
Qed.

Lemma GetFaceDofs_total (dim face_id dof1d : Z) (fm : list Z) :
  1 <= dim <= 3 -> 0 <= face_id < 2 * dim -> 0 <= dof1d ->
  zlen fm = dof1d ^ (dim - 1) ->
  exists fm1, GetFaceDofs dim face_id dof1d fm = Some fm1.
Proof.
  intros Hdim Hid Hd Hl.
  assert (Hc : dim = 1 \/ dim = 2 \/ dim = 3) by lia.
  destruct Hc as [-> | [-> | ->]].
  - change (1 - 1) with 0 in *; rewrite Z.pow_0_r in *.
    assert (Hi : face_id = 0 \/ face_id = 1) by lia.
    destruct fm as [|a [|b t]]; try (unfold zlen in Hl; simpl in Hl; lia).
    destruct Hi as [-> | ->]; cbn; eauto.
  - change (2 - 1) with 1 in *; rewrite Z.pow_1_r in *.
    assert (Hi : face_id = 0 \/ face_id = 1 \/ face_id = 2 \/ face_id = 3) by lia.
    destruct Hi as [-> | [-> | [-> | ->]]];
      cbv beta iota zeta delta [GetFaceDofs]; now apply fill1_total.
  - change (3 - 1) with 2 in *; rewrite Z.pow_2_r in *.
    assert (Hi : face_id = 0 \/ face_id = 1 \/ face_id = 2 \/ face_id = 3 \/
                 face_id = 4 \/ face_id = 5) by lia.
    destruct Hi as [-> | [-> | [-> | [-> | [-> | ->]]]]];
      cbv beta iota zeta delta [GetFaceDofs]; now apply fill2_total.
Qed.

(** The slots of a face are slots of the element, pairwise distinct. *)
Lemma face_dof_slot_range (dim face_id dof1d k : Z) :
  1 <= dim <= 3 -> 0 <= face_id < 2 * dim -> 1 <= dof1d ->
  0 <= k < dof1d ^ (dim - 1) ->
  0 <= face_dof_slot dim face_id dof1d k < dof1d ^ dim.
Proof.
  intros Hdim Hid Hd Hk.
  assert (Hc : dim = 1 \/ dim = 2 \/ dim = 3) by lia.
  destruct Hc as [-> | [-> | ->]].
  - assert (Hi : face_id = 0 \/ face_id = 1) by lia.
    rewrite Z.pow_1_r.
    destruct Hi as [-> | ->]; cbn; lia.
  - change (2 - 1) with 1 in *; rewrite Z.pow_1_r in Hk; rewrite Z.pow_2_r.
    assert (Hi : face_id = 0 \/ face_id = 1 \/ face_id = 2 \/ face_id = 3) by lia.
    destruct Hi as [-> | [-> | [-> | ->]]]; cbn; nia.
  - change (3 - 1) with 2 in *; rewrite Z.pow_2_r in Hk.
    replace (dof1d ^ 3) with (dof1d * dof1d * dof1d) by (cbn; lia).
    destruct (flat_index_split dof1d k dof1d) as (Hq & Hm & Ek); try lia.
    assert (Hi : face_id = 0 \/ face_id = 1 \/ face_id = 2 \/ face_id = 3 \/
                 face_id = 4 \/ face_id = 5) by lia.
    unfold face_dof_slot; cbv zeta.
    set (i := k mod dof1d) in *; set (j := k / dof1d) in *.
    assert (Hjd : 0 <= j * dof1d <= (dof1d - 1) * dof1d) by nia.
    assert (Hjdd : 0 <= j * dof1d * dof1d <= (dof1d - 1) * dof1d * dof1d) by nia.
    assert (Hid' : 0 <= i * dof1d <= (dof1d - 1) * dof1d) by nia.
    assert (Hdd : dof1d <= dof1d * dof1d) by nia.
    assert (Hddd : dof1d * dof1d <= dof1d * dof1d * dof1d) by nia.
    destruct Hi as [-> | [-> | [-> | [-> | [-> | ->]]]]]; cbv iota; nia.
Qed.

Lemma face_dof_slot_inj (dim face_id dof1d k k' : Z) :
  1 <= dim <= 3 -> 0 <= face_id < 2 * dim -> 1 <= dof1d ->
  0 <= k < dof1d ^ (dim - 1) -> 0 <= k' < dof1d ^ (dim - 1) ->
  face_dof_slot dim face_id dof1d k = face_dof_slot dim face_id dof1d k' ->
  k = k'.
Proof.
  intros Hdim Hid Hd Hk Hk'.
  assert (Hc : dim = 1 \/ dim = 2 \/ dim = 3) by lia.
  destruct Hc as [-> | [-> | ->]].
  - change (1 - 1) with 0 in *; rewrite Z.pow_0_r in *; lia.
  - change (2 - 1) with 1 in *; rewrite Z.pow_1_r in *.
    assert (Hi : face_id = 0 \/ face_id = 1 \/ face_id = 2 \/ face_id = 3) by lia.
    destruct Hi as [-> | [-> | [-> | ->]]]; cbn; nia.
  - change (3 - 1) with 2 in *; rewrite Z.pow_2_r in *.
    destruct (flat_index_split dof1d k dof1d) as (Hq & Hm & Ek); try lia.
    destruct (flat_index_split dof1d k' dof1d) as (Hq' & Hm' & Ek'); try lia.
    assert (Hi : face_id = 0 \/ face_id = 1 \/ face_id = 2 \/ face_id = 3 \/
                 face_id = 4 \/ face_id = 5) by lia.
    unfold face_dof_slot; cbv zeta.
    set (i := k mod dof1d) in *; set (j := k / dof1d) in *.
    set (i' := k' mod dof1d) in *; set (j' := k' / dof1d) in *.
    assert (Hdd : dof1d <= dof1d * dof1d) by nia.
    intros E.
    assert (Hij : i = i' /\ j = j').
    { destruct Hi as [-> | [-> | [-> | [-> | [-> | ->]]]]]; cbv iota in E.
      - apply (lex_pair_inj dof1d); auto.
      - apply (lex_pair_inj (dof1d * dof1d)); try lia.
      - assert (E' : i + j * dof1d = i' + j' * dof1d) by nia.
        apply (lex_pair_inj dof1d); auto.
      - apply (lex_pair_inj (dof1d * dof1d)); lia.
      - assert (E' : i + j * dof1d = i' + j' * dof1d) by nia.
        apply (lex_pair_inj dof1d); auto.
      - apply (lex_pair_inj dof1d); auto; lia. }
    destruct Hij as [Ei Ej]; rewrite <- Ek, <- Ek', Ei, Ej; reflexivity.
Qed.

(** X8: for the reference faces of a segment, a quadrilateral or a
    hexahedron, [GetFaceDofs] returns and overwrites the whole face map,
    whatever it held, with [dof1d^(dim-1)] pairwise distinct slots of the
    element, each in [[0, dof1d^dim)]. *)
Theorem GetFaceDofs_slots (dim face_id dof1d : Z) (fm : list Z) :
  1 <= dim <= 3 -> 0 <= face_id < 2 * dim -> 1 <= dof1d ->
  zlen fm = dof1d ^ (dim - 1) ->
  exists fm1,
    GetFaceDofs dim face_id dof1d fm = Some fm1 /\
    zlen fm1 = zlen fm /\ NoDup fm1 /\
    Forall (fun v => 0 <= v < dof1d ^ dim) fm1 /\
    forall fm', zlen fm' = zlen fm ->
      GetFaceDofs dim face_id dof1d fm' = Some fm1.
Proof.
  intros Hdim Hid Hd Hl.
  assert (Hp : 0 <= dof1d ^ (dim - 1)) by (apply Z.pow_nonneg; lia).
  destruct (GetFaceDofs_total dim face_id dof1d fm) as (fm1 & E);
    auto; [lia|].
  pose proof (GetFaceDofs_fresh dim face_id dof1d fm fm1 Hdim Hid
                ltac:(lia) Hl E) as Efm.
  exists fm1; split; [exact E|]; rewrite Efm; split; [|split; [|split]].
  - unfold zlen at 1; rewrite length_map.
    fold (zlen (zseq (dof1d ^ (dim - 1)))); rewrite zseq_length; lia.
  - apply Finite.Injective_map_NoDup_in; [|apply NoDup_zrange].
    intros k k' Hk Hk'; rewrite in_zseq in Hk, Hk'.
    now apply face_dof_slot_inj.
  - apply Forall_forall; intros v Hv.
    apply in_map_iff in Hv as (k & <- & Hk); apply in_zseq in Hk.
    now apply face_dof_slot_range.
  - intros fm' Hl'.
    destruct (GetFaceDofs_total dim face_id dof1d fm') as (fm2 & E2);
      auto; [lia|lia|].
    rewrite E2; f_equal.
    apply (GetFaceDofs_fresh dim face_id dof1d fm' fm2); auto; lia.
Qed.

Lemma GetFaceDofs_slots_witness :
  exists fm1,
    GetFaceDofs 3 2 3 (alloc 9 0) = Some fm1 /\
    zlen fm1 = zlen (alloc 9 0 : list Z) /\ NoDup fm1 /\
    Forall (fun v => 0 <= v < 3 ^ 3) fm1 /\
    forall fm', zlen fm' = zlen (alloc 9 0 : list Z) ->
      GetFaceDofs 3 2 3 fm' = Some fm1.
Proof.
  apply GetFaceDofs_slots; try lia; reflexivity.
Defined.

(** ** Face permutations: inverses and the lexicographic conversion *)

Lemma ToLexOrdering3D_FromLex3D f s ij :
  0 <= f < 6 ->
  ToLexOrdering3D f s (fst ij) (snd ij) =
  fst (FromLex3D f s ij) + snd (FromLex3D f s ij) * s.
Proof.
  intros Hf; destruct ij as [i j]; unfold ToLexOrdering3D, FromLex3D.
  assert (Hc : f = 0 \/ f = 1 \/ f = 2 \/ f = 3 \/ f = 4 \/ f = 5) by lia.
  destruct Hc as [-> | [-> | [-> | [-> | [-> | ->]]]]]; reflexivity.
Qed.

Lemma PermuteFace3D_inverse f1 f2 o s i :
  0 <= f1 < 6 -> 0 <= f2 < 6 -> 0 <= o < 8 -> 1 <= s -> 0 <= i < s * s ->
  PermuteFace3D f2 f1 (Orient3D_inv o) s (PermuteFace3D f1 f2 o s i) = i.
Proof.
  intros Hf1 Hf2 Ho Hs Hi.
  destruct (lex_split s i Hs Hi) as [Sq Ei].
  rewrite (PermuteFace3D_stages f1 f2 o s i); cbv zeta.
  set (ab := Orient3D o s (FromLex3D f1 s (Z.rem i s, Z.quot i s))).
  assert (Sab : in_square s ab)
    by (apply Orient3D_square, FromLex3D_square; auto).
  rewrite ToLexOrdering3D_FromLex3D by assumption.
  pose proof (FromLex3D_square f2 s ab Sab) as [Ha Hb].
  rewrite PermuteFace3D_stages; cbv zeta.
  destruct (lex_join s (fst (FromLex3D f2 s ab)) (snd (FromLex3D f2 s ab)))
    as [-> ->]; try lia.
  rewrite <- surjective_pairing, FromLex3D_involutive.
  unfold ab; rewrite Orient3D_inv_left by assumption.
  rewrite ToLexOrdering3D_FromLex3D, FromLex3D_involutive by assumption.
  cbn [fst snd]; lia.
Qed.

(** X9: on a 2D or 3D tensor mesh the permutation taking the face-dof order
    of side 1 to that of side 2 is undone by the permutation with the two
    face ids exchanged and the inverse orientation code (codes 2 and 6 are
    inverse to each other, every other code is its own inverse). *)
Theorem PermuteFaceL2_inverse dim face_id1 face_id2 orientation size1d index :
  face_codes dim face_id1 face_id2 orientation ->
  1 <= size1d -> 0 <= index < size1d ^ (dim - 1) ->
  exists k,
    PermuteFaceL2 dim face_id1 face_id2 orientation size1d index = Some k /\
    PermuteFaceL2 dim face_id2 face_id1 (Orient3D_inv orientation) size1d k =
    Some index.
Proof.
  intros [(-> & _ & _ & Ho) | (-> & H1 & H2 & Ho)] Hs Hi.
  - eexists; split; [reflexivity|]; cbn [PermuteFaceL2]; f_equal.
    assert (Hc : orientation = 0 \/ orientation = 1) by lia.
    unfold PermuteFace2D, ToLexOrdering2D.
    destruct Hc as [-> | ->]; cbn [Orient3D_inv Z.eqb Pos.eqb];
      destruct ((face_id1 =? 2) || (face_id1 =? 3)),
               ((face_id2 =? 2) || (face_id2 =? 3)); lia.
  - eexists; split; [reflexivity|]; cbn [PermuteFaceL2]; f_equal.
    apply PermuteFace3D_inverse; auto.
    now replace (size1d * size1d) with (size1d ^ (3 - 1)) by (simpl; lia).
Qed.

Lemma PermuteFaceL2_inverse_witness :
  exists k,
    PermuteFaceL2 3 0 3 2 3 5 = Some k /\
    PermuteFaceL2 3 3 0 (Orient3D_inv 2) 3 k = Some 5.
Proof.
  apply PermuteFaceL2_inverse.
  - right; lia.
  - lia.
  - simpl; lia.
Defined.

(** X10: [ToLexOrdering] of a side is its own inverse on the face-dof
    indices, and for orientation code 0 [PermuteFaceL2] is the conversion of
    side 1 followed by the conversion of side 2; in a dimension other than
    1, 2 or 3 it aborts. *)
Theorem ToLexOrdering_involution dim face_id1 face_id2 size1d index :
  (2 <= dim <= 3 -> 0 <= face_id1 < 2 * dim -> 0 <= face_id2 < 2 * dim ->
   1 <= size1d -> 0 <= index < size1d ^ (dim - 1) ->
   exists k,
     ToLexOrdering dim face_id1 size1d index = Some k /\
     0 <= k < size1d ^ (dim - 1) /\
     ToLexOrdering dim face_id1 size1d k = Some index /\
     PermuteFaceL2 dim face_id1 face_id2 0 size1d index =
     ToLexOrdering dim face_id2 size1d k) /\
  (~ 1 <= dim <= 3 -> ToLexOrdering dim face_id1 size1d index = None).
Proof.
  split.
  - intros Hdim H1 H2 Hs Hi.
    assert (Hc : dim = 2 \/ dim = 3) by lia.
    destruct Hc as [-> | ->].
    + change (2 - 1) with 1 in *; rewrite Z.pow_1_r in *.
      eexists; split; [reflexivity|]; cbn [ToLexOrdering PermuteFaceL2].
      unfold PermuteFace2D, ToLexOrdering2D; cbn [Z.eqb].
      destruct ((face_id1 =? 2) || (face_id1 =? 3)),
               ((face_id2 =? 2) || (face_id2 =? 3));
        (split; [lia|split; f_equal; lia]).
    + change (3 - 1) with 2 in *; rewrite Z.pow_2_r in *.
      destruct (lex_split size1d index Hs Hi) as [Sq Ei].
      eexists; split; [reflexivity|]; cbn [ToLexOrdering PermuteFaceL2].
      set (ij := (Z.rem index size1d, Z.quot index size1d)) in *.
      change (Z.rem index size1d) with (fst ij).
      change (Z.quot index size1d) with (snd ij).
      pose proof (FromLex3D_square face_id1 size1d ij Sq) as [Ha Hb].
      split; [apply ToLexOrdering3D_range; now rewrite <- surjective_pairing|].
      rewrite ToLexOrdering3D_FromLex3D by lia.
      destruct (lex_join size1d (fst (FromLex3D face_id1 size1d ij))
                  (snd (FromLex3D face_id1 size1d ij))) as [-> ->]; try lia.
      split; f_equal.
      * rewrite (ToLexOrdering3D_FromLex3D face_id1 size1d
                   (FromLex3D face_id1 size1d ij)) by lia.
        rewrite FromLex3D_involutive; unfold ij; cbn [fst snd]; lia.
      * rewrite PermuteFace3D_stages; cbv zeta; fold ij.
        destruct (FromLex3D face_id1 size1d ij); reflexivity.
  - intros Hdim; unfold ToLexOrdering.
    destruct dim as [|[p|p|]|]; try reflexivity; try lia;
      destruct p; try reflexivity; lia.
Qed.

Lemma ToLexOrdering_involution_witness :
  exists k,
    ToLexOrdering 3 0 3 5 = Some k /\
    0 <= k < 3 ^ (3 - 1) /\
    ToLexOrdering 3 0 3 k = Some 5 /\
    PermuteFaceL2 3 0 4 0 3 5 = ToLexOrdering 3 4 3 k.
Proof.
  apply (proj1 (ToLexOrdering_involution 3 0 4 3 5)); simpl; lia.
Defined.

(** ** Continuous face restriction: acceptance, scatter map and [Mult] *)

Lemma slot_target_range (nd vd nf i c : Z) :
  0 <= nf -> 0 <= i < nf * nd -> 0 <= c < vd ->
  0 <= ix3 nd vd (Z.rem i nd) c (Z.quot i nd) < nd * vd * nf.
Proof.
  intros Hnf Hi Hc.
  destruct (slot_quot_rem nd nf i Hnf Hi) as (? & ? & ? & _).
  apply ix3_range; lia.
Qed.

Lemma slot_target_inj (nd vd nf i c i' c' : Z) :
  0 <= nf -> 0 <= i < nf * nd -> 0 <= c < vd ->
  0 <= i' < nf * nd -> 0 <= c' < vd ->
  ix3 nd vd (Z.rem i nd) c (Z.quot i nd) =
  ix3 nd vd (Z.rem i' nd) c' (Z.quot i' nd) ->
  i = i' /\ c = c'.
Proof.
  intros Hnf Hi Hc Hi' Hc' E.
  destruct (slot_quot_rem nd nf i Hnf Hi) as (? & ? & ? & Ei).
  destruct (slot_quot_rem nd nf i' Hnf Hi') as (? & ? & ? & Ei').
  apply ix3_inj in E as (E1 & E2 & E3); [|lia..].
  split; [|assumption].
  rewrite <- Ei, <- Ei', E1, E3; reflexivity.
Qed.

Lemma slot_target_onto (nd vd nf k : Z) :
  0 <= nd -> 0 <= vd -> 0 <= nf -> 0 <= k < nd * vd * nf ->
  exists i c, 0 <= i < nf * nd /\ 0 <= c < vd /\
              ix3 nd vd (Z.rem i nd) c (Z.quot i nd) = k.
Proof.
  intros Hnd Hvd Hnf Hk.
  destruct (ix3_onto nd vd nf k) as (d & c & e & Hd & Hc & He & E); auto.
  exists (nd * e + d), c.
  destruct (flat_index_quot_rem nd e d) as [Eq Er]; try lia.
  rewrite Eq, Er; repeat split; auto; nia.
Qed.

(** Every face the scatter loop accepts is stored under the lexicographic
    ordering and has orientation code 0; [f_ind] counts these faces. *)
Lemma H1_scatter_accepts fs o ty dm dof l :
  forall f0 fm sc f1 fm1 sc1,
  foldM (H1Face.scatter_face fs o ty dm dof) l (f0, fm, sc) = Some (f1, fm1, sc1) ->
  f1 = f0 + zlen (filter (face_selected ty) l) /\
  Forall (fun fi => face_selected ty fi = true ->
                    o = LEXICOGRAPHIC /\ Z.rem (inf1 fi) 64 = 0) l.
Proof.
  induction l as [|fi l IH]; intros f0 fm sc f1 fm1 sc1 E.
  - injection E as <- <- <-; split; [unfold zlen; simpl; lia|constructor].
  - cbn [foldM] in E; bind_inv E st E1; destruct st as [[f' fm'] sc'].
    apply IH in E as [-> F]; clear IH.
    unfold H1Face.scatter_face in E1; cbn [filter].
    destruct (face_selected ty fi) eqn:Hs.
    + bind_inv E1 fm2 Eg; bind_inv E1 sc2 Es; injection E1 as <- <- <-.
      split; [unfold zlen; cbn [length]; lia|].
      constructor; [intros _|exact F].
      unfold H1Face.dof_reorder in Eg.
      destruct o; try discriminate.
      destruct (Z.eqb_spec (Z.rem (inf1 fi) 64) 0); [auto|discriminate].
    + injection E1 as <- <- <-; split; [lia|].
      constructor; [intros; congruence|exact F].
Qed.

(** What a constructor call that returns with faces has checked. *)
Lemma H1_new_checks mem fs o ty r :
  H1Face.new mem fs o ty = Some r -> GetNFbyType fs ty <> 0 ->
  o = LEXICOGRAPHIC /\
  zlen (filter (face_selected ty) (faces fs)) = GetNFbyType fs ty /\
  Forall (fun fi => face_selected ty fi = true -> Z.rem (inf1 fi) 64 = 0)
         (faces fs) /\
  BasisSupported fs = true /\ Conforming fs = true /\
  GetDofMap (fes fs) <> None.
Proof.
  intros E Hnf; unfold H1Face.new in E.
  destruct (Z.eqb_spec (GetNFbyType fs ty) 0) as [|_]; [contradiction|].
  bind_inv E dm Edm; bind_inv E u1 Eu1; bind_inv E u2 Eu2; bind_inv E u3 Eu3.
  bind_inv E st Est; destruct st as [[f0 fm0] sc].
  bind_inv E u4 Eu4; apply verify_Some, Z.eqb_eq in Eu4.
  apply verify_Some in Eu1, Eu2.
  apply H1_scatter_accepts in Est as [Ef F].
  assert (Hex : exists fi, In fi (filter (face_selected ty) (faces fs))).
  { destruct (filter (face_selected ty) (faces fs)) as [|fi t].
    - unfold zlen in Ef; simpl in Ef; lia.
    - exists fi; now left. }
  destruct Hex as (fi & Hfi); apply filter_In in Hfi as [Hin Hsel].
  rewrite Forall_forall in F.
  repeat split; auto; try lia.
  - exact (proj1 (F fi Hin Hsel)).
  - apply Forall_forall; intros fj Hj Hs; exact (proj2 (F fj Hj Hs)).
  - rewrite Edm; discriminate.
Qed.

(** The scatter array of a constructed restriction on valid faces, with or
    without a face of the requested type. *)
Lemma H1_new_scatter mem fs o ty r :
  valid_faces fs ty -> H1Face.new mem fs o ty = Some r ->
  0 <= H1Face.nf r /\
  H1Face.nfdofs r = H1Face.nf r * H1Face.dof r /\
  zlen (H1Face.scatter_indices r) = H1Face.nfdofs r /\
  Forall (fun g => 0 <= g < H1Face.ndofs r) (H1Face.scatter_indices r).
Proof.
  intros Hv E.
  destruct (Z.eq_dec (GetNFbyType fs ty) 0) as [Hnf|Hnf].
  - unfold H1Face.new in E; rewrite Hnf in E.
    cbn [Z.eqb Z.gtb Z.compare Z.mul] in E; injection E as <-.
    cbn [H1Face.nf H1Face.nfdofs H1Face.dof H1Face.scatter_indices
         H1Face.ndofs].
    repeat split; try lia; constructor.
  - destruct (H1_new_built mem fs o ty r Hv Hnf E)
      as ((Enfd & Hkl & Hr & _) & _ & Hpos & _).
    repeat split; auto; try lia; apply Hr.
Qed.

(** X11: [H1FaceRestriction] with no face of the requested type returns at
    once, before any check, with empty index arrays; [offsets] is returned
    as it was allocated, none of its entries written.  With faces, a
    constructor call that returns was given the lexicographic ordering (the
    native one aborts at the first selected face), found exactly [nf]
    selected faces, each with orientation code 0, a supported basis and a
    conforming mesh. *)
Theorem H1_new_accepts mem fs o ty :
  (GetNFbyType fs ty = 0 ->
   exists r, H1Face.new mem fs o ty = Some r /\ H1Face.nfdofs r = 0 /\
             H1Face.scatter_indices r = [] /\ H1Face.gather_indices r = [] /\
             H1Face.offsets r
             = uninit (H1Face.fresh_offsets mem) (GetNDofs (fes fs) + 1)) /\
  (forall r, H1Face.new mem fs o ty = Some r -> GetNFbyType fs ty <> 0 ->
     o = LEXICOGRAPHIC /\
     zlen (filter (face_selected ty) (faces fs)) = GetNFbyType fs ty /\
     Forall (fun fi => face_selected ty fi = true -> Z.rem (inf1 fi) 64 = 0)
            (faces fs) /\
     BasisSupported fs = true /\ Conforming fs = true /\
     GetDofMap (fes fs) <> None).
Proof.
  split.
  - intros Hnf; unfold H1Face.new; rewrite Hnf; cbn [Z.eqb Z.gtb Z.compare].
    eexists; split; [reflexivity|].
    cbn [H1Face.nfdofs H1Face.scatter_indices H1Face.gather_indices
         H1Face.offsets]; auto.
  - intros r E Hnf; exact (H1_new_checks mem fs o ty r E Hnf).
Qed.

Lemma H1_new_accepts_witness :
  (exists r,
     H1Face.new h1_stale quad1_faces LEXICOGRAPHIC Interior = Some r /\
     H1Face.nfdofs r = 0 /\
     H1Face.scatter_indices r = [] /\ H1Face.gather_indices r = [] /\
     H1Face.offsets r = [1000; 1001; 1002; 1003; 1004]) /\
  (LEXICOGRAPHIC = LEXICOGRAPHIC /\
   zlen (filter (face_selected Boundary) (faces quad1_faces))
   = GetNFbyType quad1_faces Boundary /\
   Forall (fun fi => face_selected Boundary fi = true -> Z.rem (inf1 fi) 64 = 0)
          (faces quad1_faces) /\
   BasisSupported quad1_faces = true /\ Conforming quad1_faces = true /\
   GetDofMap (fes quad1_faces) <> None).
Proof.
  split.
  - destruct (proj1 (H1_new_accepts h1_stale quad1_faces LEXICOGRAPHIC Interior)
                eq_refl) as (r & E & H1 & H2 & H3 & H4).
    exists r; repeat split; auto.
  - apply (proj2 (H1_new_accepts h1_stale quad1_faces LEXICOGRAPHIC Boundary)
                 quad1_boundary).
    + vm_compute; reflexivity.
    + vm_compute; discriminate.
Defined.

(** X12: on valid faces, [H1FaceRestriction::Mult] of a constructed
    restriction returns; the local entry of slot [d], component [c] of face
    [f] is the global entry of the dof [scatter_indices[dof*f+d]], a dof of
    the space; every local entry is overwritten, so the result does not
    depend on the content of the output buffer. *)
Theorem H1_Mult_scatter {V : Type} `{Scalar V}
  mem fs o ty r (x y0 : list V) :
  valid_faces fs ty -> H1Face.new mem fs o ty = Some r ->
  0 <= H1Face.vdim r ->
  zlen x = H1Face.vdim r * H1Face.ndofs r ->
  zlen y0 = H1Face.dof r * H1Face.vdim r * H1Face.nf r ->
  exists y,
    H1Face.Mult r x y0 = Some y /\ zlen y = zlen y0 /\
    (forall f d c,
       0 <= f < H1Face.nf r -> 0 <= d < H1Face.dof r -> 0 <= c < H1Face.vdim r ->
       exists g,
         rd (H1Face.scatter_indices r) (H1Face.dof r * f + d) = Some g /\
         0 <= g < H1Face.ndofs r /\
         rd y (ix3 (H1Face.dof r) (H1Face.vdim r) d c f) =
         rd x (gix (H1Face.byvdim r) (H1Face.vdim r) (H1Face.ndofs r) g c)) /\
    (forall y1, zlen y1 = zlen y0 -> H1Face.Mult r x y1 = Some y).
Proof.
  intros Hv E Hvd Hx Hy.
  pose proof (H1_new_scatter mem fs o ty r Hv E) as (Hnf & Enfd & Hkl & Hr).
  set (nd := H1Face.dof r) in *; set (vd := H1Face.vdim r) in *.
  set (nn := H1Face.ndofs r) in *; set (nf := H1Face.nf r) in *.
  set (keys := H1Face.scatter_indices r) in *.
  rewrite Enfd in Hkl.
  pose (S := fun i c => gix (H1Face.byvdim r) vd nn (nth (Z.to_nat i) keys 0) c).
  pose (T := fun i c => ix3 nd vd (Z.rem i nd) c (Z.quot i nd)).
  assert (Hkey : forall i, 0 <= i < nf * nd ->
            rd keys i = Some (nth (Z.to_nat i) keys 0) /\
            0 <= nth (Z.to_nat i) keys 0 < nn).
  { intros i Hi; split; [apply rd_nth; lia|].
    rewrite Forall_forall in Hr; apply Hr, nth_In; unfold zlen in Hkl; lia. }
  assert (EM : forall y1,
            H1Face.Mult r x y1 =
            forZ 0 (nf * nd) (fun i y =>
              forZ 0 vd (fun c y => v <- rd x (S i c) ;; wr y (T i c) v) y) y1).
  { intros y1; unfold H1Face.Mult; fold nd vd nn keys; rewrite Enfd.
    rewrite !forZ_0; apply foldM_ext_in; intros i y Hi; apply in_zseq in Hi.
    destruct (Hkey i Hi) as [-> _]; reflexivity. }
  assert (HS : forall i c, 0 <= i < nf * nd -> 0 <= c < vd ->
                 0 <= S i c < zlen x).
  { intros i c Hi Hc; unfold S; rewrite Hx.
    apply gix_range; auto; now apply Hkey. }
  assert (HT : forall (y1 : list V), zlen y1 = zlen y0 ->
                 forall i c, 0 <= i < nf * nd -> 0 <= c < vd ->
                 0 <= T i c < zlen y1).
  { intros y1 Hl i c Hi Hc; rewrite Hl, Hy; now apply slot_target_range. }
  assert (TI : forall i c i' c', 0 <= i < nf * nd -> 0 <= c < vd ->
                 0 <= i' < nf * nd -> 0 <= c' < vd ->
                 T i c = T i' c' -> i = i' /\ c = c').
  { intros i c i' c' Hi Hc Hi' Hc'; now apply (slot_target_inj nd vd nf). }
  destruct (copy_loops (nf * nd) vd S T x y0 HS (HT y0 eq_refl) TI)
    as (y & Ey & Hl & Hin & _).
  exists y; rewrite EM; split; [exact Ey|]; split; [exact Hl|]; split.
  - intros f d c Hf Hd Hc.
    assert (Hi : 0 <= nd * f + d < nf * nd) by nia.
    destruct (Hkey _ Hi) as [Rk Hg].
    exists (nth (Z.to_nat (nd * f + d)) keys 0); split; [exact Rk|].
    split; [exact Hg|].
    specialize (Hin (nd * f + d) c Hi Hc); unfold T, S in Hin.
    destruct (flat_index_quot_rem nd f d) as [Eq Er]; try lia.
    now rewrite Eq, Er in Hin.
  - intros y1 Hl1; rewrite EM.
    destruct (copy_loops (nf * nd) vd S T x y1 HS (HT y1 Hl1) TI)
      as (y' & Ey' & Hl' & Hin' & _).
    rewrite Ey'; f_equal; apply rd_ext; [lia|].
    intros t Ht.
    assert (Hnd : 0 <= nd).
    { destruct (Z.le_gt_cases 0 nd); auto.
      rewrite Hl', Hl1, Hy in Ht; nia. }
    destruct (slot_target_onto nd vd nf t) as (i & c & Hi & Hc & Et); auto;
      [lia|].
    rewrite <- Et; fold (T i c); rewrite Hin, Hin'; auto.
Qed.

Lemma H1_Mult_scatter_witness :
  exists y,
    H1Face.Mult quad1_boundary [10; 20; 30; 40] (alloc 8 0) = Some y /\
    zlen y = zlen (alloc 8 0 : list Z) /\
    (forall f d c,
       0 <= f < 4 -> 0 <= d < 2 -> 0 <= c < 1 ->
       exists g,
         rd (H1Face.scatter_indices quad1_boundary) (2 * f + d) = Some g /\
         0 <= g < 4 /\
         rd y (ix3 2 1 d c f) = rd [10; 20; 30; 40] (gix false 1 4 g c)) /\
    (forall y1, zlen y1 = zlen (alloc 8 0 : list Z) ->
       H1Face.Mult quad1_boundary [10; 20; 30; 40] y1 = Some y).
Proof.
  apply (H1_Mult_scatter h1_stale quad1_faces LEXICOGRAPHIC Boundary
           quad1_boundary [10; 20; 30; 40] (alloc 8 0)).
  - exact quad1_faces_valid.
  - exact (quad1_boundary_built h1_stale).
  - cbn; lia.
  - reflexivity.
  - reflexivity.
Defined.

(** A loop whose body first reads succeeds only if every read does. *)
Lemma foldM_reads {A B St : Type} (F : A -> option B)
  (step : B -> A -> St -> option St) (l : list A) :
  forall s s',
  foldM (fun a s => g <- F a ;; step g a s) l s = Some s' ->
  forall a, In a l -> exists g, F a = Some g.
Proof.
  induction l as [|a0 l IH]; intros s s' E a Ha; [destruct Ha|].
  cbn [foldM] in E; bind_inv E s1 E1; bind_inv E1 g Eg.
  destruct Ha as [<-|Ha]; [eauto|].
  eapply IH; eauto.
Qed.

(** Entry [d] of block [k] of a concatenation of blocks of equal length. *)
Lemma flat_map_block_nth {A B : Type} (h : A -> list B) (n : nat) (l : list A) :
  (forall a, In a l -> length (h a) = n) ->
  forall k d a, nth_error l k = Some a -> (d < n)%nat ->
  nth_error (flat_map h l) (k * n + d) = nth_error (h a) d.
Proof.
  induction l as [|a0 l IH]; intros Hl k d a Ek Hd.
  - destruct k; discriminate.
  - cbn [flat_map]; destruct k as [|k].
    + injection Ek as ->; cbn [Nat.mul Nat.add].
      apply nth_error_app1; rewrite Hl by (now left); exact Hd.
    + cbn [nth_error] in Ek.
      rewrite nth_error_app2 by (rewrite Hl by (now left); simpl; lia).
      rewrite Hl by (now left).
      replace (S k * n + d - n)%nat with (k * n + d)%nat by (simpl; lia).
      apply IH; auto; intros; apply Hl; now right.
Qed.

Section H1ScatterMap.
Variables (fs : FaceSpace) (o : ElementDofOrdering) (ty : FaceType).
Variable dm : list Z.
Hypothesis Valid : valid_faces fs ty.
Hypothesis Hdof : h1_dof fs ty = GetFaceDof fs.

Local Abbreviation dof := (h1_dof fs ty).

(** The scatter loop read the global dof of every slot of every selected
    face. *)
Lemma H1_scatter_reads l :
  forall f0 fm sc st',
  Forall (fun fi => face_selected ty fi = true ->
                    0 <= Z.quot (inf1 fi) 64 < 2 * SpaceDimension fs) l ->
  zlen fm = dof ->
  foldM (H1Face.scatter_face fs o ty dm dof) l (f0, fm, sc) = Some st' ->
  forall fi d, In fi l -> face_selected ty fi = true -> 0 <= d < dof ->
    exists g, H1Face.face_gid fs o dm (h1_face_map fs ty fi) fi d = Some g.
Proof.
  induction l as [|fi0 l IH]; intros f0 fm sc st' Hv Hl E fi d Hin Hs Hd;
    [destruct Hin|].
  inversion Hv as [|? ? Hfi Hv']; subst.
  cbn [foldM] in E; bind_inv E st E1; destruct st as [[f' fm'] sc'].
  unfold H1Face.scatter_face in E1.
  destruct (face_selected ty fi0) eqn:Hs0.
  - bind_inv E1 fm2 Eg; bind_inv E1 sc2 Es; injection E1 as <- <- <-.
    destruct (H1Face.dof_reorder o); [|discriminate].
    destruct (Z.rem (inf1 fi0) 64 =? 0); [|discriminate].
    pose proof (H1_face_map_fresh fs ty Valid Hdof fi0 fm fm2 (Hfi eq_refl)
                  Hl Eg) as ->.
    destruct Hin as [<-|Hin].
    + rewrite forZ_0 in Es.
      apply (foldM_reads
               (fun d => H1Face.face_gid fs o dm (h1_face_map fs ty fi0) fi0 d)
               (fun gid d s => wr s (dof * f0 + d) gid)) with (a := d) in Es;
        [exact Es|now apply in_zseq].
    + assert (Lm : zlen (h1_face_map fs ty fi0) = dof)
        by (apply h1_face_map_length; auto).
      exact (IH _ _ _ _ Hv' Lm E fi d Hin Hs Hd).
  - injection E1 as <- <- <-.
    destruct Hin as [<-|Hin]; [congruence|].
    exact (IH _ _ _ _ Hv' Hl E fi d Hin Hs Hd).
Qed.

End H1ScatterMap.

(** X13: on valid faces, a constructed [H1FaceRestriction] with faces
    stores in [scatter_indices[dof*k + d]], for the [k]-th selected face
    and its slot [d], the entry of the element-to-dof table of element [e1]
    of that face at the dof-map image of the [d]-th slot of the reference
    face. *)
Theorem H1_scatter_indices_content mem fs o ty r dm :
  valid_faces fs ty -> H1Face.new mem fs o ty = Some r ->
  GetNFbyType fs ty <> 0 -> GetDofMap (fes fs) = Some dm ->
  forall k d, 0 <= k < H1Face.nf r -> 0 <= d < H1Face.dof r ->
    exists fi did gid,
      nth_error (filter (face_selected ty) (faces fs)) (Z.to_nat k) = Some fi /\
      rd dm (face_dof_slot (SpaceDimension fs) (Z.quot (inf1 fi) 64)
                           (GetOrder fs + 1) d) = Some did /\
      rd (GetElementToDofTable (fes fs)) (e1 fi * GetDof (fes fs) + did)
      = Some gid /\
      rd (H1Face.scatter_indices r) (H1Face.dof r * k + d) = Some gid.
Proof.
  intros V E Hnf0 Edm k d Hk Hd.
  pose proof V as (Hnd & Hdim & Hord & Efd & Hids).
  destruct (H1_new_checks mem fs o ty r E Hnf0) as (-> & Ecount & _).
  unfold H1Face.new in E; cbv zeta in E.
  change (if GetNFbyType fs ty >? 0 then GetFaceDof fs else 0)
    with (h1_dof fs ty) in E.
  set (nf := GetNFbyType fs ty) in *.
  destruct (Z.eqb_spec nf 0) as [|_]; [contradiction|].
  rewrite Edm in E; cbn [obind] in E.
  bind_inv E u1 Eu1; bind_inv E u2 Eu2; bind_inv E u3 Eu3.
  bind_inv E st Est; destruct st as [[f0 fm0] sc].
  bind_inv E u4 Eu4.
  bind_inv E off0 E0.
  bind_inv E st1 E1; destruct st1 as [[f1 fm1] off1].
  bind_inv E u5 Eu5.
  bind_inv E off2 E2.
  bind_inv E st3 E3; destruct st3 as [[f3 fm3] og3].
  bind_inv E u6 Eu6.
  bind_inv E off4 E4; bind_inv E off5 E5.
  injection E as <-.
  cbn [H1Face.nf H1Face.dof H1Face.scatter_indices] in *.
  assert (Hpos : 0 < nf) by (unfold zlen in Ecount; lia).
  assert (Hdof : h1_dof fs ty = GetFaceDof fs).
  { unfold h1_dof; fold nf; destruct (Z.gtb_spec nf 0); lia. }
  pose proof (h1_dof_nonneg fs ty V Hdof) as Hd0.
  set (dof := h1_dof fs ty) in *.
  set (sel := filter (face_selected ty) (faces fs)) in *.
  pose proof Est as Ereads.
  apply (H1_scatter_replay fs LEXICOGRAPHIC ty dm V Hdof) in Est
    as (_ & _ & Rs); [|exact Hids|apply zlen_uninit_nonneg; exact Hd0].
  set (keys := h1_loop_keys fs LEXICOGRAPHIC ty dm (faces fs)) in *.
  assert (Hkl : zlen keys = nf * dof).
  { unfold keys; rewrite (h1_loop_keys_length fs LEXICOGRAPHIC ty dm V Hdof).
    fold dof sel; lia. }
  assert (Eit : h1_loop_items fs LEXICOGRAPHIC ty dm (faces fs) 0
                = combine keys (zrange 0 (length keys))).
  { unfold h1_loop_items; fold dof; fold keys.
    now replace (dof * 0) with 0 by lia. }
  rewrite Eit in Rs.
  apply store_all_keys in Rs; [|rewrite zlen_uninit_nonneg; lia]; subst sc.
  (* the face and its slot *)
  destruct (nth_error sel (Z.to_nat k)) as [fi|] eqn:Efi.
  2:{ apply nth_error_None in Efi; unfold zlen in Ecount; lia. }
  pose proof (nth_error_In _ _ Efi) as Hsel.
  apply filter_In in Hsel as [Hin Hsel].
  destruct (H1_scatter_reads fs LEXICOGRAPHIC ty dm V Hdof _ _ _ _ _ Hids
              ltac:(apply zlen_uninit_nonneg; exact Hd0) Ereads fi d Hin Hsel Hd)
    as (g & Eg).
  pose proof Eg as Eg'.
  unfold H1Face.face_gid in Eg'; bind_inv Eg' slot Eslot; bind_inv Eg' did Edid.
  cbn [H1Face.dof_reorder negb] in Edid.
  assert (Es : slot = face_dof_slot (SpaceDimension fs) (Z.quot (inf1 fi) 64)
                        (GetOrder fs + 1) d).
  { unfold h1_face_map, rd in Eslot.
    destruct (Z.ltb_spec d 0); [lia|].
    rewrite nth_error_map in Eslot; unfold zseq in Eslot.
    rewrite nth_error_zrange in Eslot by (fold dof; lia).
    cbn [option_map] in Eslot; injection Eslot as <-; f_equal; lia. }
  subst slot.
  exists fi, did, g; repeat split; auto.
  unfold rd; destruct (Z.ltb_spec (dof * k + d) 0); [nia|].
  replace (Z.to_nat (dof * k + d))
    with (Z.to_nat k * Z.to_nat dof + Z.to_nat d)%nat by nia.
  unfold keys, h1_loop_keys; fold sel.
  rewrite (flat_map_block_nth _ (Z.to_nat dof) sel) with (a := fi); auto;
    [|intros; apply h1_face_keys_length|lia].
  unfold h1_face_keys, zseq; rewrite nth_error_map.
  rewrite nth_error_zrange by (fold dof; lia).
  cbn [option_map]; f_equal.
  unfold h1_face_gid; rewrite Z.add_0_l, Z2Nat.id by lia.
  now rewrite Eg.
Qed.

Lemma H1_scatter_indices_content_witness :
  exists fi did gid,
    nth_error (filter (face_selected Boundary) (faces quad1_faces))
              (Z.to_nat 1) = Some fi /\
    rd [0; 1; 3; 2] (face_dof_slot 2 (Z.quot (inf1 fi) 64) (1 + 1) 1)
    = Some did /\
    rd (GetElementToDofTable (fes quad1_faces))
       (e1 fi * GetDof (fes quad1_faces) + did) = Some gid /\
    rd (H1Face.scatter_indices quad1_boundary) (2 * 1 + 1) = Some gid.
Proof.
  apply (H1_scatter_indices_content h1_stale quad1_faces LEXICOGRAPHIC
           Boundary quad1_boundary [0; 1; 3; 2] quad1_faces_valid
           (quad1_boundary_built h1_stale)
           ltac:(vm_compute; discriminate) eq_refl 1 1); cbn; lia.
Defined.

(** ** Discontinuous face restriction: acceptance *)

Lemma filter_agree {A : Type} (p q : A -> bool) (l : list A) :
  (forall a, p a = true -> q a = true) ->
  (length (filter p l) <= length (filter q l))%nat /\
  (length (filter p l) = length (filter q l) ->
   forall a, In a l -> p a = q a).
Proof.
  intros Hpq; induction l as [|a0 l [IHle IHeq]]; [split; [auto|intros _ a []]|].
  cbn [filter].
  destruct (p a0) eqn:Hp.
  - rewrite (Hpq a0 Hp); cbn [length]; split; [lia|].
    intros El a [<-|Ha]; [now rewrite Hp, (Hpq a0 Hp)|apply IHeq; auto; lia].
  - destruct (q a0) eqn:Hq; cbn [length]; split; try lia.
    intros El a [<-|Ha]; [congruence|apply IHeq; auto].
Qed.

Lemma L2_scatter_counts fs o ty mode dof l :
  forall f0 fm sc f1 fm1 sc1,
  foldM (L2Face.scatter_face fs o ty mode dof) l (f0, fm, sc)
  = Some (f1, fm1, sc1) ->
  f1 = f0 + zlen (filter (face_selected_L2 ty) l).
Proof.
  induction l as [|fi l IH]; intros f0 fm sc f1 fm1 sc1 E.
  - injection E as <- <- <-; unfold zlen; simpl; lia.
  - cbn [foldM] in E; bind_inv E st E1; destruct st as [[f' fm'] sc'].
    apply IH in E as ->; clear IH.
    unfold L2Face.scatter_face in E1; destruct sc as [s1 s2]; cbn [filter].
    bind_inv E1 fm2 Eg.
    destruct (face_selected_L2 ty fi).
    + bind_inv E1 t1 Es1; bind_inv E1 t2 Es2; injection E1 as <- <- <-.
      unfold zlen; cbn [length]; lia.
    + injection E1 as <- <- <-; lia.
Qed.

Lemma L2_count_counts fs ty mode dof l :
  forall f0 fm off f1 fm1 off1,
  foldM (L2Face.count_face fs ty mode dof) l (f0, fm, off)
  = Some (f1, fm1, off1) ->
  f1 = f0 + zlen (filter (face_selected ty) l).
Proof.
  induction l as [|fi l IH]; intros f0 fm off f1 fm1 off1 E.
  - injection E as <- <- <-; unfold zlen; simpl; lia.
  - cbn [foldM] in E; bind_inv E st E1; destruct st as [[f' fm'] off'].
    apply IH in E as ->; clear IH.
    unfold L2Face.count_face in E1; cbn [filter].
    destruct (face_selected ty fi).
    + bind_inv E1 fm2 Eg; bind_inv E1 t1 Es1; bind_inv E1 t2 Es2.
      injection E1 as <- <- <-.
      unfold zlen; cbn [length]; lia.
    + injection E1 as <- <- <-; lia.
Qed.

(** X14: a constructor call of [L2FaceRestriction] that returns had a
    supported basis and a conforming mesh, checked even when there is no
    face.  With faces it was given the lexicographic ordering, and the
    face test of the scatter loop and the one of the gather loops both
    selected exactly [nf] faces; as the two tests differ on a face without
    second element but with a second face info ([e2 < 0], [inf2 >= 0]), the
    mesh has no such face. *)
Theorem L2_new_accepts mem fs o ty mode r :
  L2Face.new mem fs o ty mode = Some r ->
  BasisSupported fs = true /\ Conforming fs = true /\
  (GetNFbyType fs ty <> 0 ->
   o = LEXICOGRAPHIC /\
   zlen (filter (face_selected_L2 ty) (faces fs)) = GetNFbyType fs ty /\
   zlen (filter (face_selected ty) (faces fs)) = GetNFbyType fs ty /\
   Forall (fun fi => ~ (e2 fi < 0 /\ 0 <= inf2 fi)) (faces fs)).
Proof.
  intros E; unfold L2Face.new in E.
  bind_inv E dm Edm; bind_inv E u1 Eu1; bind_inv E u2 Eu2.
  apply verify_Some in Eu1, Eu2.
  split; [exact Eu1|]; split; [exact Eu2|]; intros Hnf.
  destruct (Z.eqb_spec (GetNFbyType fs ty) 0) as [|_]; [contradiction|].
  bind_inv E u3 Eu3; bind_inv E u4 Eu4.
  bind_inv E st Est; destruct st as [[f_ind fm] sc].
  bind_inv E u5 Eu5; apply verify_Some, Z.eqb_eq in Eu5.
  bind_inv E off0 E0; bind_inv E st1 E1; destruct st1 as [[f1 fm1] off1].
  bind_inv E u6 Eu6; apply verify_Some, Z.eqb_eq in Eu6.
  apply L2_scatter_counts in Est; apply L2_count_counts in E1.
  apply verify_Some in Eu3.
  assert (C1 : zlen (filter (face_selected_L2 ty) (faces fs))
               = GetNFbyType fs ty) by lia.
  assert (C2 : zlen (filter (face_selected ty) (faces fs))
               = GetNFbyType fs ty) by lia.
  split; [destruct o; [reflexivity || discriminate ..]|].
  split; [exact C1|]; split; [exact C2|].
  apply Forall_forall; intros fi Hin [He Hi].
  unfold zlen in C1, C2; destruct ty.
  - assert (A : face_selected_L2 Interior fi = face_selected Interior fi).
    { apply (filter_agree (face_selected_L2 Interior) (face_selected Interior)
               (faces fs)); auto; [|lia].
      intros a; unfold face_selected_L2, face_selected; intros ->; reflexivity. }
    unfold face_selected_L2, face_selected in A.
    destruct (Z.geb_spec (e2 fi) 0), (Z.ltb_spec (e2 fi) 0),
             (Z.geb_spec (inf2 fi) 0); cbn in A; try lia; discriminate.
  - assert (A : face_selected Boundary fi = face_selected_L2 Boundary fi).
    { apply (filter_agree (face_selected Boundary) (face_selected_L2 Boundary)
               (faces fs)); auto; [|lia].
      intros a; unfold face_selected_L2, face_selected; intros Ha.
      now apply andb_prop in Ha. }
    unfold face_selected_L2, face_selected in A.
    destruct (Z.ltb_spec (e2 fi) 0), (Z.ltb_spec (inf2 fi) 0);
      cbn in A; try lia; discriminate.
Qed.

Lemma L2_new_accepts_witness :
  BasisSupported l2quad_faces = true /\ Conforming l2quad_faces = true /\
  (GetNFbyType l2quad_faces Boundary <> 0 ->
   LEXICOGRAPHIC = LEXICOGRAPHIC /\
   zlen (filter (face_selected_L2 Boundary) (faces l2quad_faces))
   = GetNFbyType l2quad_faces Boundary /\
   zlen (filter (face_selected Boundary) (faces l2quad_faces))
   = GetNFbyType l2quad_faces Boundary /\
   Forall (fun fi => ~ (e2 fi < 0 /\ 0 <= inf2 fi)) (faces l2quad_faces)).
Proof.
  apply (L2_new_accepts l2_stale l2quad_faces LEXICOGRAPHIC Boundary
           DoubleValued (l2quad_boundary l2_stale)).
  vm_compute; reflexivity.
Defined.

(** ** Discontinuous face restriction: scatter arrays and [Mult] *)

Section L2Scatter.
Variables (fs : FaceSpace) (o : ElementDofOrdering)
  (ty : FaceType) (mode : L2FaceValues).

Local Abbreviation table := (GetElementToDofTable (fes fs)).

Lemma L2_scatter_face_built dof fi f_ind fm s1 s2 f_ind' fm' s1' s2' :
  L2Face.scatter_face fs o ty mode dof fi (f_ind, fm, (s1, s2))
  = Some (f_ind', fm', (s1', s2')) ->
  0 <= f_ind -> l2_scatter_built table ty mode s1 s2 (dof * f_ind) ->
  0 <= f_ind' /\ l2_scatter_built table ty mode s1' s2' (dof * f_ind').
Proof.
  intros E Hf HB; unfold L2Face.scatter_face in E.
  bind_inv E fm1 Efm.
  destruct (face_selected_L2 ty fi) eqn:Hsel.
  - bind_inv E t1 E1; bind_inv E t2 E2; inversion E; subst; clear E.
    apply (forZ_fill_keeps (fun g => In g table)) in E1 as (L1 & K1 & N1).
    2:{ intros d s v Ev; unfold L2Face.gid1 in Ev.
        bind_inv Ev did Ed; eapply rd_In; eauto. }
    split; [lia|]; intros lid Hl; split.
    + destruct (Z_lt_ge_dec lid (dof * f_ind)) as [Hlt|Hge].
      * rewrite K1 by assumption; apply HB; lia.
      * apply N1; nia.
    + intros ->; cbn [L2Face.double_valued] in E2.
      rewrite forZ_0 in E2.
      rewrite (foldM_ext_in _
        (fun d s =>
           v <- (match ty with
                 | Interior => L2Face.gid2 fs (snd fm') fi d
                 | Boundary => Some (-1)
                 end) ;;
           wr s (dof * f_ind + d) v)) in E2.
      2:{ intros d s _; unfold L2Face.interior_face, L2Face.boundary_face.
          destruct ty; cbn [face_selected_L2] in Hsel; rewrite Hsel;
            reflexivity. }
      rewrite <- forZ_0 in E2.
      apply (forZ_fill_keeps
               (fun g => match ty with
                         | Interior => In g table
                         | Boundary => g = -1
                         end)) in E2 as (L2 & K2 & N2).
      2:{ intros d s v Ev; destruct ty.
          - unfold L2Face.gid2 in Ev; bind_inv Ev pd Ep; bind_inv Ev did Ed.
            eapply rd_In; eauto.
          - now injection Ev as <-. }
      destruct (Z_lt_ge_dec lid (dof * f_ind)) as [Hlt|Hge].
      * rewrite K2 by assumption; apply HB; auto; lia.
      * apply N2; nia.
  - inversion E; subst; auto.
Qed.

Lemma L2_scatter_built dof l :
  forall f_ind fm s1 s2 f_ind' fm' s1' s2',
  foldM (L2Face.scatter_face fs o ty mode dof) l
    (f_ind, fm, (s1, s2)) = Some (f_ind', fm', (s1', s2')) ->
  0 <= f_ind -> l2_scatter_built table ty mode s1 s2 (dof * f_ind) ->
  0 <= f_ind' /\ l2_scatter_built table ty mode s1' s2' (dof * f_ind').
Proof.
  induction l as [|fi l IH]; intros f_ind fm s1 s2 f_ind' fm' s1' s2' E Hf HB.
  - inversion E; subst; auto.
  - cbn [foldM] in E; bind_inv E st Est.
    destruct st as [[f1 fm1] [t1 t2]].
    apply L2_scatter_face_built in Est as (Hf1 & HB1); auto.
    apply IH in E; auto.
Qed.

(** The scatter arrays of a constructed restriction. *)
Lemma L2_new_scatter mem r :
  L2Face.new mem fs o ty mode = Some r ->
  0 <= L2Face.nf r /\
  L2Face.nfdofs r = L2Face.nf r * L2Face.dof r /\
  L2Face.m r = mode /\
  L2Face.ndofs r = GetNDofs (fes fs) /\
  l2_scatter_built table ty mode (L2Face.scatter_indices1 r)
    (L2Face.scatter_indices2 r) (L2Face.nfdofs r).
Proof.
  intros E; unfold L2Face.new in E.
  bind_inv E dm Edm; bind_inv E u1 Eu1; bind_inv E u2 Eu2.
  destruct (Z.eqb_spec (GetNFbyType fs ty) 0) as [Hnf|Hnf].
  - inversion E; subst; cbn.
    rewrite Hnf; repeat split; try lia; intros; lia.
  - bind_inv E u3 Eu3; bind_inv E u4 Eu4.
    bind_inv E st Est; destruct st as [[f_ind fm] [s1 s2]].
    bind_inv E u5 Eu5; apply verify_Some, Z.eqb_eq in Eu5; subst f_ind.
    apply L2_scatter_built in Est as (Hf & HB);
      [|lia|intros lid Hl; lia].
    bind_inv E off0 E0; bind_inv E st1 E1; destruct st1 as [[f1 fm1] off1].
    bind_inv E u6 Eu6; bind_inv E off2 E2.
    bind_inv E st3 E3; destruct st3 as [[f3 fm3] og3].
    bind_inv E u7 Eu7; bind_inv E off4 E4; bind_inv E off5 E5.
    inversion E; subst; cbn.
    repeat split; auto.
    all: rewrite Z.mul_comm in HB; apply HB; assumption.
Qed.

End L2Scatter.

(** X15: for a single-valued [L2FaceRestriction] constructed over a space
    whose element-to-dof table holds dofs of the space, [Mult] returns; the
    local entry of slot [d], component [c] of face [f] is the global entry
    of the dof [scatter_indices1[dof*f+d]]; every local entry is
    overwritten, so the result does not depend on the content of the output
    buffer. *)
Theorem L2_Mult_single_valued {V : Type} `{Scalar V}
  mem fs o ty r (x y0 : list V) :
  L2Face.new mem fs o ty SingleValued = Some r ->
  Forall (fun g => 0 <= g < GetNDofs (fes fs)) (GetElementToDofTable (fes fs)) ->
  0 <= L2Face.vdim r ->
  zlen x = L2Face.vdim r * L2Face.ndofs r ->
  zlen y0 = L2Face.dof r * L2Face.vdim r * L2Face.nf r ->
  exists y,
    L2Face.Mult r x y0 = Some y /\ zlen y = zlen y0 /\
    (forall f d c,
       0 <= f < L2Face.nf r -> 0 <= d < L2Face.dof r -> 0 <= c < L2Face.vdim r ->
       exists g,
         rd (L2Face.scatter_indices1 r) (L2Face.dof r * f + d) = Some g /\
         0 <= g < L2Face.ndofs r /\
         rd y (ix3 (L2Face.dof r) (L2Face.vdim r) d c f) =
         rd x (gix (L2Face.byvdim r) (L2Face.vdim r) (L2Face.ndofs r) g c)) /\
    (forall y1, zlen y1 = zlen y0 -> L2Face.Mult r x y1 = Some y).
Proof.
  intros E Htab Hvd Hx Hy.
  destruct (L2_new_scatter fs o ty SingleValued mem r E)
    as (Hnf & Enfd & Em & End & HB).
  set (nd := L2Face.dof r) in *; set (vd := L2Face.vdim r) in *.
  set (nn := L2Face.ndofs r) in *; set (nf := L2Face.nf r) in *.
  set (keys := L2Face.scatter_indices1 r) in *.
  rewrite Enfd in HB.
  pose (S := fun i c => gix (L2Face.byvdim r) vd nn (nth (Z.to_nat i) keys 0) c).
  pose (T := fun i c => ix3 nd vd (Z.rem i nd) c (Z.quot i nd)).
  assert (Hkey : forall i, 0 <= i < nf * nd ->
            rd keys i = Some (nth (Z.to_nat i) keys 0) /\
            0 <= nth (Z.to_nat i) keys 0 < nn).
  { intros i Hi; destruct (HB i Hi) as ((g & Rg & Hg) & _).
    rewrite Forall_forall in Htab; apply Htab in Hg.
    pose proof (rd_Some_range _ _ _ Rg) as Hr.
    pose proof (rd_nth keys i 0 Hr) as Rn; rewrite Rg in Rn.
    injection Rn as <-; split; [exact Rg|].
    rewrite End; exact Hg. }
  assert (EM : forall y1,
            L2Face.Mult r x y1 =
            forZ 0 (nf * nd) (fun i y =>
              forZ 0 vd (fun c y => v <- rd x (S i c) ;; wr y (T i c) v) y) y1).
  { intros y1; unfold L2Face.Mult; rewrite Em; cbn [L2Face.double_valued].
    fold nd vd nn keys; rewrite Enfd.
    rewrite !forZ_0; apply foldM_ext_in; intros i y Hi; apply in_zseq in Hi.
    destruct (Hkey i Hi) as [-> _]; reflexivity. }
  assert (HS : forall i c, 0 <= i < nf * nd -> 0 <= c < vd ->
                 0 <= S i c < zlen x).
  { intros i c Hi Hc; unfold S; rewrite Hx.
    apply gix_range; auto; now apply Hkey. }
  assert (HT : forall (y1 : list V), zlen y1 = zlen y0 ->
                 forall i c, 0 <= i < nf * nd -> 0 <= c < vd ->
                 0 <= T i c < zlen y1).
  { intros y1 Hl i c Hi Hc; rewrite Hl, Hy; now apply slot_target_range. }
  assert (TI : forall i c i' c', 0 <= i < nf * nd -> 0 <= c < vd ->
                 0 <= i' < nf * nd -> 0 <= c' < vd ->
                 T i c = T i' c' -> i = i' /\ c = c').
  { intros i c i' c' Hi Hc Hi' Hc'; now apply (slot_target_inj nd vd nf). }
  destruct (copy_loops (nf * nd) vd S T x y0 HS (HT y0 eq_refl) TI)
    as (y & Ey & Hl & Hin & _).
  exists y; rewrite EM; split; [exact Ey|]; split; [exact Hl|]; split.
  - intros f d c Hf Hd Hc.
    assert (Hi : 0 <= nd * f + d < nf * nd) by nia.
    destruct (Hkey _ Hi) as [Rk Hg].
    exists (nth (Z.to_nat (nd * f + d)) keys 0); split; [exact Rk|].
    split; [exact Hg|].
    specialize (Hin (nd * f + d) c Hi Hc); unfold T, S in Hin.
    destruct (flat_index_quot_rem nd f d) as [Eq Er]; try lia.
    now rewrite Eq, Er in Hin.
  - intros y1 Hl1; rewrite EM.
    destruct (copy_loops (nf * nd) vd S T x y1 HS (HT y1 Hl1) TI)
      as (y' & Ey' & Hl' & Hin' & _).
    rewrite Ey'; f_equal; apply rd_ext; [lia|].
    intros t Ht.
    assert (Hnd : 0 <= nd).
    { destruct (Z.le_gt_cases 0 nd); auto.
      rewrite Hl', Hl1, Hy in Ht; nia. }
    destruct (slot_target_onto nd vd nf t) as (i & c & Hi & Hc & Et); auto;
      [lia|].
    rewrite <- Et; fold (T i c); rewrite Hin, Hin'; auto.
Qed.

Lemma L2_Mult_single_valued_witness :
  exists y,
    L2Face.Mult l2pair_boundary [10; 11; 12; 13; 14; 15; 16; 17] (alloc 12 0)
    = Some y /\
    zlen y = zlen (alloc 12 0 : list Z) /\
    (forall f d c,
       0 <= f < 6 -> 0 <= d < 2 -> 0 <= c < 1 ->
       exists g,
         rd (L2Face.scatter_indices1 l2pair_boundary) (2 * f + d) = Some g /\
         0 <= g < 8 /\
         rd y (ix3 2 1 d c f) =
         rd [10; 11; 12; 13; 14; 15; 16; 17] (gix false 1 8 g c)) /\
    (forall y1, zlen y1 = zlen (alloc 12 0 : list Z) ->
       L2Face.Mult l2pair_boundary [10; 11; 12; 13; 14; 15; 16; 17] y1 = Some y).
Proof.
  apply (L2_Mult_single_valued l2_stale l2pair_faces LEXICOGRAPHIC Boundary
           l2pair_boundary [10; 11; 12; 13; 14; 15; 16; 17] (alloc 12 0)).
  - vm_compute; reflexivity.
  - cbn; repeat constructor; lia.
  - cbn; lia.
  - reflexivity.
  - reflexivity.
Defined.

(** X16: for a double-valued [L2FaceRestriction] constructed over interior
    faces of a space whose element-to-dof table holds dofs of the space,
    neither scatter array holds the sentinel, and [Mult] returns with, for
    slot [d] and component [c] of face [f], the global entry of
    [scatter_indices1[dof*f+d]] on side 0 and the global entry of
    [scatter_indices2[dof*f+d]] on side 1. *)
Theorem L2_Mult_interior {V : Type} `{Scalar V}
  mem fs o r (x y0 : list V) :
  L2Face.new mem fs o Interior DoubleValued = Some r ->
  Forall (fun g => 0 <= g < GetNDofs (fes fs)) (GetElementToDofTable (fes fs)) ->
  0 <= L2Face.vdim r ->
  zlen x = L2Face.vdim r * L2Face.ndofs r ->
  zlen y0 = L2Face.dof r * L2Face.vdim r * 2 * L2Face.nf r ->
  exists y,
    L2Face.Mult r x y0 = Some y /\ zlen y = zlen y0 /\
    forall f d c,
      0 <= f < L2Face.nf r -> 0 <= d < L2Face.dof r -> 0 <= c < L2Face.vdim r ->
      exists g1 g2,
        rd (L2Face.scatter_indices1 r) (L2Face.dof r * f + d) = Some g1 /\
        rd (L2Face.scatter_indices2 r) (L2Face.dof r * f + d) = Some g2 /\
        0 <= g1 < L2Face.ndofs r /\ 0 <= g2 < L2Face.ndofs r /\
        rd y (ix4 (L2Face.dof r) (L2Face.vdim r) 2 d c 0 f) =
        rd x (gix (L2Face.byvdim r) (L2Face.vdim r) (L2Face.ndofs r) g1 c) /\
        rd y (ix4 (L2Face.dof r) (L2Face.vdim r) 2 d c 1 f) =
        rd x (gix (L2Face.byvdim r) (L2Face.vdim r) (L2Face.ndofs r) g2 c).
Proof.
  intros E Htab Hvd Hx Hy.
  destruct (L2_new_scatter fs o Interior DoubleValued mem r E)
    as (Hnf & Enfd & Em & End & HB).
  rewrite Enfd in HB; rewrite Forall_forall in Htab.
  set (nd := L2Face.dof r) in *; set (vd := L2Face.vdim r) in *.
  set (nn := L2Face.ndofs r) in *.
  set (T := fun side i c => ix4 nd vd 2 (Z.rem i nd) c side (Z.quot i nd)).
  set (G := gix (L2Face.byvdim r) vd nn).
  assert (HK : forall i, 0 <= i < L2Face.nf r * nd ->
            exists g1 g2,
              rd (L2Face.scatter_indices1 r) i = Some g1 /\
              rd (L2Face.scatter_indices2 r) i = Some g2 /\
              0 <= g1 < nn /\ 0 <= g2 < nn).
  { intros i Hi; destruct (HB i Hi) as ((g1 & R1 & H1) & H2).
    destruct (H2 eq_refl) as (g2 & R2 & H2').
    exists g1, g2; rewrite End; auto. }
  assert (TR : forall side i c, 0 <= side < 2 -> 0 <= i < L2Face.nf r * nd ->
                 0 <= c < vd -> 0 <= T side i c < zlen y0).
  { intros side i c Hs Hi Hc; unfold T; rewrite Hy.
    destruct (slot_quot_rem nd (L2Face.nf r) i Hnf Hi) as (? & ? & ? & _).
    apply ix4_range; lia. }
  assert (TI : forall side i c side' i' c',
                 0 <= side < 2 -> 0 <= i < L2Face.nf r * nd -> 0 <= c < vd ->
                 0 <= side' < 2 -> 0 <= i' < L2Face.nf r * nd -> 0 <= c' < vd ->
                 T side i c = T side' i' c' -> side = side' /\ i = i' /\ c = c').
  { intros side i c side' i' c' Hs Hi Hc Hs' Hi' Hc' ET; unfold T in ET.
    destruct (slot_quot_rem nd (L2Face.nf r) i Hnf Hi) as (? & ? & ? & Ei).
    destruct (slot_quot_rem nd (L2Face.nf r) i' Hnf Hi') as (? & ? & ? & Ei').
    apply ix4_inj in ET as (E1 & E2 & E3 & E4); [|lia..].
    repeat split; auto.
    rewrite <- Ei, <- Ei', E1, E4; reflexivity. }
  assert (Main : exists y,
            L2Face.Mult r x y0 = Some y /\ zlen y = zlen y0 /\
            forall i c, 0 <= i < L2Face.nf r * nd -> 0 <= c < vd ->
              forall g1 g2,
                rd (L2Face.scatter_indices1 r) i = Some g1 ->
                rd (L2Face.scatter_indices2 r) i = Some g2 ->
                rd y (T 0 i c) = rd x (G g1 c) /\
                rd y (T 1 i c) = rd x (G g2 c)).
  { unfold L2Face.Mult; rewrite Em, Enfd; cbn [L2Face.double_valued].
    fold nd; fold vd; fold nn; fold G.
    destruct (Z_le_gt_dec 0 (L2Face.nf r * nd)) as [Hpos|Hneg].
    2:{ rewrite forZ_empty by lia; exists y0; repeat split; auto; intros; lia. }
    destruct (forZ_inv
      (fun i y => zlen y = zlen y0 /\
                  forall i' c, 0 <= i' < i -> 0 <= c < vd ->
                    forall g1 g2,
                      rd (L2Face.scatter_indices1 r) i' = Some g1 ->
                      rd (L2Face.scatter_indices2 r) i' = Some g2 ->
                      rd y (T 0 i' c) = rd x (G g1 c) /\
                      rd y (T 1 i' c) = rd x (G g2 c))
      0 (L2Face.nf r * nd)) with (s := y0) (body := fun i y =>
        idx1 <- rd (L2Face.scatter_indices1 r) i ;;
        y1 <- forZ 0 vd (fun c y =>
                v <- rd x (G idx1 c) ;;
                wr y (ix4 nd vd 2 (Z.rem i nd) c 0 (Z.quot i nd)) v) y ;;
        idx2 <- rd (L2Face.scatter_indices2 r) i ;;
        forZ 0 vd (fun c y =>
          v <- (if idx2 =? -1 then Some szero else rd x (G idx2 c)) ;;
          wr y (ix4 nd vd 2 (Z.rem i nd) c 1 (Z.quot i nd)) v) y1)
      as (y & Ey & Hl & Hz); auto.
    - split; auto; intros; lia.
    - intros i s Hi (Hl & Hz).
      destruct (HK i Hi) as (g1 & g2 & R1 & R2 & H1 & H2).
      rewrite R1, R2; cbn [obind].
      assert (RX : forall g c, 0 <= g < nn -> 0 <= c < vd ->
                rd x (G g c) = Some (nth (Z.to_nat (G g c)) x szero)).
      { intros g c Hg Hc; apply rd_nth; rewrite Hx; unfold G.
        apply gix_range; auto. }
      destruct (store_loop vd (T 0 i) (fun c => rd x (G g1 c))
                  (fun c => nth (Z.to_nat (G g1 c)) x szero) s)
        as (y1 & E1 & L1 & I1 & O1).
      { intros c Hc; now apply RX. }
      { intros c Hc; rewrite Hl; apply TR; auto; lia. }
      { intros c c' Hc Hc' ET; apply TI in ET; auto; lia. }
      unfold T in E1 at 1; rewrite E1; cbn [obind].
      destruct (Z.eqb_spec g2 (-1)) as [Hs|_]; [lia|].
      destruct (store_loop vd (T 1 i) (fun c => rd x (G g2 c))
                  (fun c => nth (Z.to_nat (G g2 c)) x szero) y1)
        as (y2 & E2 & L2 & I2 & O2).
      { intros c Hc; now apply RX. }
      { intros c Hc; rewrite L1, Hl; apply TR; auto; lia. }
      { intros c c' Hc Hc' ET; apply TI in ET; auto; lia. }
      unfold T in E2 at 1; rewrite E2.
      exists y2; split; auto; split; [lia|].
      intros i' c Hi' Hc g1' g2' R1' R2'.
      destruct (Z.eq_dec i' i) as [->|Hne].
      + rewrite R1 in R1'; rewrite R2 in R2'.
        injection R1' as <-; injection R2' as <-.
        rewrite I2, !RX by assumption; split; [|reflexivity].
        rewrite O2, I1; auto.
        intros c' Hc' ET; apply TI in ET; auto; lia.
      + rewrite !O2, !O1; [apply Hz; auto; lia|..];
          intros c' Hc' ET; apply TI in ET; auto; lia.
    - exists y; split; [exact Ey|]; split; [exact Hl|exact Hz]. }
  destruct Main as (y & Ey & Hl & Hz).
  exists y; split; [exact Ey|]; split; [exact Hl|].
  intros f d c Hf Hd Hc.
  assert (Hi : 0 <= nd * f + d < L2Face.nf r * nd) by nia.
  destruct (HK _ Hi) as (g1 & g2 & R1 & R2 & H1 & H2).
  exists g1, g2; repeat split; auto; try lia.
  all: destruct (Hz (nd * f + d) c Hi Hc g1 g2 R1 R2) as [Z0 Z1];
    unfold T in Z0, Z1;
    destruct (flat_index_quot_rem nd f d) as [Eq Er]; try lia;
    rewrite Eq, Er in Z0, Z1; assumption.
Qed.

Lemma L2_Mult_interior_witness :
  exists y,
    L2Face.Mult l2pair_interior [10; 11; 12; 13; 14; 15; 16; 17] (alloc 4 0)
    = Some y /\
    zlen y = zlen (alloc 4 0 : list Z) /\
    forall f d c,
      0 <= f < 1 -> 0 <= d < 2 -> 0 <= c < 1 ->
      exists g1 g2,
        rd (L2Face.scatter_indices1 l2pair_interior) (2 * f + d) = Some g1 /\
        rd (L2Face.scatter_indices2 l2pair_interior) (2 * f + d) = Some g2 /\
        0 <= g1 < 8 /\ 0 <= g2 < 8 /\
        rd y (ix4 2 1 2 d c 0 f) =
        rd [10; 11; 12; 13; 14; 15; 16; 17] (gix false 1 8 g1 c) /\
        rd y (ix4 2 1 2 d c 1 f) =
        rd [10; 11; 12; 13; 14; 15; 16; 17] (gix false 1 8 g2 c).
Proof.
  apply (L2_Mult_interior l2_stale l2pair_faces LEXICOGRAPHIC l2pair_interior
           [10; 11; 12; 13; 14; 15; 16; 17] (alloc 4 0)).
  - vm_compute; reflexivity.
  - cbn; repeat constructor; lia.
  - cbn; lia.
  - reflexivity.
  - reflexivity.
Defined.

(** ** The boolean mask *)

Section MaskSpec.
Context {V : Type} `{Scalar V}.
Variables (one : V) (r : ElementRestriction) (off idx : Z -> Z).

Local Abbreviation nd := (dof r).
Local Abbreviation vd := (vdim r).
Local Abbreviation nn := (ndofs r).
Local Abbreviation N := (ne r * dof r).
Local Abbreviation P := (gix (byvdim r) (vdim r) (ndofs r)).
Local Abbreviation T :=
  (fun k c : Z => ix3 (dof r) (vdim r) (Z.rem k (dof r)) c (Z.quot k (dof r))).

Hypothesis Hne : 0 <= ne r.
Hypothesis Hvd : 0 <= vd.
Hypothesis Hnn : 0 <= nn.
Hypothesis Hoff : forall g, 0 <= g <= nn -> rd (offsets r) g = Some (off g).
Hypothesis Hmono : forall g g', 0 <= g <= g' -> g' <= nn -> off g <= off g'.
Hypothesis Hlo : 0 <= off 0.
Hypothesis Hhi : off nn <= N.
Hypothesis Hidx : forall j, 0 <= j < N ->
  rd (indices r) j = Some (idx j) /\ 0 <= idx j < N.
Hypothesis Hinj : forall j j', 0 <= j < N -> 0 <= j' < N ->
  idx j = idx j' -> j = j'.

Lemma mask_bucket_range g j :
  0 <= g < nn -> off g <= j < off (g + 1) -> 0 <= j < N.
Proof.
  intros Hg Hj.
  pose proof (Hmono 0 g ltac:(lia) ltac:(lia)).
  pose proof (Hmono (g + 1) nn ltac:(lia) ltac:(lia)); lia.
Qed.

(** Targets of different bucket positions or components differ. *)
Lemma mask_target_inj j c j' c' :
  0 <= j < N -> 0 <= c < vd -> 0 <= j' < N -> 0 <= c' < vd ->
  T (idx j) c = T (idx j') c' -> j = j' /\ c = c'.
Proof.
  intros Hj Hc Hj' Hc' E.
  destruct (Hidx j Hj) as [_ Hk]; destruct (Hidx j' Hj') as [_ Hk'].
  apply (slot_target_inj nd vd (ne r)) in E as [Ek Ec]; auto.
Qed.

Lemma mask_target_range j c :
  0 <= j < N -> 0 <= c < vd -> 0 <= T (idx j) c < nd * vd * ne r.
Proof.
  intros Hj Hc; destruct (Hidx j Hj) as [_ Hk].
  now apply slot_target_range.
Qed.

(** The loop over one bucket, for the component [c] of the dof [i]. *)
Lemma mask_bucket_pass (y0 : list V) i c (st : list Z * list V) :
  0 <= i < nn -> 0 <= c < vd ->
  zlen (fst st) = vd * nn -> zlen (snd st) = nd * vd * ne r ->
  rd (fst st) (P i c) = Some 0 ->
  exists st',
    forZ (off i) (off (i + 1)) (mask_slot one r i c) st = Some st' /\
    zlen (fst st') = vd * nn /\ zlen (snd st') = nd * vd * ne r /\
    (forall t, t <> P i c -> rd (fst st') t = rd (fst st) t) /\
    (forall j, off i <= j < off (i + 1) ->
       rd (snd st') (T (idx j) c) = Some (mask_value one (off i) j)) /\
    (forall t, (forall j, off i <= j < off (i + 1) -> t <> T (idx j) c) ->
       rd (snd st') t = rd (snd st) t).
Proof.
  intros Hi Hc Lp Ly Hp.
  pose proof (Hmono i (i + 1) ltac:(lia) ltac:(lia)) as Hle.
  destruct (forZ_inv
    (fun j s =>
       zlen (fst s) = vd * nn /\ zlen (snd s) = nd * vd * ne r /\
       (forall t, t <> P i c -> rd (fst s) t = rd (fst st) t) /\
       rd (fst s) (P i c) = Some (if j =? off i then 0 else 1) /\
       (forall j', off i <= j' < j ->
          rd (snd s) (T (idx j') c) = Some (mask_value one (off i) j')) /\
       (forall t, (forall j', off i <= j' < j -> t <> T (idx j') c) ->
          rd (snd s) t = rd (snd st) t))
    (off i) (off (i + 1)) (mask_slot one r i c) st Hle)
    as (st' & E & L1 & L2 & K1 & _ & D & K2).
  - rewrite Z.eqb_refl; repeat split; auto; intros; lia.
  - intros j [p y] Hj (L1 & L2 & K1 & Rp & D & K2); cbn [fst snd] in *.
    assert (HjN : 0 <= j < N) by (apply (mask_bucket_range i); lia).
    destruct (Hidx j HjN) as [Rj Hk].
    pose proof (mask_target_range j c HjN Hc) as HT.
    unfold mask_slot; cbn [fst snd]; rewrite Rj, Rp; cbn [obind].
    assert (Old : forall y' v, wr y (T (idx j) c) v = Some y' ->
              (forall j', off i <= j' < j ->
                 rd y' (T (idx j') c) = Some (mask_value one (off i) j')) /\
              (forall t, (forall j', off i <= j' < j + 1 -> t <> T (idx j') c) ->
                 rd y' t = rd (snd st) t)).
    { intros y' v Ew; split.
      - intros j' Hj'.
        rewrite (wr_rd_other _ _ _ _ _ Ew); [apply D; lia|].
        intros ET; apply mask_target_inj in ET as [Ej _]; auto; try lia.
        apply (mask_bucket_range i); lia.
      - intros t Ht.
        rewrite (wr_rd_other _ _ _ _ _ Ew);
          [apply K2; intros; apply Ht; lia|].
        intros ET; apply (Ht j); auto; lia. }
    destruct (Z.eqb_spec j (off i)) as [Ej|Ej]; cbn [Z.eqb negb].
    + rewrite (wr_in_range y _ one) by lia; cbn [obind].
      rewrite (wr_in_range p _ 1)
        by (rewrite L1; apply gix_range; auto); cbn [obind].
      eexists; split; [reflexivity|]; cbn [fst snd].
      destruct (Old _ one (wr_in_range y (T (idx j) c) one ltac:(lia)))
        as [D' K2'].
      rewrite !zlen_upd; repeat split; auto.
      * intros t Ht; rewrite rd_upd_other; [apply K1; auto| |auto].
        pose proof (gix_range (byvdim r) vd nn i c Hi Hc); lia.
      * destruct (Z.eqb_spec (j + 1) (off i)); [lia|].
        apply rd_upd_same; rewrite L1; apply gix_range; auto.
      * intros j' Hj'.
        destruct (Z.eq_dec j' j) as [->|Hjj]; [|apply D'; lia].
        rewrite rd_upd_same by lia.
        unfold mask_value; now rewrite Ej, Z.eqb_refl.
    + rewrite (wr_in_range y _ szero) by lia; cbn [obind].
      eexists; split; [reflexivity|]; cbn [fst snd].
      destruct (Old _ szero (wr_in_range y (T (idx j) c) szero ltac:(lia)))
        as [D' K2'].
      rewrite !zlen_upd; repeat split; auto.
      * rewrite Rp; destruct (Z.eqb_spec (j + 1) (off i)); [lia|reflexivity].
      * intros j' Hj'.
        destruct (Z.eq_dec j' j) as [->|Hjj]; [|apply D'; lia].
        rewrite rd_upd_same by lia.
        unfold mask_value; destruct (Z.eqb_spec j (off i)); [lia|reflexivity].
  - exists st'; repeat split; auto.
Qed.

(** [BooleanMask] stores the unit at the first slot of every bucket and
    zero at the other slots, for every component. *)
Lemma BooleanMask_values (y0 : list V) :
  zlen y0 = nd * vd * ne r ->
  exists y,
    BooleanMask one r y0 = Some y /\ zlen y = zlen y0 /\
    forall g c j, 0 <= g < nn -> 0 <= c < vd -> off g <= j < off (g + 1) ->
      rd y (T (idx j) c) = Some (mask_value one (off g) j).
Proof.
  intros Ly.
  set (Inv := fun (i c : Z) (st : list Z * list V) =>
    zlen (fst st) = vd * nn /\ zlen (snd st) = nd * vd * ne r /\
    (forall g c', 0 <= g < nn -> 0 <= c' < vd -> ~ mask_before g c' i c ->
       rd (fst st) (P g c') = Some 0) /\
    (forall g c' j, 0 <= g < nn -> 0 <= c' < vd -> mask_before g c' i c ->
       off g <= j < off (g + 1) ->
       rd (snd st) (T (idx j) c') = Some (mask_value one (off g) j))).
  assert (Mid : forall i st, 0 <= i < nn -> Inv i 0 st ->
            exists st',
              forZ 0 vd (fun c st =>
                forZ (off i) (off (i + 1)) (mask_slot one r i c) st) st
              = Some st' /\ Inv i vd st').
  { intros i st Hi HI.
    apply (forZ_inv (fun c s => Inv i c s)); auto.
    intros c s Hc (L1 & L2 & Zp & Dn).
    destruct (mask_bucket_pass y0 i c s Hi Hc L1 L2) as
      (s' & E & L1' & L2' & K1 & D & K2).
    { apply Zp; auto; unfold mask_before; lia. }
    exists s'; split; [exact E|]; split; [exact L1'|]; split; [exact L2'|].
    split.
    - intros g c' Hg Hc' Hb.
      rewrite K1; [apply Zp; auto; unfold mask_before in *; lia|].
      intros EP; apply gix_inj in EP; auto.
      unfold mask_before in Hb; lia.
    - intros g c' j Hg Hc' Hb Hj.
      destruct (Z.eq_dec g i) as [->|Hgi];
        [destruct (Z.eq_dec c' c) as [->|Hcc]|]; [now apply D| |].
      + rewrite K2; [apply Dn; auto; unfold mask_before in *; lia|].
        intros j' Hj' ET; apply mask_target_inj in ET as [_ Ec]; auto;
          apply (mask_bucket_range i); auto.
      + rewrite K2; [apply Dn; auto; unfold mask_before in *; lia|].
        intros j' Hj' ET; apply mask_target_inj in ET as [Ej _]; auto;
          [|now apply (mask_bucket_range g)|now apply (mask_bucket_range i)].
        assert (Hlt : g < i) by (unfold mask_before in Hb; lia).
        pose proof (Hmono (g + 1) i ltac:(lia) ltac:(lia)); lia. }
  destruct (forZ_inv (fun i s => Inv i 0 s) 0 nn
    (fun i st =>
       offset <- rd (offsets r) i ;;
       nextOffset <- rd (offsets r) (i + 1) ;;
       forZ 0 vd (fun c st =>
         forZ offset nextOffset (mask_slot one r i c) st) st)
    (alloc (vd * nn) 0, y0) Hnn)
    as (st' & E & L1 & L2 & _ & Dn).
  - unfold Inv; cbn [fst snd]; rewrite zlen_alloc by nia.
    repeat split; auto.
    + intros g c' Hg Hc' _; apply rd_alloc; apply gix_range; auto.
    + intros g c' j Hg Hc' Hb; unfold mask_before in Hb; lia.
  - intros i s Hi HI.
    rewrite (Hoff i), (Hoff (i + 1)) by lia; cbn [obind].
    destruct (Mid i s Hi HI) as (s' & E & L1 & L2 & Zp & Dn).
    exists s'; split; [exact E|]; split; [exact L1|]; split; [exact L2|].
    split.
    + intros g c' Hg Hc' Hb; apply Zp; auto.
      unfold mask_before in *; lia.
    + intros g c' j Hg Hc' Hb; apply Dn; auto.
      unfold mask_before in *; lia.
  - exists (snd st'); unfold BooleanMask; rewrite E; cbn [obind].
    split; [reflexivity|]; split; [lia|].
    intros g c j Hg Hc Hj; apply Dn; auto.
    unfold mask_before; lia.
Qed.

End MaskSpec.

Lemma foldM_each {A St : Type} (body : A -> St -> option St) (l : list A) :
  forall s s', foldM body l s = Some s' ->
  forall a, In a l -> exists s1 s2, body a s1 = Some s2.
Proof.
  induction l as [|a0 l IH]; intros s s' E a Ha; [destruct Ha|].
  cbn [foldM] in E; bind_inv E s1 E1.
  destruct Ha as [<-|Ha]; [eauto|].
  eapply IH; eauto.
Qed.

Lemma forZ_each {St : Type} (lo hi : Z) (body : Z -> St -> option St) (s s' : St) :
  forZ lo hi body s = Some s' ->
  forall i, lo <= i < hi -> exists s1 s2, body i s1 = Some s2.
Proof.
  unfold forZ; intros E i Hi.
  apply (foldM_each body _ s s' E), in_zrange; lia.
Qed.

(** Every position of [indices] lies in the bucket of a dof. *)
Lemma er_position_bucket f o r j :
  wf_space f o -> er_built f o r -> 0 <= j < GetNE f * er_dof f ->
  exists g, 0 <= g < GetNDofs f /\
            below g (er_keys f o) <= j < below (g + 1) (er_keys f o).
Proof.
  intros WF B Hj.
  destruct (pos_onto (GetNDofs f) (er_keys f o) j (er_keys_range f o WF))
    as (k & Hk & E).
  { rewrite (er_keys_length f o WF); lia. }
  exists (nth k (er_keys f o) 0); split.
  - pose proof (er_keys_range f o WF) as Hr.
    rewrite Forall_forall in Hr; apply Hr, nth_In; exact Hk.
  - rewrite <- E; now apply pos_bucket.
Qed.

(** X17: on a constructed restriction of a space without negative dof
    encodings, [BooleanMask] returns and marks one local slot per global
    dof and component: of the slots [indices[j]] of the bucket
    [offsets[g] <= j < offsets[g+1]], the first receives [1.0] and every
    other one [0.0]. *)
Theorem BooleanMask_first_slot {V : Type} `{Scalar V} (one : V) f o r
  (y0 : list V) :
  wf_space f o -> unsigned_space f o ->
  ElementRestriction_new f o = Some r ->
  0 <= vdim r -> zlen y0 = dof r * vdim r * ne r ->
  exists y,
    BooleanMask one r y0 = Some y /\ zlen y = zlen y0 /\
    forall g c, 0 <= g < ndofs r -> 0 <= c < vdim r ->
      exists a b,
        rd (offsets r) g = Some a /\ rd (offsets r) (g + 1) = Some b /\
        forall j, a <= j < b ->
          exists k,
            rd (indices r) j = Some k /\ 0 <= k < ne r * dof r /\
            rd y (ix3 (dof r) (vdim r) (Z.rem k (dof r)) c (Z.quot k (dof r)))
            = Some (if j =? a then one else szero).
Proof.
  intros WF UN E Hvd Hy.
  pose proof (ElementRestriction_new_built f o WF r E) as B.
  pose proof B as (E1 & E2 & E3 & _ & _ & _ & Li & _).
  pose proof WF as (HnE & Hn & _).
  set (keys := er_keys f o).
  set (off := fun g => below g keys).
  set (idx := fun j => nth (Z.to_nat j) (indices r) 0).
  assert (Hidx : forall j, 0 <= j < ne r * dof r ->
            rd (indices r) j = Some (idx j) /\ 0 <= idx j < ne r * dof r /\
            j = pos keys (Z.to_nat (idx j))).
  { intros j Hj; rewrite E1, E3 in Hj |- *.
    destruct (er_indices_rd f o r WF B j Hj) as (k & Hk & Ej & Ev).
    assert (Ek : snd (er_item f o (er_slot f k)) = k).
    { unfold er_item; cbn [snd].
      rewrite (er_plus_unsigned f o r WF UN B).
      now apply er_slot_range with o. }
    rewrite Ek in Ev.
    pose proof (rd_nth (indices r) j 0 ltac:(lia)) as Rn.
    rewrite Ev in Rn; injection Rn as Rn; fold (idx j) in Rn.
    rewrite <- Rn; auto. }
  destruct (BooleanMask_values one r off idx) with (y0 := y0)
    as (y & Ey & Hl & Hv); try lia.
  - intros g Hg; rewrite E2 in Hg; apply (er_offsets_rd f o r B); lia.
  - intros g g' Hg Hg'; now apply below_mono.
  - apply below_nonneg.
  - unfold off, keys; rewrite E1, E2, E3, (er_offsets_last f o WF); lia.
  - intros j Hj; destruct (Hidx j Hj) as (R & Hk & _); auto.
  - intros j j' Hj Hj' Eq.
    destruct (Hidx j Hj) as (_ & _ & ->).
    destruct (Hidx j' Hj') as (_ & _ & ->).
    now rewrite Eq.
  - exists y; split; [exact Ey|]; split; [exact Hl|].
    intros g c Hg Hc; exists (off g), (off (g + 1)).
    rewrite E2 in Hg.
    split; [apply (er_offsets_rd f o r B); lia|].
    split; [apply (er_offsets_rd f o r B); lia|].
    intros j Hj.
    assert (HjN : 0 <= j < ne r * dof r).
    { rewrite E1, E3.
      pose proof (below_nonneg g keys).
      pose proof (below_mono (g + 1) (GetNDofs f) keys ltac:(lia)) as Hm.
      unfold keys in Hm; rewrite (er_offsets_last f o WF) in Hm.
      unfold off in Hj; fold keys in Hm; lia. }
    destruct (Hidx j HjN) as (R & Hk & _).
    exists (idx j); split; [exact R|]; split; [exact Hk|].
    rewrite (Hv g c j); auto; lia.
Qed.

Lemma BooleanMask_first_slot_witness :
  exists y,
    BooleanMask 1 seg2_restriction (alloc 4 7) = Some y /\
    zlen y = zlen (alloc 4 7 : list Z) /\
    forall g c, 0 <= g < 3 -> 0 <= c < 1 ->
      exists a b,
        rd (offsets seg2_restriction) g = Some a /\
        rd (offsets seg2_restriction) (g + 1) = Some b /\
        forall j, a <= j < b ->
          exists k,
            rd (indices seg2_restriction) j = Some k /\ 0 <= k < 2 * 2 /\
            rd y (ix3 2 1 (Z.rem k 2) c (Z.quot k 2))
            = Some (if j =? a then 1 else szero).
Proof.
  apply (BooleanMask_first_slot 1 seg2_space NATIVE seg2_restriction (alloc 4 7)).
  - exact seg2_space_wf.
  - exact seg2_space_unsigned.
  - exact seg2_restriction_built.
  - cbn; lia.
  - reflexivity.
Defined.

(** X18: [BooleanMask] uses the entries of [indices] as they are stored,
    without decoding the sign: when a constructed restriction holds a
    negative entry (a local dof of flipped sign) its store leaves the
    output, for every output buffer. *)
Theorem BooleanMask_negative_index {V : Type} `{Scalar V} (one : V) f o r
  (y0 : list V) (j v : Z) :
  wf_space f o -> ElementRestriction_new f o = Some r ->
  1 <= vdim r -> rd (indices r) j = Some v -> v < 0 ->
  BooleanMask one r y0 = None.
Proof.
  intros WF E Hvd Rj Hv.
  pose proof (ElementRestriction_new_built f o WF r E) as B.
  pose proof B as (E1 & E2 & E3 & _ & _ & _ & Li & _).
  pose proof WF as (HnE & Hn & _).
  pose proof (rd_Some_range _ _ _ Rj) as Hj; rewrite Li in Hj.
  destruct (er_position_bucket f o r j WF B Hj) as (g & Hg & Hb).
  destruct (BooleanMask one r y0) as [y|] eqn:EM; [exfalso|reflexivity].
  unfold BooleanMask in EM; bind_inv EM st Est.
  destruct (forZ_each _ _ _ _ _ Est g ltac:(lia)) as (s1 & s2 & Eg).
  rewrite (er_offsets_rd f o r B g), (er_offsets_rd f o r B (g + 1)) in Eg
    by lia.
  cbn [obind] in Eg.
  destruct (forZ_each _ _ _ _ _ Eg 0 ltac:(lia)) as (s3 & s4 & Ec).
  destruct (forZ_each _ _ _ _ _ Ec j Hb) as (s5 & s6 & Es).
  unfold mask_slot in Es; rewrite Rj in Es; cbn [obind] in Es.
  bind_inv Es p Ep.
  assert (Hnd : 0 < dof r) by (rewrite E3; nia).
  assert (Hix : ix3 (dof r) (vdim r) (Z.rem v (dof r)) 0 (Z.quot v (dof r)) < 0).
  { unfold ix3.
    pose proof (Z.quot_rem' v (dof r)) as Eq.
    assert (Hr : Z.rem v (dof r) <= 0).
    { replace v with (- - v) by lia; rewrite Z.rem_opp_l by lia.
      pose proof (Z.rem_nonneg (- v) (dof r) ltac:(lia) ltac:(lia)); lia. }
    assert (Hq : Z.quot v (dof r) <= 0).
    { replace v with (- - v) by lia; rewrite Z.quot_opp_l by lia.
      pose proof (Z.quot_pos (- v) (dof r) ltac:(lia) ltac:(lia)); lia. }
    nia. }
  destruct (negb (p =? 0)); bind_inv Es y' Ew;
    apply wr_Some in Ew as [Hr _]; lia.
Qed.

Lemma BooleanMask_negative_index_witness :
  BooleanMask 1 signed_restriction (alloc 4 0) = None.
Proof.
  apply (BooleanMask_negative_index 1 signed_space LEXICOGRAPHIC
           signed_restriction (alloc 4 0) 3 (-3)).
  - exact signed_space_wf.
  - exact signed_restriction_built.
  - cbn; lia.
  - reflexivity.
  - lia.
Defined.

(** ** The normal-derivative stencil *)

(** Stores at the images of the pairs [(i, j)] under a one-to-one [T]; the
    other entries are kept. *)
Lemma fill_pairs_pass (d : Z) (T h : Z -> Z -> Z) (fm : list Z) :
  (forall i j, 0 <= i < d -> 0 <= j < d -> 0 <= T i j < zlen fm) ->
  (forall i j i' j', 0 <= i < d -> 0 <= j < d -> 0 <= i' < d -> 0 <= j' < d ->
     T i j = T i' j' -> i = i' /\ j = j') ->
  exists fm1,
    forZ 0 d (fun i fm =>
      forZ 0 d (fun j fm => wr fm (T i j) (h i j)) fm) fm = Some fm1 /\
    zlen fm1 = zlen fm /\
    (forall i j, 0 <= i < d -> 0 <= j < d -> rd fm1 (T i j) = Some (h i j)) /\
    (forall t, (forall i j, 0 <= i < d -> 0 <= j < d -> t <> T i j) ->
       rd fm1 t = rd fm t).
Proof.
  intros HT Hinj.
  pose (G := fun ab : Z * Z => (T (fst ab) (snd ab), h (fst ab) (snd ab))).
  destruct (stores_result (map G (pairs (zseq d) (zseq d)))) with (y0 := fm)
    as (y & Ey & Hy & Hin & Hout).
  { rewrite map_map; cbn [G fst].
    apply Finite.Injective_map_NoDup_in;
      [|apply NoDup_pairs; apply NoDup_zrange].
    intros [i j] [i' j'] Hi Hi' Eq; cbn [fst snd] in Eq.
    apply in_pairs in Hi as [Hi Hj], Hi' as [Hi' Hj'].
    rewrite in_zseq in Hi, Hj, Hi', Hj'.
    apply Hinj in Eq as [-> ->]; auto. }
  { intros s Hs; apply in_map_iff in Hs as ([i j] & <- & Hij).
    apply in_pairs in Hij as [Hi Hj]; rewrite in_zseq in Hi, Hj.
    cbn [G fst snd]; auto. }
  exists y; split; [|split; [exact Hy|split]].
  - rewrite forZ_0.
    rewrite (foldM_ext_in _
      (fun i fm => foldM (fun j fm => wr fm (T i j) (h i j)) (zseq d) fm))
      by (intros; apply forZ_0).
    rewrite (foldM_pairs (fun i j fm => wr fm (T i j) (h i j))).
    rewrite <- Ey, foldM_map; reflexivity.
  - intros i j Hi Hj.
    apply (Hin (G (i, j))), in_map, in_pairs; rewrite !in_zseq; auto.
  - intros t Ht; apply Hout; rewrite map_map; cbn [G fst]; intros Hin'.
    apply in_map_iff in Hin' as ([i j] & Et & Hij).
    apply in_pairs in Hij as [Hi Hj]; rewrite in_zseq in Hi, Hj.
    cbn [fst snd] in Et; apply (Ht i j Hi Hj); auto.
Qed.

(** The two loops of a 2D stencil. *)
Lemma stencil2_pass (d : Z) (h : Z -> Z -> Z) (fm : list Z) :
  0 <= d -> zlen fm = d * d ->
  exists fm1,
    forZ 0 d (fun i fm =>
      forZ 0 d (fun s fm => wr fm (d * i + s) (h i s)) fm) fm = Some fm1 /\
    zlen fm1 = zlen fm /\
    forall i s, 0 <= i < d -> 0 <= s < d -> rd fm1 (d * i + s) = Some (h i s).
Proof.
  intros Hd Hl.
  destruct (fill_pairs_pass d (fun i s => d * i + s) h fm)
    as (fm1 & E & L & Hin & _).
  - intros i s Hi Hs; rewrite Hl; nia.
  - intros i s i' s' Hi Hs Hi' Hs' E.
    assert (E' : s + i * d = s' + i' * d) by lia.
    apply lex_pair_inj in E'; auto; lia.
  - exists fm1; auto.
Qed.

(** The three loops of a 3D stencil. *)
Lemma stencil3_pass (d : Z) (h : Z -> Z -> Z -> Z) (fm : list Z) :
  0 <= d -> zlen fm = d * d * d ->
  exists fm1,
    forZ 0 d (fun i fm =>
      forZ 0 d (fun j fm =>
        forZ 0 d (fun s fm => wr fm (s + i * d + j * d * d) (h i j s)) fm) fm) fm
    = Some fm1 /\
    zlen fm1 = zlen fm /\
    forall i j s, 0 <= i < d -> 0 <= j < d -> 0 <= s < d ->
      rd fm1 (s + i * d + j * d * d) = Some (h i j s).
Proof.
  intros Hd Hl.
  assert (Tinj : forall i j s i' j' s',
            0 <= i < d -> 0 <= s < d -> 0 <= i' < d -> 0 <= s' < d ->
            s + i * d + j * d * d = s' + i' * d + j' * d * d ->
            i = i' /\ j = j' /\ s = s').
  { intros i j s i' j' s' Hi Hs Hi' Hs' E.
    assert (E' : ix3 d d s i j = ix3 d d s' i' j') by (unfold ix3; lia).
    apply ix3_inj in E'; auto; lia. }
  destruct (forZ_inv
    (fun i fm1 => zlen fm1 = zlen fm /\
       forall i' j s, 0 <= i' < i -> 0 <= j < d -> 0 <= s < d ->
         rd fm1 (s + i' * d + j * d * d) = Some (h i' j s))
    0 d
    (fun i fm =>
      forZ 0 d (fun j fm =>
        forZ 0 d (fun s fm => wr fm (s + i * d + j * d * d) (h i j s)) fm) fm)
    fm Hd) as (fm1 & E & L & Hv).
  - split; auto; intros; lia.
  - intros i a Hi (La & Ha).
    destruct (fill_pairs_pass d (fun j s => s + i * d + j * d * d) (h i) a)
      as (a1 & E1 & L1 & Hin & Hout).
    + intros j s Hj Hs; rewrite La, Hl.
      pose proof (ix3_range d d d s i j Hs Hi Hj) as R; unfold ix3 in R; lia.
    + intros j s j' s' Hj Hs Hj' Hs' E.
      apply Tinj in E; auto; lia.
    + exists a1; split; [exact E1|]; split; [lia|].
      intros i' j s Hi' Hj Hs.
      destruct (Z.eq_dec i' i) as [->|Hne]; [now apply Hin|].
      rewrite Hout; [apply Ha; auto; lia|].
      intros j' s' Hj' Hs' E; apply Tinj in E; auto; lia.
  - exists fm1; split; [exact E|]; split; [exact L|].
    intros i j s Hi Hj Hs; apply Hv; auto.
Qed.

(** The stencil entry of face dof [p] at depth [s]. *)
Lemma stencil_entry_range (dim face_id d p s : Z) :
  2 <= dim <= 3 -> 0 <= face_id < 2 * dim -> 1 <= d ->
  0 <= p < d ^ (dim - 1) -> 0 <= s < d ->
  0 <= face_dof_slot dim face_id d p + s * normal_stride dim face_id d < d ^ dim.
Proof.
  intros Hdim Hid Hd Hp Hs.
  assert (Hc : dim = 2 \/ dim = 3) by lia.
  destruct Hc as [-> | ->].
  - change (2 - 1) with 1 in *; rewrite Z.pow_1_r in Hp; rewrite Z.pow_2_r.
    assert (Hi : face_id = 0 \/ face_id = 1 \/ face_id = 2 \/ face_id = 3) by lia.
    destruct Hi as [-> | [-> | [-> | ->]]]; cbn; nia.
  - change (3 - 1) with 2 in *; rewrite Z.pow_2_r in Hp.
    replace (d ^ 3) with (d * d * d) by (cbn; lia).
    destruct (flat_index_split d p d) as (Hq & Hm & Ek); try lia.
    assert (Hi : face_id = 0 \/ face_id = 1 \/ face_id = 2 \/ face_id = 3 \/
                 face_id = 4 \/ face_id = 5) by lia.
    unfold face_dof_slot, normal_stride; cbv zeta.
    set (i := p mod d) in *; set (j := p / d) in *.
    destruct Hi as [-> | [-> | [-> | [-> | [-> | ->]]]]]; cbv iota.
    + pose proof (ix3_range d d d i j s Hm Hq Hs) as R; unfold ix3 in R; lia.
    + pose proof (ix3_range d d d i s j Hm Hs Hq) as R; unfold ix3 in R; lia.
    + pose proof (ix3_range d d d (d - 1 - s) i j ltac:(lia) Hm Hq) as R.
      unfold ix3 in R; lia.
    + pose proof (ix3_range d d d i (d - 1 - s) j Hm ltac:(lia) Hq) as R.
      unfold ix3 in R; lia.
    + pose proof (ix3_range d d d s i j Hs Hm Hq) as R; unfold ix3 in R; lia.
    + pose proof (ix3_range d d d i j (d - 1 - s) Hm Hq ltac:(lia)) as R.
      unfold ix3 in R; lia.
Qed.

Lemma stencil_entry_inj (dim face_id d p s p' s' : Z) :
  2 <= dim <= 3 -> 0 <= face_id < 2 * dim -> 1 <= d ->
  0 <= p < d ^ (dim - 1) -> 0 <= s < d ->
  0 <= p' < d ^ (dim - 1) -> 0 <= s' < d ->
  face_dof_slot dim face_id d p + s * normal_stride dim face_id d =
  face_dof_slot dim face_id d p' + s' * normal_stride dim face_id d ->
  p = p' /\ s = s'.
Proof.
  intros Hdim Hid Hd Hp Hs Hp' Hs'.
  assert (Hc : dim = 2 \/ dim = 3) by lia.
  destruct Hc as [-> | ->].
  - change (2 - 1) with 1 in *; rewrite Z.pow_1_r in *.
    assert (Hi : face_id = 0 \/ face_id = 1 \/ face_id = 2 \/ face_id = 3) by lia.
    destruct Hi as [-> | [-> | [-> | ->]]]; cbn; intros E.
    + assert (E' : p + s * d = p' + s' * d) by lia.
      apply lex_pair_inj in E'; auto.
    + assert (E' : (d - 1 - s) + p * d = (d - 1 - s') + p' * d) by lia.
      apply lex_pair_inj in E'; lia.
    + assert (E' : p + (d - 1 - s) * d = p' + (d - 1 - s') * d) by lia.
      apply lex_pair_inj in E'; lia.
    + assert (E' : s + p * d = s' + p' * d) by lia.
      apply lex_pair_inj in E'; lia.
  - change (3 - 1) with 2 in *; rewrite Z.pow_2_r in *.
    destruct (flat_index_split d p d) as (Hq & Hm & Ek); try lia.
    destruct (flat_index_split d p' d) as (Hq' & Hm' & Ek'); try lia.
    assert (Hi : face_id = 0 \/ face_id = 1 \/ face_id = 2 \/ face_id = 3 \/
                 face_id = 4 \/ face_id = 5) by lia.
    unfold face_dof_slot, normal_stride; cbv zeta.
    set (i := p mod d) in *; set (j := p / d) in *.
    set (i' := p' mod d) in *; set (j' := p' / d) in *.
    intros E.
    assert (Hijs : i = i' /\ j = j' /\ s = s').
    { destruct Hi as [-> | [-> | [-> | [-> | [-> | ->]]]]]; cbv iota in E.
      - assert (E' : ix3 d d i j s = ix3 d d i' j' s') by (unfold ix3; lia).
        apply ix3_inj in E'; auto; lia.
      - assert (E' : ix3 d d i s j = ix3 d d i' s' j') by (unfold ix3; lia).
        apply ix3_inj in E'; auto; lia.
      - assert (E' : ix3 d d (d - 1 - s) i j = ix3 d d (d - 1 - s') i' j')
          by (unfold ix3; lia).
        apply ix3_inj in E'; auto; lia.
      - assert (E' : ix3 d d i (d - 1 - s) j = ix3 d d i' (d - 1 - s') j')
          by (unfold ix3; lia).
        apply ix3_inj in E'; auto; lia.
      - assert (E' : ix3 d d s i j = ix3 d d s' i' j') by (unfold ix3; lia).
        apply ix3_inj in E'; auto; lia.
      - assert (E' : ix3 d d i j (d - 1 - s) = ix3 d d i' j' (d - 1 - s'))
          by (unfold ix3; lia).
        apply ix3_inj in E'; auto; lia. }
    destruct Hijs as (Ei & Ej & Es); split; [|exact Es].
    rewrite <- Ek, <- Ek', Ei, Ej; reflexivity.
Qed.

(** The values [GetNormalDFaceDofStencil] stores. *)
Lemma GetNormalDFaceDofStencil_values (dim face_id d : Z) (fm : list Z) :
  2 <= dim <= 3 -> 0 <= face_id < 2 * dim -> 1 <= d -> zlen fm = d ^ dim ->
  exists fm1,
    GetNormalDFaceDofStencil dim face_id d fm = Some fm1 /\
    zlen fm1 = zlen fm /\
    forall p s, 0 <= p < d ^ (dim - 1) -> 0 <= s < d ->
      rd fm1 (d * p + s)
      = Some (face_dof_slot dim face_id d p + s * normal_stride dim face_id d).
Proof.
  intros Hdim Hid Hd Hl.
  assert (Hc : dim = 2 \/ dim = 3) by lia.
  destruct Hc as [-> | ->].
  - change (2 - 1) with 1; rewrite Z.pow_1_r; rewrite Z.pow_2_r in Hl.
    assert (Hi : face_id = 0 \/ face_id = 1 \/ face_id = 2 \/ face_id = 3) by lia.
    assert (Fin : forall h : Z -> Z -> Z,
              (forall p s, 0 <= p < d -> 0 <= s < d ->
                 h p s = face_dof_slot 2 face_id d p
                         + s * normal_stride 2 face_id d) ->
              exists fm1,
                forZ 0 d (fun i fm =>
                  forZ 0 d (fun s fm => wr fm (d * i + s) (h i s)) fm) fm
                = Some fm1 /\
                zlen fm1 = zlen fm /\
                forall p s, 0 <= p < d -> 0 <= s < d ->
                  rd fm1 (d * p + s)
                  = Some (face_dof_slot 2 face_id d p
                          + s * normal_stride 2 face_id d)).
    { intros h Hh.
      destruct (stencil2_pass d h fm ltac:(lia) Hl) as (fm1 & E & L & Hv).
      exists fm1; split; [exact E|]; split; [exact L|].
      intros p s Hp Hs; rewrite (Hv p s Hp Hs), (Hh p s Hp Hs); reflexivity. }
    destruct Hi as [-> | [-> | [-> | ->]]];
      cbv beta iota zeta delta [GetNormalDFaceDofStencil];
      apply Fin; intros p s Hp Hs; unfold Get_dof_from_ijk; cbn; lia.
  - change (3 - 1) with 2; rewrite Z.pow_2_r.
    replace (d ^ 3) with (d * d * d) in Hl by (cbn; lia).
    assert (Hi : face_id = 0 \/ face_id = 1 \/ face_id = 2 \/ face_id = 3 \/
                 face_id = 4 \/ face_id = 5) by lia.
    assert (Fin : forall h : Z -> Z -> Z -> Z,
              (forall i j s, 0 <= i < d -> 0 <= j < d -> 0 <= s < d ->
                 h i j s = face_dof_slot 3 face_id d (d * j + i)
                           + s * normal_stride 3 face_id d) ->
              exists fm1,
                forZ 0 d (fun i fm =>
                  forZ 0 d (fun j fm =>
                    forZ 0 d (fun s fm =>
                      wr fm (s + i * d + j * d * d) (h i j s)) fm) fm) fm
                = Some fm1 /\
                zlen fm1 = zlen fm /\
                forall p s, 0 <= p < d * d -> 0 <= s < d ->
                  rd fm1 (d * p + s)
                  = Some (face_dof_slot 3 face_id d p
                          + s * normal_stride 3 face_id d)).
    { intros h Hh.
      destruct (stencil3_pass d h fm ltac:(lia) Hl) as (fm1 & E & L & Hv).
      exists fm1; split; [exact E|]; split; [exact L|].
      intros p s Hp Hs.
      destruct (flat_index_split d p d) as (Hq & Hm & Ek); try lia.
      replace (d * p + s) with (s + p mod d * d + p / d * d * d) by nia.
      rewrite (Hv (p mod d) (p / d) s Hm Hq Hs), (Hh _ _ _ Hm Hq Hs), Ek.
      reflexivity. }
    destruct Hi as [-> | [-> | [-> | [-> | [-> | ->]]]]];
      cbv beta iota zeta delta [GetNormalDFaceDofStencil];
      apply Fin; intros i j s Hi Hj Hs;
      destruct (flat_index_join d j i Hi) as [Eq Er];
      unfold Get_dof_from_ijk, face_dof_slot, normal_stride; cbv zeta iota;
      rewrite Eq, Er; lia.
Qed.

(** X19: on a quadrilateral or a hexahedron, [GetNormalDFaceDofStencil]
    returns, for every dof [p] of the reference face, the line of [dof1d]
    element slots that starts at the slot [GetFaceDofs] gives for [p] and
    advances by a fixed stride along the normal; the lines of a face
    together hold every slot of the element exactly once.  In dimension 1,
    and for a face id that is none of the [2*dim] faces, it aborts. *)
Theorem GetNormalDFaceDofStencil_lines (dim face_id dof1d : Z) (fm : list Z) :
  (2 <= dim <= 3 -> 0 <= face_id < 2 * dim -> 1 <= dof1d ->
   zlen fm = dof1d ^ dim ->
   exists fm1,
     GetNormalDFaceDofStencil dim face_id dof1d fm = Some fm1 /\
     zlen fm1 = zlen fm /\
     (forall p s, 0 <= p < dof1d ^ (dim - 1) -> 0 <= s < dof1d ->
        rd fm1 (dof1d * p + s)
        = Some (face_dof_slot dim face_id dof1d p
                + s * normal_stride dim face_id dof1d)) /\
     Permutation fm1 (zseq (dof1d ^ dim))) /\
  (dim = 1 \/ (2 <= dim <= 3 /\ ~ 0 <= face_id < 2 * dim) ->
   GetNormalDFaceDofStencil dim face_id dof1d fm = None).
Proof.
  split.
  - intros Hdim Hid Hd Hl.
    destruct (GetNormalDFaceDofStencil_values dim face_id dof1d fm)
      as (fm1 & E & L & Hv); auto.
    exists fm1; split; [exact E|]; split; [exact L|]; split; [exact Hv|].
    assert (Hpow : dof1d ^ dim = dof1d ^ (dim - 1) * dof1d).
    { replace dim with (dim - 1 + 1) at 1 by lia.
      rewrite Z.pow_add_r, Z.pow_1_r by lia; reflexivity. }
    assert (Hp0 : 0 <= dof1d ^ (dim - 1)) by (apply Z.pow_nonneg; lia).
    assert (Hnth : forall a : nat, (a < length fm1)%nat ->
              exists p s, 0 <= p < dof1d ^ (dim - 1) /\ 0 <= s < dof1d /\
                Z.of_nat a = dof1d * p + s /\
                nth a fm1 0 = face_dof_slot dim face_id dof1d p
                              + s * normal_stride dim face_id dof1d).
    { intros a Ha.
      assert (Ha' : 0 <= Z.of_nat a < dof1d ^ (dim - 1) * dof1d)
        by (unfold zlen in L, Hl; lia).
      destruct (flat_index_split dof1d (Z.of_nat a) (dof1d ^ (dim - 1)))
        as (Hq & Hm & Ek); try lia.
      exists (Z.of_nat a / dof1d), (Z.of_nat a mod dof1d).
      split; [exact Hq|]; split; [exact Hm|]; split; [lia|].
      specialize (Hv _ _ Hq Hm); rewrite Ek in Hv.
      unfold rd in Hv; destruct (Z.ltb_spec (Z.of_nat a) 0); [lia|].
      rewrite Nat2Z.id in Hv; now apply nth_error_nth. }
    apply targets_perm; [| |lia].
    + apply (NoDup_nth fm1 0); intros a b Ha Hb Eab.
      destruct (Hnth a Ha) as (p & s & Hp & Hs & Ea & Va).
      destruct (Hnth b Hb) as (p' & s' & Hp' & Hs' & Eb & Vb).
      rewrite Va, Vb in Eab.
      apply stencil_entry_inj in Eab as [-> ->]; auto; lia.
    + intros t Ht; apply (In_nth _ _ 0) in Ht as (a & Ha & <-).
      destruct (Hnth a Ha) as (p & s & Hp & Hs & _ & ->).
      now apply stencil_entry_range.
  - intros [-> | [Hdim Hid]]; [reflexivity|].
    assert (Hc : dim = 2 \/ dim = 3) by lia.
    unfold GetNormalDFaceDofStencil.
    destruct Hc as [-> | ->];
      destruct face_id as [|[q|q|]|]; try reflexivity; try lia;
      destruct q as [q|q|]; try reflexivity; try lia;
      destruct q; try reflexivity; lia.
Qed.

Lemma GetNormalDFaceDofStencil_lines_witness :
  exists fm1,
    GetNormalDFaceDofStencil 3 3 2 (alloc 8 0) = Some fm1 /\
    zlen fm1 = zlen (alloc 8 0 : list Z) /\
    (forall p s, 0 <= p < 2 ^ (3 - 1) -> 0 <= s < 2 ->
       rd fm1 (2 * p + s)
       = Some (face_dof_slot 3 3 2 p + s * normal_stride 3 3 2)) /\
    Permutation fm1 (zseq (2 ^ 3)).
Proof.
  apply (proj1 (GetNormalDFaceDofStencil_lines 3 3 2 (alloc 8 0)));
    try lia; reflexivity.
Defined.

(** ** Sparse assembly of the discontinuous element restriction *)

(** X20: with one component and the row array holding the row starts
    [k * ndof], [L2ElementRestriction::FillJAndData] returns the
    block-diagonal pattern: row [e*ndof + i] has the columns
    [e*ndof + j] of its own element, with the entry [(j, i)] of the element
    matrix of [e] as data, and every row start is advanced by the row
    length.  With more than one component the loop goes on to elements
    beyond the last one and reads outside an element-matrix array of
    [ndof*ndof*ne] entries. *)
Theorem L2Element_FillJAndData_blocks {V : Type} `{Scalar V}
  (r : L2Element.t) (ea_data : list V) (I_ J : list Z) (Data : list V) :
  let nd := L2Element.ndof r in
  let ne := L2Element.ne r in
  0 <= ne -> 0 <= nd ->
  zlen ea_data = nd * nd * ne ->
  (L2Element.vdim r = 1 ->
   (forall k, 0 <= k < ne * nd -> rd I_ k = Some (k * nd)) ->
   zlen J = ne * nd * nd -> zlen Data = ne * nd * nd ->
   exists I1 J1 Data1,
     L2Element.FillJAndData r ea_data (I_, J, Data) = Some (I1, J1, Data1) /\
     zlen I1 = zlen I_ /\
     (forall k, 0 <= k < ne * nd -> rd I1 k = Some ((k + 1) * nd)) /\
     (forall k, ne * nd <= k -> rd I1 k = rd I_ k) /\
     forall e i j, 0 <= e < ne -> 0 <= i < nd -> 0 <= j < nd ->
       rd J1 ((e * nd + i) * nd + j) = Some (e * nd + j) /\
       rd Data1 ((e * nd + i) * nd + j) = rd ea_data (ix3 nd nd j i e)) /\
  (2 <= L2Element.vdim r -> 1 <= ne -> 1 <= nd ->
   L2Element.FillJAndData r ea_data (I_, J, Data) = None).
Proof.
  intros nd ne Hne Hnd Hea; split.
  - intros Hvd HI LJ LD.
    unfold L2Element.FillJAndData; fold nd ne; rewrite Hvd, Z.mul_1_r.
    assert (Hrow : forall k, 0 <= k < ne * nd ->
              0 < nd /\ 0 <= Z.rem k nd < nd /\ 0 <= Z.quot k nd < ne /\
              nd * Z.quot k nd + Z.rem k nd = k).
    { intros k Hk; now apply slot_quot_rem. }
    destruct (forZ_inv
      (fun iE (st : list Z * list Z * list V) =>
         let '(I1, J1, D1) := st in
         zlen I1 = zlen I_ /\ zlen J1 = zlen J /\ zlen D1 = zlen Data /\
         (forall k, 0 <= k < iE -> rd I1 k = Some ((k + 1) * nd)) /\
         (forall k, iE <= k -> rd I1 k = rd I_ k) /\
         (forall k j, 0 <= k < iE -> 0 <= j < nd ->
            rd J1 (k * nd + j) = Some (Z.quot k nd * nd + j) /\
            rd D1 (k * nd + j)
            = rd ea_data (ix3 nd nd j (Z.rem k nd) (Z.quot k nd))))
      0 (ne * nd)
      (fun iE '(I_, J, Data) =>
         '(offset, I_) <- AddNnz iE I_ nd ;;
         let e := Z.quot iE nd in
         let i := Z.rem iE nd in
         '(J, Data) <-
           forZ 0 nd (fun j '(J, Data) =>
             J <- wr J (offset + j) (e * nd + j) ;;
             v <- rd ea_data (ix3 nd nd j i e) ;;
             Data <- wr Data (offset + j) v ;;
             Some (J, Data)) (J, Data) ;;
         Some (I_, J, Data))
      (I_, J, Data)) as ([[I1 J1] D1] & E & L1 & L2 & L3 & HI1 & HI2 & HJD).
    + nia.
    + repeat split; auto; intros; lia.
    + intros iE [[Ia Ja] Da] HiE (L1 & L2 & L3 & HI1 & HI2 & HJD).
      destruct (Hrow iE HiE) as (Hnd0 & Hr & Hq & Eqr).
      assert (RI : rd Ia iE = Some (iE * nd))
        by (rewrite HI2 by lia; apply HI; lia).
      unfold AddNnz; rewrite RI; cbn [obind].
      pose proof (rd_Some_range _ _ _ RI) as RiE.
      rewrite (wr_in_range Ia iE) by exact RiE; cbn [obind].
      destruct (forZ_inv
        (fun j (st : list Z * list V) =>
           zlen (fst st) = zlen J /\ zlen (snd st) = zlen Data /\
           (forall t, ~ iE * nd <= t < iE * nd + j ->
              rd (fst st) t = rd Ja t /\ rd (snd st) t = rd Da t) /\
           (forall j', 0 <= j' < j ->
              rd (fst st) (iE * nd + j') = Some (Z.quot iE nd * nd + j') /\
              rd (snd st) (iE * nd + j')
              = rd ea_data (ix3 nd nd j' (Z.rem iE nd) (Z.quot iE nd))))
        0 nd
        (fun j '(J, Data) =>
           J <- wr J (iE * nd + j) (Z.quot iE nd * nd + j) ;;
           v <- rd ea_data (ix3 nd nd j (Z.rem iE nd) (Z.quot iE nd)) ;;
           Data <- wr Data (iE * nd + j) v ;;
           Some (J, Data))
        (Ja, Da)) as ([Jb Db] & Ein & M1 & M2 & Keep & New); [lia| | |].
      * cbn [fst snd]; repeat split; auto; intros; lia.
      * intros j [Jc Dc] Hj (M1 & M2 & Keep & New); cbn [fst snd] in *.
        assert (Ht : 0 <= iE * nd + j < ne * nd * nd) by nia.
        rewrite (wr_in_range Jc) by lia; cbn [obind].
        destruct (rd_in_range ea_data
                    (ix3 nd nd j (Z.rem iE nd) (Z.quot iE nd))) as (v & Rv).
        { rewrite Hea; apply ix3_range; lia. }
        rewrite Rv; cbn [obind].
        rewrite (wr_in_range Dc) by lia; cbn [obind].
        eexists; split; [reflexivity|]; cbn [fst snd].
        rewrite !zlen_upd; repeat split; auto.
        -- rewrite rd_upd_other by lia; apply Keep; lia.
        -- rewrite rd_upd_other by lia; apply Keep; lia.
        -- destruct (Z.eq_dec j' j) as [->|Hjj].
           ++ apply rd_upd_same; lia.
           ++ rewrite rd_upd_other by lia; apply New; lia.
        -- destruct (Z.eq_dec j' j) as [->|Hjj].
           ++ rewrite rd_upd_same by lia; auto.
           ++ rewrite rd_upd_other by lia; apply New; lia.
      * cbn [fst snd] in *; rewrite Ein; cbn [obind].
        eexists; split; [reflexivity|]; cbv beta iota.
        rewrite zlen_upd; repeat split; auto; try lia.
        -- intros k Hk; destruct (Z.eq_dec k iE) as [->|Hne'].
           ++ rewrite rd_upd_same by lia; f_equal; lia.
           ++ rewrite rd_upd_other by lia; apply HI1; lia.
        -- intros k Hk; rewrite rd_upd_other by lia; apply HI2; lia.
        -- destruct (Z.eq_dec k iE) as [->|Hne']; [apply New; lia|].
           destruct (Keep (k * nd + j)) as [-> _]; [nia|].
           apply HJD; lia.
        -- destruct (Z.eq_dec k iE) as [->|Hne']; [apply New; lia|].
           destruct (Keep (k * nd + j)) as [_ ->]; [nia|].
           apply HJD; lia.
    + exists I1, J1, D1; split; [exact E|]; split; [exact L1|].
      split; [exact HI1|]; split; [exact HI2|].
      intros e i j He Hi Hj.
      destruct (flat_index_quot_rem nd e i) as [Eq Er]; try lia.
      destruct (HJD (e * nd + i) j ltac:(nia) Hj) as [RJ RD].
      replace (e * nd + i) with (nd * e + i) in RJ, RD |- * by lia.
      rewrite Eq in RJ; rewrite Eq, Er in RD; split; [exact RJ|exact RD].
  - intros Hvd Hne1 Hnd1.
    destruct (L2Element.FillJAndData r ea_data (I_, J, Data)) as [st|] eqn:E;
      [exfalso|reflexivity].
    unfold L2Element.FillJAndData in E; fold nd ne in E.
    destruct (forZ_each _ _ _ _ _ E (ne * nd) ltac:(nia))
      as ([[Ia Ja] Da] & s2 & Eb).
    bind_inv Eb oi Eo; destruct oi as [offset Ib].
    bind_inv Eb jd Ej; destruct jd as [Jb Db].
    destruct (forZ_each _ _ _ _ _ Ej 0 ltac:(lia)) as ([Jc Dc] & s4 & Ec).
    bind_inv Ec J' EJ; bind_inv Ec v Ev.
    apply rd_Some_range in Ev.
    destruct (flat_index_quot_rem nd ne 0) as [Eq Er]; try lia.
    replace (ne * nd) with (nd * ne + 0) in Ev by lia.
    rewrite Eq, Er, Hea in Ev; unfold ix3 in Ev; nia.
Qed.

Lemma L2Element_FillJAndData_blocks_witness :
  exists I1 J1 Data1,
    L2Element.FillJAndData (L2Element.new l2quad_space)
      [1; 2; 3; 4; 5; 6; 7; 8; 9; 10; 11; 12; 13; 14; 15; 16]
      ([0; 4; 8; 12; 16], alloc 16 0, alloc 16 0) = Some (I1, J1, Data1) /\
    zlen I1 = zlen [0; 4; 8; 12; 16] /\
    (forall k, 0 <= k < 1 * 4 -> rd I1 k = Some ((k + 1) * 4)) /\
    (forall k, 1 * 4 <= k -> rd I1 k = rd [0; 4; 8; 12; 16] k) /\
    forall e i j, 0 <= e < 1 -> 0 <= i < 4 -> 0 <= j < 4 ->
      rd J1 ((e * 4 + i) * 4 + j) = Some (e * 4 + j) /\
      rd Data1 ((e * 4 + i) * 4 + j)
      = rd [1; 2; 3; 4; 5; 6; 7; 8; 9; 10; 11; 12; 13; 14; 15; 16]
           (ix3 4 4 j i e).
Proof.
  apply (proj1 (L2Element_FillJAndData_blocks (L2Element.new l2quad_space)
                  [1; 2; 3; 4; 5; 6; 7; 8; 9; 10; 11; 12; 13; 14; 15; 16]
                  [0; 4; 8; 12; 16] (alloc 16 0) (alloc 16 0)
                  ltac:(cbn; lia) ltac:(cbn; lia) eq_refl)).
  - reflexivity.
  - intros k Hk; cbn in Hk.
    assert (Hc : k = 0 \/ k = 1 \/ k = 2 \/ k = 3) by lia.
    destruct Hc as [-> | [-> | [-> | ->]]]; reflexivity.
  - reflexivity.
  - reflexivity.
Defined.

(** ** Row counts of the discontinuous face restriction *)

(** Adding [d] to the row counter of every key. *)
Lemma addnnz_pass (d n : Z) (keys : list Z) :
  Forall (fun g => 0 <= g < n) keys ->
  forall I_ f, arr_is I_ n f ->
  exists I1,
    foldM (fun g I_ => '(_, I_) <- AddNnz g I_ d ;; Some I_) keys I_ = Some I1 /\
    arr_is I1 n (fun g => f g + d * countZ g keys).
Proof.
  induction 1 as [|g t Hg _ IH]; intros I_ f Ha.
  - exists I_; split; [reflexivity|].
    eapply arr_is_ext; [exact Ha|]; intros; unfold countZ; simpl; lia.
  - cbn [foldM]; unfold AddNnz at 1.
    rewrite (arr_is_rd _ _ _ g Ha) by lia; cbn [obind].
    destruct (arr_is_wr I_ n f g (f g + d) Ha ltac:(lia))
      as (I2 & -> & Ha2); cbn [obind].
    destruct (IH I2 _ Ha2) as (I1 & -> & Ha1).
    exists I1; split; [reflexivity|].
    eapply arr_is_ext; [exact Ha1|]; intros i Hi; cbv beta.
    rewrite countZ_cons.
    destruct (Z.eqb_spec i g), (Z.eqb_spec g i); subst; lia.
Qed.

Lemma interleave_perm {A B : Type} (f g : A -> B) (l : list A) :
  Permutation (flat_map (fun i => [f i; g i]) l) (map f l ++ map g l).
Proof.
  induction l as [|a l IH]; [constructor|].
  cbn [flat_map map app]; constructor.
  apply Permutation_cons_app; exact IH.
Qed.

(** The scatter loop keeps the sizes of the scatter arrays. *)
Lemma L2_scatter_lengths fs o ty mode dof l :
  forall f0 fm s1 s2 f1 fm1 t1 t2,
  foldM (L2Face.scatter_face fs o ty mode dof) l (f0, fm, (s1, s2))
  = Some (f1, fm1, (t1, t2)) ->
  zlen t1 = zlen s1 /\ zlen t2 = zlen s2.
Proof.
  induction l as [|fi l IH]; intros f0 fm s1 s2 f1 fm1 t1 t2 E.
  - injection E as <- <- <- <-; auto.
  - cbn [foldM] in E; bind_inv E st E1; destruct st as [[f' fm'] [u1 u2]].
    apply IH in E as [-> ->]; clear IH.
    unfold L2Face.scatter_face in E1; bind_inv E1 fm2 Eg.
    destruct (face_selected_L2 ty fi).
    + bind_inv E1 v1 Es1; bind_inv E1 v2 Es2; injection E1 as <- <- <- <-.
      split.
      * unfold forZ in Es1; revert Es1.
        apply (foldM_keeps (fun s => zlen s = zlen s1)); auto.
        intros d s s' _ Hs Eb; bind_inv Eb g Egd.
        now rewrite (wr_zlen _ _ _ _ Eb).
      * destruct (L2Face.double_valued mode); [|now injection Es2 as <-].
        unfold forZ in Es2; revert Es2.
        apply (foldM_keeps (fun s => zlen s = zlen s2)); auto.
        intros d s s' _ Hs Eb.
        destruct (L2Face.interior_face ty fi).
        -- bind_inv Eb g Egd; now rewrite (wr_zlen _ _ _ _ Eb).
        -- destruct (L2Face.boundary_face ty fi).
           ++ now rewrite (wr_zlen _ _ _ _ Eb).
           ++ now injection Eb as <-.
    + injection E1 as <- <- <- <-; auto.
Qed.

Lemma L2_new_lengths mem fs o ty mode r :
  L2Face.new mem fs o ty mode = Some r ->
  zlen (L2Face.scatter_indices1 r) = Z.max 0 (L2Face.nf r * L2Face.dof r) /\
  zlen (L2Face.scatter_indices2 r)
  = Z.max 0 (if L2Face.double_valued mode
             then L2Face.nf r * L2Face.dof r else 0).
Proof.
  intros E; unfold L2Face.new in E.
  bind_inv E dm Edm; bind_inv E u1 Eu1; bind_inv E u2 Eu2.
  destruct (Z.eqb_spec (GetNFbyType fs ty) 0) as [Hnf|Hnf].
  - inversion E; subst; cbn; rewrite !zlen_uninit; auto.
  - bind_inv E u3 Eu3; bind_inv E u4 Eu4.
    bind_inv E st Est; destruct st as [[f_ind fm] [s1 s2]].
    apply L2_scatter_lengths in Est as [L1 L2].
    bind_inv E u5 Eu5.
    bind_inv E off0 E0; bind_inv E st1 E1; destruct st1 as [[f1 fm1] off1].
    bind_inv E u6 Eu6; bind_inv E off2 E2.
    bind_inv E st3 E3; destruct st3 as [[f3 fm3] og3].
    bind_inv E u7 Eu7; bind_inv E off4 E4; bind_inv E off5 E5.
    inversion E; subst; cbn.
    rewrite L1, L2, !zlen_uninit; auto.
Qed.

(** X22: for a double-valued [L2FaceRestriction] constructed over interior
    faces of a space whose element-to-dof table holds dofs of the space,
    [FillI] returns and adds to the row counter of every dof [g] the number
    of face dofs, once for every face slot whose dof on side 1 is [g] and
    once for every face slot whose dof on side 2 is [g]. *)
Theorem L2_FillI_interior mem fs o r (I_ : list Z) :
  L2Face.new mem fs o Interior DoubleValued = Some r ->
  Forall (fun g => 0 <= g < GetNDofs (fes fs)) (GetElementToDofTable (fes fs)) ->
  L2Face.ndofs r <= zlen I_ ->
  exists I1,
    L2Face.FillI r I_ = Some I1 /\ zlen I1 = zlen I_ /\
    forall g, 0 <= g < zlen I_ ->
      rd I1 g
      = Some (nth (Z.to_nat g) I_ 0
              + L2Face.dof r * (countZ g (L2Face.scatter_indices1 r)
                                + countZ g (L2Face.scatter_indices2 r))).
Proof.
  intros E Htab HI.
  destruct (L2_new_scatter fs o Interior DoubleValued mem r E)
    as (Hnf & Enfd & Em & End & HB).
  destruct (L2_new_lengths mem fs o Interior DoubleValued r E) as [L1 L2].
  cbn [L2Face.double_valued] in L2.
  rewrite Enfd in HB; rewrite Forall_forall in Htab.
  set (s1 := L2Face.scatter_indices1 r) in *.
  set (s2 := L2Face.scatter_indices2 r) in *.
  set (n := L2Face.nf r * L2Face.dof r) in *.
  set (keys := flat_map (fun i => [nth (Z.to_nat i) s1 0; nth (Z.to_nat i) s2 0])
                        (zseq n)).
  assert (HK : forall i, 0 <= i < n ->
            rd s1 i = Some (nth (Z.to_nat i) s1 0) /\
            rd s2 i = Some (nth (Z.to_nat i) s2 0) /\
            0 <= nth (Z.to_nat i) s1 0 < zlen I_ /\
            0 <= nth (Z.to_nat i) s2 0 < zlen I_).
  { intros i Hi; destruct (HB i Hi) as ((g1 & R1 & H1) & H2).
    destruct (H2 eq_refl) as (g2 & R2 & H2').
    apply Htab in H1, H2'; rewrite <- End in H1, H2'.
    pose proof (rd_nth s1 i 0 (rd_Some_range _ _ _ R1)) as N1.
    pose proof (rd_nth s2 i 0 (rd_Some_range _ _ _ R2)) as N2.
    rewrite R1 in N1; rewrite R2 in N2.
    injection N1 as <-; injection N2 as <-.
    repeat split; auto; lia. }
  assert (EF : L2Face.FillI r I_
               = foldM (fun g I_ => '(_, I_) <- AddNnz g I_ (L2Face.dof r) ;;
                                    Some I_) keys I_).
  { unfold L2Face.FillI, keys; fold s1 s2 n.
    rewrite foldM_flat_map, forZ_0.
    apply foldM_ext_in; intros i I0 Hi; apply in_zseq in Hi.
    destruct (HK i Hi) as (-> & -> & _); cbn [obind foldM].
    destruct (AddNnz (nth (Z.to_nat i) s1 0) I0 (L2Face.dof r))
      as [[v Ia]|]; [|reflexivity]; cbn [obind].
    destruct (AddNnz (nth (Z.to_nat i) s2 0) Ia (L2Face.dof r))
      as [[v' Ib]|]; reflexivity. }
  destruct (addnnz_pass (L2Face.dof r) (zlen I_) keys) with (I_ := I_)
    (f := fun g => nth (Z.to_nat g) I_ 0) as (I1 & E1 & [Ll Hv]).
  { apply Forall_forall; intros g Hg; unfold keys in Hg.
    apply in_flat_map in Hg as (i & Hi & Hg); apply in_zseq in Hi.
    destruct (HK i Hi) as (_ & _ & B1 & B2).
    destruct Hg as [<-|[<-|[]]]; assumption. }
  { apply arr_is_self. }
  exists I1; rewrite EF; split; [exact E1|]; split; [exact Ll|].
  intros g Hg; rewrite (Hv g Hg); do 3 f_equal.
  assert (Hmap : forall s : list Z, zlen s = Z.max 0 n ->
            map (fun i => nth (Z.to_nat i) s 0) (zseq n) = s).
  { intros s Ls.
    transitivity (map (fun d => nth (Z.to_nat d) s 0) (zseq (zlen s)));
      [|apply map_nth_zseq].
    rewrite Ls; unfold zseq.
    now replace (Z.to_nat (Z.max 0 n)) with (Z.to_nat n) by lia. }
  unfold keys.
  rewrite (countZ_perm g _ _ (interleave_perm _ _ (zseq n))), countZ_app.
  now rewrite (Hmap s1 L1), (Hmap s2 L2).
Qed.

Lemma L2_FillI_interior_witness :
  exists I1,
    L2Face.FillI l2pair_interior (alloc 9 0) = Some I1 /\
    zlen I1 = zlen (alloc 9 0 : list Z) /\
    forall g, 0 <= g < zlen (alloc 9 0 : list Z) ->
      rd I1 g
      = Some (nth (Z.to_nat g) (alloc 9 0) 0
              + L2Face.dof l2pair_interior
                * (countZ g (L2Face.scatter_indices1 l2pair_interior)
                   + countZ g (L2Face.scatter_indices2 l2pair_interior))).
Proof.
  apply (L2_FillI_interior l2_stale l2pair_faces LEXICOGRAPHIC l2pair_interior
           (alloc 9 0)).
  - vm_compute; reflexivity.
  - cbn; repeat constructor; lia.
  - vm_compute; discriminate.
Defined.

(** ** Discontinuous face restriction: the gather arrays *)

(** [place_pass] when the index array is longer than the list of items:
    the entries beyond the items are not touched. *)
Lemma place_pass_room n (items : list (Z * Z)) off ind :
  let keys := map fst items in
  Forall (fun g => 0 <= g < n) keys ->
  arr_is off (n + 1) (fun g => below g keys) ->
  zlen items <= zlen ind ->
  exists off' ind',
    foldM place items (off, ind) = Some (off', ind') /\
    arr_is off' (n + 1) (fun g => below (g + 1) keys) /\
    zlen ind' = zlen ind /\
    forall k, (k < length items)%nat ->
      rd ind' (pos keys k) = Some (nth k (map snd items) 0).
Proof.
  intros keys Hr Ha Hl.
  assert (Hlen : length keys = length items) by (unfold keys; apply length_map).
  destruct (foldM_inv
    (fun done (st : list Z * list Z) =>
       arr_is (fst st) (n + 1)
         (fun g => below g keys + countZ g (map fst done)) /\
       zlen (snd st) = zlen ind /\
       forall k, (k < length done)%nat ->
         rd (snd st) (pos keys k) = Some (nth k (map snd items) 0))
    place items) with (s := (off, ind)) as ([off' ind'] & E & HO & HL & HP).
  - intros done [g v] todo [o d] Hsplit (HO & HL & HP); cbn [fst snd] in *.
    assert (Hk : (length done < length keys)%nat).
    { rewrite Hlen, Hsplit, length_app; simpl; lia. }
    assert (Hnth : nth (length done) keys 0 = g).
    { unfold keys; rewrite Hsplit, map_app, app_nth2; rewrite length_map; [|lia].
      now rewrite Nat.sub_diag. }
    assert (Hfirst : firstn (length done) keys = map fst done).
    { unfold keys; rewrite Hsplit, map_app.
      rewrite <- (length_map fst done), firstn_app, Nat.sub_diag, firstn_all.
      simpl; now rewrite app_nil_r. }
    assert (Hp : pos keys (length done) = below g keys + countZ g (map fst done)).
    { unfold pos; now rewrite Hnth, Hfirst. }
    assert (Hg : 0 <= g < n).
    { rewrite Forall_forall in Hr; apply Hr; rewrite <- Hnth; apply nth_In; auto. }
    pose proof (pos_range n keys (length done) Hr Hk) as Hpr.
    unfold place; cbn [fst snd].
    rewrite (arr_is_rd _ _ _ g HO) by lia; cbn [obind]; rewrite <- Hp.
    step_wr HO o' HO'.
    rewrite wr_in_range by (unfold zlen in *; lia); cbn [obind].
    eexists; split; [reflexivity|]; cbn [fst snd]; repeat split.
    + apply HO'.
    + intros i Hi; destruct HO' as [_ HO']; rewrite HO' by assumption.
      f_equal; rewrite map_app, countZ_app; cbn [map fst]; rewrite countZ_cons.
      unfold countZ at 3; cbn [count_occ].
      destruct (Z.eqb_spec i g) as [Hig|Hig], (Z.eqb_spec g i); try lia.
      rewrite Hig; lia.
    + now rewrite zlen_upd.
    + intros k Hlt; rewrite length_app in Hlt; simpl in Hlt.
      destruct (Nat.eq_dec k (length done)) as [->|Hne].
      * rewrite rd_upd_same by (unfold zlen in *; lia).
        f_equal; rewrite Hsplit, map_app, app_nth2; rewrite length_map; [|lia].
        now rewrite Nat.sub_diag.
      * rewrite rd_upd_other; [apply HP; lia|lia|].
        apply not_eq_sym, pos_lt; lia.
  - cbn [fst snd]; repeat split; auto.
    + apply Ha.
    + intros i Hi; destruct Ha as [_ Ha]; rewrite Ha by assumption.
      unfold countZ; simpl; f_equal; lia.
    + simpl; intros; lia.
  - exists off', ind'; cbn [fst snd] in *; repeat split; auto.
    + apply HO.
    + intros i Hi; destruct HO as [_ HO]; rewrite HO by assumption.
      now rewrite below_succ.
Qed.

(** [GetFaceDofs] writes into the face map and keeps its size. *)
Lemma fill_zlen (T h : Z -> Z) (lo hi : Z) (fm fm1 : list Z) :
  forZ lo hi (fun i fm => wr fm (T i) (h i)) fm = Some fm1 ->
  zlen fm1 = zlen fm.
Proof.
  unfold forZ; apply (foldM_keeps (fun s => zlen s = zlen fm)); auto.
  intros i s s' _ Hs E; rewrite <- Hs; eapply wr_zlen; eauto.
Qed.

Lemma fill2_zlen (h : Z -> Z -> Z) (d : Z) (fm fm1 : list Z) :
  forZ 0 d (fun i fm =>
    forZ 0 d (fun j fm => wr fm (i + j * d) (h i j)) fm) fm = Some fm1 ->
  zlen fm1 = zlen fm.
Proof.
  unfold forZ at 1; apply (foldM_keeps (fun s => zlen s = zlen fm)); auto.
  intros i s s' _ Hs E; rewrite <- Hs.
  apply (fill_zlen (fun j => i + j * d) (h i) 0 d s s' E).
Qed.

Lemma GetFaceDofs_zlen (dim face_id dof1d : Z) (fm fm1 : list Z) :
  GetFaceDofs dim face_id dof1d fm = Some fm1 -> zlen fm1 = zlen fm.
Proof.
  unfold GetFaceDofs; intros E.
  repeat match type of E with
         | match ?x with _ => _ end = _ => destruct x
         end;
    first [ now injection E as <-
          | eapply wr_zlen; exact E
          | exact (fill_zlen (fun i => i) _ _ _ _ _ E)
          | exact (fill2_zlen _ _ _ _ E) ].
Qed.

Lemma foldM_skip {A St : Type} (l : list A) (s : St) :
  foldM (fun _ s => Some s) l s = Some s.
Proof. induction l as [|a t IH]; [reflexivity|exact IH]. Qed.

Section L2Replay.
Variables (fs : FaceSpace) (ty : FaceType) (mode : L2FaceValues).
Hypothesis Valid : valid_faces_L2 fs ty.
Hypothesis Hdof : l2_dof fs ty = GetFaceDof fs.

Local Abbreviation dof := (l2_dof fs ty).
Local Abbreviation valid_ids :=
  (fun fi => face_selected ty fi = true ->
             0 <= Z.quot (inf1 fi) 64 < 2 * SpaceDimension fs /\
             0 <= Z.quot (inf2 fi) 64 < 2 * SpaceDimension fs).

Lemma l2_dof_nonneg : 0 <= dof.
Proof.
  destruct Valid as (_ & _ & Ho & Ef & _); rewrite Hdof, Ef.
  apply Z.pow_nonneg; lia.
Qed.

Lemma l2_face_maps_length fi :
  zlen (fst (l2_face_maps fs ty fi)) = dof /\
  zlen (snd (l2_face_maps fs ty fi)) = dof.
Proof.
  pose proof l2_dof_nonneg.
  unfold l2_face_maps, zlen; cbn [fst snd]; rewrite !length_map.
  split; apply zseq_length; lia.
Qed.

Lemma L2_face_maps_fresh fi fm fm1 :
  0 <= Z.quot (inf1 fi) 64 < 2 * SpaceDimension fs ->
  0 <= Z.quot (inf2 fi) 64 < 2 * SpaceDimension fs ->
  zlen (fst fm) = dof -> zlen (snd fm) = dof ->
  L2Face.face_maps fs fi fm = Some fm1 ->
  fm1 = l2_face_maps fs ty fi.
Proof.
  intros H1 H2 L1 L2 E; destruct Valid as (_ & Hdim & Ho & Ef & _).
  unfold L2Face.face_maps in E; bind_inv E m1 E1; bind_inv E m2 E2.
  injection E as <-.
  unfold l2_face_maps; rewrite Hdof, Ef in *.
  apply GetFaceDofs_fresh in E1; auto; [|lia].
  apply GetFaceDofs_fresh in E2; auto; [|lia].
  now subst.
Qed.

Section Loop.
Context {St : Type}.
Variable N : Z.
Variable step : Z -> Z -> St -> option St.
Variable loop_face :
  FaceInfo -> Z * (list Z * list Z) * St -> option (Z * (list Z * list Z) * St).

(** The common shape of the two gather loops over the faces. *)
Hypothesis Hface : forall fi f fm st f' fm' st',
  loop_face fi (f, fm, st) = Some (f', fm', st') ->
  if face_selected ty fi then
    exists fm1 st1,
      L2Face.face_maps fs fi fm = Some fm1 /\ fm' = fm1 /\ f' = f + 1 /\
      forZ 0 dof (fun d st =>
        gid <- L2Face.gid1 fs (fst fm1) fi d ;;
        step gid (dof * f + d) st) st = Some st1 /\
      (if L2Face.double_valued mode then
         forZ 0 dof (fun d st =>
           if L2Face.interior_face ty fi then
             gid <- L2Face.gid2 fs (snd fm1) fi d ;;
             step gid (N + (dof * f + d)) st
           else Some st) st1
       else Some st1) = Some st'
  else f' = f /\ fm' = fm /\ st' = st.

Lemma L2_loop_replay l :
  forall f0 fm st f1 fm1 st1,
  Forall valid_ids l -> zlen (fst fm) = dof -> zlen (snd fm) = dof ->
  foldM loop_face l (f0, fm, st) = Some (f1, fm1, st1) ->
  zlen (fst fm1) = dof /\ zlen (snd fm1) = dof /\
  f1 = f0 + zlen (filter (face_selected ty) l) /\
  foldM (fun kv st => step (fst kv) (snd kv) st)
        (l2_loop_items fs ty mode N l f0) st = Some st1.
Proof.
  pose proof l2_dof_nonneg as Hd.
  induction l as [|fi l IH]; intros f0 fm st f1 fm1 st1 Hv L1 L2 E.
  - injection E as <- <- <-; repeat split; auto; unfold zlen; simpl; lia.
  - inversion Hv as [|? ? Hfi Hv']; subst.
    cbn [foldM] in E; bind_inv E s1 E1; destruct s1 as [[f' fm'] st'].
    apply Hface in E1.
    cbn [l2_loop_items filter].
    destruct (face_selected ty fi) eqn:Hs.
    + destruct E1 as (fm2 & st2 & Eg & -> & -> & Ein1 & Ein2).
      destruct (Hfi eq_refl) as [Hi1 Hi2].
      pose proof (L2_face_maps_fresh fi fm fm2 Hi1 Hi2 L1 L2 Eg) as ->.
      destruct (l2_face_maps_length fi) as [M1 M2].
      apply IH in E as (L1' & L2' & F1 & R1); auto.
      split; [exact L1'|]; split; [exact L2'|].
      split; [unfold zlen in *; cbn [length]; lia|].
      rewrite foldM_app; unfold l2_face_items; rewrite foldM_app.
      rewrite forZ_0 in Ein1.
      assert (R0 : foldM (fun kv st => step (fst kv) (snd kv) st)
                     (map (fun d => (l2_gid1 fs ty fi d, dof * f0 + d))
                          (zseq dof)) st = Some st2).
      { revert Ein1; apply foldM_replay.
        intros d s s' _ Eb; bind_inv Eb gid Eg'; cbn [fst snd].
        unfold l2_gid1; now rewrite Eg'. }
      rewrite R0; cbn [obind]; unfold l2_second.
      destruct (L2Face.double_valued mode); cbn [andb].
      * rewrite forZ_0 in Ein2.
        destruct (L2Face.interior_face ty fi).
        -- assert (R2 : foldM (fun kv st => step (fst kv) (snd kv) st)
                     (map (fun d => (l2_gid2 fs ty fi d, N + (dof * f0 + d)))
                          (zseq dof)) st2 = Some st').
           { revert Ein2; apply foldM_replay.
             intros d s s' _ Eb; bind_inv Eb gid Eg'; cbn [fst snd].
             unfold l2_gid2; now rewrite Eg'. }
           rewrite R2; cbn [obind]; exact R1.
        -- rewrite foldM_skip in Ein2; injection Ein2 as <-.
           cbn [foldM obind]; exact R1.
      * injection Ein2 as <-; cbn [foldM obind]; exact R1.
    + destruct E1 as (-> & -> & ->).
      apply IH in E as (L1' & L2' & F1 & R1); auto.
Qed.

End Loop.

Lemma L2_count_replay N l f0 fm off f1 fm1 off1 :
  Forall valid_ids l -> zlen (fst fm) = dof -> zlen (snd fm) = dof ->
  foldM (L2Face.count_face fs ty mode dof) l (f0, fm, off)
  = Some (f1, fm1, off1) ->
  zlen (fst fm1) = dof /\ zlen (snd fm1) = dof /\
  f1 = f0 + zlen (filter (face_selected ty) l) /\
  foldM (fun kv s => bump (fst kv) s) (l2_loop_items fs ty mode N l f0) off
  = Some off1.
Proof.
  apply (L2_loop_replay N (fun gid lid s => bump gid s)).
  intros fi f fm0 st f' fm' st' E; unfold L2Face.count_face in E.
  destruct (face_selected ty fi).
  - bind_inv E fm2 Eg; bind_inv E off2 E1; bind_inv E off3 E2.
    injection E as <- <- <-.
    exists fm2, off2; repeat split; auto.
  - injection E as <- <- <-; auto.
Qed.

Lemma L2_gather_replay N l f0 fm og f1 fm1 og1 :
  Forall valid_ids l -> zlen (fst fm) = dof -> zlen (snd fm) = dof ->
  foldM (L2Face.gather_face fs ty mode dof N) l (f0, fm, og)
  = Some (f1, fm1, og1) ->
  zlen (fst fm1) = dof /\ zlen (snd fm1) = dof /\
  f1 = f0 + zlen (filter (face_selected ty) l) /\
  foldM (fun kv s => place (fst kv, snd kv) s) (l2_loop_items fs ty mode N l f0) og
  = Some og1.
Proof.
  apply (L2_loop_replay N (fun gid lid s => place (gid, lid) s)).
  intros fi f fm0 st f' fm' st' E; unfold L2Face.gather_face in E.
  destruct (face_selected ty fi).
  - bind_inv E fm2 Eg; bind_inv E og2 E1; bind_inv E og3 E2.
    injection E as <- <- <-.
    exists fm2, og2; repeat split; auto.
  - injection E as <- <- <-; auto.
Qed.

End L2Replay.

Section L2Items.
Variables (fs : FaceSpace) (ty : FaceType) (mode : L2FaceValues).
Variable N : Z.
Hypothesis Hd : 0 <= l2_dof fs ty.

Local Abbreviation dof := (l2_dof fs ty).
Local Abbreviation K := (if L2Face.double_valued mode then 2 else 1).

Lemma l2_face_items_length fi f :
  zlen (l2_face_items fs ty mode N fi f) <= K * dof.
Proof.
  unfold l2_face_items, l2_second, zlen; rewrite length_app, !length_map.
  pose proof (zseq_length dof Hd) as Hz; unfold zlen in Hz.
  destruct (L2Face.double_valued mode); cbn [andb].
  - destruct (L2Face.interior_face ty fi); [rewrite length_map|cbn [length]];
      lia.
  - cbn [length]; lia.
Qed.

Lemma l2_loop_items_length l :
  forall f0,
  zlen (l2_loop_items fs ty mode N l f0)
  <= K * dof * zlen (filter (face_selected ty) l).
Proof.
  induction l as [|fi l IH]; intros f0; cbn [l2_loop_items filter].
  - unfold zlen; simpl; lia.
  - destruct (face_selected ty fi).
    + pose proof (l2_face_items_length fi f0) as Hf.
      specialize (IH (f0 + 1)).
      unfold zlen in *; rewrite length_app; cbn [length]; lia.
    + apply IH.
Qed.

Lemma l2_loop_items_slots n l :
  forall f0,
  0 <= f0 -> f0 + zlen (filter (face_selected ty) l) <= n -> N = n * dof ->
  Forall (fun v => 0 <= v < K * N) (map snd (l2_loop_items fs ty mode N l f0)).
Proof.
  induction l as [|fi l IH]; intros f0 Hf Hn EN; cbn [l2_loop_items filter] in *.
  - constructor.
  - destruct (face_selected ty fi).
    + assert (Hn' : f0 + 1 + zlen (filter (face_selected ty) l) <= n)
        by (unfold zlen in *; cbn [length] in Hn; lia).
      assert (Hlt : f0 < n) by (unfold zlen in *; lia).
      rewrite map_app; apply Forall_app; split; [|apply IH; auto; lia].
      unfold l2_face_items, l2_second; rewrite map_app, map_map; cbn [snd].
      apply Forall_app; split.
      * apply Forall_forall; intros v Hv.
        apply in_map_iff in Hv as (d & <- & Hdr); apply in_zseq in Hdr.
        destruct (L2Face.double_valued mode); nia.
      * destruct (L2Face.double_valued mode); cbn [andb]; [|constructor].
        destruct (L2Face.interior_face ty fi); [|constructor].
        rewrite map_map; cbn [snd].
        apply Forall_forall; intros v Hv.
        apply in_map_iff in Hv as (d & <- & Hdr); apply in_zseq in Hdr.
        nia.
    + apply IH; auto.
Qed.

End L2Items.

(** The scatter loop keeps the size of the two face maps. *)
Lemma L2_scatter_maps_length fs o ty mode dof l :
  forall f0 fm sc f1 fm1 sc1,
  foldM (L2Face.scatter_face fs o ty mode dof) l (f0, fm, sc)
  = Some (f1, fm1, sc1) ->
  zlen (fst fm1) = zlen (fst fm) /\ zlen (snd fm1) = zlen (snd fm).
Proof.
  induction l as [|fi l IH]; intros f0 fm sc f1 fm1 sc1 E.
  - injection E as <- <- <-; auto.
  - cbn [foldM] in E; bind_inv E st Est; destruct st as [[f' fm'] sc'].
    apply IH in E as [-> ->].
    unfold L2Face.scatter_face in Est; destruct sc as [s1 s2].
    bind_inv Est fm2 Efm.
    assert (Hm : zlen (fst fm2) = zlen (fst fm) /\ zlen (snd fm2) = zlen (snd fm)).
    { destruct (L2Face.dof_reorder o); [|discriminate].
      unfold L2Face.face_maps in Efm.
      bind_inv Efm m1 E1; bind_inv Efm m2 E2; injection Efm as <-.
      cbn [fst snd]; split; eapply GetFaceDofs_zlen; eauto. }
    destruct (face_selected_L2 ty fi).
    + bind_inv Est t1 Et1; bind_inv Est t2 Et2.
      injection Est as <- <- <-; exact Hm.
    + injection Est as <- <- <-; exact Hm.
Qed.

(** The face counter of the counting loop does not decrease. *)
Lemma L2_count_index fs ty mode dof l :
  forall f0 fm off f1 fm1 off1,
  foldM (L2Face.count_face fs ty mode dof) l (f0, fm, off)
  = Some (f1, fm1, off1) ->
  f0 <= f1.
Proof.
  induction l as [|fi l IH]; intros f0 fm off f1 fm1 off1 E;
    [injection E as <- <- <-; lia|].
  cbn [foldM] in E; bind_inv E s Es; destruct s as [[f' fm'] off'].
  apply IH in E.
  unfold L2Face.count_face in Es; destruct (face_selected ty fi).
  - bind_inv Es a Ea; bind_inv Es b Eb; bind_inv Es c Ec.
    injection Es as <- <- <-; lia.
  - injection Es as <- <- <-; lia.
Qed.

(** On valid faces of which one at least is of the requested type, a
    constructor call that returns has sorted the entries of the gather
    loops by global dof, whatever its arrays held when they were
    allocated. *)
Lemma L2_new_built mem fs o ty mode r :
  valid_faces_L2 fs ty -> GetNFbyType fs ty <> 0 ->
  L2Face.new mem fs o ty mode = Some r ->
  l2_built r (l2_loop_items fs ty mode (L2Face.nfdofs r) (faces fs) 0) /\
  L2Face.nf r = GetNFbyType fs ty /\ 0 < L2Face.nf r /\
  L2Face.ndofs r = GetNDofs (fes fs) /\ L2Face.m r = mode /\
  0 <= L2Face.dof r.
Proof.
  intros V Hnf0 E.
  pose proof V as (Hnd & Hdim & Hord & Efd & Hids).
  unfold L2Face.new in E; cbv zeta in E.
  change (if GetNFbyType fs ty >? 0 then GetFaceDof fs else 0)
    with (l2_dof fs ty) in E.
  set (nf := GetNFbyType fs ty) in *.
  set (nd := GetNDofs (fes fs)) in *.
  bind_inv E dm Edm; bind_inv E u1 Eu1; bind_inv E u2 Eu2.
  destruct (Z.eqb_spec nf 0) as [|_]; [contradiction|].
  bind_inv E u3 Eu3; bind_inv E u4 Eu4.
  bind_inv E st Est; destruct st as [[f0 fm0] sc].
  bind_inv E u5 Eu5; apply verify_Some, Z.eqb_eq in Eu5.
  bind_inv E off0 E0.
  bind_inv E st1 E1; destruct st1 as [[f1 fm1] off1].
  bind_inv E u6 Eu6; apply verify_Some, Z.eqb_eq in Eu6.
  bind_inv E off2 E2.
  bind_inv E st3 E3; destruct st3 as [[f3 fm3] og3].
  bind_inv E u7 Eu7; apply verify_Some, Z.eqb_eq in Eu7.
  bind_inv E off4 E4; bind_inv E off5 E5.
  injection E as <-.
  (* the offsets as allocated and zeroed *)
  destruct (fill_pass (nd + 1) (fun _ => 0)
              (uninit (L2Face.fresh_offsets mem) (nd + 1)))
    as (a0 & Ea0 & H0); [apply zlen_uninit_nonneg; lia|].
  rewrite forZ_0 in E0; cbv beta in Ea0; rewrite Ea0 in E0.
  injection E0 as ->.
  (* the face maps after the scatter loop *)
  apply L2_scatter_maps_length in Est as [Lm1 Lm2]; cbn [fst snd] in Lm1, Lm2.
  rewrite zlen_uninit in Lm1, Lm2.
  (* there is a face *)
  assert (Hpos : 0 < nf).
  { pose proof (L2_count_index _ _ _ _ _ _ _ _ _ _ _ E1); lia. }
  assert (Hdof : l2_dof fs ty = GetFaceDof fs).
  { unfold l2_dof; fold nf; destruct (Z.gtb_spec nf 0); lia. }
  pose proof (l2_dof_nonneg fs ty V Hdof) as Hd.
  set (dof := l2_dof fs ty) in *.
  set (N := nf * dof) in *.
  set (items := l2_loop_items fs ty mode N (faces fs) 0).
  set (keys := map fst items).
  (* the two gather loops over the faces *)
  apply (L2_count_replay fs ty mode V Hdof N) in E1
    as (Lc1 & Lc2 & Ef1 & Rc); [|exact Hids|lia|lia].
  apply (L2_gather_replay fs ty mode V Hdof N) in E3
    as (Lg1 & Lg2 & Ef3 & Rg); [|exact Hids|exact Lc1|exact Lc2].
  fold items in Rc, Rg.
  assert (Rc' : foldM bump keys off0 = Some off1)
    by (unfold keys; rewrite foldM_map; exact Rc).
  set (gi0 := uninit (L2Face.fresh_gather_indices mem)
                ((if L2Face.double_valued mode then 2 else 1) * nf * dof)) in *.
  assert (Rg' : foldM place items (off2, gi0) = Some og3).
  { rewrite <- Rg; apply foldM_ext_in; intros [g v] s _; reflexivity. }
  (* the keys are dofs of the space *)
  assert (Hr : Forall (fun g => 0 <= g < nd) keys).
  { destruct (bump_range _ _ _ Rc') as (L1 & B1).
    destruct (place_range _ _ _ Rg') as (_ & B3); cbn [fst] in *.
    fold keys in B3; destruct H0 as [L0 _].
    rewrite Forall_forall in *; intros g Hg.
    specialize (B1 g Hg); specialize (B3 g Hg); lia. }
  assert (Hil : zlen items <= zlen gi0).
  { pose proof (l2_loop_items_length fs ty mode N Hd (faces fs) 0) as Hl.
    unfold gi0; rewrite zlen_uninit; fold items in Hl.
    destruct (L2Face.double_valued mode); nia. }
  (* the passes of the counting sort *)
  destruct (bump_pass nd keys Hr off0 (fun _ => 0) H0) as (b1 & Eb1 & H1).
  rewrite Eb1 in Rc'; injection Rc' as ->.
  destruct (prefix_pass nd keys off1 Hnd) as (b2 & Eb2 & H2).
  { eapply Forall_impl; [|exact Hr]; cbv beta; intros; lia. }
  { eapply arr_is_ext; [exact H1|]; intros; cbv beta; lia. }
  unfold prefix_sum in Eb2 at 1; rewrite Eb2 in E2; injection E2 as ->.
  destruct (place_pass_room nd items off2 gi0 Hr H2 Hil)
    as (b3 & gi & Eb3 & H3 & Lgi & Hgi).
  rewrite Eb3 in Rg'; injection Rg' as <-; cbn [fst snd] in *.
  destruct (shift_pass nd b3 _ Hnd H3) as (b4 & Eb4 & H4).
  unfold shift_back in Eb4 at 1; rewrite Eb4 in E4; injection E4 as ->.
  destruct (arr_is_wr off4 _ _ 0 0 H4 ltac:(lia)) as (b5 & Eb5 & H5).
  rewrite Eb5 in E5; injection E5 as ->.
  unfold l2_built, l2_sides.
  cbn [L2Face.offsets L2Face.gather_indices L2Face.nf L2Face.ndofs
       L2Face.dof L2Face.nfdofs L2Face.m].
  fold N items keys.
  split; [|repeat split; auto].
  split; [reflexivity|]; split; [exact Hr|].
  split; [|split; [|split; [lia|exact Hgi]]].
  - apply (l2_loop_items_slots fs ty mode N Hd nf); auto; lia.
  - eapply arr_is_ext; [exact H5|]; intros g Hg; cbv beta.
    destruct (Z.eqb_spec g 0) as [->|Hg0].
    + symmetry; apply below_low.
      eapply Forall_impl; [|exact Hr]; cbv beta; intros; lia.
    + f_equal; lia.
Qed.

(** ** Gather on faces: [L2FaceRestriction::MultTranspose] *)

Section L2Transpose.
Context {V : Type} `{Scalar V}.
Variables (r : L2Face.t) (x : list V) (total : Z).
Hypothesis Bnd : l2_bounded r total.
Hypothesis Hx :
  zlen x = L2Face.dof r * L2Face.vdim r * l2_sides r * L2Face.nf r.

Local Abbreviation gi := (L2Face.gather_indices r).
Local Abbreviation nd := (L2Face.dof r).
Local Abbreviation vd := (L2Face.vdim r).

Lemma l2_offsets_entry g :
  0 <= g <= L2Face.ndofs r ->
  exists a, rd (L2Face.offsets r) g = Some a /\
            nth (Z.to_nat g) (L2Face.offsets r) 0 = a /\
            0 <= a <= total.
Proof.
  intros Hg; destruct Bnd as (_ & Hl & Ho & _).
  assert (Hr : 0 <= g < zlen (L2Face.offsets r)) by lia.
  exists (nth (Z.to_nat g) (L2Face.offsets r) 0).
  split; [now apply rd_nth|]; split; [reflexivity|].
  rewrite Forall_forall in Ho; apply Ho, nth_In; unfold zlen in Hr; lia.
Qed.

(** An entry of a bucket is a face slot. *)
Lemma l2_slice_entry a b v :
  0 <= a -> b <= total -> In v (slice gi a b) ->
  0 <= v < l2_sides r * (L2Face.nf r * nd).
Proof.
  intros Ha Hb Hin; destruct Bnd as (Ht & _ & _ & _ & _ & Hg).
  rewrite slice_map_nth in Hin by lia.
  apply in_map_iff in Hin as (j & <- & Hj); apply in_zrange in Hj.
  apply Hg; lia.
Qed.

(** The read of the local value of an entry of [gather_indices]. *)
Lemma l2_term_double v c :
  L2Face.double_valued (L2Face.m r) = true ->
  0 <= v < l2_sides r * (L2Face.nf r * nd) -> 0 <= c < vd ->
  (if v <? L2Face.nfdofs r
   then rd x (ix4 nd vd 2
                (Z.rem (if v <? L2Face.nfdofs r then v else v - L2Face.nfdofs r) nd)
                c 0
                (Z.quot (if v <? L2Face.nfdofs r then v else v - L2Face.nfdofs r) nd))
   else rd x (ix4 nd vd 2
                (Z.rem (if v <? L2Face.nfdofs r then v else v - L2Face.nfdofs r) nd)
                c 1
                (Z.quot (if v <? L2Face.nfdofs r then v else v - L2Face.nfdofs r) nd)))
  = Some (l2_term r x c v).
Proof.
  intros Hm Hin Hc; destruct Bnd as (_ & _ & _ & Hnf & Enfd & _).
  unfold l2_sides in Hin, Hx; rewrite Hm in Hin, Hx.
  unfold l2_term; rewrite Hm; cbv zeta; rewrite Enfd.
  destruct (Z.ltb_spec v (L2Face.nf r * nd)) as [Hlt|Hge].
  - destruct (slot_quot_rem nd (L2Face.nf r) v Hnf ltac:(lia))
      as (? & ? & ? & _).
    apply rd_nth; rewrite Hx.
    pose proof (ix4_range nd vd 2 (L2Face.nf r) (Z.rem v nd) c 0 (Z.quot v nd)
                  ltac:(lia) Hc ltac:(lia) ltac:(lia)); lia.
  - destruct (slot_quot_rem nd (L2Face.nf r) (v - L2Face.nf r * nd) Hnf
                ltac:(lia)) as (? & ? & ? & _).
    apply rd_nth; rewrite Hx.
    pose proof (ix4_range nd vd 2 (L2Face.nf r)
                  (Z.rem (v - L2Face.nf r * nd) nd) c 1
                  (Z.quot (v - L2Face.nf r * nd) nd)
                  ltac:(lia) Hc ltac:(lia) ltac:(lia)); lia.
Qed.

Lemma l2_term_single v c :
  L2Face.double_valued (L2Face.m r) = false ->
  0 <= v < l2_sides r * (L2Face.nf r * nd) -> 0 <= c < vd ->
  rd x (ix3 nd vd (Z.rem v nd) c (Z.quot v nd)) = Some (l2_term r x c v).
Proof.
  intros Hm Hin Hc; destruct Bnd as (_ & _ & _ & Hnf & Enfd & _).
  unfold l2_sides in Hin, Hx; rewrite Hm in Hin, Hx.
  unfold l2_term; rewrite Hm.
  destruct (slot_quot_rem nd (L2Face.nf r) v Hnf ltac:(lia))
    as (? & ? & ? & _).
  apply rd_nth; rewrite Hx.
  pose proof (ix3_range nd vd (L2Face.nf r) (Z.rem v nd) c (Z.quot v nd)
                ltac:(lia) Hc ltac:(lia)); lia.
Qed.

Lemma L2_MultTranspose_as_stores (y0 : list V) :
  L2FaceGather.MultTranspose r x y0
  = foldM store_add (L2_MultTranspose_stores r x) y0.
Proof.
  pose proof (proj1 Bnd) as Ht.
  pose (T := fun i c : Z =>
    (gix (L2Face.byvdim r) vd (L2Face.ndofs r) i c, l2_bucket_sum r x i c)).
  transitivity
    (foldM (fun i y => foldM (fun c y => store_add (T i c) y) (zseq vd) y)
           (zseq (L2Face.ndofs r)) y0).
  - unfold L2FaceGather.MultTranspose.
    destruct (L2Face.double_valued (L2Face.m r)) eqn:Hm.
    + rewrite forZ_0.
      apply foldM_ext_in; intros i y Hi; apply in_zseq in Hi.
      destruct (l2_offsets_entry i ltac:(lia)) as (a & -> & Ea & Ha).
      destruct (l2_offsets_entry (i + 1) ltac:(lia)) as (b & -> & Eb & Hb).
      cbn [obind].
      rewrite forZ_0; apply foldM_ext_in; intros c y' Hc; apply in_zseq in Hc.
      assert (Eg : forZ a b (fun j dofValue =>
                     idx_j <- rd gi j ;;
                     xv <- (if idx_j <? L2Face.nfdofs r
                            then rd x (ix4 nd vd 2
                              (Z.rem (if idx_j <? L2Face.nfdofs r then idx_j
                                      else idx_j - L2Face.nfdofs r) nd) c 0
                              (Z.quot (if idx_j <? L2Face.nfdofs r then idx_j
                                       else idx_j - L2Face.nfdofs r) nd))
                            else rd x (ix4 nd vd 2
                              (Z.rem (if idx_j <? L2Face.nfdofs r then idx_j
                                      else idx_j - L2Face.nfdofs r) nd) c 1
                              (Z.quot (if idx_j <? L2Face.nfdofs r then idx_j
                                       else idx_j - L2Face.nfdofs r) nd))) ;;
                     Some (sadd dofValue xv)) szero
                   = Some (sum_terms (map (l2_term r x c) (slice gi a b)))).
      { unfold forZ.
        rewrite (foldM_rd_range gi
                   (fun v dofValue =>
                      xv <- (if v <? L2Face.nfdofs r
                             then rd x (ix4 nd vd 2
                               (Z.rem (if v <? L2Face.nfdofs r then v
                                       else v - L2Face.nfdofs r) nd) c 0
                               (Z.quot (if v <? L2Face.nfdofs r then v
                                        else v - L2Face.nfdofs r) nd))
                             else rd x (ix4 nd vd 2
                               (Z.rem (if v <? L2Face.nfdofs r then v
                                       else v - L2Face.nfdofs r) nd) c 1
                               (Z.quot (if v <? L2Face.nfdofs r then v
                                        else v - L2Face.nfdofs r) nd))) ;;
                      Some (sadd dofValue xv))) by lia.
        fold (slice gi a b).
        rewrite (foldM_ext_in _
                   (fun v acc => Some (sadd acc (l2_term r x c v)))).
        - rewrite foldM_pure; unfold sum_terms; now rewrite fold_left_map.
        - intros v acc Hin; apply (l2_slice_entry a b) in Hin; try lia.
          rewrite (l2_term_double v c Hm Hin Hc); reflexivity. }
      rewrite Eg; cbn [obind].
      unfold T, store_add, l2_bucket_sum; cbn [fst snd]; now rewrite Ea, Eb.
    + rewrite forZ_0.
      apply foldM_ext_in; intros i y Hi; apply in_zseq in Hi.
      destruct (l2_offsets_entry i ltac:(lia)) as (a & -> & Ea & Ha).
      destruct (l2_offsets_entry (i + 1) ltac:(lia)) as (b & -> & Eb & Hb).
      cbn [obind].
      rewrite forZ_0; apply foldM_ext_in; intros c y' Hc; apply in_zseq in Hc.
      assert (Eg : forZ a b (fun j dofValue =>
                     idx_j <- rd gi j ;;
                     xv <- rd x (ix3 nd vd (Z.rem idx_j nd) c (Z.quot idx_j nd)) ;;
                     Some (sadd dofValue xv)) szero
                   = Some (sum_terms (map (l2_term r x c) (slice gi a b)))).
      { unfold forZ.
        rewrite (foldM_rd_range gi
                   (fun v dofValue =>
                      xv <- rd x (ix3 nd vd (Z.rem v nd) c (Z.quot v nd)) ;;
                      Some (sadd dofValue xv))) by lia.
        fold (slice gi a b).
        rewrite (foldM_ext_in _
                   (fun v acc => Some (sadd acc (l2_term r x c v)))).
        - rewrite foldM_pure; unfold sum_terms; now rewrite fold_left_map.
        - intros v acc Hin; apply (l2_slice_entry a b) in Hin; try lia.
          rewrite (l2_term_single v c Hm Hin Hc); reflexivity. }
      rewrite Eg; cbn [obind].
      unfold T, store_add, l2_bucket_sum; cbn [fst snd]; now rewrite Ea, Eb.
  - rewrite (foldM_pairs (fun i c => store_add (T i c))).
    unfold L2_MultTranspose_stores; rewrite foldM_map; reflexivity.
Qed.

(** [MultTranspose] returns; each output entry holds its previous content
    plus its bucket sum. *)
Lemma L2_MultTranspose_values (y0 : list V) :
  zlen y0 = L2Face.vdim r * L2Face.ndofs r ->
  exists y,
    L2FaceGather.MultTranspose r x y0 = Some y /\ zlen y = zlen y0 /\
    forall g c, 0 <= g < L2Face.ndofs r -> 0 <= c < L2Face.vdim r ->
      exists old,
        rd y0 (gix (L2Face.byvdim r) (L2Face.vdim r) (L2Face.ndofs r) g c)
        = Some old /\
        rd y (gix (L2Face.byvdim r) (L2Face.vdim r) (L2Face.ndofs r) g c)
        = Some (sadd old (l2_bucket_sum r x g c)).
Proof.
  intros Hy.
  destruct (stores_add_result (L2_MultTranspose_stores r x)) with (y0 := y0)
    as (y & Ey & Hl & Hin & _).
  { unfold L2_MultTranspose_stores; rewrite map_map; cbn [fst].
    apply Finite.Injective_map_NoDup_in;
      [|apply NoDup_pairs; apply NoDup_zrange].
    intros [i c] [i' c'] Hi Hi' E; cbn [fst snd] in E.
    apply in_pairs in Hi as [Hi Hc], Hi' as [Hi' Hc'].
    rewrite in_zseq in Hi, Hc, Hi', Hc'.
    apply gix_inj in E as [-> ->]; auto. }
  { intros s Hs; unfold L2_MultTranspose_stores in Hs.
    apply in_map_iff in Hs as ([i c] & <- & Hic).
    apply in_pairs in Hic as [Hi Hc]; rewrite in_zseq in Hi, Hc.
    cbn [fst snd]; rewrite Hy; apply gix_range; lia. }
  exists y; rewrite L2_MultTranspose_as_stores; repeat split; auto.
  intros g c Hg Hc.
  apply (Hin (gix (L2Face.byvdim r) (L2Face.vdim r) (L2Face.ndofs r) g c,
              l2_bucket_sum r x g c)).
  unfold L2_MultTranspose_stores; apply in_map_iff; exists (g, c); split; auto.
  apply in_pairs; rewrite !in_zseq; lia.
Qed.

End L2Transpose.

(** The sorted gather arrays are within the bounds the kernel needs. *)
Lemma l2_built_bounded r items :
  l2_built r items -> 0 <= L2Face.nf r -> 0 <= L2Face.ndofs r ->
  l2_bounded r (zlen items).
Proof.
  intros (Enfd & Hr & Hs & Ho & Hil & Hp) Hnf Hnd.
  set (keys := map fst items) in *.
  assert (Hkl : zlen keys = zlen items)
    by (unfold keys, zlen; now rewrite length_map).
  unfold l2_bounded.
  split; [exact Hil|].
  split; [destruct Ho as [-> _]; lia|].
  split; [|split; [exact Hnf|split; [exact Enfd|]]].
  - apply Forall_rd; intros k v Hk R.
    destruct Ho as [Lo Ho]; rewrite Ho in R by lia.
    injection R as <-.
    pose proof (below_nonneg k keys).
    pose proof (below_le_zlen k keys); lia.
  - intros j Hj.
    destruct (pos_onto (L2Face.ndofs r) keys j Hr ltac:(lia)) as (k & Hk & Ek).
    assert (Hk' : (k < length items)%nat)
      by (unfold keys in Hk; now rewrite length_map in Hk).
    specialize (Hp k Hk'); rewrite Ek in Hp.
    rewrite (rd_nth _ j 0) in Hp by lia; injection Hp as ->.
    rewrite <- Enfd.
    rewrite Forall_forall in Hs; apply Hs, nth_In.
    now rewrite length_map.
Qed.

(** X23: on valid faces of which at least one is of the requested type, for
    every restriction the constructor of [L2FaceRestriction] returns,
    single- or double-valued and whatever its arrays held when they were
    allocated, [MultTranspose] returns and ADDS to the global entry of every
    dof [g] and component [c] the sum, over the entries [v] of the bucket
    [offsets[g] <= j < offsets[g+1]] of [gather_indices], of the local value
    that [v] stands for: slot [v] of side 1 when [v < nfdofs], slot
    [v - nfdofs] of side 2 otherwise.  Every entry of a bucket is such a
    slot. *)
Theorem L2_MultTranspose_accumulates {V : Type} `{Scalar V}
  mem fs o ty mode r (x y0 : list V) :
  valid_faces_L2 fs ty -> GetNFbyType fs ty <> 0 ->
  L2Face.new mem fs o ty mode = Some r ->
  zlen x = L2Face.dof r * L2Face.vdim r * l2_sides r * L2Face.nf r ->
  zlen y0 = L2Face.vdim r * L2Face.ndofs r ->
  exists y,
    L2FaceGather.MultTranspose r x y0 = Some y /\ zlen y = zlen y0 /\
    forall g c, 0 <= g < L2Face.ndofs r -> 0 <= c < L2Face.vdim r ->
      exists a b old,
        rd (L2Face.offsets r) g = Some a /\
        rd (L2Face.offsets r) (g + 1) = Some b /\
        0 <= a <= b /\ b <= zlen (L2Face.gather_indices r) /\
        Forall (fun v => 0 <= v < l2_sides r * L2Face.nfdofs r)
               (slice (L2Face.gather_indices r) a b) /\
        rd y0 (gix (L2Face.byvdim r) (L2Face.vdim r) (L2Face.ndofs r) g c)
        = Some old /\
        rd y (gix (L2Face.byvdim r) (L2Face.vdim r) (L2Face.ndofs r) g c)
        = Some (sadd old
                  (sum_terms (map (l2_term r x c)
                                  (slice (L2Face.gather_indices r) a b)))).
Proof.
  intros Vf Hnf0 E Hx Hy.
  destruct (L2_new_built mem fs o ty mode r Vf Hnf0 E)
    as (Bt & _ & Hnf & End & _).
  assert (Hnd : 0 <= L2Face.ndofs r) by (rewrite End; apply Vf).
  set (items := l2_loop_items fs ty mode (L2Face.nfdofs r) (faces fs) 0) in *.
  pose proof (l2_built_bounded r items Bt ltac:(lia) Hnd) as B.
  destruct (L2_MultTranspose_values r x (zlen items) B Hx y0 Hy)
    as (y & Ey & Hl & Hval).
  exists y; split; [exact Ey|]; split; [exact Hl|].
  intros g c Hg Hc.
  destruct (l2_offsets_entry r (zlen items) B g ltac:(lia))
    as (a & Ra & Ea & Ha).
  destruct (l2_offsets_entry r (zlen items) B (g + 1) ltac:(lia))
    as (b & Rb & Eb & Hb).
  destruct (Hval g c Hg Hc) as (old & Ro & Ry).
  assert (Hab : a <= b).
  { destruct Bt as (_ & _ & _ & Ho & _).
    rewrite (arr_is_rd _ _ _ g Ho) in Ra by lia.
    rewrite (arr_is_rd _ _ _ (g + 1) Ho) in Rb by lia.
    injection Ra as <-; injection Rb as <-; apply below_mono; lia. }
  pose proof (proj1 B) as Ht.
  exists a, b, old; repeat split; auto; try lia.
  - apply Forall_forall; intros v Hv.
    apply (l2_slice_entry r (zlen items) B a b) in Hv; try lia.
    destruct B as (_ & _ & _ & _ & -> & _); exact Hv.
  - rewrite Ry; unfold l2_bucket_sum; now rewrite Ea, Eb.
Qed.

Lemma l2quad_faces_valid_L2 : valid_faces_L2 l2quad_faces Boundary.
Proof.
  unfold valid_faces_L2; cbn [l2quad_faces l2quad_space fes GetNDofs
                              SpaceDimension GetOrder GetFaceDof faces].
  repeat split; try lia.
  apply (Forall_forallb
           (fun fi => (0 <=? Z.quot (inf1 fi) 64) && (Z.quot (inf1 fi) 64 <? 4)
                      && (0 <=? Z.quot (inf2 fi) 64)
                      && (Z.quot (inf2 fi) 64 <? 4))).
  - intros fi Hfi _.
    apply andb_prop in Hfi as [Hfi H4]; apply andb_prop in Hfi as [Hfi H3].
    apply andb_prop in Hfi as [H1 H2]; lia.
  - vm_compute; reflexivity.
Defined.

Lemma L2_MultTranspose_accumulates_witness :
  exists y : list Z,
    L2FaceGather.MultTranspose (l2quad_boundary l2_stale) (repeat 1 16)
      [100; 100; 100; 100] = Some y /\
    zlen y = 4.
Proof.
  destruct (L2_MultTranspose_accumulates
              l2_stale l2quad_faces LEXICOGRAPHIC Boundary DoubleValued
              (l2quad_boundary l2_stale) (repeat 1 16) [100; 100; 100; 100]
              l2quad_faces_valid_L2 ltac:(discriminate)
              (l2quad_boundary_built l2_stale))
    as (y & Ey & Hl & _); try reflexivity.
  exists y; split; [exact Ey|exact Hl].
Defined.
